(** * SLIP-0039 (slip39-ts): a shallow embedding and its verification

    The development follows the TypeScript sources:
    - [utils.ts]          -> Module [Utils]
    - [constants.ts]      -> Module [Constants] (not among the sources, see there)
    - [slip39_helper.ts]  -> Module [Helper]
    - [slip39.ts]         -> Module [Slip39]

    JavaScript numbers are modelled as [Z] (the code only handles integers
    far below 2^53; the identifier, a BigInt that can be larger, becomes a
    number through [JS.number]), BigInts as unbounded [Z], strings as
    [string] (one [ascii] per code unit), arrays as [list], a [Map] keyed by
    numbers as an insertion-ordered association list, a thrown [Error] as
    [Err], and a [Promise] as its settled value. *)

From Stdlib Require Import String Ascii.
From Stdlib Require Import ZArith List Bool Lia Arith.
From Stdlib Require Import Permutation Eqdep_dec Field.
From coqutil Require Import Z.bitblast.
Import ListNotations.
Local Open Scope Z_scope.

(* ================================================================= *)
(** * Errors and the result monad *)

(** One constructor per [throw] site of the sources, and for what the
    platform throws under them: a negative length of a [Uint8Array]
    ([RandomLengthRange]) and an HMAC key of no bytes ([EmptyDigestKey]). *)
Inductive error : Type :=
| InvalidIterationExponent (e : Z)
| ThresholdNotPositive (t : Z)
| ThresholdExceedsShares (t n : Z)
| TooManyShares (n : Z)
| RandomLengthRange (n : Z)
| XorLengthMismatch (a b : Z)
| SharesLengthMismatch
| InterpolateExistingKey
| InvalidMnemonicWord (w : string)
| InvalidDigest
| EmptyMnemonics
| InsufficientGroups (have need : Z)
| WrongGroupNumber (need have : Z)
| WrongMemberNumber (need have : Z)
| MemberThresholdMismatch
| PrefixMismatch
| GroupThresholdMismatch
| GroupCountMismatch
| InvalidMnemonicLength
| InvalidMnemonicResidual
| InvalidChecksum
| GroupThresholdExceedsCount (gt gc : Z)
| InvalidPadding
| SecretTooShort (n : Z)
| SecretOddLength
| InvalidPassphrase
| GroupThresholdExceedsGroups (gt n : Z)
| MultipleMembersThresholdOne
| MissingIdentifier
| MissingGroupCount
| MissingGroupThreshold
| UndefinedShare
| DepthExhausted
| EmptyDigestKey.

Inductive result (A : Type) : Type :=
| Ok (a : A)
| Err (e : error).
Arguments Ok {A} a.
Arguments Err {A} e.

Definition bind {A B} (c : result A) (k : A -> result B) : result B :=
  match c with
  | Ok a => k a
  | Err e => Err e
  end.

Notation "x <- c ;; k" := (bind c (fun x => k))
  (at level 61, c at next level, right associativity).
Notation "' p <- c ;; k" := (bind c (fun x => let p := x in k))
  (at level 61, p pattern, c at next level, right associativity).

Definition is_ok {A} (r : result A) : bool :=
  match r with Ok _ => true | Err _ => false end.

(** The fixed message texts of the errors that the specification quotes. *)
Definition message (e : error) : string :=
  match e with
  | EmptyMnemonics => "The list of mnemonics is empty."
  | InvalidDigest => "Invalid digest of the shared secret."
  | InvalidChecksum => "Invalid mnemonic checksum"
  | InvalidMnemonicResidual => "Invalid mnemonic length."
  | SharesLengthMismatch | InterpolateExistingKey =>
      "Invalid set of shares. All share values must have the same length."
  | MemberThresholdMismatch =>
      "Invalid set of mnemonics. All mnemonics in a group must have the same member threshold."
  | GroupThresholdMismatch =>
      "Invalid set of mnemonics. All mnemonics must have the same group threshold."
  | GroupCountMismatch =>
      "Invalid set of mnemonics. All mnemonics must have the same group count."
  | SecretOddLength =>
      "The length of the master secret in bytes must be an even number."
  | InvalidPassphrase =>
      "The passphrase must contain only printable ASCII characters (code points 32-126)."
  | MissingIdentifier => "Missing required parameter identifier"
  | MissingGroupCount => "Missing required parameter groupCount"
  | MissingGroupThreshold => "Missing required parameter groupThreshold"
  | _ => ""
  end.

(* ================================================================= *)
(** * JavaScript integer operators *)

Module JS.

(** [ToInt32]: the operand conversion of the bitwise operators. *)
Definition toInt32 (z : Z) : Z :=
  let m := z mod 2 ^ 32 in
  if m <? 2 ^ 31 then m else m - 2 ^ 32.

(** [a << b], [a >> b], [a & b], [a ^ b] on numbers. *)
Definition shl (a b : Z) : Z := toInt32 (Z.shiftl (toInt32 a) (b mod 32)).
Definition sar (a b : Z) : Z := Z.shiftr (toInt32 a) (b mod 32).
Definition band (a b : Z) : Z := Z.land (toInt32 a) (toInt32 b).
Definition bxor (a b : Z) : Z := Z.lxor (toInt32 a) (toInt32 b).

(** [Number(n)] for a BigInt [n]: the nearest double, the even one of two
    that are as near.  The integers below [2 ^ 53] in absolute value are
    doubles; from [2 ^ k] on, for [k] from 53, the doubles are the multiples
    of [2 ^ (k - 52)].  (From [2 ^ 1024] on the source has [Infinity], which
    [ToInt32] reads as 0, as it reads the multiple of [2 ^ 32] that stands
    here.) *)
Definition number (n : Z) : Z :=
  let a := Z.abs n in
  if a <? 2 ^ 53 then n
  else
    let e := Z.log2 a - 52 in
    let q := a / 2 ^ e in
    let r := a mod 2 ^ e in
    let half := 2 ^ (e - 1) in
    let q' := if (half <? r) || ((r =? half) && Z.odd q) then q + 1 else q in
    Z.sgn n * (q' * 2 ^ e).

(** [a % b], the remainder that takes the sign of the dividend. *)
Definition rem (a b : Z) : Z := Z.rem a b.

(** Truthiness of a number. *)
Definition truthy (a : Z) : bool := negb (a =? 0).

(** [arr[i]]: [None] stands for [undefined]. *)
Definition index {A} (arr : list A) (i : Z) : option A :=
  if i <? 0 then None else nth_error arr (Z.to_nat i).

(** [arr.slice(a, b)] for [0 <= a]. *)
Definition slice {A} (arr : list A) (a b : Z) : list A :=
  firstn (Z.to_nat b - Z.to_nat a) (skipn (Z.to_nat a) arr).

(** [s.toLowerCase()] on code units below 256: A-Z and the Latin-1 capitals. *)
Definition lower_unit (c : ascii) : ascii :=
  let n := nat_of_ascii c in
  if ((65 <=? n) && (n <=? 90))%nat then ascii_of_nat (n + 32)
  else if ((192 <=? n) && (n <=? 222) && negb (n =? 215))%nat
       then ascii_of_nat (n + 32)
  else c.

Fixpoint toLowerCase (s : string) : string :=
  match s with
  | EmptyString => EmptyString
  | String c r => String (lower_unit c) (toLowerCase r)
  end.

(** [s.split(sep)] for a separator of one character. *)
Fixpoint split_aux (sep : ascii) (s : string) (cur : string) : list string :=
  match s with
  | EmptyString => [cur]
  | String c r =>
      if Ascii.eqb c sep then cur :: split_aux sep r EmptyString
      else split_aux sep r (cur ++ String c EmptyString)
  end.
Definition split (sep : ascii) (s : string) : list string :=
  split_aux sep s EmptyString.

(** [arr.join(sep)]. *)
Fixpoint join (sep : string) (l : list string) : string :=
  match l with
  | [] => EmptyString
  | [w] => w
  | w :: r => (w ++ sep ++ join sep r)%string
  end.

End JS.

(* ================================================================= *)
(** * [Map<number, V>] and [Set<number>] in insertion order *)

Module JSMap.

Definition t (V : Type) : Type := list (Z * V).

Definition empty {V} : t V := [].

Fixpoint get {V} (m : t V) (k : Z) : option V :=
  match m with
  | [] => None
  | (k', v) :: r => if k' =? k then Some v else get r k
  end.

Definition has {V} (m : t V) (k : Z) : bool :=
  match get m k with Some _ => true | None => false end.

(** [m.set(k, v)]: an existing key keeps its place. *)
Fixpoint set {V} (m : t V) (k : Z) (v : V) : t V :=
  match m with
  | [] => [(k, v)]
  | (k', v') :: r => if k' =? k then (k, v) :: r else (k', v') :: set r k v
  end.

Definition size {V} (m : t V) : Z := Z.of_nat (length m).
Definition keys {V} (m : t V) : list Z := map fst m.
Definition values {V} (m : t V) : list V := map snd m.

End JSMap.

Module JSSet.

Definition t : Type := list Z.

Definition add (s : t) (k : Z) : t :=
  if existsb (Z.eqb k) s then s else s ++ [k].

Definition size (s : t) : Z := Z.of_nat (length s).

Definition of_list (l : list Z) : t := fold_left add l [].

End JSSet.

(* ================================================================= *)
(** * constants.ts *)

Module Constants.

(** Modelled from the spec: [constants.ts] is not among the sources; the
    scalar constants are those of the spec's section 6.

    [ITERATION_EXP_WORDS_LENGTH] is the number of 10-bit words that hold
    the 15 + 1 + 4 bits of identifier, extendable flag and iteration
    exponent, hence 2.  This is the value under which
    [METADATA_WORDS_LENGTH = ITERATION_EXP_WORDS_LENGTH + 2 + CHECKSUM_WORDS_LENGTH = 7]
    and [MNEMONICS_WORDS_LENGTH = 20] hold, and the one the repository's
    tests need: they expect every 20-word mnemonic generated from a 16-byte
    secret to validate, and the two-byte identifier salt of generation to be
    rebuilt by [intToIndices(identifier, ITERATION_EXP_WORDS_LENGTH, 8)]. *)
Definition RADIX_BITS : Z := 10.
Definition ID_BITS_LENGTH : Z := 15.
Definition ITERATION_EXP_BITS_LENGTH : Z := 4.
Definition EXTENDABLE_BACKUP_FLAG_BITS_LENGTH : Z := 1.
Definition ITERATION_EXP_WORDS_LENGTH : Z :=
  (ID_BITS_LENGTH + EXTENDABLE_BACKUP_FLAG_BITS_LENGTH
   + ITERATION_EXP_BITS_LENGTH + RADIX_BITS - 1) / RADIX_BITS.
Definition CHECKSUM_WORDS_LENGTH : Z := 3.
Definition METADATA_WORDS_LENGTH : Z := 7.
Definition MIN_ENTROPY_BITS : Z := 128.
Definition MAX_SHARE_COUNT : Z := 16.
Definition MAX_ITERATION_EXP : Z := 16.
Definition ITERATION_COUNT : Z := 10000.
Definition ROUND_COUNT : Z := 4.
Definition DIGEST_LENGTH : Z := 4.
Definition DIGEST_INDEX : Z := 254.
Definition SECRET_INDEX : Z := 255.
Definition MNEMONICS_WORDS_LENGTH : Z := 20.

(** Modelled from the spec: the customization strings of section 4.3 (they
    are also the return type of [get_customization_string]). *)
Definition CUSTOMIZATION_STRING_NON_EXTENDABLE : string := "shamir".
Definition CUSTOMIZATION_STRING_EXTENDABLE : string := "shamir_extendable".

(** Multiplication by the generator 3 = x + 1 modulo x^8 + x^4 + x^3 + x + 1. *)
Definition times3 (p : Z) : Z :=
  let q := Z.lxor (Z.shiftl p 1) p in
  if Z.testbit q 8 then Z.lxor q 283 else q.

Fixpoint powers3 (n : nat) (p : Z) : list Z :=
  match n with
  | O => []
  | S n' => p :: powers3 n' (times3 p)
  end.

(** Modelled from the spec: [EXP_TABLE[i]] is the [i]-th power of the
    generator, for [i] in 0..254 (section 4.1). *)
Definition EXP_TABLE : list Z := Eval vm_compute in powers3 255 1.

Fixpoint find_index (x : Z) (l : list Z) (i : Z) : Z :=
  match l with
  | [] => 0
  | y :: r => if y =? x then i else find_index x r (i + 1)
  end.

(** Modelled from the spec: [LOG_TABLE[x]] is the discrete logarithm of [x]
    for [x] in 1..255 (section 4.1).  The table is read at 0 as well (by
    [interpolate], at [k ^ k]); the entry there is 0, a number, as every
    interpolation of the repository's tests needs. *)
Definition LOG_TABLE : list Z :=
  Eval vm_compute in
    map (fun x => find_index x EXP_TABLE 0)
        (map Z.of_nat (seq 0 256)).

End Constants.

(* ================================================================= *)
(** * utils.ts *)

Module Utils.
Import Constants.

(** [0, 1, ..., n-1] (empty for [n <= 0]): the indices a counting loop
    [for (let i = 0; i < n; i++)] visits. *)
Definition range (n : Z) : list Z := map Z.of_nat (seq 0 (Z.to_nat n)).

(** [generateArray(arr, n, v)]; [n || arr.length] is the number of pushes. *)
Definition generateArray {T} (arr : list T) (n : Z) (v : Z -> T) : list T :=
  let m := if JS.truthy n then n else Z.of_nat (length arr) in
  arr ++ map v (range m).

(** [generateArray(arr, n)] with [v] undefined pushes the index itself. *)
Definition generateArrayIdx (arr : list Z) (n : Z) : list Z :=
  generateArray arr n (fun i => i).

Fixpoint code_units (s : string) : list Z :=
  match s with
  | EmptyString => []
  | String c r => Z.of_nat (nat_of_ascii c) :: code_units r
  end.

(** [encodeHexString(s)]: the char codes of [s]. *)
Definition encodeHexString (s : string) : list Z := code_units s.

Definition bitsToBytes (n : Z) : Z := (n + 7) / 8.

Definition bitsToWords (n : Z) : Z := (n + RADIX_BITS - 1) / RADIX_BITS.

(** [listsAreEqual(a, b)] on arrays of numbers. *)
Definition listsAreEqual (a b : list Z) : bool :=
  if negb (length a =? length b)%nat then false
  else forallb (fun p => Z.eqb (snd p) (fst p)) (combine a b).

(** [decodeBigInt(bytes)]: the loop reads [bytes] from its end. *)
Fixpoint decodeBigInt_loop (rbytes : list Z) (i : Z) (result : Z) : Z :=
  match rbytes with
  | [] => result
  | b :: r => decodeBigInt_loop r (i + 1) (result + Z.shiftl b (8 * i))
  end.
Definition decodeBigInt (bytes : list Z) : Z :=
  decodeBigInt_loop (rev bytes) 0 0.

(** The [while (number > 0)] loop of [encodeBigInt]; [fuel] bounds the
    number of turns (one per byte of [number]). *)
Fixpoint encodeBigInt_loop (fuel : nat) (number : Z) (result : list Z)
  : list Z :=
  match fuel with
  | O => result
  | S fuel' =>
      if number >? 0
      then encodeBigInt_loop fuel' (Z.shiftr number 8)
                             (Z.land number 255 :: result)
      else result
  end.

(** The second loop: zeros in front up to [paddedLength]. *)
Definition zero_pad (result : list Z) (paddedLength : Z) : list Z :=
  repeat 0 (Z.to_nat paddedLength - length result) ++ result.

Definition encodeBigInt (number : Z) (paddedLength : Z) : result (list Z) :=
  let result := encodeBigInt_loop (S (Z.to_nat (Z.log2 number))) number [] in
  let result := zero_pad result paddedLength in
  if negb (paddedLength =? 0) && (Z.of_nat (length result) >? paddedLength)
  then Err InvalidPadding
  else Ok result.

End Utils.

(* ================================================================= *)
(** * The environment: word list, cryptographic primitives, randomness *)

Definition byte (z : Z) : Prop := 0 <= z < 256.
Definition bytes (l : list Z) : Prop := Forall byte l.

Definition lowercase_letter (c : ascii) : bool :=
  let n := nat_of_ascii c in ((97 <=? n) && (n <=? 122))%nat.

Fixpoint all_lowercase (s : string) : bool :=
  match s with
  | EmptyString => true
  | String c r => lowercase_letter c && all_lowercase r
  end.

(** A dictionary word: one or more letters a-z. *)
Definition is_word (s : string) : bool :=
  negb (String.eqb s EmptyString) && all_lowercase s.

Fixpoint distinct (l : list string) : bool :=
  match l with
  | [] => true
  | w :: r => negb (existsb (String.eqb w) r) && distinct r
  end.

(** Modelled from the spec: [WORD_LIST] of [constants.ts], the SLIP-0039
    word list, which the spec gives by cardinality and indexing rules only:
    1024 distinct lowercase words. *)
Class WordList : Type := {
  WORD_LIST : list string;
  WORD_LIST_length : length WORD_LIST = 1024%nat;
  WORD_LIST_words : forallb is_word WORD_LIST = true;
  WORD_LIST_distinct : distinct WORD_LIST = true
}.

(** The platform primitives behind [subtle.deriveBits] (PBKDF2 with
    HMAC-SHA-256: password, salt, iterations, number of bits) and
    [subtle.sign] (HMAC-SHA-256: key, message), by their input/output
    contract: byte strings of the requested length.  The refusal of an
    empty HMAC key by [subtle.importKey] is in [createDigest], the one
    caller. *)
Class Primitives : Type := {
  pbkdf2_sha256 : list Z -> list Z -> Z -> Z -> list Z;
  hmac_sha256 : list Z -> list Z -> list Z;
  pbkdf2_length : forall pw salt it bits,
      length (pbkdf2_sha256 pw salt it bits) = Z.to_nat (bits / 8);
  pbkdf2_bytes : forall pw salt it bits, bytes (pbkdf2_sha256 pw salt it bits);
  hmac_length : forall key msg, length (hmac_sha256 key msg) = 32%nat;
  hmac_bytes : forall key msg, bytes (hmac_sha256 key msg)
}.

(** The values [getRandomValues] will deliver, in the order of the draws. *)
Definition entropy : Type := nat -> Z.

(** Computations that draw random bytes and may throw. *)
Definition rand (A : Type) : Type := entropy -> result (A * entropy).

Definition rret {A} (a : A) : rand A := fun s => Ok (a, s).

Definition rbind {A B} (c : rand A) (k : A -> rand B) : rand B :=
  fun s => match c s with
           | Ok (a, s') => k a s'
           | Err e => Err e
           end.

Definition rlift {A} (r : result A) : rand A :=
  fun s => match r with Ok a => Ok (a, s) | Err e => Err e end.

Definition rthrow {A} (e : error) : rand A := fun _ => Err e.

Notation "x <~ c ;; k" := (rbind c (fun x => k))
  (at level 61, c at next level, right associativity).

Module Random.

(** [randomBytes(length)]: a [Uint8Array] of [length] random bytes (a
    negative length is a RangeError). *)
Definition randomBytes (length : Z) : rand (list Z) :=
  fun s =>
    if length <? 0 then Err (RandomLengthRange length)
    else
      let n := Z.to_nat length in
      Ok (map (fun i => s i mod 256) (seq 0 n), fun i => s (n + i)%nat).

(** [generateArray([], n, () => c)] for a callback [c] that draws. *)
Fixpoint replicate {A} (n : nat) (c : rand A) : rand (list A) :=
  match n with
  | O => rret []
  | S n' => a <~ c ;; r <~ replicate n' c ;; rret (a :: r)
  end.

Fixpoint mapM {A B} (f : A -> rand B) (l : list A) : rand (list B) :=
  match l with
  | [] => rret []
  | a :: r => b <~ f a ;; bs <~ mapM f r ;; rret (b :: bs)
  end.

End Random.

Fixpoint mapR {A B} (f : A -> result B) (l : list A) : result (list B) :=
  match l with
  | [] => Ok []
  | a :: r => b <- f a ;; bs <- mapR f r ;; Ok (b :: bs)
  end.

Fixpoint forEachR {A} (f : A -> result unit) (l : list A) : result unit :=
  match l with
  | [] => Ok tt
  | a :: r => _ <- f a ;; forEachR f r
  end.

(* ================================================================= *)
(** * slip39_helper.ts *)

Module Helper.
Import Constants Utils Random.

Section WithEnvironment.
Context {words : WordList} {prims : Primitives}.

(** [Buffer.from(arr)] and [new Uint8Array(arr)] keep the low byte. *)
Definition uint8 (arr : list Z) : list Z := map (fun z => z mod 256) arr.

(** The round function used internally by the Feistel cipher. *)
Definition roundFunction (round : Z) (passphrase : list Z) (exp : Z)
           (salt secret : list Z) : list Z :=
  let saltedSecret := salt ++ secret in
  let roundedPhrase := [round] ++ passphrase in
  let iterations := JS.shl ITERATION_COUNT exp / ROUND_COUNT in
  pbkdf2_sha256 (uint8 roundedPhrase) (uint8 saltedSecret) iterations
                (Z.of_nat (length secret) * 8).

Definition xor (a b : list Z) : result (list Z) :=
  if negb (length a =? length b)%nat
  then Err (XorLengthMismatch (Z.of_nat (length a)) (Z.of_nat (length b)))
  else Ok (generateArray [] (Z.of_nat (length a))
             (fun i => JS.bxor (nth (Z.to_nat i) a 0) (nth (Z.to_nat i) b 0))).

Definition getSalt (identifier : list Z) (extendableBackupFlag : Z) : list Z :=
  if JS.truthy extendableBackupFlag then []
  else encodeHexString CUSTOMIZATION_STRING_NON_EXTENDABLE ++ identifier.

(** One turn of the loop of [crypt] on the pair [(IL, IR)]. *)
Definition crypt_round (pwd : list Z) (iterationExponent : Z) (salt : list Z)
           (st : result (list Z * list Z)) (round : Z)
  : result (list Z * list Z) :=
  p <- st ;;
  let f := roundFunction round pwd iterationExponent salt (snd p) in
  t <- xor (fst p) f ;;
  Ok (snd p, t).

Definition crypt (masterSecret : list Z) (passphrase : string)
           (iterationExponent : Z) (identifier : list Z)
           (extendableBackupFlag : Z) (encrypt : bool) : result (list Z) :=
  if (iterationExponent <? 0) || (iterationExponent >? MAX_ITERATION_EXP)
  then Err (InvalidIterationExponent iterationExponent)
  else
    let half := (length masterSecret / 2)%nat in
    let IL := firstn half masterSecret in
    let IR := skipn half masterSecret in
    let pwd := encodeHexString passphrase in
    let salt := getSalt identifier extendableBackupFlag in
    let range := generateArrayIdx [] ROUND_COUNT in
    let range := if encrypt then range else rev range in
    p <- fold_left (crypt_round pwd iterationExponent salt) range (Ok (IL, IR)) ;;
    Ok (snd p ++ fst p).

(** [createDigest]: the first four bytes of HMAC-SHA-256 keyed by the
    random data.  [subtle.importKey] refuses an HMAC key of no bytes, so
    the promise is rejected when the random data is empty. *)
Definition createDigest (randomData sharedSecret : list Z)
  : result (list Z) :=
  if (length randomData =? 0)%nat then Err EmptyDigestKey
  else Ok (firstn 4 (hmac_sha256 (uint8 randomData) (uint8 sharedSecret))).

(** A number that may be [NaN]/[undefined] ([None]). *)
Definition num : Type := option Z.

Definition nadd (a b : num) : num :=
  match a, b with Some x, Some y => Some (x + y) | _, _ => None end.
Definition nsub (a b : num) : num :=
  match a, b with Some x, Some y => Some (x - y) | _, _ => None end.
Definition nrem (a : num) (b : Z) : num :=
  match a with Some x => Some (JS.rem x b) | None => None end.
(** [ToInt32] of a possibly undefined operand of [^]. *)
Definition nint (a : num) : Z := match a with Some x => x | None => 0 end.
Definition nindex (tbl : list Z) (i : num) : num :=
  match i with Some x => JS.index tbl x | None => None end.

(** [results[idx] = results[idx] ^ r(item)] for the items of [v] in turn;
    a missing [results[idx]] reads as [undefined]. *)
Fixpoint xor_into (results v : list Z) (r : Z -> num) : list Z :=
  match results, v with
  | rs, [] => rs
  | x :: rs, item :: vs => JS.bxor x (nint (r item)) :: xor_into rs vs r
  | [], item :: vs => JS.bxor 0 (nint (r item)) :: xor_into [] vs r
  end.

Definition interpolate (shares : JSMap.t (list Z)) (x : Z) : result (list Z) :=
  let xCoord := JSSet.of_list (JSMap.keys shares) in
  let arr := map (fun v => Z.of_nat (length v)) (JSMap.values shares) in
  let sharesValueLengths := JSSet.of_list arr in
  if negb (JSSet.size sharesValueLengths =? 1) then Err SharesLengthMismatch
  else
    _ <- (if existsb (Z.eqb x) xCoord
          then forEachR (fun kv => if fst kv =? x then Ok tt
                                   else Err InterpolateExistingKey) shares
          else Ok tt) ;;
    (* Logarithm of the product of (x_i - x) for i = 1, ... , k. *)
    let logProd :=
      fold_left (fun logProd kv =>
                   nadd logProd (JS.index LOG_TABLE (JS.bxor (fst kv) x)))
                shares (Some 0) in
    let results := generateArray [] (hd 0 sharesValueLengths) (fun _ => 0) in
    Ok (fold_left
          (fun results kv =>
             let k := fst kv in
             (* The logarithm of the Lagrange basis polynomial evaluated at x. *)
             let sum :=
               fold_left (fun sum kkv =>
                            nadd sum (JS.index LOG_TABLE (JS.bxor k (fst kkv))))
                         shares (Some 0) in
             let basis :=
               nrem (nsub (nsub logProd (JS.index LOG_TABLE (JS.bxor k x))) sum)
                    255 in
             let logBasisEval :=
               match basis with
               | Some b => if b <? 0 then Some (255 + b) else Some b
               | None => None
               end in
             xor_into results (snd kv)
               (fun shareVal =>
                  if negb (shareVal =? 0)
                  then nindex EXP_TABLE
                         (nrem (nadd (JS.index LOG_TABLE shareVal) logBasisEval)
                               255)
                  else Some 0))
          shares results).

(** [splitSecret]; the random part is drawn before the random shares. *)
Definition splitSecret (threshold shareCount : Z) (sharedSecret : list Z)
  : rand (list (list Z)) :=
  if threshold <=? 0 then rthrow (ThresholdNotPositive threshold)
  else if threshold >? shareCount
  then rthrow (ThresholdExceedsShares threshold shareCount)
  else if shareCount >? MAX_SHARE_COUNT then rthrow (TooManyShares shareCount)
  else if threshold =? 1
  then rret (generateArray [] shareCount (fun _ => sharedSecret))
  else
    let randomShareCount := threshold - 2 in
    randomPart <~ randomBytes (Z.of_nat (length sharedSecret) - DIGEST_LENGTH) ;;
    digest <~ rlift (createDigest randomPart sharedSecret) ;;
    shares <~ (if JS.truthy randomShareCount
               then replicate (Z.to_nat randomShareCount)
                              (randomBytes (Z.of_nat (length sharedSecret)))
               else rret []) ;;
    let baseShares :=
      fold_left (fun m iv => JSMap.set m (fst iv) (snd iv))
                (combine (range (Z.of_nat (length shares))) shares)
                JSMap.empty in
    let baseShares := JSMap.set baseShares DIGEST_INDEX (digest ++ randomPart) in
    let baseShares := JSMap.set baseShares SECRET_INDEX sharedSecret in
    rest <~ rlift (mapR (fun i => interpolate baseShares (randomShareCount + i))
                        (range (shareCount - randomShareCount))) ;;
    rret (shares ++ rest).

(** Returns a randomly generated integer in the range 0, ..., 2**ID_BITS_LENGTH - 1. *)
Definition generateIdentifier : rand (list Z) :=
  let byte := bitsToBytes ID_BITS_LENGTH in
  let bits := JS.rem ID_BITS_LENGTH 8 in
  identifier <~ randomBytes byte ;;
  rret (match identifier with
        | b0 :: r => JS.band b0 (JS.shl 1 bits - 1) :: r
        | [] => []
        end).

Definition rs1024_GEN : list Z :=
  [0xe0e040; 0x1c1c080; 0x3838100; 0x7070200; 0xe0e0009; 0x1c0c2412;
   0x38086c24; 0x3090fc48; 0x21b1f890; 0x3f3f120].

(** The body of [data.forEach] in [rs1024Polymod]. *)
Definition rs1024_step (chk byte : Z) : Z :=
  let b := JS.sar chk 20 in
  let chk := JS.bxor (JS.shl (JS.band chk 0xfffff) 10) byte in
  fold_left (fun chk i =>
               let gen := if negb (JS.band (JS.sar b i) 1 =? 0)
                          then nth (Z.to_nat i) rs1024_GEN 0 else 0 in
               JS.bxor chk gen)
            (range 10) chk.

Definition rs1024Polymod (data : list Z) : Z := fold_left rs1024_step data 1.

Definition get_customization_string (extendableBackupFlag : Z) : string :=
  if JS.truthy extendableBackupFlag
  then CUSTOMIZATION_STRING_EXTENDABLE
  else CUSTOMIZATION_STRING_NON_EXTENDABLE.

Definition rs1024CreateChecksum (data : list Z) (extendableBackupFlag : Z)
  : list Z :=
  let values :=
    (encodeHexString (get_customization_string extendableBackupFlag) ++ data)
      ++ generateArray [] CHECKSUM_WORDS_LENGTH (fun _ => 0) in
  let polymod := JS.bxor (rs1024Polymod values) 1 in
  rev (generateArray [] CHECKSUM_WORDS_LENGTH
         (fun i => JS.band (JS.sar polymod (10 * i)) 1023)).

Definition rs1024VerifyChecksum (data : list Z) (extendableBackupFlag : Z)
  : bool :=
  rs1024Polymod
    (encodeHexString (get_customization_string extendableBackupFlag) ++ data)
  =? 1.

(** Converts a list of base 1024 indices in big endian order to an integer value. *)
Definition intFromIndices (indices : list Z) : Z :=
  let radix := 2 ^ RADIX_BITS in
  fold_left (fun value index => value * radix + index) indices 0.

(** Converts a Big integer value to indices in big endian order. *)
Definition intToIndices (value : Z) (length : Z) (bits : Z) : list Z :=
  let mask := JS.shl 1 bits - 1 in
  let result :=
    generateArray [] length (fun i => Z.land (Z.shiftr value (i * bits)) mask) in
  rev result.

(** [WORD_LIST[index]], the empty string standing for [undefined] (which
    is how [toString] prints it). *)
Definition word_at (index : Z) : string :=
  match JS.index WORD_LIST index with Some w => w | None => EmptyString end.

Definition mnemonicFromIndices (indices : list Z) : string :=
  let result := map word_at indices in
  JS.join " " (JS.split "," (JS.join "," result)).

Fixpoint position (item : string) (l : list string) (i : Z) : option Z :=
  match l with
  | [] => None
  | w :: r => if String.eqb w item then Some i else position item r (i + 1)
  end.

(** Modelled from the spec: [WORD_LIST_MAP] of [constants.ts], from a word
    to its index in the word list. *)
Definition WORD_LIST_MAP (item : string) : option Z := position item WORD_LIST 0.

Definition mnemonicToIndices (mnemonic : string) : result (list Z) :=
  let words := JS.split " " (JS.toLowerCase mnemonic) in
  fold_left (fun prev item =>
               p <- prev ;;
               match WORD_LIST_MAP item with
               | None => Err (InvalidMnemonicWord item)
               | Some index => Ok (p ++ [index])
               end)
            words (Ok []).

(** [recoverSecret].  With threshold 1 the source returns the first value
    of the map; for an empty map that value is [undefined], which the model
    reports as [UndefinedShare] ([combineMnemonics] only passes maps whose
    size is the threshold). *)
Definition recoverSecret (threshold : Z) (shares : JSMap.t (list Z))
  : result (list Z) :=
  (* If the threshold is 1, then the digest of the shared secret is not used. *)
  if threshold =? 1
  then match JSMap.values shares with
       | v :: _ => Ok v
       | [] => Err UndefinedShare
       end
  else
    sharedSecret <- interpolate shares SECRET_INDEX ;;
    digestShare <- interpolate shares DIGEST_INDEX ;;
    let digest := JS.slice digestShare 0 DIGEST_LENGTH in
    let randomPart := skipn (Z.to_nat DIGEST_LENGTH) digestShare in
    recoveredDigest <- createDigest randomPart sharedSecret ;;
    if negb (listsAreEqual digest recoveredDigest) then Err InvalidDigest
    else Ok sharedSecret.

Record IDecodedMnemonic : Type := {
  identifier : Z;
  extendableBackupFlag : Z;
  iterationExponent : Z;
  groupIndex : Z;
  groupThreshold : Z;
  groupCount : Z;
  memberIndex : Z;
  memberThreshold : Z;
  share : list Z
}.

(** Converts a share mnemonic to share data: the part of [decodeMnemonic]
    after [mnemonicToIndices]. *)
Definition decodeIndices (data : list Z) : result IDecodedMnemonic :=
  let len := Z.of_nat (length data) in
  if len <? MNEMONICS_WORDS_LENGTH then Err InvalidMnemonicLength
  else
    let paddingLen := JS.rem (RADIX_BITS * (len - METADATA_WORDS_LENGTH)) 16 in
    if paddingLen >? 8 then Err InvalidMnemonicResidual
    else
      let idExpExtInt :=
        intFromIndices (JS.slice data 0 ITERATION_EXP_WORDS_LENGTH) in
      let identifier :=
        JS.sar idExpExtInt
               (ITERATION_EXP_BITS_LENGTH + EXTENDABLE_BACKUP_FLAG_BITS_LENGTH) in
      let extendableBackupFlag :=
        JS.band (JS.sar idExpExtInt ITERATION_EXP_BITS_LENGTH)
                (JS.shl 1 EXTENDABLE_BACKUP_FLAG_BITS_LENGTH - 1) in
      let iterationExponent :=
        JS.band idExpExtInt (JS.shl 1 ITERATION_EXP_BITS_LENGTH - 1) in
      if negb (rs1024VerifyChecksum data extendableBackupFlag)
      then Err InvalidChecksum
      else
        let tmp :=
          intFromIndices (JS.slice data ITERATION_EXP_WORDS_LENGTH
                                   (ITERATION_EXP_WORDS_LENGTH + 2)) in
        let indices := intToIndices tmp 5 4 in
        let groupIndex := nth 0 indices 0 in
        let groupThreshold := nth 1 indices 0 in
        let groupCount := nth 2 indices 0 in
        let memberIndex := nth 3 indices 0 in
        let memberThreshold := nth 4 indices 0 in
        let valueData :=
          JS.slice data (ITERATION_EXP_WORDS_LENGTH + 2)
                   (len - CHECKSUM_WORDS_LENGTH) in
        if groupCount <? groupThreshold
        then Err (GroupThresholdExceedsCount groupThreshold groupCount)
        else
          let valueInt := intFromIndices valueData in
          let valueByteCount :=
            bitsToBytes (RADIX_BITS * Z.of_nat (length valueData) - paddingLen) in
          match encodeBigInt valueInt valueByteCount with
          | Ok share =>
              Ok {| identifier := identifier;
                    extendableBackupFlag := extendableBackupFlag;
                    iterationExponent := iterationExponent;
                    groupIndex := groupIndex;
                    groupThreshold := groupThreshold + 1;
                    groupCount := groupCount + 1;
                    memberIndex := memberIndex;
                    memberThreshold := memberThreshold + 1;
                    share := share |}
          | Err _ => Err InvalidPadding
          end.

Definition decodeMnemonic (mnemonic : string) : result IDecodedMnemonic :=
  data <- mnemonicToIndices mnemonic ;;
  decodeIndices data.

Definition validateMnemonic (mnemonic : string) : bool :=
  match decodeMnemonic mnemonic with
  | Ok _ => true
  | Err _ => false
  end.

Record IDecodedMnemonics : Type := {
  all_identifier : Z;
  all_extendableBackupFlag : Z;
  all_iterationExponent : Z;
  all_groupThreshold : Z;
  all_groupCount : Z;
  all_groups : JSMap.t (JSMap.t (JSMap.t (list Z)))
}.

(** The sets and the map that the loop of [decodeMnemonics] fills. *)
Record decoding : Type := {
  identifiers : JSSet.t;
  extendableBackupFlags : JSSet.t;
  iterationExponents : JSSet.t;
  groupThresholds : JSSet.t;
  groupCounts : JSSet.t;
  groups : JSMap.t (JSMap.t (JSMap.t (list Z)))
}.

Definition decoding_start : decoding :=
  {| identifiers := []; extendableBackupFlags := []; iterationExponents := [];
     groupThresholds := []; groupCounts := []; groups := JSMap.empty |}.

(** The body of [mnemonics.forEach] in [decodeMnemonics] ([has] and [get]
    agree, so a group or member map is never [undefined]). *)
Definition decodeMnemonics_step (st : result decoding) (mnemonic : string)
  : result decoding :=
  s <- st ;;
  decoded <- decodeMnemonic mnemonic ;;
  let group :=
    match JSMap.get (groups s) (groupIndex decoded) with
    | Some g => g
    | None => JSMap.empty
    end in
  let member :=
    match JSMap.get group (memberThreshold decoded) with
    | Some m => m
    | None => JSMap.empty
    end in
  let member := JSMap.set member (memberIndex decoded) (share decoded) in
  let group := JSMap.set group (memberThreshold decoded) member in
  if negb (JSMap.size group =? 1) then Err MemberThresholdMismatch
  else
    Ok {| identifiers := JSSet.add (identifiers s) (identifier decoded);
          extendableBackupFlags :=
            JSSet.add (extendableBackupFlags s) (extendableBackupFlag decoded);
          iterationExponents :=
            JSSet.add (iterationExponents s) (iterationExponent decoded);
          groupThresholds := JSSet.add (groupThresholds s) (groupThreshold decoded);
          groupCounts := JSSet.add (groupCounts s) (groupCount decoded);
          groups := JSMap.set (groups s) (groupIndex decoded) group |}.

Definition decodeMnemonics (mnemonics : list string) : result IDecodedMnemonics :=
  s <- fold_left decodeMnemonics_step mnemonics (Ok decoding_start) ;;
  if negb (JSSet.size (identifiers s) =? 1)
     || negb (JSSet.size (extendableBackupFlags s) =? 1)
     || negb (JSSet.size (iterationExponents s) =? 1)
  then Err PrefixMismatch
  else if negb (JSSet.size (groupThresholds s) =? 1)
  then Err GroupThresholdMismatch
  else if negb (JSSet.size (groupCounts s) =? 1)
  then Err GroupCountMismatch
  else
    Ok {| all_identifier := hd 0 (identifiers s);
          all_extendableBackupFlag := hd 0 (extendableBackupFlags s);
          all_iterationExponent := hd 0 (iterationExponents s);
          all_groupThreshold := hd 0 (groupThresholds s);
          all_groupCount := hd 0 (groupCounts s);
          all_groups := groups s |}.

Definition groupPrefix (identifier extendableBackupFlag iterationExponent
                        groupIndex groupThreshold groupCount : Z) : list Z :=
  let idExpInt :=
    JS.shl identifier
           (ITERATION_EXP_BITS_LENGTH + EXTENDABLE_BACKUP_FLAG_BITS_LENGTH)
    + JS.shl extendableBackupFlag ITERATION_EXP_BITS_LENGTH
    + iterationExponent in
  let indc := intToIndices idExpInt ITERATION_EXP_WORDS_LENGTH RADIX_BITS in
  let indc2 :=
    JS.shl groupIndex 6 + JS.shl (groupThreshold - 1) 2
    + JS.sar (groupCount - 1) 2 in
  indc ++ [indc2].

(** The body of the [for ... of groups.entries()] loop of [combineMnemonics];
    reading the size of a missing member map is a TypeError. *)
Definition combine_group (acc : result (JSMap.t (list Z)))
           (entry : Z * JSMap.t (JSMap.t (list Z)))
  : result (JSMap.t (list Z)) :=
  allShares <- acc ;;
  match snd entry with
  | [] => Err UndefinedShare
  | (threshold, shares) :: _ =>
      if negb (JSMap.size shares =? threshold)
      then Err (WrongMemberNumber threshold (JSMap.size shares))
      else
        recovered <- recoverSecret threshold shares ;;
        Ok (JSMap.set allShares (fst entry) recovered)
  end.

(** Combines mnemonic shares to get the master secret, which was previously
    split using Shamir's secret sharing scheme. *)
Definition combineMnemonics (mnemonics : list string) (passphrase : string)
  : result (list Z) :=
  if (length mnemonics =? 0)%nat then Err EmptyMnemonics
  else
    decoded <- decodeMnemonics mnemonics ;;
    let identifier := all_identifier decoded in
    let extendableBackupFlag := all_extendableBackupFlag decoded in
    let iterationExponent := all_iterationExponent decoded in
    let groupThreshold := all_groupThreshold decoded in
    let groups := all_groups decoded in
    if JSMap.size groups <? groupThreshold
    then Err (InsufficientGroups (JSMap.size groups) groupThreshold)
    else if negb (JSMap.size groups =? groupThreshold)
    then Err (WrongGroupNumber groupThreshold (JSMap.size groups))
    else
      allShares <- fold_left combine_group groups (Ok JSMap.empty) ;;
      ems <- recoverSecret groupThreshold allShares ;;
      let id := intToIndices identifier ITERATION_EXP_WORDS_LENGTH 8 in
      crypt ems passphrase iterationExponent id extendableBackupFlag false.

(** Converts share data to a share mnemonic. *)
Definition encodeMnemonic (identifier : list Z)
           (extendableBackupFlag iterationExponent groupIndex groupThreshold
            groupCount memberIndex memberThreshold : Z) (value : list Z)
  : string :=
  (* Convert the share value from bytes to wordlist indices. *)
  let valueWordCount := bitsToWords (Z.of_nat (length value) * 8) in
  let valueInt := decodeBigInt value in
  let newIdentifier := JS.number (decodeBigInt identifier) in
  let gp := groupPrefix newIdentifier extendableBackupFlag iterationExponent
                        groupIndex groupThreshold groupCount in
  let tp := intToIndices valueInt valueWordCount RADIX_BITS in
  let calc :=
    JS.shl (JS.band (groupCount - 1) 3) 8 + JS.shl memberIndex 4
    + (memberThreshold - 1) in
  let shareData := (gp ++ [calc]) ++ tp in
  let checksum := rs1024CreateChecksum shareData extendableBackupFlag in
  mnemonicFromIndices (shareData ++ checksum).

End WithEnvironment.
End Helper.

(* ================================================================= *)
(** * slip39.ts *)

Module Slip39.
Import Constants Utils Random.

(** [Slip39Node]: index, description, mnemonic, children. *)
#[warnings="-register-all"]
Inductive Slip39Node : Type :=
| Node (index : Z) (description : string) (mnemonic : string)
       (children : list Slip39Node).

Definition index (n : Slip39Node) : Z := let (i, _, _, _) := n in i.
Definition description (n : Slip39Node) : string := let (_, d, _, _) := n in d.
Definition mnemonic (n : Slip39Node) : string := let (_, _, m, _) := n in m.
Definition children (n : Slip39Node) : list Slip39Node :=
  let (_, _, _, c) := n in c.

(** The getter [mnemonics]. *)
Fixpoint mnemonics (n : Slip39Node) : list string :=
  match n with
  | Node _ _ m ch =>
      if (length ch =? 0)%nat then [m]
      else fold_left (fun prev item => prev ++ mnemonics item) ch []
  end.

(** A group of the policy: [[threshold, members, description]] (the type
    leaves out the malformed items that [buildRecursive] rejects). *)
Definition group : Type := (Z * Z * string)%type.

Record Slip39 : Type := {
  extendableBackupFlag : Z;
  groupCount : Z;
  groupThreshold : Z;
  identifier : list Z;
  iterationExponent : Z;
  root : Slip39Node
}.

(** The options of [fromArray]; [opt_identifier = None] is the default, a
    fresh [generateIdentifier()]. *)
Record options : Type := {
  opt_extendableBackupFlag : Z;
  opt_groups : list group;
  opt_iterationExponent : Z;
  opt_identifier : option (list Z);
  opt_passphrase : string;
  opt_groupThreshold : Z;
  opt_title : string
}.

Definition default_options : options :=
  {| opt_extendableBackupFlag := 1;
     opt_groups := [(1, 1, "Default 1-of-1 group share"%string)];
     opt_iterationExponent := 0;
     opt_identifier := None;
     opt_passphrase := EmptyString;
     opt_groupThreshold := 1;
     opt_title := "My default slip39 shares" |}.

Section WithEnvironment.
Context {words : WordList} {prims : Primitives}.

(** The constructor. *)
Definition new (iterationExponent extendableBackupFlag : Z)
           (identifier : list Z) (groupCount groupThreshold : Z)
  : result Slip39 :=
  if (length identifier =? 0)%nat then Err MissingIdentifier
  else if negb (JS.truthy groupCount) then Err MissingGroupCount
  else if negb (JS.truthy groupThreshold) then Err MissingGroupThreshold
  else Ok {| extendableBackupFlag := extendableBackupFlag;
             groupCount := groupCount;
             groupThreshold := groupThreshold;
             identifier := identifier;
             iterationExponent := iterationExponent;
             root := Node 0 EmptyString EmptyString [] |}.

(** [buildRecursive]; [depth] bounds the nesting of the calls (the root,
    a group, a member: three suffice, see [fromArray]). *)
Fixpoint buildRecursive (depth : nat) (this : Slip39) (currentNode : Slip39Node)
         (nodes : list group) (secret : list Z) (threshold : Z)
         (idx : option Z) : rand Slip39Node :=
  match depth with
  | O => rthrow DepthExhausted
  | S depth' =>
      (* It means it's a leaf. *)
      if (length nodes =? 0)%nat
      then
        rret (Node (index currentNode) (description currentNode)
                (Helper.encodeMnemonic
                   (identifier this) (extendableBackupFlag this)
                   (iterationExponent this)
                   (match idx with
                    | Some i => if JS.truthy i then i else 0
                    | None => 0
                    end)
                   (groupThreshold this) (groupCount this)
                   (index currentNode) threshold secret)
                (children currentNode))
      else
        secretShares <~ Helper.splitSecret threshold (Z.of_nat (length nodes))
                                            secret ;;
        children <~
          (fix loop (items : list group) (i : Z) (children : list Slip39Node)
             : rand (list Slip39Node) :=
             match items with
             | [] => rret children
             | (n, m, d) :: rest =>
                 (* Generate leaf members, means their `m` is `0` *)
                 let members := generateArray [] m (fun _ => (n, 0, d)) in
                 let node := Node i d EmptyString [] in
                 branch <~ buildRecursive depth' this node members
                           (nth (Z.to_nat i) secretShares []) n
                           (Some (index currentNode)) ;;
                 loop rest (i + 1) (children ++ [branch])
             end) nodes 0 [] ;;
        rret (Node (index currentNode) (description currentNode)
                (mnemonic currentNode) children)
  end.

Definition printable (c : ascii) : bool :=
  let n := nat_of_ascii c in ((32 <=? n) && (n <=? 126))%nat.

(** The test [/^[\x20-\x7E]*$/]. *)
Fixpoint printable_ascii (s : string) : bool :=
  match s with
  | EmptyString => true
  | String c r => printable c && printable_ascii r
  end.

Definition with_root (slip : Slip39) (r : Slip39Node) : Slip39 :=
  {| extendableBackupFlag := extendableBackupFlag slip;
     groupCount := groupCount slip;
     groupThreshold := groupThreshold slip;
     identifier := identifier slip;
     iterationExponent := iterationExponent slip;
     root := r |}.

Definition fromArray (masterSecret : list Z) (o : options) : rand Slip39 :=
  ident <~ (match opt_identifier o with
            | Some i => rret i
            | None => Helper.generateIdentifier
            end) ;;
  let groups := opt_groups o in
  let threshold := opt_groupThreshold o in
  if Z.of_nat (length masterSecret) * 8 <? MIN_ENTROPY_BITS
  then rthrow (SecretTooShort (Z.of_nat (length masterSecret)))
  else if negb (JS.rem (Z.of_nat (length masterSecret)) 2 =? 0)
  then rthrow SecretOddLength
  else if negb (printable_ascii (opt_passphrase o)) then rthrow InvalidPassphrase
  else if threshold >? Z.of_nat (length groups)
  then rthrow (GroupThresholdExceedsGroups threshold
                 (Z.of_nat (length groups)))
  else if existsb (fun item : group =>
                     let '(n, m, _) := item in (n =? 1) && (m >? 1)) groups
  then rthrow MultipleMembersThresholdOne
  else
    slip <~ rlift (new (opt_iterationExponent o) (opt_extendableBackupFlag o)
                       ident (Z.of_nat (length groups)) threshold) ;;
    encryptedMasterSecret <~
      rlift (Helper.crypt masterSecret (opt_passphrase o)
                          (opt_iterationExponent o) (identifier slip)
                          (opt_extendableBackupFlag o) true) ;;
    r <~ buildRecursive 3 slip (Node 0 (opt_title o) EmptyString [])
                        groups encryptedMasterSecret threshold None ;;
    rret (with_root slip r).

(** [Slip39.recoverSecret] and [Slip39.validateMnemonic]. *)
Definition recoverSecret (mnemonics : list string) (passphrase : string)
  : result (list Z) :=
  Helper.combineMnemonics mnemonics passphrase.

Definition validateMnemonic (mnemonic : string) : bool :=
  Helper.validateMnemonic mnemonic.

End WithEnvironment.
End Slip39.

(* ================================================================= *)
(** * A sample environment

    A word list and primitives that meet the contracts above, on which the
    model can be run. *)

Module Sample.

Definition letter (n : nat) : ascii := ascii_of_nat (97 + n mod 26).

Definition word (i : nat) : string :=
  String (letter (i / 676)) (String (letter (i / 26)) (String (letter i) EmptyString)).

Definition WORDS : list string := Eval vm_compute in map word (seq 0 1024).

Lemma WORDS_length : length WORDS = 1024%nat.
Proof. vm_compute. reflexivity. Qed.

Lemma WORDS_words : forallb is_word WORDS = true.
Proof. vm_compute. reflexivity. Qed.

Lemma WORDS_distinct : distinct WORDS = true.
Proof. vm_compute. reflexivity. Qed.

#[export] Instance words : WordList :=
  {| WORD_LIST := WORDS;
     WORD_LIST_length := WORDS_length;
     WORD_LIST_words := WORDS_words;
     WORD_LIST_distinct := WORDS_distinct |}.

Definition checksum (l : list Z) : Z := fold_left (fun a b => 31 * a + b + 7) l 0.

(** A toy key-derivation function: [bits / 8] bytes that depend on all
    arguments. *)
Definition kdf (pw salt : list Z) (it bits : Z) : list Z :=
  map (fun i => (checksum pw + 3 * checksum salt + it + 5 * Z.of_nat i) mod 256)
      (seq 0 (Z.to_nat (bits / 8))).

(** A toy keyed digest of 32 bytes. *)
Definition mac (key msg : list Z) : list Z :=
  map (fun i => (checksum key + 3 * checksum msg + 11 * Z.of_nat i) mod 256)
      (seq 0 32).

Lemma kdf_length pw salt it bits :
  length (kdf pw salt it bits) = Z.to_nat (bits / 8).
Proof. unfold kdf. now rewrite length_map, length_seq. Qed.

Lemma mod256_bytes (f : nat -> Z) (l : list nat) :
  bytes (map (fun i => f i mod 256) l).
Proof.
  induction l as [|a l IH]; constructor; [|exact IH].
  unfold byte. apply Z.mod_pos_bound. lia.
Qed.

Lemma kdf_bytes pw salt it bits : bytes (kdf pw salt it bits).
Proof. apply mod256_bytes. Qed.

Lemma mac_length key msg : length (mac key msg) = 32%nat.
Proof. reflexivity. Qed.

Lemma mac_bytes key msg : bytes (mac key msg).
Proof. apply mod256_bytes. Qed.

#[export] Instance prims : Primitives :=
  {| pbkdf2_sha256 := kdf;
     hmac_sha256 := mac;
     pbkdf2_length := kdf_length;
     pbkdf2_bytes := kdf_bytes;
     hmac_length := mac_length;
     hmac_bytes := mac_bytes |}.

(** A source of randomness. *)
Definition dice : entropy := fun i => Z.of_nat (37 * i + 11).

(** The sixteen bytes of "ABCDEFGHIJKLMNOP", the secret of the test-suite. *)
Definition MASTERSECRET : list Z :=
  [65; 66; 67; 68; 69; 70; 71; 72; 73; 74; 75; 76; 77; 78; 79; 80].

(** The options of a generation with the groups [groups] and the group
    threshold [threshold], the other options at their defaults. *)
Definition policy (groups : list Slip39.group) (threshold : Z) : Slip39.options :=
  {| Slip39.opt_extendableBackupFlag := 1;
     Slip39.opt_groups := groups;
     Slip39.opt_iterationExponent := 0;
     Slip39.opt_identifier := None;
     Slip39.opt_passphrase := EmptyString;
     Slip39.opt_groupThreshold := threshold;
     Slip39.opt_title := EmptyString |}.

(** The mnemonics of that generation from [MASTERSECRET]. *)
Definition generate (groups : list Slip39.group) (threshold : Z) : list string :=
  match Slip39.fromArray MASTERSECRET (policy groups threshold) dice with
  | Ok (slip, _) => Slip39.mnemonics (Slip39.root slip)
  | Err _ => []
  end.

(** One group, two of three members. *)
Definition TWO_OF_THREE : list string :=
  Eval vm_compute in generate [(2, 3, EmptyString)] 1.

End Sample.

(* ================================================================= *)
(** * Verification *)

(** Linear arithmetic with division and remainder by constants. *)
Ltac dlia := Z.div_mod_to_equations; lia.

(** ** Loops over lists *)

Lemma fold_left_cons {A B} (f : A -> B -> A) b l a :
  fold_left f (b :: l) a = fold_left f l (f a b).
Proof. reflexivity. Qed.

Lemma fold_left_nil {A B} (f : A -> B -> A) a : fold_left f [] a = a.
Proof. reflexivity. Qed.

Lemma generateArray_3 {T} (f : Z -> T) :
  Utils.generateArray [] 3 f = [f 0; f 1; f 2].
Proof. reflexivity. Qed.

(** ** JavaScript operators on small integers *)

Module JSFacts.

Definition int32 (z : Z) : Prop := - 2 ^ 31 <= z < 2 ^ 31.

Lemma toInt32_small z : int32 z -> JS.toInt32 z = z.
Proof.
  unfold int32, JS.toInt32. intros H.
  destruct (Z_lt_dec z 0) as [Hn|Hp].
  - replace (z mod 2 ^ 32) with (z + 2 ^ 32).
    + destruct (Z.ltb_spec (z + 2 ^ 32) (2 ^ 31)); lia.
    + apply Z.mod_unique with (q := -1); lia.
  - rewrite Z.mod_small by lia.
    destruct (Z.ltb_spec z (2 ^ 31)); lia.
Qed.

Lemma toInt32_nonneg z : 0 <= z < 2 ^ 31 -> JS.toInt32 z = z.
Proof. intros H. apply toInt32_small. unfold int32. lia. Qed.

Lemma shl_small a b :
  0 <= a -> 0 <= b < 32 -> a * 2 ^ b < 2 ^ 31 -> JS.shl a b = a * 2 ^ b.
Proof.
  intros Ha Hb Hlt. unfold JS.shl.
  assert (0 < 2 ^ b) by (apply Z.pow_pos_nonneg; lia).
  assert (a < 2 ^ 31) by nia.
  rewrite (toInt32_nonneg a) by lia.
  rewrite Z.mod_small by lia.
  rewrite Z.shiftl_mul_pow2 by lia.
  apply toInt32_nonneg. nia.
Qed.

Lemma shl_le a b k :
  0 <= a <= k -> 0 <= b < 32 -> (k * 2 ^ b <? 2 ^ 31) = true ->
  JS.shl a b = a * 2 ^ b.
Proof.
  intros Ha Hb Hk. apply Z.ltb_lt in Hk. apply shl_small; [lia|lia|].
  assert (0 < 2 ^ b) by (apply Z.pow_pos_nonneg; lia). nia.
Qed.

Lemma sar_small a b :
  0 <= a < 2 ^ 31 -> 0 <= b < 32 -> JS.sar a b = Z.shiftr a b.
Proof.
  intros Ha Hb. unfold JS.sar.
  now rewrite toInt32_nonneg, Z.mod_small by lia.
Qed.

Lemma band_small a b :
  0 <= a < 2 ^ 31 -> 0 <= b < 2 ^ 31 -> JS.band a b = Z.land a b.
Proof. intros Ha Hb. unfold JS.band. now rewrite !toInt32_nonneg by lia. Qed.

Lemma bxor_small a b :
  0 <= a < 2 ^ 31 -> 0 <= b < 2 ^ 31 -> JS.bxor a b = Z.lxor a b.
Proof. intros Ha Hb. unfold JS.bxor. now rewrite !toInt32_nonneg by lia. Qed.

(** Bounds of the bitwise operations on numbers below a power of two. *)
Lemma lxor_bound n a b :
  0 <= n -> 0 <= a < 2 ^ n -> 0 <= b < 2 ^ n -> 0 <= Z.lxor a b < 2 ^ n.
Proof.
  intros Hn Ha Hb. split; [apply Z.lxor_nonneg; lia|].
  destruct (Z.eq_dec (Z.lxor a b) 0) as [->|Hz];
    [apply Z.pow_pos_nonneg; lia|].
  assert (0 <= Z.lxor a b) by (apply Z.lxor_nonneg; lia).
  assert (0 < n).
  { destruct (Z.eq_dec n 0) as [->|]; [|lia].
    assert (a = 0) by (change (2 ^ 0) with 1 in Ha; lia).
    assert (b = 0) by (change (2 ^ 0) with 1 in Hb; lia).
    subst. now elim Hz. }
  apply Z.log2_lt_pow2; [lia|].
  eapply Z.le_lt_trans; [apply Z.log2_lxor; lia|].
  apply Z.max_lub_lt.
  - destruct (Z.eq_dec a 0) as [->|]; [simpl; lia|].
    apply Z.log2_lt_pow2; lia.
  - destruct (Z.eq_dec b 0) as [->|]; [simpl; lia|].
    apply Z.log2_lt_pow2; lia.
Qed.

Lemma land_ones_bound a n : 0 <= n -> 0 <= Z.land a (2 ^ n - 1) < 2 ^ n.
Proof.
  intros Hn. replace (2 ^ n - 1) with (Z.ones n)
    by (rewrite Z.ones_equiv; lia).
  rewrite Z.land_ones by lia. apply Z.mod_pos_bound.
  apply Z.pow_pos_nonneg; lia.
Qed.

Lemma land_ones_mod a n : 0 <= n -> Z.land a (2 ^ n - 1) = a mod 2 ^ n.
Proof.
  intros Hn. replace (2 ^ n - 1) with (Z.ones n)
    by (rewrite Z.ones_equiv; lia).
  now rewrite Z.land_ones.
Qed.

End JSFacts.

(* ================================================================= *)
(** ** The RS1024 checksum *)

Module RS1024Facts.
Import Constants Utils Helper JSFacts.

Definition state (z : Z) : Prop := 0 <= z < 2 ^ 30.

(** The generator word that bit [i] of [b] selects. *)
Definition sel (b i : Z) : Z :=
  if Z.testbit b i then nth (Z.to_nat i) rs1024_GEN 0 else 0.

(** [c ^ f(i1) ^ f(i2) ^ ...] *)
Definition xfold (f : Z -> Z) (l : list Z) (c : Z) : Z :=
  fold_left (fun c i => Z.lxor c (f i)) l c.

(** The step of the polymod without the conversions to 32 bits. *)
Definition pstep (chk byte : Z) : Z :=
  xfold (sel (Z.shiftr chk 20)) (range 10)
        (Z.lxor (Z.shiftl (Z.land chk (Z.ones 20)) 10) byte).

Lemma high_bits_zero n z i : 0 <= n -> 0 <= z < 2 ^ n -> n <= i ->
  Z.testbit z i = false.
Proof.
  intros Hn Hz Hi. destruct (Z.eq_dec z 0) as [->|Hnz];
    [apply Z.bits_0|].
  apply Z.bits_above_log2; [lia|].
  eapply Z.lt_le_trans; [|exact Hi]. apply Z.log2_lt_pow2; lia.
Qed.

Lemma GEN_state i : state (nth i rs1024_GEN 0).
Proof.
  unfold state.
  do 10 (destruct i as [|i]; [vm_compute; split; [discriminate|reflexivity]|]).
  destruct i; vm_compute; split; (discriminate || reflexivity).
Qed.

Lemma sel_state b i : state (sel b i).
Proof.
  unfold sel. destruct (Z.testbit b i); [apply GEN_state|].
  unfold state. lia.
Qed.

Lemma sel_lxor b1 b2 i : sel (Z.lxor b1 b2) i = Z.lxor (sel b1 i) (sel b2 i).
Proof.
  unfold sel. rewrite Z.lxor_spec.
  destruct (Z.testbit b1 i), (Z.testbit b2 i); simpl;
    now rewrite ?Z.lxor_nilpotent, ?Z.lxor_0_r, ?Z.lxor_0_l.
Qed.

Lemma sel_zero i : sel 0 i = 0.
Proof. unfold sel. now rewrite Z.bits_0. Qed.

Lemma xfold_acc f l c : xfold f l c = Z.lxor c (xfold f l 0).
Proof.
  unfold xfold. revert c. induction l as [|i l IH]; intros c; simpl.
  - now rewrite Z.lxor_0_r.
  - rewrite IH, (IH (f i)). apply Z.lxor_assoc.
Qed.

Lemma xfold_lxor f g h l :
  (forall i, h i = Z.lxor (f i) (g i)) ->
  xfold h l 0 = Z.lxor (xfold f l 0) (xfold g l 0).
Proof.
  intros E. induction l as [|i l IH]; [reflexivity|].
  change (xfold h (i :: l) 0) with (xfold h l (h i)).
  change (xfold f (i :: l) 0) with (xfold f l (f i)).
  change (xfold g (i :: l) 0) with (xfold g l (g i)).
  rewrite (xfold_acc h), (xfold_acc f), (xfold_acc g).
  rewrite IH, E.
  rewrite !Z.lxor_assoc. f_equal.
  rewrite <- !Z.lxor_assoc. f_equal. apply Z.lxor_comm.
Qed.

Lemma xfold_zero f l : (forall i, f i = 0) -> xfold f l 0 = 0.
Proof.
  intros E. unfold xfold. induction l as [|i l IH]; [reflexivity|].
  simpl. now rewrite E.
Qed.

Lemma xfold_state f l c :
  state c -> (forall i, state (f i)) -> state (xfold f l c).
Proof.
  unfold xfold. revert c. induction l as [|i l IH]; intros c Hc Hf; [exact Hc|].
  simpl. apply IH; [|exact Hf]. apply lxor_bound; [lia|exact Hc|apply Hf].
Qed.

(** The selection loop of the source, conversions included. *)
Lemma gen_loop_pure b l c :
  0 <= b < 2 ^ 10 -> Forall (fun i => 0 <= i < 10) l -> state c ->
  fold_left (fun chk i =>
               let gen := if negb (JS.band (JS.sar b i) 1 =? 0)
                          then nth (Z.to_nat i) rs1024_GEN 0 else 0 in
               JS.bxor chk gen) l c
  = xfold (sel b) l c.
Proof.
  intros Hb Hl. revert c. induction Hl as [|i l Hi Hl IH]; intros c Hc;
    [reflexivity|].
  unfold xfold in *. cbn [fold_left]. cbv zeta.
  assert (Esel : (if negb (JS.band (JS.sar b i) 1 =? 0)
                  then nth (Z.to_nat i) rs1024_GEN 0 else 0) = sel b i).
  { unfold sel. rewrite sar_small by lia.
    assert (0 <= Z.shiftr b i < 2 ^ 31).
    { rewrite Z.shiftr_div_pow2 by lia. split.
      - apply Z.div_pos; [lia|apply Z.pow_pos_nonneg; lia].
      - apply Z.le_lt_trans with b; [|lia].
        apply Z.div_le_upper_bound; [apply Z.pow_pos_nonneg; lia|].
        assert (0 < 2 ^ i) by (apply Z.pow_pos_nonneg; lia).
        nia. }
    rewrite band_small by lia.
    rewrite Z.testbit_odd, <- Z.bit0_odd, Z.bit0_eqb.
    change 1 with (Z.ones 1) at 1. rewrite Z.land_ones by lia.
    change (2 ^ 1) with 2.
    assert (0 <= Z.shiftr b i mod 2 < 2) by (apply Z.mod_pos_bound; lia).
    destruct (Z.eqb_spec (Z.shiftr b i mod 2) 0) as [E|E];
      destruct (Z.eqb_spec (Z.shiftr b i mod 2) 1) as [E'|E']; simpl;
      try reflexivity; lia. }
  rewrite Esel. rewrite bxor_small.
  - apply IH. apply lxor_bound; [lia|exact Hc|apply sel_state].
  - unfold state in Hc. lia.
  - pose proof (sel_state b i) as Hs. unfold state in Hs. lia.
Qed.

Lemma range10 : Forall (fun i => 0 <= i < 10) (range 10).
Proof. vm_compute. repeat constructor; discriminate. Qed.

Lemma shift_part_state chk :
  0 <= Z.shiftl (Z.land chk (Z.ones 20)) 10 < 2 ^ 30.
Proof.
  rewrite Z.land_ones, Z.shiftl_mul_pow2 by lia.
  pose proof (Z.mod_pos_bound chk (2 ^ 20) ltac:(lia)). lia.
Qed.

Lemma top_part chk : state chk -> 0 <= Z.shiftr chk 20 < 2 ^ 10.
Proof.
  unfold state. intros H. rewrite Z.shiftr_div_pow2 by lia. split.
  - apply Z.div_pos; lia.
  - apply Z.div_lt_upper_bound; lia.
Qed.

Lemma rs1024_step_pure chk byte :
  state chk -> state byte -> rs1024_step chk byte = pstep chk byte.
Proof.
  intros Hc Hb. unfold rs1024_step, pstep, state in *.
  pose proof (top_part chk Hc) as Ht.
  pose proof (shift_part_state chk) as Hs.
  rewrite sar_small by lia. cbv zeta.
  assert (Eland : JS.band chk 1048575 = Z.land chk (Z.ones 20))
    by (rewrite band_small by lia; reflexivity).
  rewrite Eland.
  assert (0 <= Z.land chk (Z.ones 20) < 2 ^ 20).
  { rewrite Z.land_ones by lia. apply Z.mod_pos_bound. lia. }
  rewrite shl_small by lia.
  rewrite <- Z.shiftl_mul_pow2 by lia.
  rewrite bxor_small by lia.
  apply gen_loop_pure; [exact Ht|exact range10|].
  apply lxor_bound; lia.
Qed.

Lemma pstep_state chk byte : state chk -> state byte -> state (pstep chk byte).
Proof.
  intros Hc Hb. unfold pstep. apply xfold_state; [|intros; apply sel_state].
  apply lxor_bound; [lia|apply shift_part_state|exact Hb].
Qed.

(** The step is linear: [pstep chk byte = pstep chk 0 ^ byte]. *)
Lemma pstep_byte chk byte : pstep chk byte = Z.lxor (pstep chk 0) byte.
Proof.
  unfold pstep. rewrite xfold_acc, (xfold_acc _ _ (Z.lxor _ 0)).
  rewrite Z.lxor_0_r, !Z.lxor_assoc. f_equal. apply Z.lxor_comm.
Qed.

Lemma pstep_lxor c1 c2 :
  pstep (Z.lxor c1 c2) 0 = Z.lxor (pstep c1 0) (pstep c2 0).
Proof.
  unfold pstep. rewrite !Z.lxor_0_r.
  rewrite xfold_acc, (xfold_acc _ _ (Z.shiftl (Z.land c1 _) _)),
    (xfold_acc _ _ (Z.shiftl (Z.land c2 _) _)).
  rewrite (xfold_lxor (sel (Z.shiftr c1 20)) (sel (Z.shiftr c2 20))).
  - replace (Z.shiftl (Z.land (Z.lxor c1 c2) (Z.ones 20)) 10)
      with (Z.lxor (Z.shiftl (Z.land c1 (Z.ones 20)) 10)
                   (Z.shiftl (Z.land c2 (Z.ones 20)) 10))
      by (rewrite <- Z.shiftl_lxor; f_equal; Z.bitblast).
    rewrite !Z.lxor_assoc. f_equal.
    rewrite <- !Z.lxor_assoc. f_equal. apply Z.lxor_comm.
  - intros i. rewrite Z.shiftr_lxor. apply sel_lxor.
Qed.

Lemma pstep_small c : 0 <= c < 2 ^ 20 -> pstep c 0 = Z.shiftl c 10.
Proof.
  intros Hc. unfold pstep.
  rewrite Z.shiftr_div_pow2, Z.div_small by lia.
  rewrite xfold_acc, xfold_zero by apply sel_zero.
  rewrite !Z.lxor_0_r. f_equal.
  rewrite Z.land_ones by lia. apply Z.mod_small. lia.
Qed.

(** Three more words [b1 b2 b3] after a state [s]. *)
Lemma pstep_three s b1 b2 b3 :
  0 <= b1 < 2 ^ 10 -> 0 <= b2 < 2 ^ 10 ->
  pstep (pstep (pstep s b1) b2) b3
  = Z.lxor (pstep (pstep (pstep s 0) 0) 0)
           (Z.lxor (Z.lxor (Z.shiftl b1 20) (Z.shiftl b2 10)) b3).
Proof.
  intros H1 H2.
  rewrite (pstep_byte _ b3), (pstep_byte _ b2), (pstep_byte s b1).
  rewrite !pstep_lxor.
  rewrite (pstep_small b2) by lia.
  rewrite (pstep_small b1) by lia.
  rewrite (pstep_small (Z.shiftl b1 10))
    by (rewrite Z.shiftl_mul_pow2 by lia; lia).
  rewrite Z.shiftl_shiftl by lia. change (10 + 10) with 20.
  now rewrite !Z.lxor_assoc.
Qed.

Lemma polymod_fold_state data s :
  state s -> Forall state data ->
  state (fold_left rs1024_step data s)
  /\ fold_left rs1024_step data s = fold_left pstep data s.
Proof.
  intros Hs Hd. revert s Hs. induction Hd as [|b data Hb Hd IH]; intros s Hs;
    [split; [exact Hs|reflexivity]|].
  rewrite !fold_left_cons. rewrite rs1024_step_pure by assumption.
  apply IH. now apply pstep_state.
Qed.

Lemma split_words P :
  state P ->
  Z.lxor (Z.lxor (Z.shiftl (Z.land (Z.shiftr P 20) (Z.ones 10)) 20)
                 (Z.shiftl (Z.land (Z.shiftr P 10) (Z.ones 10)) 10))
         (Z.land P (Z.ones 10)) = P.
Proof.
  intros HP. Z.bitblast.
  rewrite (high_bits_zero 30 P) by (unfold state in HP; lia). reflexivity.
Qed.

Lemma code_units_state s : Forall state (code_units s).
Proof.
  induction s as [|c s IH]; constructor; [|exact IH].
  unfold state. pose proof (nat_ascii_bounded c). lia.
Qed.

Lemma word_state w : 0 <= w < 1024 -> state w.
Proof. unfold state. lia. Qed.

Lemma words_state data :
  Forall (fun w => 0 <= w < 1024) data -> Forall state data.
Proof. intros H. eapply Forall_impl; [|exact H]. intros; now apply word_state. Qed.

Lemma checksum_words P :
  state P ->
  rev (generateArray [] CHECKSUM_WORDS_LENGTH
         (fun i => JS.band (JS.sar P (10 * i)) 1023))
  = [Z.land (Z.shiftr P 20) (Z.ones 10);
     Z.land (Z.shiftr P 10) (Z.ones 10);
     Z.land P (Z.ones 10)].
Proof.
  intros HP. unfold state in HP.
  change CHECKSUM_WORDS_LENGTH with 3. rewrite generateArray_3.
  change (10 * 0) with 0. change (10 * 1) with 10. change (10 * 2) with 20.
  cbn [rev app].
  assert (B : forall n, 0 <= n -> 0 <= Z.shiftr P n < 2 ^ 31).
  { intros n Hn. rewrite Z.shiftr_div_pow2 by lia.
    assert (0 < 2 ^ n) by (apply Z.pow_pos_nonneg; lia). split.
    - apply Z.div_pos; lia.
    - apply Z.div_lt_upper_bound; nia. }
  rewrite !sar_small by lia.
  pose proof (B 20 ltac:(lia)). pose proof (B 10 ltac:(lia)).
  pose proof (B 0 ltac:(lia)).
  change 1023 with (Z.ones 10).
  assert (0 <= Z.ones 10 < 2 ^ 31) by (change (Z.ones 10) with 1023; lia).
  rewrite !band_small by lia.
  rewrite Z.shiftr_0_r. reflexivity.
Qed.

(** The checksum that [rs1024CreateChecksum] appends verifies. *)
Lemma create_then_verify data flag :
  Forall (fun w => 0 <= w < 1024) data ->
  rs1024VerifyChecksum (data ++ rs1024CreateChecksum data flag) flag = true.
Proof.
  intros Hd. unfold rs1024VerifyChecksum, rs1024CreateChecksum, rs1024Polymod.
  set (cs := encodeHexString (get_customization_string flag)).
  assert (Hcs : Forall state (cs ++ data)).
  { apply Forall_app. split; [apply code_units_state|now apply words_state]. }
  assert (H1 : state 1) by (unfold state; lia).
  destruct (polymod_fold_state (cs ++ data) 1 H1 Hcs) as [Hs Es].
  set (s := fold_left rs1024_step (cs ++ data) 1) in *.
  assert (Ez : fold_left rs1024_step
                 ((cs ++ data) ++ generateArray [] CHECKSUM_WORDS_LENGTH
                                                 (fun _ => 0)) 1
               = pstep (pstep (pstep s 0) 0) 0).
  { rewrite fold_left_app. fold s.
    change CHECKSUM_WORDS_LENGTH with 3. rewrite generateArray_3.
    rewrite !fold_left_cons, fold_left_nil.
    assert (Z0 : state 0) by (unfold state; lia).
    rewrite (rs1024_step_pure s 0) by assumption.
    rewrite (rs1024_step_pure (pstep s 0) 0) by auto using pstep_state.
    rewrite (rs1024_step_pure (pstep (pstep s 0) 0) 0)
      by auto using pstep_state.
    reflexivity. }
  rewrite Ez.
  set (P0 := pstep (pstep (pstep s 0) 0) 0).
  assert (HP0 : state P0).
  { assert (Z0 : state 0) by (unfold state; lia).
    unfold P0. auto using pstep_state. }
  assert (HP : state (Z.lxor P0 1)).
  { apply lxor_bound; [lia|exact HP0|lia]. }
  rewrite bxor_small by (unfold state in HP0; lia).
  rewrite checksum_words by exact HP.
  set (P := Z.lxor P0 1) in *.
  rewrite app_assoc, fold_left_app. fold s.
  assert (W : forall n, 0 <= Z.land (Z.shiftr P n) (Z.ones 10) < 2 ^ 10).
  { intros n. rewrite Z.land_ones by lia. apply Z.mod_pos_bound. lia. }
  pose proof (W 20) as W1. pose proof (W 10) as W2. pose proof (W 0) as W3.
  rewrite Z.shiftr_0_r in W3.
  rewrite !fold_left_cons, fold_left_nil.
  set (w1 := Z.land (Z.shiftr P 20) (Z.ones 10)) in *.
  set (w2 := Z.land (Z.shiftr P 10) (Z.ones 10)) in *.
  set (w3 := Z.land P (Z.ones 10)) in *.
  assert (S1 : state w1) by (unfold state; lia).
  assert (S2 : state w2) by (unfold state; lia).
  assert (S3 : state w3) by (unfold state; lia).
  rewrite (rs1024_step_pure s w1) by assumption.
  rewrite (rs1024_step_pure (pstep s w1) w2) by auto using pstep_state.
  rewrite (rs1024_step_pure (pstep (pstep s w1) w2) w3)
    by auto using pstep_state.
  rewrite pstep_three by lia.
  subst w1 w2 w3.
  fold P0. rewrite split_words by exact HP.
  unfold P. rewrite <- Z.lxor_assoc, Z.lxor_nilpotent, Z.lxor_0_l.
  reflexivity.
Qed.

End RS1024Facts.

(* ================================================================= *)
(** ** Words and strings: [mnemonicFromIndices] and [mnemonicToIndices] *)

Module WordFacts.
Import Constants Utils Helper.
Local Open Scope string_scope.

Lemma append_assoc (a b c : string) : (a ++ b) ++ c = a ++ (b ++ c).
Proof. induction a as [|x a IH]; simpl; [reflexivity|now rewrite IH]. Qed.

Lemma append_empty_r (a : string) : a ++ "" = a.
Proof. induction a as [|x a IH]; simpl; [reflexivity|now rewrite IH]. Qed.

(** [free sep s]: the character [sep] does not occur in [s]. *)
Fixpoint free (sep : ascii) (s : string) : bool :=
  match s with
  | EmptyString => true
  | String c r => negb (Ascii.eqb c sep) && free sep r
  end.

Lemma split_aux_free sep w rest cur :
  free sep w = true ->
  JS.split_aux sep (w ++ rest) cur = JS.split_aux sep rest (cur ++ w).
Proof.
  revert cur. induction w as [|c w IH]; intros cur Hf; simpl.
  - now rewrite append_empty_r.
  - simpl in Hf. apply andb_true_iff in Hf as [Hc Hw].
    apply negb_true_iff in Hc. rewrite Hc, IH by exact Hw.
    now rewrite append_assoc.
Qed.

Lemma split_join sep (l : list string) :
  l <> [] -> Forall (fun w => free sep w = true) l ->
  JS.split sep (JS.join (String sep "") l) = l.
Proof.
  intros Hne Hall. unfold JS.split.
  induction Hall as [|w l Hw Hall IH]; [now elim Hne|].
  destruct l as [|w' l].
  - simpl. rewrite <- (append_empty_r w) at 1.
    now rewrite split_aux_free by exact Hw.
  - change (JS.join (String sep "") (w :: w' :: l))
      with (w ++ String sep "" ++ JS.join (String sep "") (w' :: l)).
    rewrite split_aux_free by exact Hw.
    change (String sep "" ++ JS.join (String sep "") (w' :: l))
      with (String sep (JS.join (String sep "") (w' :: l))).
    cbn [JS.split_aux]. rewrite Ascii.eqb_refl. cbn [append].
    f_equal. apply IH. discriminate.
Qed.

Lemma lowercase_free sep s :
  lowercase_letter sep = false -> all_lowercase s = true -> free sep s = true.
Proof.
  intros Hs. induction s as [|c s IH]; intros Hl; [reflexivity|].
  simpl in *. apply andb_true_iff in Hl as [Hc Hl].
  rewrite IH by exact Hl. rewrite andb_true_r. apply negb_true_iff.
  destruct (Ascii.eqb_spec c sep) as [->|]; [congruence|reflexivity].
Qed.

Lemma lower_unit_lowercase c : lowercase_letter c = true -> JS.lower_unit c = c.
Proof.
  unfold lowercase_letter, JS.lower_unit. cbv zeta.
  intros H. apply andb_true_iff in H as [H1 H2].
  apply Nat.leb_le in H1, H2.
  assert (E1 : (nat_of_ascii c <=? 90)%nat = false) by (apply Nat.leb_gt; lia).
  assert (E2 : (192 <=? nat_of_ascii c)%nat = false) by (apply Nat.leb_gt; lia).
  rewrite E1, andb_false_r, E2. reflexivity.
Qed.

Lemma toLowerCase_lowercase s :
  all_lowercase s = true -> JS.toLowerCase s = s.
Proof.
  induction s as [|c s IH]; intros H; [reflexivity|].
  simpl in *. apply andb_true_iff in H as [Hc Hs].
  now rewrite lower_unit_lowercase, IH.
Qed.

Lemma toLowerCase_app a b :
  JS.toLowerCase (a ++ b) = JS.toLowerCase a ++ JS.toLowerCase b.
Proof. induction a as [|c a IH]; simpl; [reflexivity|now rewrite IH]. Qed.

Lemma toLowerCase_join l :
  Forall (fun w => all_lowercase w = true) l ->
  JS.toLowerCase (JS.join " " l) = JS.join " " l.
Proof.
  induction 1 as [|w l Hw Hl IH]; [reflexivity|].
  destruct l as [|w' l]; [now apply toLowerCase_lowercase|].
  change (JS.join " " (w :: w' :: l)) with (w ++ " " ++ JS.join " " (w' :: l)).
  rewrite !toLowerCase_app, IH, toLowerCase_lowercase by exact Hw.
  reflexivity.
Qed.

Section Words.
Context {words : WordList}.

Lemma word_list_words : Forall (fun w => is_word w = true) WORD_LIST.
Proof. apply Forall_forall. apply forallb_forall. apply WORD_LIST_words. Qed.

Lemma distinct_NoDup (l : list string) : distinct l = true -> NoDup l.
Proof.
  induction l as [|w l IH]; intros H; [constructor|].
  simpl in H. apply andb_true_iff in H as [Hw Hl].
  constructor; [|now apply IH].
  intros Hin. apply negb_true_iff in Hw.
  assert (existsb (String.eqb w) l = true); [|congruence].
  apply existsb_exists. exists w. split; [exact Hin|apply String.eqb_refl].
Qed.

Lemma position_nth (l : list string) (n : nat) (w : string) (i : Z) :
  NoDup l -> nth_error l n = Some w ->
  position w l i = Some (i + Z.of_nat n).
Proof.
  intros Hnd. revert n i. induction Hnd as [|x l Hx Hnd IH]; intros n i Hn.
  - destruct n; discriminate.
  - destruct n as [|n]; simpl in *.
    + injection Hn as ->. rewrite String.eqb_refl. f_equal. lia.
    + destruct (String.eqb_spec x w) as [->|].
      * elim Hx. eapply nth_error_In; eauto.
      * rewrite (IH n (i + 1)%Z Hn). f_equal. lia.
Qed.

Lemma position_In (l : list string) (w : string) (i j : Z) :
  position w l i = Some j -> In w l /\ (i <= j < i + Z.of_nat (length l))%Z.
Proof.
  revert i. induction l as [|x l IH]; intros i H; [discriminate|].
  simpl in H. destruct (String.eqb_spec x w) as [->|].
  - injection H as <-. split; [now left|]. simpl length. lia.
  - apply IH in H as [Hin Hb]. split; [now right|]. simpl length. lia.
Qed.

Definition word_index (i : Z) : Prop := (0 <= i < 1024)%Z.

Lemma word_at_spec i :
  word_index i ->
  nth_error WORD_LIST (Z.to_nat i) = Some (word_at i) /\ is_word (word_at i) = true.
Proof.
  intros Hi. unfold word_index in Hi. unfold word_at, JS.index.
  destruct (Z.ltb_spec i 0); [lia|].
  destruct (nth_error WORD_LIST (Z.to_nat i)) as [w|] eqn:E.
  - split; [reflexivity|].
    pose proof word_list_words as Hw. rewrite Forall_forall in Hw.
    apply Hw. eapply nth_error_In; eauto.
  - apply nth_error_None in E. rewrite WORD_LIST_length in E. lia.
Qed.

Lemma WORD_LIST_MAP_word_at i : word_index i -> WORD_LIST_MAP (word_at i) = Some i.
Proof.
  intros Hi. destruct (word_at_spec i Hi) as [Hn _].
  unfold WORD_LIST_MAP.
  rewrite (position_nth _ _ _ 0%Z (distinct_NoDup _ WORD_LIST_distinct) Hn).
  unfold word_index in Hi. f_equal. lia.
Qed.

(** A word the map knows stands at the index it gives. *)
Lemma WORD_LIST_MAP_index w i :
  WORD_LIST_MAP w = Some i -> word_index i.
Proof.
  unfold WORD_LIST_MAP. intros H. apply position_In in H as [_ H].
  rewrite WORD_LIST_length in H. unfold word_index. lia.
Qed.

Lemma is_word_lowercase w : is_word w = true -> all_lowercase w = true.
Proof. unfold is_word. intros H. now apply andb_true_iff in H as [_ H]. Qed.

Lemma lookup_words (l : list Z) (acc : list Z) :
  Forall word_index l ->
  fold_left (fun prev item =>
               p <- prev ;;
               match WORD_LIST_MAP item with
               | None => Err (InvalidMnemonicWord item)
               | Some index => Ok (p ++ [index])%list
               end)
            (map word_at l) (Ok acc)
  = Ok (acc ++ l)%list.
Proof.
  intros Hl. revert acc. induction Hl as [|i l Hi Hl IH]; intros acc.
  - simpl. now rewrite app_nil_r.
  - cbn [map]. rewrite fold_left_cons. cbn [bind].
    rewrite WORD_LIST_MAP_word_at by exact Hi.
    rewrite IH, <- app_assoc. reflexivity.
Qed.

(** The words of a mnemonic made of valid indices are read back. *)
Lemma mnemonicToIndices_FromIndices (indices : list Z) :
  indices <> [] -> Forall word_index indices ->
  mnemonicToIndices (mnemonicFromIndices indices) = Ok indices.
Proof.
  intros Hne Hall. unfold mnemonicToIndices, mnemonicFromIndices.
  assert (Hw : Forall (fun w => all_lowercase w = true) (map word_at indices)).
  { apply Forall_map. eapply Forall_impl; [|exact Hall].
    intros i Hi. apply is_word_lowercase. now apply word_at_spec. }
  assert (Hm : map word_at indices <> []) by (destruct indices; [congruence|discriminate]).
  rewrite split_join; [|exact Hm|].
  2:{ eapply Forall_impl; [|exact Hw]. intros w. now apply lowercase_free. }
  rewrite toLowerCase_join by exact Hw.
  rewrite split_join; [|exact Hm|].
  2:{ eapply Forall_impl; [|exact Hw]. intros w. now apply lowercase_free. }
  now rewrite lookup_words.
Qed.

End Words.
End WordFacts.

(* ================================================================= *)
(** ** Big integers and byte strings: [decodeBigInt] and [encodeBigInt] *)

Module BigIntFacts.
Import Constants Utils.

(** The big-endian value of a list of digits in base [2 ^ w]. *)
Definition value (w : Z) (digits : list Z) : Z :=
  fold_left (fun acc d => acc * 2 ^ w + d) digits 0.

Definition digit (w : Z) (d : Z) : Prop := 0 <= d < 2 ^ w.

Lemma value_acc w digits a :
  fold_left (fun acc d => acc * 2 ^ w + d) digits a
  = a * 2 ^ (w * Z.of_nat (length digits)) + value w digits.
Proof.
  unfold value. revert a. induction digits as [|d l IH]; intros a.
  - simpl. rewrite Z.mul_0_r. simpl. lia.
  - rewrite !fold_left_cons, IH, (IH (0 * 2 ^ w + d)).
    replace (w * Z.of_nat (length (d :: l)))
      with (w + w * Z.of_nat (length l)) by (simpl length; lia).
    destruct (Z_lt_dec w 0) as [Hw|Hw].
    + rewrite (Z.pow_neg_r 2 w) by lia.
      destruct (Z.eq_dec (Z.of_nat (length l)) 0) as [E|E].
      * rewrite E, !Z.mul_0_r, Z.add_0_r, (Z.pow_neg_r 2 w) by lia. lia.
      * rewrite !Z.pow_neg_r by nia. lia.
    + rewrite Z.pow_add_r by nia. ring.
Qed.

Lemma value_snoc w digits d : value w (digits ++ [d]) = value w digits * 2 ^ w + d.
Proof. unfold value. now rewrite fold_left_app. Qed.

Lemma value_cons w d digits :
  value w (d :: digits) = d * 2 ^ (w * Z.of_nat (length digits)) + value w digits.
Proof.
  unfold value at 1. rewrite fold_left_cons, value_acc. lia.
Qed.

Lemma value_bound w digits :
  0 <= w -> Forall (digit w) digits ->
  0 <= value w digits < 2 ^ (w * Z.of_nat (length digits)).
Proof.
  intros Hw. induction digits as [|d l IH] using rev_ind; intros H.
  - simpl. unfold value. simpl. lia.
  - apply Forall_app in H as [Hl Hd]. inversion Hd as [|? ? Hd' _]; subst.
    specialize (IH Hl). rewrite value_snoc, length_app. simpl length.
    replace (w * Z.of_nat (length l + 1)) with (w * Z.of_nat (length l) + w) by lia.
    rewrite Z.pow_add_r by nia. unfold digit in Hd'.
    assert (0 < 2 ^ w) by (apply Z.pow_pos_nonneg; lia). nia.
Qed.

(** [decodeBigInt] computes the big-endian value. *)
Lemma decodeBigInt_loop_spec rbytes i acc :
  0 <= i ->
  decodeBigInt_loop rbytes i acc = acc + 2 ^ (8 * i) * value 8 (rev rbytes).
Proof.
  revert i acc. induction rbytes as [|b l IH]; intros i acc Hi.
  - simpl. unfold value. simpl. lia.
  - cbn [decodeBigInt_loop rev]. rewrite IH by lia.
    rewrite value_snoc, Z.shiftl_mul_pow2 by lia.
    replace (8 * (i + 1)) with (8 * i + 8) by lia.
    rewrite Z.pow_add_r by lia. ring.
Qed.

Lemma decodeBigInt_value bs : decodeBigInt bs = value 8 bs.
Proof.
  unfold decodeBigInt. rewrite decodeBigInt_loop_spec by lia.
  rewrite rev_involutive. change (2 ^ (8 * 0)) with 1. lia.
Qed.

(** Leading zeros dropped. *)
Fixpoint strip0 (bs : list Z) : list Z :=
  match bs with
  | [] => []
  | b :: r => if b =? 0 then strip0 r else bs
  end.

Lemma strip0_length bs : (length (strip0 bs) <= length bs)%nat.
Proof.
  induction bs as [|b r IH]; simpl; [lia|].
  destruct (b =? 0); simpl; lia.
Qed.

Lemma strip0_pad bs :
  repeat 0 (length bs - length (strip0 bs)) ++ strip0 bs = bs.
Proof.
  induction bs as [|b r IH]; [reflexivity|].
  simpl strip0. destruct (Z.eqb_spec b 0) as [->|Hb].
  - pose proof (strip0_length r).
    replace (length (0%Z :: r) - length (strip0 r))%nat
      with (S (length r - length (strip0 r))) by (simpl length; lia).
    simpl. now rewrite IH.
  - now rewrite Nat.sub_diag.
Qed.

Lemma strip0_zero bs :
  Forall (digit 8) bs -> value 8 bs = 0 -> strip0 bs = [].
Proof.
  induction bs as [|b r IH]; intros H E; [reflexivity|].
  inversion H as [|? ? Hb Hr]; subst.
  rewrite value_cons in E.
  pose proof (value_bound 8 r ltac:(lia) Hr) as Hv. unfold digit in Hb.
  assert (0 < 2 ^ (8 * Z.of_nat (length r))) by (apply Z.pow_pos_nonneg; lia).
  assert (b = 0) by nia. subst b.
  simpl. apply IH; [exact Hr|lia].
Qed.

Lemma strip0_snoc bs b :
  Forall (digit 8) bs -> digit 8 b -> 0 < value 8 (bs ++ [b]) ->
  strip0 (bs ++ [b]) = strip0 bs ++ [b].
Proof.
  induction bs as [|x r IH]; intros H Hb Hv.
  - simpl. unfold value in Hv. simpl in Hv.
    destruct (Z.eqb_spec b 0); [lia|reflexivity].
  - inversion H as [|? ? Hx Hr]; subst.
    cbn [app strip0]. destruct (Z.eqb_spec x 0) as [->|]; [|reflexivity].
    apply IH; [exact Hr|exact Hb|].
    change ((0 :: r) ++ [b]) with (0 :: (r ++ [b])) in Hv.
    rewrite value_cons in Hv. lia.
Qed.

Lemma encodeBigInt_loop_zero fuel acc number :
  number <= 0 -> encodeBigInt_loop fuel number acc = acc.
Proof.
  intros H. destruct fuel; [reflexivity|]. simpl.
  destruct (Z.gtb_spec number 0); [lia|reflexivity].
Qed.

(** The loop writes the bytes of the value, without leading zeros. *)
Lemma encodeBigInt_loop_spec bs :
  Forall (digit 8) bs ->
  forall fuel acc, (length (strip0 bs) <= fuel)%nat ->
  encodeBigInt_loop fuel (value 8 bs) acc = strip0 bs ++ acc.
Proof.
  induction bs as [|b r IH] using rev_ind; intros H fuel acc Hf.
  - simpl. now apply encodeBigInt_loop_zero.
  - apply Forall_app in H as [Hr Hb]. inversion Hb as [|? ? Hb' _]; subst.
    pose proof (value_bound 8 r ltac:(lia) Hr) as Hv.
    destruct (Z.eq_dec (value 8 (r ++ [b])) 0) as [E|E].
    + rewrite E, strip0_zero; [now apply encodeBigInt_loop_zero| |exact E].
      apply Forall_app; split; [exact Hr|now constructor].
    + assert (Hpos : 0 < value 8 (r ++ [b])).
      { rewrite value_snoc in *. unfold digit in Hb'. nia. }
      rewrite strip0_snoc in * by assumption.
      rewrite length_app in Hf. simpl in Hf.
      destruct fuel as [|fuel]; [lia|].
      cbn [encodeBigInt_loop].
      destruct (Z.gtb_spec (value 8 (r ++ [b])) 0); [|lia].
      rewrite value_snoc. unfold digit in Hb'.
      rewrite Z.shiftr_div_pow2 by lia.
      replace ((value 8 r * 2 ^ 8 + b) / 2 ^ 8) with (value 8 r)
        by (apply Z.div_unique with b; lia).
      change 255 with (Z.ones 8). rewrite Z.land_ones by lia.
      replace ((value 8 r * 2 ^ 8 + b) mod 2 ^ 8) with b
        by (apply Z.mod_unique with (value 8 r); lia).
      rewrite IH by (assumption || lia).
      now rewrite <- app_assoc.
Qed.

Lemma strip0_fuel bs :
  Forall (digit 8) bs ->
  (length (strip0 bs) <= S (Z.to_nat (Z.log2 (value 8 bs))))%nat.
Proof.
  intros H. induction bs as [|b r IH]; [simpl; lia|].
  inversion H as [|? ? Hb Hr]; subst. specialize (IH Hr).
  simpl strip0. destruct (Z.eqb_spec b 0) as [->|Hnz].
  - rewrite value_cons. simpl (0 * _). simpl (0 + _). exact IH.
  - rewrite value_cons. simpl length.
    pose proof (value_bound 8 r ltac:(lia) Hr) as Hv. unfold digit in Hb.
    set (n := Z.of_nat (length r)) in *.
    assert (Hp : 2 ^ (8 * n) <= b * 2 ^ (8 * n) + value 8 r).
    { assert (0 < 2 ^ (8 * n)) by (apply Z.pow_pos_nonneg; lia). nia. }
    apply Z.log2_le_pow2 in Hp; [|assert (0 < 2 ^ (8 * n))
                                     by (apply Z.pow_pos_nonneg; lia); lia].
    lia.
Qed.

(** Round trip: a byte string is read back from its value. *)
Lemma encodeBigInt_decodeBigInt bs :
  Forall byte bs -> bs <> [] ->
  encodeBigInt (decodeBigInt bs) (Z.of_nat (length bs)) = Ok bs.
Proof.
  intros Hb Hne. unfold encodeBigInt.
  assert (Hd : Forall (digit 8) bs) by exact Hb.
  rewrite decodeBigInt_value.
  rewrite encodeBigInt_loop_spec by (exact Hd || now apply strip0_fuel).
  rewrite app_nil_r. unfold zero_pad. rewrite Nat2Z.id, strip0_pad.
  destruct bs as [|b r]; [congruence|].
  replace (Z.of_nat (length (b :: r)) =? 0) with false
    by (symmetry; apply Z.eqb_neq; simpl length; lia).
  rewrite Z.gtb_ltb, Z.ltb_irrefl. reflexivity.
Qed.

(** The length of the result of the loop: at most [k] bytes below
    [256 ^ k], more than [k] from [256 ^ k] on. *)
Lemma encodeBigInt_loop_length_le k :
  forall fuel number acc,
    number < 2 ^ (8 * Z.of_nat k) ->
    (length (encodeBigInt_loop fuel number acc) <= k + length acc)%nat.
Proof.
  induction k as [|k IH]; intros fuel number acc H.
  - rewrite encodeBigInt_loop_zero by (simpl in H; lia). lia.
  - destruct fuel as [|fuel]; [simpl; lia|]. cbn [encodeBigInt_loop].
    destruct (Z.gtb_spec number 0); [|lia].
    eapply Nat.le_trans; [apply IH|simpl length; lia].
    rewrite Z.shiftr_div_pow2 by lia.
    apply Z.div_lt_upper_bound; [lia|].
    rewrite <- Z.pow_add_r by lia.
    replace (8 + 8 * Z.of_nat k) with (8 * Z.of_nat (S k)) by lia. exact H.
Qed.

Lemma encodeBigInt_loop_length_mono fuel :
  forall number acc,
    (length acc <= length (encodeBigInt_loop fuel number acc))%nat.
Proof.
  induction fuel as [|fuel IH]; intros number acc; [simpl; lia|].
  cbn [encodeBigInt_loop]. destruct (number >? 0); [|lia].
  eapply Nat.le_trans; [|apply IH]. simpl. lia.
Qed.

Lemma encodeBigInt_loop_length_gt k :
  forall fuel number acc,
    2 ^ (8 * Z.of_nat k) <= number -> (k < fuel)%nat ->
    (k + length acc < length (encodeBigInt_loop fuel number acc))%nat.
Proof.
  induction k as [|k IH]; intros fuel number acc H Hf.
  - destruct fuel as [|fuel]; [lia|]. cbn [encodeBigInt_loop].
    simpl in H. destruct (Z.gtb_spec number 0); [|lia].
    eapply Nat.lt_le_trans; [|apply encodeBigInt_loop_length_mono].
    simpl. lia.
  - destruct fuel as [|fuel]; [lia|]. cbn [encodeBigInt_loop].
    assert (0 < 2 ^ (8 * Z.of_nat (S k))) by (apply Z.pow_pos_nonneg; lia).
    destruct (Z.gtb_spec number 0); [|lia].
    eapply Nat.le_lt_trans; [|apply IH].
    + simpl. lia.
    + rewrite Z.shiftr_div_pow2 by lia.
      apply Z.div_le_lower_bound; [lia|].
      rewrite <- Z.pow_add_r by lia.
      replace (8 + 8 * Z.of_nat k) with (8 * Z.of_nat (S k)) by lia. exact H.
    + lia.
Qed.

(** [encodeBigInt] succeeds exactly on the numbers that fit. *)
Lemma encodeBigInt_ok_iff number paddedLength :
  0 <= number -> 0 < paddedLength ->
  is_ok (encodeBigInt number paddedLength) = true
  <-> number < 2 ^ (8 * paddedLength).
Proof.
  intros Hn Hp. unfold encodeBigInt.
  set (fuel := S (Z.to_nat (Z.log2 number))).
  set (r := encodeBigInt_loop fuel number []).
  replace (paddedLength =? 0) with false by (symmetry; apply Z.eqb_neq; lia).
  cbn [negb andb]. unfold zero_pad. rewrite length_app, repeat_length.
  set (k := Z.to_nat paddedLength).
  assert (Ek : paddedLength = Z.of_nat k) by (unfold k; lia).
  destruct (Z_lt_dec number (2 ^ (8 * paddedLength))) as [Hlt|Hge].
  - pose proof (encodeBigInt_loop_length_le k fuel number [] ltac:(now rewrite <- Ek)) as L.
    fold r in L. simpl in L.
    destruct (Z.gtb_spec (Z.of_nat (k - length r + length r)) paddedLength);
      [exfalso; lia|]. cbn [is_ok]. tauto.
  - assert (Hf : (k < fuel)%nat).
    { unfold fuel. assert (2 ^ (8 * paddedLength) <= number) as Hle by lia.
      apply Z.log2_le_pow2 in Hle; lia. }
    pose proof (encodeBigInt_loop_length_gt k fuel number []
                  ltac:(rewrite <- Ek; lia) Hf) as G.
    fold r in G. simpl in G.
    destruct (Z.gtb_spec (Z.of_nat (k - length r + length r)) paddedLength);
      [|exfalso; lia]. cbn [is_ok]. split; [discriminate|intros Hc; exfalso; lia].
Qed.

End BigIntFacts.

(* ================================================================= *)
(** ** Digits: [intToIndices] and [intFromIndices] *)

Module IndexFacts.
Import Constants Utils Helper JSFacts BigIntFacts.

Lemma range_S n : range (Z.of_nat (S n)) = range (Z.of_nat n) ++ [Z.of_nat n].
Proof.
  unfold range. rewrite !Nat2Z.id, seq_S, map_app. reflexivity.
Qed.

Lemma range_length n : length (range n) = Z.to_nat n.
Proof. unfold range. now rewrite length_map, length_seq. Qed.

Lemma range_nonpos n : n <= 0 -> range n = [].
Proof. intros H. unfold range. now replace (Z.to_nat n) with 0%nat by lia. Qed.

Lemma generateArray_nil {T} n (f : Z -> T) : generateArray [] n f = map f (range n).
Proof.
  unfold generateArray, JS.truthy. destruct (Z.eqb_spec n 0) as [->|]; reflexivity.
Qed.

Lemma generateArray_length {T} n (f : Z -> T) :
  length (generateArray [] n f) = Z.to_nat n.
Proof. now rewrite generateArray_nil, length_map, range_length. Qed.

Lemma intFromIndices_value indices : intFromIndices indices = value 10 indices.
Proof. reflexivity. Qed.

Lemma mask_ones w : 0 <= w <= 30 -> JS.shl 1 w - 1 = Z.ones w.
Proof.
  intros Hw. rewrite shl_small.
  - rewrite Z.ones_equiv. lia.
  - lia.
  - lia.
  - rewrite Z.mul_1_l. apply Z.pow_lt_mono_r; lia.
Qed.

(** The digits of [v] in base [2 ^ w], the most significant first. *)
Definition digits (w : Z) (n : nat) (v : Z) : list Z :=
  rev (map (fun i => Z.land (Z.shiftr v (i * w)) (Z.ones w)) (range (Z.of_nat n))).

Lemma intToIndices_digits v n w :
  0 <= w <= 30 -> intToIndices v n w = digits w (Z.to_nat n) v.
Proof.
  intros Hw. unfold intToIndices, digits. rewrite mask_ones by exact Hw.
  rewrite generateArray_nil. destruct (Z_le_dec n 0) as [Hn|Hn].
  - rewrite range_nonpos by exact Hn.
    now replace (Z.to_nat n) with 0%nat by lia.
  - now rewrite Z2Nat.id by lia.
Qed.

Lemma digits_S w n v :
  0 <= w ->
  digits w (S n) v = digits w n (Z.shiftr v w) ++ [Z.land v (Z.ones w)].
Proof.
  intros Hw. unfold digits, range. rewrite !Nat2Z.id.
  change (seq 0 (S n)) with (0%nat :: seq 1 n).
  cbn [map rev]. change (Z.of_nat 0 * w) with 0.
  rewrite Z.shiftr_0_r. f_equal. f_equal.
  rewrite <- seq_shift, !map_map.
  apply map_ext. intros i. rewrite Z.shiftr_shiftr by lia.
  f_equal. f_equal. lia.
Qed.

Lemma digits_length w n v : length (digits w n v) = n.
Proof.
  unfold digits. now rewrite length_rev, length_map, range_length, Nat2Z.id.
Qed.

Lemma digits_digit w n v : 0 <= w -> Forall (digit w) (digits w n v).
Proof.
  intros Hw. unfold digits. apply Forall_rev, Forall_map, Forall_forall.
  intros i _. unfold digit. rewrite Z.land_ones by exact Hw.
  apply Z.mod_pos_bound. apply Z.pow_pos_nonneg; lia.
Qed.

Lemma value_digits w n v :
  0 <= w -> 0 <= v < 2 ^ (w * Z.of_nat n) -> value w (digits w n v) = v.
Proof.
  intros Hw. revert v. induction n as [|n IH]; intros v Hv.
  - rewrite Z.mul_0_r in Hv. simpl in Hv. unfold digits, value. simpl. lia.
  - rewrite digits_S, value_snoc by exact Hw.
    assert (0 < 2 ^ w) by (apply Z.pow_pos_nonneg; lia).
    rewrite IH.
    + rewrite Z.shiftr_div_pow2, Z.land_ones by exact Hw.
      pose proof (Z.div_mod v (2 ^ w)). lia.
    + rewrite Z.shiftr_div_pow2 by exact Hw. split.
      * apply Z.div_pos; lia.
      * apply Z.div_lt_upper_bound; [lia|].
        rewrite <- Z.pow_add_r by lia.
        now replace (w + w * Z.of_nat n) with (w * Z.of_nat (S n)) by lia.
Qed.

Lemma digits_value w ds :
  0 <= w -> Forall (digit w) ds -> digits w (length ds) (value w ds) = ds.
Proof.
  intros Hw. induction ds as [|d l IH] using rev_ind; intros H; [reflexivity|].
  apply Forall_app in H as [Hl Hd]. inversion Hd as [|? ? Hd' _]; subst.
  rewrite length_app, Nat.add_comm. cbn [length Nat.add].
  rewrite digits_S, value_snoc by exact Hw.
  unfold digit in Hd'.
  rewrite Z.shiftr_div_pow2, Z.land_ones by exact Hw.
  replace ((value w l * 2 ^ w + d) / 2 ^ w) with (value w l)
    by (apply Z.div_unique with d; lia).
  replace ((value w l * 2 ^ w + d) mod 2 ^ w) with d
    by (apply Z.mod_unique with (value w l); lia).
  now rewrite IH.
Qed.

Lemma digits_word_index n v : Forall WordFacts.word_index (digits 10 n v).
Proof. exact (digits_digit 10 n v ltac:(lia)). Qed.

(** Slices of a list given in pieces. *)
Lemma slice_head {A} (a b : list A) n :
  n = Z.of_nat (length a) -> JS.slice (a ++ b) 0 n = a.
Proof.
  intros ->. unfold JS.slice. rewrite Nat2Z.id. simpl.
  rewrite Nat.sub_0_r, firstn_app, Nat.sub_diag, firstn_all. simpl.
  apply app_nil_r.
Qed.

Lemma slice_middle {A} (a b c : list A) m n :
  m = Z.of_nat (length a) -> n = Z.of_nat (length a + length b) ->
  JS.slice (a ++ b ++ c) m n = b.
Proof.
  intros -> ->. unfold JS.slice. rewrite !Nat2Z.id.
  rewrite skipn_app, skipn_all, Nat.sub_diag. simpl.
  replace (length a + length b - length a)%nat with (length b) by lia.
  rewrite firstn_app, Nat.sub_diag, firstn_all. simpl. apply app_nil_r.
Qed.

End IndexFacts.


(* ================================================================= *)
(** ** The fields of a mnemonic: what [decodeIndices] computes *)

Module DecodeFacts.
Import Constants Utils Helper JSFacts BigIntFacts IndexFacts WordFacts.

(** The first two words as a 20-bit number, and the next two. *)
Definition prefix (data : list Z) : Z := nth 0 data 0 * 1024 + nth 1 data 0.
Definition params (data : list Z) : Z := nth 2 data 0 * 1024 + nth 3 data 0.

(** The words of the share value: all but four in front and three behind. *)
Definition share_words (data : list Z) : list Z :=
  firstn (length data - 7) (skipn 4 data).

(** The length residual: the number of padding bits. *)
Definition residual (data : list Z) : Z :=
  (10 * (Z.of_nat (length data) - 7)) mod 16.

(** The number of bytes of the share. *)
Definition share_bytes (data : list Z) : Z :=
  (10 * Z.of_nat (length (share_words data)) - residual data + 7) / 8.

Definition identifier_of (data : list Z) : Z := prefix data / 32.
Definition flag_of (data : list Z) : Z := (prefix data / 16) mod 2.
Definition exponent_of (data : list Z) : Z := prefix data mod 16.
Definition nibble (data : list Z) (k : Z) : Z := (params data / 2 ^ (4 * k)) mod 16.

(** The fields, as the bits of the words. *)
Definition fields (data : list Z) (share : list Z) : IDecodedMnemonic :=
  {| identifier := identifier_of data;
     extendableBackupFlag := flag_of data;
     iterationExponent := exponent_of data;
     groupIndex := nibble data 4;
     groupThreshold := nibble data 3 + 1;
     groupCount := nibble data 2 + 1;
     memberIndex := nibble data 1;
     memberThreshold := nibble data 0 + 1;
     share := share |}.

Lemma digits5 w v :
  digits w 5 v
  = [Z.land (Z.shiftr v (4 * w)) (Z.ones w); Z.land (Z.shiftr v (3 * w)) (Z.ones w);
     Z.land (Z.shiftr v (2 * w)) (Z.ones w); Z.land (Z.shiftr v (1 * w)) (Z.ones w);
     Z.land (Z.shiftr v (0 * w)) (Z.ones w)].
Proof. reflexivity. Qed.

Lemma digits2 w v :
  digits w 2 v
  = [Z.land (Z.shiftr v (1 * w)) (Z.ones w); Z.land (Z.shiftr v (0 * w)) (Z.ones w)].
Proof. reflexivity. Qed.

Lemma shiftr_land_divmod v k w :
  0 <= k -> 0 <= w ->
  Z.land (Z.shiftr v k) (Z.ones w) = (v / 2 ^ k) mod 2 ^ w.
Proof. intros Hk Hw. now rewrite Z.land_ones, Z.shiftr_div_pow2. Qed.

Lemma two_words w0 w1 :
  word_index w0 -> word_index w1 -> 0 <= w0 * 1024 + w1 < 2 ^ 20.
Proof. unfold word_index. lia. Qed.

(** [decodeIndices] on twenty or more word indices. *)
Lemma decodeIndices_fields (data : list Z) :
  Forall word_index data -> 20 <= Z.of_nat (length data) ->
  decodeIndices data =
  if residual data >? 8 then Err InvalidMnemonicResidual
  else if negb (rs1024VerifyChecksum data (flag_of data)) then Err InvalidChecksum
  else if nibble data 2 <? nibble data 3
  then Err (GroupThresholdExceedsCount (nibble data 3) (nibble data 2))
  else match encodeBigInt (value 10 (share_words data)) (share_bytes data) with
       | Ok share => Ok (fields data share)
       | Err _ => Err InvalidPadding
       end.
Proof.
  intros Hd Hl.
  destruct data as [|w0 [|w1 [|w2 [|w3 rest]]]]; try (simpl in Hl; lia).
  assert (H0 : word_index w0) by (now inversion Hd).
  assert (H1 : word_index w1) by (inversion Hd as [|? ? _ Hd1]; now inversion Hd1).
  assert (H2 : word_index w2)
    by (inversion Hd as [|? ? _ Hd1]; inversion Hd1 as [|? ? _ Hd2]; now inversion Hd2).
  assert (H3 : word_index w3)
    by (inversion Hd as [|? ? _ Hd1]; inversion Hd1 as [|? ? _ Hd2];
        inversion Hd2 as [|? ? _ Hd3]; now inversion Hd3).
  set (data := w0 :: w1 :: w2 :: w3 :: rest) in *.
  unfold decodeIndices. cbv zeta.
  change (JS.slice data 0 ITERATION_EXP_WORDS_LENGTH) with [w0; w1].
  change (JS.slice data ITERATION_EXP_WORDS_LENGTH (ITERATION_EXP_WORDS_LENGTH + 2))
    with [w2; w3].
  replace (intFromIndices [w0; w1]) with (prefix data)
    by (unfold intFromIndices, prefix, data; cbn; lia).
  replace (intFromIndices [w2; w3]) with (params data)
    by (unfold intFromIndices, params, data; cbn; lia).
  assert (HP : 0 <= prefix data < 2 ^ 20) by (apply two_words; assumption).
  assert (HQ : 0 <= params data < 2 ^ 20) by (apply two_words; assumption).
  destruct (Z.ltb_spec (Z.of_nat (length data)) MNEMONICS_WORDS_LENGTH) as [Hs|_];
    [unfold MNEMONICS_WORDS_LENGTH in Hs; lia|].
  assert (Er : JS.rem (RADIX_BITS * (Z.of_nat (length data) - METADATA_WORDS_LENGTH)) 16
               = residual data).
  { unfold JS.rem, residual, RADIX_BITS, METADATA_WORDS_LENGTH.
    apply Z.rem_mod_nonneg; lia. }
  rewrite !Er.
  assert (Es : JS.slice data (ITERATION_EXP_WORDS_LENGTH + 2)
                 (Z.of_nat (length data) - CHECKSUM_WORDS_LENGTH)
               = share_words data).
  { unfold JS.slice, share_words, CHECKSUM_WORDS_LENGTH.
    change (Z.to_nat (ITERATION_EXP_WORDS_LENGTH + 2)) with 4%nat.
    f_equal. lia. }
  rewrite !Es.
  assert (Ef : JS.band (JS.sar (prefix data) ITERATION_EXP_BITS_LENGTH)
                 (JS.shl 1 EXTENDABLE_BACKUP_FLAG_BITS_LENGTH - 1)
               = flag_of data).
  { unfold ITERATION_EXP_BITS_LENGTH, EXTENDABLE_BACKUP_FLAG_BITS_LENGTH, flag_of.
    rewrite mask_ones, sar_small by lia.
    assert (0 <= Z.shiftr (prefix data) 4 < 2 ^ 31).
    { rewrite Z.shiftr_div_pow2 by lia. split; [apply Z.div_pos; lia|].
      apply Z.div_lt_upper_bound; lia. }
    rewrite band_small by (change (Z.ones 1) with 1; lia).
    now rewrite shiftr_land_divmod by lia. }
  rewrite !Ef.
  assert (Ei : JS.sar (prefix data)
                 (ITERATION_EXP_BITS_LENGTH + EXTENDABLE_BACKUP_FLAG_BITS_LENGTH)
               = identifier_of data).
  { unfold ITERATION_EXP_BITS_LENGTH, EXTENDABLE_BACKUP_FLAG_BITS_LENGTH, identifier_of.
    rewrite sar_small by lia. now rewrite Z.shiftr_div_pow2 by lia. }
  rewrite !Ei.
  assert (Ee : JS.band (prefix data) (JS.shl 1 ITERATION_EXP_BITS_LENGTH - 1)
               = exponent_of data).
  { unfold ITERATION_EXP_BITS_LENGTH, exponent_of.
    rewrite mask_ones by lia.
    rewrite band_small by (change (Z.ones 4) with 15; lia).
    now rewrite Z.land_ones by lia. }
  rewrite !Ee.
  rewrite (intToIndices_digits (params data) 5 4) by lia.
  change (Z.to_nat 5) with 5%nat. rewrite digits5. cbn [nth].
  rewrite !shiftr_land_divmod by lia.
  change (2 ^ 4) with 16.
  change (4 * 4) with (4 * 4). change (3 * 4) with (4 * 3).
  change (2 * 4) with (4 * 2). change (1 * 4) with (4 * 1).
  change (0 * 4) with (4 * 0).
  fold (nibble data 4) (nibble data 3) (nibble data 2) (nibble data 1)
       (nibble data 0).
  unfold bitsToBytes, RADIX_BITS. fold (share_bytes data).
  reflexivity.
Qed.

End DecodeFacts.


(* ================================================================= *)
(** ** The words [encodeMnemonic] writes *)

Module EncodeFacts.
Import Constants Utils Helper JSFacts BigIntFacts IndexFacts WordFacts DecodeFacts.

(** The 20-bit number in front, as [groupPrefix] computes it. *)
Definition prefix_number (idv flag e : Z) : Z := JS.shl idv 5 + JS.shl flag 4 + e.

(** The two words of indices and thresholds. *)
Definition header_words (gi gt gc mi mt : Z) : list Z :=
  [gi * 64 + (gt - 1) * 4 + (gc - 1) / 4;
   ((gc - 1) mod 4) * 256 + mi * 16 + (mt - 1)].

Definition value_words (value : list Z) : list Z :=
  digits 10 (Z.to_nat (bitsToWords (Z.of_nat (length value) * 8)))
         (decodeBigInt value).

Definition share_data (id : list Z) (flag e gi gt gc mi mt : Z)
           (value : list Z) : list Z :=
  digits 10 2 (prefix_number (JS.number (decodeBigInt id)) flag e)
  ++ header_words gi gt gc mi mt ++ value_words value.

Lemma number_exact n : Z.abs n < 2 ^ 53 -> JS.number n = n.
Proof.
  intros H. unfold JS.number. cbv zeta.
  destruct (Z.ltb_spec (Z.abs n) (2 ^ 53)); [reflexivity|lia].
Qed.

(** The indices of the words of a mnemonic. *)
Definition encodeIndices (id : list Z) (flag e gi gt gc mi mt : Z)
           (value : list Z) : list Z :=
  share_data id flag e gi gt gc mi mt value
  ++ rs1024CreateChecksum (share_data id flag e gi gt gc mi mt value) flag.

(** The ranges of the four-bit fields. *)
Definition nibbles (gi gt gc mi mt : Z) : Prop :=
  0 <= gi <= 15 /\ 1 <= gt <= 16 /\ 1 <= gc <= 16 /\ 0 <= mi <= 15
  /\ 1 <= mt <= 16.

Section Words.
Context {words : WordList}.

Lemma encodeMnemonic_indices id flag e gi gt gc mi mt value :
  nibbles gi gt gc mi mt ->
  encodeMnemonic id flag e gi gt gc mi mt value
  = mnemonicFromIndices (encodeIndices id flag e gi gt gc mi mt value).
Proof.
  intros (Hgi & Hgt & Hgc & Hmi & Hmt).
  unfold encodeMnemonic, encodeIndices, share_data, groupPrefix. cbv zeta.
  unfold ITERATION_EXP_BITS_LENGTH, EXTENDABLE_BACKUP_FLAG_BITS_LENGTH.
  change (4 + 1) with 5. fold (prefix_number (JS.number (decodeBigInt id)) flag e).
  rewrite (intToIndices_digits _ ITERATION_EXP_WORDS_LENGTH RADIX_BITS)
    by (unfold RADIX_BITS; lia).
  rewrite (intToIndices_digits _ _ RADIX_BITS) by (unfold RADIX_BITS; lia).
  change (Z.to_nat ITERATION_EXP_WORDS_LENGTH) with 2%nat.
  unfold RADIX_BITS. fold (value_words value).
  rewrite (shl_le gi 6 15), (shl_le (gt - 1) 2 15), (shl_le mi 4 15)
    by first [lia | reflexivity].
  rewrite (sar_small (gc - 1) 2) by lia.
  rewrite (band_small (gc - 1) 3) by lia.
  change (Z.land (gc - 1) 3) with (Z.land (gc - 1) (Z.ones 2)).
  rewrite Z.land_ones by lia.
  assert (0 <= (gc - 1) mod 2 ^ 2 < 2 ^ 2) by (apply Z.mod_pos_bound; lia).
  rewrite (shl_le _ 8 4) by first [change (2 ^ 2) with 4 in *; lia | reflexivity].
  rewrite Z.shiftr_div_pow2 by lia.
  change (2 ^ 6) with 64. change (2 ^ 2) with 4. change (2 ^ 8) with 256.
  change (2 ^ 4) with 16.
  unfold header_words. rewrite <- !app_assoc. reflexivity.
Qed.

End Words.

Lemma value_words_length value :
  length (value_words value)
  = Z.to_nat (bitsToWords (Z.of_nat (length value) * 8)).
Proof. unfold value_words. apply digits_length. Qed.

Lemma header_words_index gi gt gc mi mt :
  nibbles gi gt gc mi mt -> Forall word_index (header_words gi gt gc mi mt).
Proof.
  intros (Hgi & Hgt & Hgc & Hmi & Hmt). unfold header_words, word_index.
  constructor; [cbv beta; dlia|]. constructor; [cbv beta; dlia|constructor].
Qed.

Lemma share_data_index id flag e gi gt gc mi mt value :
  nibbles gi gt gc mi mt ->
  Forall word_index (share_data id flag e gi gt gc mi mt value).
Proof.
  intros H. unfold share_data. apply Forall_app. split; [apply digits_word_index|].
  apply Forall_app. split; [now apply header_words_index|apply digits_word_index].
Qed.

Lemma checksum_index data flag :
  Forall word_index data -> Forall word_index (rs1024CreateChecksum data flag)
  /\ length (rs1024CreateChecksum data flag) = 3%nat.
Proof.
  intros Hd. unfold rs1024CreateChecksum.
  set (values := (_ ++ data) ++ _).
  assert (Hs : RS1024Facts.state (rs1024Polymod values)).
  { unfold rs1024Polymod. apply RS1024Facts.polymod_fold_state.
    - unfold RS1024Facts.state. lia.
    - unfold values. apply Forall_app. split.
      + apply Forall_app. split; [apply RS1024Facts.code_units_state|].
        now apply RS1024Facts.words_state.
      + change CHECKSUM_WORDS_LENGTH with 3. rewrite generateArray_3.
        assert (Z0 : RS1024Facts.state 0) by (unfold RS1024Facts.state; lia).
        constructor; [exact Z0|]. constructor; [exact Z0|].
        constructor; [exact Z0|]. constructor. }
  assert (Hx : RS1024Facts.state (JS.bxor (rs1024Polymod values) 1)).
  { unfold RS1024Facts.state in *. rewrite bxor_small by lia.
    apply lxor_bound; lia. }
  rewrite RS1024Facts.checksum_words by exact Hx.
  split; [|reflexivity].
  assert (W : forall z, word_index (Z.land z (Z.ones 10))).
  { intros z. unfold word_index. change 1024 with (2 ^ 10).
    rewrite Z.land_ones by lia. apply Z.mod_pos_bound. lia. }
  constructor; [apply W|]. constructor; [apply W|].
  constructor; [apply W|]. constructor.
Qed.

Lemma encodeIndices_index id flag e gi gt gc mi mt value :
  nibbles gi gt gc mi mt ->
  Forall word_index (encodeIndices id flag e gi gt gc mi mt value).
Proof.
  intros H. unfold encodeIndices. apply Forall_app. split.
  - now apply share_data_index.
  - apply checksum_index. now apply share_data_index.
Qed.

(** A share of even length of sixteen bytes or more. *)
Definition share_length (value : list Z) : Prop :=
  16 <= Z.of_nat (length value) /\ Z.of_nat (length value) mod 2 = 0.

Lemma encodeIndices_length id flag e gi gt gc mi mt value :
  Z.of_nat (length (encodeIndices id flag e gi gt gc mi mt value))
  = bitsToWords (Z.of_nat (length value) * 8) + 7.
Proof.
  unfold encodeIndices, share_data.
  rewrite !length_app, digits_length, value_words_length.
  assert (L : length (rs1024CreateChecksum
                        (digits 10 2 (prefix_number (JS.number (decodeBigInt id)) flag e)
                         ++ header_words gi gt gc mi mt ++ value_words value) flag)
              = 3%nat).
  { unfold rs1024CreateChecksum. rewrite length_rev.
    now rewrite generateArray_length. }
  rewrite L. unfold header_words. simpl length.
  unfold bitsToWords, RADIX_BITS.
  assert (0 <= (Z.of_nat (length value) * 8 + 10 - 1) / 10)
    by (apply Z.div_pos; lia).
  lia.
Qed.

(** What the fields of the encoded words are. *)
Lemma encodeIndices_fields id flag e gi gt gc mi mt val :
  nibbles gi gt gc mi mt -> bytes val -> share_length val ->
  let data := encodeIndices id flag e gi gt gc mi mt val in
  20 <= Z.of_nat (length data)
  /\ residual data <= 8
  /\ prefix data = prefix_number (JS.number (decodeBigInt id)) flag e mod 2 ^ 20
  /\ nibble data 4 = gi /\ nibble data 3 = gt - 1 /\ nibble data 2 = gc - 1
  /\ nibble data 1 = mi /\ nibble data 0 = mt - 1
  /\ encodeBigInt (value 10 (share_words data)) (share_bytes data) = Ok val.
Proof.
  intros (Hgi & Hgt & Hgc & Hmi & Hmt) Hb [Hlen Heven] data.
  pose proof (encodeIndices_length id flag e gi gt gc mi mt val) as HL.
  fold data in HL.
  set (n := Z.of_nat (length val)) in *.
  set (vw := bitsToWords (n * 8)) in *.
  assert (Hvw : 10 * vw - 16 * (n / 2) = (10 * vw) mod 16 /\ 0 <= 10 * vw - 16 * (n / 2) <= 8
                /\ 13 <= vw).
  { unfold vw, bitsToWords, RADIX_BITS. dlia. }
  destruct Hvw as (Hres & Hres8 & Hvw13).
  assert (Hresid : residual data = 10 * vw - 16 * (n / 2)).
  { unfold residual. rewrite HL. replace (vw + 7 - 7) with vw by lia. lia. }
  assert (Hdata : data
                  = digits 10 2 (prefix_number (JS.number (decodeBigInt id)) flag e)
                    ++ header_words gi gt gc mi mt
                    ++ value_words val
                    ++ rs1024CreateChecksum
                         (share_data id flag e gi gt gc mi mt val) flag).
  { unfold data, encodeIndices, share_data. now rewrite <- !app_assoc. }
  assert (Hsw : share_words data = value_words val).
  { unfold share_words.
    replace (length data - 7)%nat with (length (value_words val))
      by (rewrite value_words_length; fold n; fold vw; lia).
    rewrite Hdata, digits2. cbn [app skipn header_words].
    rewrite firstn_app, Nat.sub_diag, firstn_all. simpl. apply app_nil_r. }
  assert (Hval : 0 <= decodeBigInt val < 2 ^ (8 * n)).
  { rewrite decodeBigInt_value. apply value_bound; [lia|exact Hb]. }
  split; [lia|]. split; [lia|]. split.
  { unfold prefix. rewrite Hdata, digits2. cbn [app nth].
    rewrite !shiftr_land_divmod by lia.
    change (0 * 10) with 0. change (1 * 10) with 10.
    set (X := prefix_number (JS.number (decodeBigInt id)) flag e).
    change (2 ^ 0) with 1. rewrite Z.div_1_r.
    change (2 ^ 10) with 1024. change (2 ^ 20) with 1048576. dlia. }
  assert (Hpar : params data
                 = gi * 65536 + (gt - 1) * 4096 + (gc - 1) * 256 + mi * 16 + (mt - 1)).
  { unfold params. rewrite Hdata, digits2. cbn [app nth header_words]. dlia. }
  unfold nibble. rewrite Hpar.
  change (2 ^ (4 * 4)) with 65536. change (2 ^ (4 * 3)) with 4096.
  change (2 ^ (4 * 2)) with 256. change (2 ^ (4 * 1)) with 16.
  change (2 ^ (4 * 0)) with 1.
  split; [dlia|]. split; [dlia|]. split; [dlia|]. split; [dlia|].
  split; [dlia|].
  rewrite Hsw.
  assert (Hsb : share_bytes data = n).
  { unfold share_bytes. rewrite Hsw, value_words_length, Hresid.
    fold n. fold vw. dlia. }
  rewrite Hsb. unfold value_words. fold n. fold vw.
  rewrite value_digits.
  - unfold n. apply encodeBigInt_decodeBigInt; [exact Hb|].
    intros ->. simpl in n. unfold n in Hlen. simpl in Hlen. lia.
  - lia.
  - split; [lia|]. eapply Z.lt_le_trans; [apply Hval|].
    apply Z.pow_le_mono_r; dlia.
Qed.

End EncodeFacts.


(* ================================================================= *)
(** ** The codec: decoding what was encoded *)

Module CodecFacts.
Import Constants Utils Helper JSFacts BigIntFacts IndexFacts WordFacts.
Import DecodeFacts EncodeFacts.

(** The header a mnemonic can carry: a 15-bit identifier, a flag bit and a
    four-bit exponent. *)
Definition header (idv flag e : Z) : Prop :=
  0 <= idv < 2 ^ 15 /\ (flag = 0 \/ flag = 1) /\ 0 <= e <= 15.

Lemma prefix_number_header idv flag e :
  header idv flag e -> prefix_number idv flag e = idv * 32 + flag * 16 + e.
Proof.
  intros (Hi & Hf & He). unfold prefix_number.
  rewrite (shl_le idv 5 (2 ^ 15)), (shl_le flag 4 1)
    by first [lia | reflexivity].
  reflexivity.
Qed.

Lemma truthy_flag flag : flag = 0 \/ flag = 1 -> JS.truthy flag = (flag =? 1).
Proof. intros [->| ->]; reflexivity. Qed.

(** A short mnemonic is refused. *)
Lemma decodeIndices_short data :
  Z.of_nat (length data) < 20 -> decodeIndices data = Err InvalidMnemonicLength.
Proof.
  intros H. unfold decodeIndices. cbv zeta.
  destruct (Z.ltb_spec (Z.of_nat (length data)) MNEMONICS_WORDS_LENGTH) as [_|Hs];
    [reflexivity|unfold MNEMONICS_WORDS_LENGTH in Hs; lia].
Qed.

(** What a successful decoding says about the words. *)
Lemma decodeIndices_ok data d :
  Forall word_index data -> decodeIndices data = Ok d ->
  20 <= Z.of_nat (length data) /\ residual data <= 8
  /\ rs1024VerifyChecksum data (flag_of data) = true
  /\ nibble data 3 <= nibble data 2
  /\ exists share,
      encodeBigInt (value 10 (share_words data)) (share_bytes data) = Ok share
      /\ d = fields data share.
Proof.
  intros Hd H.
  destruct (Z_lt_dec (Z.of_nat (length data)) 20) as [Hs|Hl].
  - rewrite decodeIndices_short in H by exact Hs. discriminate.
  - assert (Hl' : 20 <= Z.of_nat (length data)) by lia.
    rewrite decodeIndices_fields in H by assumption.
    destruct (Z.gtb_spec (residual data) 8); [discriminate|].
    destruct (rs1024VerifyChecksum data (flag_of data)); [|discriminate].
    cbn [negb] in H.
    destruct (Z.ltb_spec (nibble data 2) (nibble data 3)); [discriminate|].
    destruct (encodeBigInt (value 10 (share_words data)) (share_bytes data))
      as [share|] eqn:E; [|discriminate].
    injection H as <-. repeat split; try lia. now exists share.
Qed.

Section Words.
Context {words : WordList}.

(** The indices [mnemonicToIndices] returns are those of the words. *)
Definition indexed (ws : list string) (data : list Z) : Prop :=
  Forall2 (fun w i => JS.index WORD_LIST i = Some w) ws data.

Lemma WORD_LIST_MAP_spec w i :
  WORD_LIST_MAP w = Some i <-> JS.index WORD_LIST i = Some w.
Proof.
  split.
  - intros H. unfold WORD_LIST_MAP in H.
    destruct (position_In _ _ _ _ H) as [Hin _].
    apply In_nth_error in Hin as [n Hn].
    pose proof (distinct_NoDup _ WORD_LIST_distinct) as Hnd.
    rewrite (position_nth _ _ _ 0 Hnd Hn), Z.add_0_l in H. injection H as <-.
    unfold JS.index. destruct (Z.ltb_spec (Z.of_nat n) 0); [lia|].
    now rewrite Nat2Z.id.
  - unfold JS.index. destruct (Z.ltb_spec i 0); [discriminate|].
    intros Hn. unfold WORD_LIST_MAP.
    rewrite (position_nth _ _ _ 0 (distinct_NoDup _ WORD_LIST_distinct) Hn).
    f_equal. lia.
Qed.

Lemma index_word_index w i : JS.index WORD_LIST i = Some w -> word_index i.
Proof.
  unfold JS.index, word_index. destruct (Z.ltb_spec i 0); [discriminate|].
  intros Hw. assert (Hn : nth_error WORD_LIST (Z.to_nat i) <> None) by congruence.
  apply nth_error_Some in Hn. rewrite WORD_LIST_length in Hn. lia.
Qed.

Lemma indexed_word_index ws data : indexed ws data -> Forall word_index data.
Proof.
  induction 1 as [|w i ws data Hi _ IH]; constructor; [|exact IH].
  eapply index_word_index; eauto.
Qed.

Definition lookup_step (prev : result (list Z)) (item : string)
  : result (list Z) :=
  p <- prev ;;
  match WORD_LIST_MAP item with
  | None => Err (InvalidMnemonicWord item)
  | Some index => Ok (p ++ [index])
  end.

Lemma lookup_fold_err ws e : fold_left lookup_step ws (Err e) = Err e.
Proof. induction ws as [|w ws IH]; [reflexivity|]. rewrite fold_left_cons. exact IH. Qed.

Lemma lookup_fold ws acc r :
  fold_left lookup_step ws (Ok acc) = Ok r
  <-> exists l, indexed ws l /\ r = acc ++ l.
Proof.
  revert acc. induction ws as [|w ws IH]; intros acc.
  - cbn [fold_left]. split.
    + intros [= <-]. exists []. split; [constructor|now rewrite app_nil_r].
    + intros (l & Hl & ->). inversion Hl. now rewrite app_nil_r.
  - rewrite fold_left_cons. unfold lookup_step at 2. cbn [bind].
    destruct (WORD_LIST_MAP w) as [i|] eqn:E.
    + rewrite IH. split.
      * intros (l & Hl & ->). exists (i :: l). split.
        -- constructor; [now apply WORD_LIST_MAP_spec|exact Hl].
        -- now rewrite <- app_assoc.
      * intros (l & Hl & ->). inversion Hl as [|? j ? l' Hj Hl']; subst.
        apply WORD_LIST_MAP_spec in Hj. rewrite E in Hj. injection Hj as <-.
        exists l'. split; [exact Hl'|now rewrite <- app_assoc].
    + rewrite lookup_fold_err. split; [discriminate|].
      intros (l & Hl & _). inversion Hl as [|? j ? l' Hj Hl']; subst.
      apply WORD_LIST_MAP_spec in Hj. congruence.
Qed.

(** The words of a mnemonic as [mnemonicToIndices] splits them. *)
Definition words_of (mnemonic : string) : list string :=
  JS.split " " (JS.toLowerCase mnemonic).

Lemma mnemonicToIndices_ok mnemonic data :
  mnemonicToIndices mnemonic = Ok data <-> indexed (words_of mnemonic) data.
Proof.
  unfold mnemonicToIndices. fold (words_of mnemonic).
  change (fold_left _ (words_of mnemonic) (Ok []))
    with (fold_left lookup_step (words_of mnemonic) (Ok [])).
  rewrite lookup_fold. split.
  - intros (l & Hl & ->). exact Hl.
  - intros H. now exists data.
Qed.

Lemma decodeMnemonic_ok mnemonic d :
  decodeMnemonic mnemonic = Ok d
  <-> exists data, indexed (words_of mnemonic) data /\ decodeIndices data = Ok d.
Proof.
  unfold decodeMnemonic. split.
  - destruct (mnemonicToIndices mnemonic) as [data|] eqn:E; [|discriminate].
    cbn [bind]. intros H. exists data. split; [|exact H].
    now apply mnemonicToIndices_ok.
  - intros (data & Hi & H). apply mnemonicToIndices_ok in Hi.
    rewrite Hi. exact H.
Qed.

(** Decoding the words of [encodeMnemonic]. *)
Lemma decodeMnemonic_encodeIndices id flag e gi gt gc mi mt val :
  nibbles gi gt gc mi mt ->
  decodeMnemonic (encodeMnemonic id flag e gi gt gc mi mt val)
  = decodeIndices (encodeIndices id flag e gi gt gc mi mt val).
Proof.
  intros Hn. rewrite encodeMnemonic_indices by exact Hn.
  unfold decodeMnemonic. rewrite mnemonicToIndices_FromIndices.
  - reflexivity.
  - unfold encodeIndices, share_data. rewrite digits2. discriminate.
  - now apply encodeIndices_index.
Qed.

(** Round trip of the codec. *)
Lemma decodeMnemonic_encodeMnemonic id flag e gi gt gc mi mt val :
  header (decodeBigInt id) flag e -> nibbles gi gt gc mi mt -> gt <= gc ->
  bytes val -> share_length val ->
  decodeMnemonic (encodeMnemonic id flag e gi gt gc mi mt val)
  = Ok {| identifier := decodeBigInt id;
          extendableBackupFlag := flag;
          iterationExponent := e;
          groupIndex := gi;
          groupThreshold := gt;
          groupCount := gc;
          memberIndex := mi;
          memberThreshold := mt;
          share := val |}.
Proof.
  intros Hh Hn Hle Hb Hs.
  rewrite decodeMnemonic_encodeIndices by exact Hn.
  destruct (encodeIndices_fields id flag e gi gt gc mi mt val Hn Hb Hs)
    as (Hlen & Hres & Hpre & N4 & N3 & N2 & N1 & N0 & Henc).
  pose proof (encodeIndices_index id flag e gi gt gc mi mt val Hn) as Hidx.
  set (data := encodeIndices id flag e gi gt gc mi mt val) in *.
  rewrite decodeIndices_fields by assumption.
  destruct (Z.gtb_spec (residual data) 8); [lia|].
  rewrite number_exact in Hpre by (destruct Hh as (Hi & _); lia).
  rewrite prefix_number_header in Hpre by exact Hh.
  destruct Hh as (Hi & Hf & He).
  assert (Eflag : flag_of data = flag).
  { unfold flag_of. rewrite Hpre. change (2 ^ 20) with 1048576.
    destruct Hf; subst flag; dlia. }
  assert (Eid : identifier_of data = decodeBigInt id).
  { unfold identifier_of. rewrite Hpre. change (2 ^ 20) with 1048576.
    destruct Hf; subst flag; dlia. }
  assert (Eexp : exponent_of data = e).
  { unfold exponent_of. rewrite Hpre. change (2 ^ 20) with 1048576.
    destruct Hf; subst flag; dlia. }
  rewrite Eflag.
  assert (Ev : rs1024VerifyChecksum data flag = true).
  { unfold data, encodeIndices. apply RS1024Facts.create_then_verify.
    now apply share_data_index. }
  rewrite Ev. cbn [negb].
  destruct (Z.ltb_spec (nibble data 2) (nibble data 3)); [lia|].
  rewrite Henc. unfold fields.
  rewrite Eid, Eflag, Eexp, N4, N3, N2, N1, N0.
  repeat f_equal; lia.
Qed.

End Words.
End CodecFacts.


(* ================================================================= *)
(** ** Which word sequences decode *)

Module ValidFacts.
Import Constants Utils Helper JSFacts BigIntFacts IndexFacts WordFacts.
Import DecodeFacts EncodeFacts CodecFacts.

(** The padding: the bits of the share value above its last whole byte
    pair. *)
Definition padding_bits (data : list Z) : Z :=
  value 10 (share_words data)
  / 2 ^ (10 * Z.of_nat (length (share_words data)) - residual data).

Lemma share_words_length data :
  20 <= Z.of_nat (length data) ->
  Z.of_nat (length (share_words data)) = Z.of_nat (length data) - 7.
Proof.
  intros H. unfold share_words. rewrite length_firstn, length_skipn. lia.
Qed.

Lemma Forall_firstn {A} (P : A -> Prop) n l : Forall P l -> Forall P (firstn n l).
Proof.
  intros H. revert n. induction H as [|x l Hx Hl IH]; intros [|n]; simpl;
    constructor; auto.
Qed.

Lemma Forall_skipn {A} (P : A -> Prop) n l : Forall P l -> Forall P (skipn n l).
Proof.
  intros H. revert n. induction H as [|x l Hx Hl IH]; intros [|n]; simpl;
    try constructor; auto.
Qed.

Lemma share_words_index data :
  Forall word_index data -> Forall word_index (share_words data).
Proof. intros H. unfold share_words. now apply Forall_firstn, Forall_skipn. Qed.

Lemma share_bits data :
  20 <= Z.of_nat (length data) ->
  8 * share_bytes data
  = 10 * Z.of_nat (length (share_words data)) - residual data
  /\ 0 < share_bytes data.
Proof.
  intros H. unfold share_bytes. rewrite share_words_length by exact H.
  unfold residual. dlia.
Qed.

(** The word sequences that [decodeIndices] accepts. *)
Lemma decodeIndices_ok_iff data :
  Forall word_index data ->
  (exists d, decodeIndices data = Ok d)
  <-> 20 <= Z.of_nat (length data)
      /\ residual data <= 8
      /\ padding_bits data = 0
      /\ rs1024VerifyChecksum data (flag_of data) = true
      /\ nibble data 3 <= nibble data 2.
Proof.
  intros Hd.
  assert (Hv : 0 <= value 10 (share_words data)).
  { apply (value_bound 10); [lia|]. now apply share_words_index. }
  assert (Pad : 20 <= Z.of_nat (length data) ->
                (is_ok (encodeBigInt (value 10 (share_words data)) (share_bytes data))
                 = true <-> padding_bits data = 0)).
  { intros Hl. destruct (share_bits data Hl) as [E8 Hpos].
    rewrite encodeBigInt_ok_iff by assumption.
    unfold padding_bits. rewrite <- E8.
    assert (0 < 2 ^ (8 * share_bytes data)) by (apply Z.pow_pos_nonneg; lia).
    split.
    - intros Hlt. apply Z.div_small. lia.
    - intros Hz. apply Z.div_small_iff in Hz; lia. }
  split.
  - intros [d H]. destruct (decodeIndices_ok data d Hd H)
      as (Hl & Hr & Hc & Hn & share & Hs & _).
    repeat split; try assumption. apply Pad; [exact Hl|]. now rewrite Hs.
  - intros (Hl & Hr & Hp & Hc & Hn).
    rewrite decodeIndices_fields by assumption.
    destruct (Z.gtb_spec (residual data) 8); [lia|].
    rewrite Hc. cbn [negb].
    destruct (Z.ltb_spec (nibble data 2) (nibble data 3)); [lia|].
    apply Pad in Hp; [|exact Hl].
    destruct (encodeBigInt (value 10 (share_words data)) (share_bytes data))
      as [share|]; [|discriminate].
    now exists (fields data share).
Qed.

Definition bytesb (l : list Z) : bool :=
  forallb (fun z => (0 <=? z) && (z <? 256)) l.

Lemma bytesb_bytes l : bytesb l = true -> bytes l.
Proof.
  unfold bytesb, bytes. rewrite forallb_forall, Forall_forall.
  intros H x Hx. specialize (H x Hx). unfold byte. lia.
Qed.

End ValidFacts.

(* ================================================================= *)
(** ** Maps and sets in insertion order *)

Module MapFacts.

Lemma set_add_In s k x : In x (JSSet.add s k) <-> In x s \/ x = k.
Proof.
  unfold JSSet.add. destruct (existsb (Z.eqb k) s) eqn:E.
  - split; [now left|]. intros [H| ->]; [exact H|].
    apply existsb_exists in E as (y & Hy & Ey). apply Z.eqb_eq in Ey.
    now subst y.
  - rewrite in_app_iff. simpl. split.
    + intros [H|[H|[]]]; [now left|now right].
    + intros [H|H]; [now left|right; now left].
Qed.

Lemma set_add_NoDup s k : NoDup s -> NoDup (JSSet.add s k).
Proof.
  intros H. unfold JSSet.add. destruct (existsb (Z.eqb k) s) eqn:E; [exact H|].
  apply NoDup_app; [exact H|repeat constructor; intros []|].
  intros x Hx [Ex|[]]. subst x.
  assert (existsb (Z.eqb k) s = true); [|congruence].
  apply existsb_exists. exists k. split; [exact Hx|apply Z.eqb_refl].
Qed.

(** Two duplicate-free lists with the same elements have the same length. *)
Lemma NoDup_same_length (l l' : list Z) :
  NoDup l -> NoDup l' -> (forall x, In x l <-> In x l') -> length l = length l'.
Proof.
  intros Hl Hl' H. apply Nat.le_antisymm; apply NoDup_incl_length; trivial;
    intros x Hx; now apply H.
Qed.

(** The number of distinct elements of a list. *)
Definition distinct_count (l : list Z) : Z :=
  Z.of_nat (length (nodup Z.eq_dec l)).

Lemma distinct_count_NoDup (s l : list Z) :
  NoDup s -> (forall x, In x s <-> In x l) ->
  Z.of_nat (length s) = distinct_count l.
Proof.
  intros Hs H. unfold distinct_count. f_equal.
  apply NoDup_same_length; [exact Hs|apply NoDup_nodup|].
  intros x. rewrite nodup_In. apply H.
Qed.

(** A set of size one holds one value. *)
Lemma singleton_set (s : list Z) x :
  JSSet.size s = 1 -> In x s -> x = hd 0 s.
Proof.
  unfold JSSet.size.
  destruct s as [|a [|b s]]; cbn [length hd In]; intros Hs Hx;
    [lia|destruct Hx as [<-|[]]; reflexivity|lia].
Qed.

Section Maps.
Context {V : Type}.

Lemma get_In (m : JSMap.t V) k v : JSMap.get m k = Some v -> In (k, v) m.
Proof.
  induction m as [|[k' v'] m IH]; [discriminate|]. simpl.
  destruct (Z.eqb_spec k' k) as [->|].
  - intros [= ->]. now left.
  - intros H. right. now apply IH.
Qed.

Lemma get_keys (m : JSMap.t V) k :
  In k (JSMap.keys m) <-> exists v, JSMap.get m k = Some v.
Proof.
  induction m as [|[k' v'] m IH]; simpl.
  - split; [intros []|intros [v H]; discriminate].
  - destruct (Z.eqb_spec k' k) as [->|Hne].
    + split; [intros _; now exists v'|now left].
    + rewrite <- IH. split; [intros [H|H]; [contradiction|exact H]|now right].
Qed.

Lemma In_get (m : JSMap.t V) k v :
  NoDup (JSMap.keys m) -> In (k, v) m -> JSMap.get m k = Some v.
Proof.
  induction m as [|[k' v'] m IH]; [intros _ []|].
  simpl. intros Hnd [H|H].
  - injection H as -> ->. now rewrite Z.eqb_refl.
  - inversion Hnd as [|? ? Hk Hm]; subst.
    destruct (Z.eqb_spec k' k) as [->|Hne]; [|now apply IH].
    elim Hk. apply in_map_iff. now exists (k, v).
Qed.

Lemma get_set (m : JSMap.t V) k v k' :
  JSMap.get (JSMap.set m k v) k' = if k =? k' then Some v else JSMap.get m k'.
Proof.
  induction m as [|[k0 v0] m IH]; simpl.
  - reflexivity.
  - destruct (Z.eqb_spec k0 k) as [->|Hne]; simpl.
    + destruct (Z.eqb_spec k k'); reflexivity.
    + destruct (Z.eqb_spec k0 k') as [->|].
      * destruct (Z.eqb_spec k k'); [congruence|reflexivity].
      * exact IH.
Qed.

Lemma keys_set (m : JSMap.t V) k v :
  JSMap.keys (JSMap.set m k v)
  = if JSMap.has m k then JSMap.keys m else JSMap.keys m ++ [k].
Proof.
  unfold JSMap.has. induction m as [|[k0 v0] m IH]; simpl.
  - reflexivity.
  - destruct (Z.eqb_spec k0 k) as [->|Hne]; simpl; [reflexivity|].
    rewrite IH. now destruct (JSMap.get m k).
Qed.

Lemma keys_set_In (m : JSMap.t V) k v x :
  In x (JSMap.keys (JSMap.set m k v)) <-> In x (JSMap.keys m) \/ x = k.
Proof.
  rewrite !get_keys. setoid_rewrite get_set.
  destruct (Z.eqb_spec k x) as [->|Hne].
  - split; [now right|intros _; now exists v].
  - split; [now left|]. intros [H| ->]; [exact H|congruence].
Qed.

Lemma keys_set_NoDup (m : JSMap.t V) k v :
  NoDup (JSMap.keys m) -> NoDup (JSMap.keys (JSMap.set m k v)).
Proof.
  intros H. rewrite keys_set. unfold JSMap.has.
  destruct (JSMap.get m k) eqn:E; [exact H|].
  apply NoDup_app; [exact H|repeat constructor; intros []|].
  intros x Hx [Ex|[]]. subst x. apply get_keys in Hx as [v' Hv]. congruence.
Qed.

End Maps.
End MapFacts.

(* ================================================================= *)
(** ** What [decodeMnemonics] collects *)

Module CombineFacts.
Import Constants Utils Helper MapFacts.

Section Env.
Context {words : WordList} {prims : Primitives}.

(** [s] is the set of the values of the field [f] in [ds]. *)
Definition set_of (f : IDecodedMnemonic -> Z) (s : JSSet.t)
           (ds : list IDecodedMnemonic) : Prop :=
  NoDup s /\ forall x, In x s <-> In x (map f ds).

(** The decoded mnemonics of the group [g]. *)
Definition in_group (g : Z) (ds : list IDecodedMnemonic) : list IDecodedMnemonic :=
  filter (fun d => groupIndex d =? g) ds.

(** The entry of the group [g]: one member threshold, and under it the
    member indices of the group. *)
Definition group_of (ds : list IDecodedMnemonic) (g : Z)
           (grp : JSMap.t (JSMap.t (list Z))) : Prop :=
  exists mt members,
    grp = [(mt, members)]
    /\ NoDup (JSMap.keys members)
    /\ (forall i, In i (JSMap.keys members)
                  <-> In i (map memberIndex (in_group g ds)))
    /\ (forall d, In d (in_group g ds) -> memberThreshold d = mt).

Record collected (s : decoding) (ds : list IDecodedMnemonic) : Prop := {
  col_identifiers : set_of identifier (identifiers s) ds;
  col_flags : set_of extendableBackupFlag (extendableBackupFlags s) ds;
  col_exponents : set_of iterationExponent (iterationExponents s) ds;
  col_thresholds : set_of groupThreshold (groupThresholds s) ds;
  col_counts : set_of groupCount (groupCounts s) ds;
  col_keys : NoDup (JSMap.keys (groups s));
  col_indices : forall g, In g (JSMap.keys (groups s))
                          <-> In g (map groupIndex ds);
  col_groups : forall g grp, JSMap.get (groups s) g = Some grp
                             -> group_of ds g grp
}.

Lemma set_of_add f s ds d :
  set_of f s ds -> set_of f (JSSet.add s (f d)) (ds ++ [d]).
Proof.
  intros [Hn Hi]. split; [now apply set_add_NoDup|].
  intros x. rewrite set_add_In, map_app, in_app_iff, Hi. simpl. split.
  - intros [H|H]; [now left|right; left; now symmetry].
  - intros [H|[H|[]]]; [now left|right; now symmetry].
Qed.

Lemma in_group_app g ds d :
  in_group g (ds ++ [d])
  = in_group g ds ++ (if groupIndex d =? g then [d] else []).
Proof. unfold in_group. rewrite filter_app. reflexivity. Qed.

Lemma collected_start : collected decoding_start [].
Proof.
  split; try (split; [constructor|intros x; reflexivity]).
  - constructor.
  - intros g. reflexivity.
  - intros g grp H. discriminate.
Qed.

Lemma in_group_none g ds : ~ In g (map groupIndex ds) -> in_group g ds = [].
Proof.
  intros H. destruct (in_group g ds) as [|x l] eqn:E; [reflexivity|].
  exfalso. apply H. assert (Hx : In x (in_group g ds)) by (rewrite E; now left).
  apply filter_In in Hx as [Hx Hg]. apply Z.eqb_eq in Hg.
  apply in_map_iff. now exists x.
Qed.

(** One mnemonic more. *)
Lemma collected_step s ds mnemonic s' :
  collected s ds -> decodeMnemonics_step (Ok s) mnemonic = Ok s' ->
  exists d, decodeMnemonic mnemonic = Ok d /\ collected s' (ds ++ [d]).
Proof.
  intros C H. unfold decodeMnemonics_step in H. cbn [bind] in H.
  destruct (decodeMnemonic mnemonic) as [d|] eqn:Ed; [|discriminate].
  cbn [bind] in H. exists d. split; [reflexivity|].
  set (g := groupIndex d) in *. set (mt := memberThreshold d) in *.
  set (group0 := match JSMap.get (groups s) g with
                 | Some grp => grp | None => JSMap.empty end) in *.
  set (member0 := match JSMap.get group0 mt with
                  | Some m => m | None => JSMap.empty end) in *.
  set (member1 := JSMap.set member0 (memberIndex d) (share d)) in *.
  set (group1 := JSMap.set group0 mt member1) in *.
  destruct (Z.eqb_spec (JSMap.size group1) 1) as [Hsize|]; [|discriminate].
  cbn [negb] in H. injection H as <-.
  destruct C as [Ci Cf Ce Ct Cc Ck Cx Cg].
  (* the entry of the group of [d] *)
  assert (G1 : group_of (ds ++ [d]) g group1).
  { destruct (JSMap.get (groups s) g) as [grp|] eqn:Eg.
    - destruct (Cg g grp Eg) as (mt0 & members & -> & Mn & Mi & Mt).
      unfold group0 in *. cbn [JSMap.get] in member0.
      destruct (Z.eqb_spec mt0 mt) as [Emt|Hne].
      + subst mt0. exists mt, member1. unfold group1. cbn [JSMap.set].
        rewrite Z.eqb_refl. split; [reflexivity|].
        split; [apply keys_set_NoDup; exact Mn|]. split.
        * intros i. unfold member1, member0. rewrite keys_set_In, Mi.
          rewrite in_group_app. fold g. rewrite Z.eqb_refl.
          rewrite map_app, in_app_iff. simpl. intuition.
        * intros d'. rewrite in_group_app. fold g. rewrite Z.eqb_refl.
          rewrite in_app_iff. simpl.
          intros [Hd|[<-|[]]]; [now apply Mt|reflexivity].
      + exfalso. unfold group1, JSMap.size in Hsize. cbn [JSMap.set] in Hsize.
        destruct (Z.eqb_spec mt0 mt); [contradiction|].
        cbn [JSMap.set length] in Hsize. lia.
    - assert (Hg : ~ In g (map groupIndex ds)).
      { rewrite <- Cx. intros Hin. apply get_keys in Hin as [v Hv]. congruence. }
      exists mt, member1. split; [reflexivity|].
      unfold member1, member0, group0. cbn [JSMap.get JSMap.empty JSMap.set JSMap.keys map fst].
      rewrite in_group_app, (in_group_none g ds Hg). fold g.
      rewrite Z.eqb_refl. cbn [app map].
      split; [repeat constructor; intros []|]. split; [reflexivity|].
      intros d' [<-|[]]. reflexivity. }
  split; cbn [identifiers extendableBackupFlags iterationExponents
              groupThresholds groupCounts groups];
    try (now apply set_of_add).
  - now apply keys_set_NoDup.
  - intros g'. rewrite keys_set_In, Cx, map_app, in_app_iff. simpl.
    fold g. intuition.
  - intros g' grp. rewrite get_set.
    destruct (Z.eqb_spec g g') as [<-|Hne].
    + intros [= <-]. exact G1.
    + intros Hget. destruct (Cg g' grp Hget) as (mt0 & members & E & Mn & Mi & Mt).
      exists mt0, members. rewrite in_group_app. fold g.
      destruct (Z.eqb_spec g g'); [contradiction|]. rewrite app_nil_r.
      auto.
Qed.

Lemma decodeMnemonics_step_err e mnemonics :
  fold_left decodeMnemonics_step mnemonics (Err e) = Err e.
Proof.
  induction mnemonics as [|m ms IH]; [reflexivity|].
  rewrite fold_left_cons. exact IH.
Qed.

(** All mnemonics: each one decodes, and the state has collected them. *)
Lemma collected_fold mnemonics :
  forall s ds s',
    collected s ds ->
    fold_left decodeMnemonics_step mnemonics (Ok s) = Ok s' ->
    exists ds',
      Forall2 (fun m d => decodeMnemonic m = Ok d) mnemonics ds'
      /\ collected s' (ds ++ ds').
Proof.
  induction mnemonics as [|m ms IH]; intros s ds s' C H.
  - injection H as <-. exists []. split; [constructor|now rewrite app_nil_r].
  - rewrite fold_left_cons in H.
    destruct (decodeMnemonics_step (Ok s) m) as [s1|e] eqn:E1.
    + destruct (collected_step s ds m s1 C E1) as (d & Hd & C1).
      destruct (IH s1 (ds ++ [d]) s' C1 H) as (ds' & Hds & C').
      exists (d :: ds'). split; [now constructor|].
      now rewrite <- app_assoc in C'.
    + rewrite decodeMnemonics_step_err in H. discriminate.
Qed.

(** What a successful [decodeMnemonics] says. *)
Lemma decodeMnemonics_ok mnemonics dec :
  decodeMnemonics mnemonics = Ok dec ->
  exists ds,
    Forall2 (fun m d => decodeMnemonic m = Ok d) mnemonics ds
    /\ (forall d, In d ds ->
                  identifier d = all_identifier dec
                  /\ extendableBackupFlag d = all_extendableBackupFlag dec
                  /\ iterationExponent d = all_iterationExponent dec
                  /\ groupThreshold d = all_groupThreshold dec
                  /\ groupCount d = all_groupCount dec)
    /\ NoDup (JSMap.keys (all_groups dec))
    /\ (forall g, In g (JSMap.keys (all_groups dec)) <-> In g (map groupIndex ds))
    /\ (forall g grp, JSMap.get (all_groups dec) g = Some grp -> group_of ds g grp).
Proof.
  unfold decodeMnemonics. intros H.
  destruct (fold_left decodeMnemonics_step mnemonics (Ok decoding_start))
    as [s|] eqn:E; [|discriminate].
  cbn [bind] in H.
  destruct (collected_fold mnemonics _ [] s collected_start E) as (ds & Hds & C).
  cbn [app] in C. destruct C as [Ci Cf Ce Ct Cc Ck Cx Cg].
  destruct (Z.eqb_spec (JSSet.size (identifiers s)) 1) as [Si|]; [|discriminate].
  destruct (Z.eqb_spec (JSSet.size (extendableBackupFlags s)) 1) as [Sf|];
    [|discriminate].
  destruct (Z.eqb_spec (JSSet.size (iterationExponents s)) 1) as [Se|];
    [|discriminate].
  cbn [negb orb] in H.
  destruct (Z.eqb_spec (JSSet.size (groupThresholds s)) 1) as [St|];
    [|discriminate].
  destruct (Z.eqb_spec (JSSet.size (groupCounts s)) 1) as [Sc|];
    [|discriminate].
  cbn [negb] in H. injection H as <-.
  exists ds. split; [exact Hds|].
  cbn [all_identifier all_extendableBackupFlag all_iterationExponent
       all_groupThreshold all_groupCount all_groups].
  split; [|auto].
  intros d Hd.
  assert (F : forall f S, set_of f S ds -> JSSet.size S = 1 -> f d = hd 0 S).
  { intros f S [_ Hin] HS. apply singleton_set; [exact HS|].
    apply Hin. now apply in_map. }
  repeat split; now apply F.
Qed.

(** ** What [combineMnemonics] demands *)

Lemma combine_group_err e groups :
  fold_left combine_group groups (Err e) = Err e.
Proof.
  induction groups as [|g gs IH]; [reflexivity|].
  rewrite fold_left_cons. exact IH.
Qed.

(** One group more: the member map under the first threshold of the entry
    has as many members as that threshold, and its secret is recovered. *)
Lemma combine_group_ok acc entry allShares :
  combine_group (Ok acc) entry = Ok allShares ->
  exists threshold shares rest recovered,
    snd entry = (threshold, shares) :: rest
    /\ JSMap.size shares = threshold
    /\ recoverSecret threshold shares = Ok recovered
    /\ allShares = JSMap.set acc (fst entry) recovered.
Proof.
  unfold combine_group. cbn [bind].
  destruct (snd entry) as [|[threshold shares] rest]; [discriminate|].
  destruct (Z.eqb_spec (JSMap.size shares) threshold) as [E|]; [|discriminate].
  cbn [negb].
  destruct (recoverSecret threshold shares) as [recovered|] eqn:Er;
    [|discriminate].
  cbn [bind]. intros [= <-]. exists threshold, shares, rest, recovered.
  split; [reflexivity|]. split; [exact E|]. split; [exact Er|reflexivity].
Qed.

Lemma combine_fold_ok groups :
  forall acc allShares,
    fold_left combine_group groups (Ok acc) = Ok allShares ->
    forall entry, In entry groups ->
      exists threshold shares rest recovered,
        snd entry = (threshold, shares) :: rest
        /\ JSMap.size shares = threshold
        /\ recoverSecret threshold shares = Ok recovered.
Proof.
  induction groups as [|g gs IH]; intros acc allShares H entry Hin;
    [now elim Hin|].
  rewrite fold_left_cons in H.
  destruct (combine_group (Ok acc) g) as [acc1|e] eqn:E1;
    [|rewrite combine_group_err in H; discriminate].
  destruct Hin as [<-|Hin].
  - apply combine_group_ok in E1
      as (threshold & shares & rest & recovered & E & Hs & Hr & _).
    now exists threshold, shares, rest, recovered.
  - exact (IH acc1 allShares H entry Hin).
Qed.

(** A successful [combineMnemonics]: every mnemonic decodes; the distinct
    group indices are as many as the group threshold, and in every group
    the distinct member indices are as many as its member threshold. *)
Lemma combineMnemonics_counts mnemonics passphrase secret :
  combineMnemonics mnemonics passphrase = Ok secret ->
  mnemonics <> []
  /\ exists ds,
      Forall2 (fun m d => decodeMnemonic m = Ok d) mnemonics ds
      /\ forall d, In d ds ->
           distinct_count (map groupIndex ds) = groupThreshold d
           /\ distinct_count (map memberIndex (in_group (groupIndex d) ds))
              = memberThreshold d.
Proof.
  unfold combineMnemonics. intros H.
  destruct (length mnemonics =? 0)%nat eqn:El; [discriminate|].
  split; [intros ->; discriminate|].
  destruct (decodeMnemonics mnemonics) as [dec|] eqn:Ed; [|discriminate].
  cbn [bind] in H.
  destruct (decodeMnemonics_ok mnemonics dec Ed) as (ds & Hds & Hall & Kn & Ki & Kg).
  exists ds. split; [exact Hds|].
  destruct (Z.ltb_spec (JSMap.size (all_groups dec)) (all_groupThreshold dec));
    [discriminate|].
  destruct (Z.eqb_spec (JSMap.size (all_groups dec)) (all_groupThreshold dec))
    as [Esize|]; [|discriminate].
  cbn [negb] in H.
  destruct (fold_left combine_group (all_groups dec) (Ok JSMap.empty))
    as [allShares|] eqn:Ef; [|discriminate].
  intros d Hd. destruct (Hall d Hd) as (_ & _ & _ & Hgt & _). split.
  - rewrite Hgt, <- Esize. unfold JSMap.size.
    rewrite <- (distinct_count_NoDup (JSMap.keys (all_groups dec))).
    + unfold JSMap.keys. now rewrite length_map.
    + exact Kn.
    + exact Ki.
  - assert (Hg : In (groupIndex d) (JSMap.keys (all_groups dec))).
    { apply Ki. now apply in_map. }
    apply get_keys in Hg as [grp Hg].
    destruct (Kg _ _ Hg) as (mt & members & -> & Mn & Mi & Mt).
    apply get_In in Hg.
    destruct (combine_fold_ok _ _ _ Ef _ Hg)
      as (threshold & shares & rest & recovered & E & Hs & _).
    cbn [snd] in E. injection E as <- <- <-.
    rewrite (Mt d).
    + rewrite <- Hs. unfold JSMap.size.
      rewrite <- (distinct_count_NoDup (JSMap.keys members)).
      * unfold JSMap.keys. now rewrite length_map.
      * exact Mn.
      * exact Mi.
    + unfold in_group. apply filter_In. split; [exact Hd|apply Z.eqb_refl].
Qed.

End Env.
End CombineFacts.

(* ================================================================= *)
(** ** Polynomials and Lagrange interpolation over a field *)

Module Lagrange.

Section OverField.
Variable T : Type.
Variables (rO rI : T) (radd rmul rsub : T -> T -> T) (ropp : T -> T).
Variables (rdiv : T -> T -> T) (rinv : T -> T).
Hypothesis Fth : field_theory rO rI radd rmul rsub ropp rdiv rinv eq.
Hypothesis Teq_dec : forall a b : T, {a = b} + {a <> b}.

Add Field Tfield : Fth.

Local Notation "a + b" := (radd a b).
Local Notation "a * b" := (rmul a b).
Local Notation "a - b" := (rsub a b).
Local Notation "a / b" := (rdiv a b).

Lemma mul_zero_cases a b : a * b = rO -> a = rO \/ b = rO.
Proof.
  intros H. destruct (Teq_dec a rO) as [Ha|Ha]; [now left|right].
  transitivity ((a * b) / a); [field; exact Ha|].
  rewrite H. field. exact Ha.
Qed.

Lemma sub_zero a b : a - b = rO -> a = b.
Proof. intros H. transitivity ((a - b) + b); [ring|]. rewrite H. ring. Qed.

(** [eval p x]: the polynomial with the coefficients [p], the constant
    one first, at [x]. *)
Fixpoint eval (p : list T) (x : T) : T :=
  match p with
  | [] => rO
  | c :: q => c + x * eval q x
  end.

(** Division by [X - a]: [p = (X - a) * quotient p a + eval p a]. *)
Fixpoint quotient (p : list T) (a : T) : list T :=
  match p with
  | [] => []
  | c :: q =>
      match q with
      | [] => []
      | _ :: _ => eval q a :: quotient q a
      end
  end.

Lemma quotient_length p a : length (quotient p a) = pred (length p).
Proof.
  induction p as [|c q IH]; [reflexivity|].
  destruct q as [|c' q']; [reflexivity|].
  change (quotient (c :: c' :: q') a)
    with (eval (c' :: q') a :: quotient (c' :: q') a).
  cbn [length]. rewrite IH. reflexivity.
Qed.

Lemma quotient_eval p a x :
  eval p x = (x - a) * eval (quotient p a) x + eval p a.
Proof.
  induction p as [|c q IH]; [simpl; ring|].
  destruct q as [|c' q']; [simpl; ring|].
  change (quotient (c :: c' :: q') a)
    with (eval (c' :: q') a :: quotient (c' :: q') a).
  change (eval (c :: c' :: q') x) with (c + x * eval (c' :: q') x).
  change (eval (c :: c' :: q') a) with (c + a * eval (c' :: q') a).
  change (eval (eval (c' :: q') a :: quotient (c' :: q') a) x)
    with (eval (c' :: q') a + x * eval (quotient (c' :: q') a) x).
  rewrite IH at 1. ring.
Qed.

(** A polynomial with more roots than coefficients vanishes everywhere. *)
Lemma roots_zero (xs : list T) :
  NoDup xs ->
  forall p, (length p <= length xs)%nat ->
            (forall x, In x xs -> eval p x = rO) ->
            forall y, eval p y = rO.
Proof.
  induction 1 as [|a xs Ha Hnd IH]; intros p Hlen Hroots y.
  - destruct p; [reflexivity|simpl in Hlen; lia].
  - rewrite (quotient_eval p a y).
    rewrite (Hroots a (or_introl eq_refl)).
    rewrite IH; [ring| |].
    + rewrite quotient_length. simpl in Hlen. lia.
    + intros x Hx.
      pose proof (Hroots x (or_intror Hx)) as Hr.
      rewrite (quotient_eval p a x), (Hroots a (or_introl eq_refl)) in Hr.
      assert (Hm : (x - a) * eval (quotient p a) x = rO)
        by (rewrite <- Hr; ring).
      apply mul_zero_cases in Hm as [Hm|Hm]; [|exact Hm].
      apply sub_zero in Hm. subst x. contradiction.
Qed.

(** Sums, scalar multiples and multiples by [X - a]. *)
Fixpoint padd (p q : list T) : list T :=
  match p, q with
  | [], _ => q
  | _, [] => p
  | a :: p', b :: q' => (a + b) :: padd p' q'
  end.

Definition pscale (c : T) (p : list T) : list T := map (rmul c) p.

Definition plinear (a : T) (p : list T) : list T :=
  padd (rO :: p) (pscale (ropp a) p).

Lemma padd_eval p q x : eval (padd p q) x = eval p x + eval q x.
Proof.
  revert q. induction p as [|a p IH]; intros [|b q]; simpl; try ring.
  rewrite IH. ring.
Qed.

Lemma padd_length p q : length (padd p q) = Nat.max (length p) (length q).
Proof.
  revert q. induction p as [|a p IH]; intros [|b q]; simpl; try reflexivity.
  now rewrite IH.
Qed.

Lemma pscale_eval c p x : eval (pscale c p) x = c * eval p x.
Proof. induction p as [|a p IH]; simpl; [ring|]. rewrite IH. ring. Qed.

Lemma pscale_length c p : length (pscale c p) = length p.
Proof. apply length_map. Qed.

Lemma plinear_eval a p x : eval (plinear a p) x = (x - a) * eval p x.
Proof. unfold plinear. rewrite padd_eval, pscale_eval. simpl. ring. Qed.

Lemma plinear_length a p : length (plinear a p) = S (length p).
Proof.
  unfold plinear. rewrite padd_length, pscale_length. cbn [length].
  apply Nat.max_l. apply Nat.le_succ_diag_r.
Qed.

(** [num ks y]: the product of the [y - k]. *)
Fixpoint num (ks : list T) (y : T) : T :=
  match ks with
  | [] => rI
  | k :: r => (y - k) * num r y
  end.

Fixpoint pnum (ks : list T) : list T :=
  match ks with
  | [] => [rI]
  | k :: r => plinear k (pnum r)
  end.

Lemma pnum_eval ks y : eval (pnum ks) y = num ks y.
Proof.
  induction ks as [|k r IH]; simpl; [ring|].
  now rewrite plinear_eval, IH.
Qed.

Lemma pnum_length ks : length (pnum ks) = S (length ks).
Proof.
  induction ks as [|k r IH]; simpl; [reflexivity|].
  now rewrite plinear_length, IH.
Qed.

Lemma num_root ks y : In y ks -> num ks y = rO.
Proof.
  induction ks as [|k r IH]; intros []; simpl.
  - subst. ring.
  - rewrite IH by assumption. ring.
Qed.

Lemma num_nonzero ks y : ~ In y ks -> num ks y <> rO.
Proof.
  induction ks as [|k r IH]; intros Hin; simpl.
  - intros H. apply (F_1_neq_0 Fth). exact H.
  - intros H. apply mul_zero_cases in H as [H|H].
    + apply sub_zero in H. apply Hin. now left.
    + apply IH in H; [exact H|]. intros Hr. apply Hin. now right.
Qed.

(** The Lagrange basis of the abscissa [xi] among [xs], at [y]. *)
Definition basis (xs : list T) (xi y : T) : T :=
  num (remove Teq_dec xi xs) y / num (remove Teq_dec xi xs) xi.

(** The sum of the [f] of the points. *)
Fixpoint sum (f : T * T -> T) (pts : list (T * T)) : T :=
  match pts with
  | [] => rO
  | p :: r => f p + sum f r
  end.

(** The interpolating function through [pts], at [y]. *)
Definition lagrange (pts : list (T * T)) (y : T) : T :=
  sum (fun p => snd p * basis (map fst pts) (fst p) y) pts.

Lemma basis_own xs xi : basis xs xi xi = rI.
Proof.
  unfold basis. field. apply num_nonzero. apply remove_In.
Qed.

Lemma basis_other xs xi xj : In xj xs -> xj <> xi -> basis xs xi xj = rO.
Proof.
  intros Hin Hne. unfold basis. rewrite num_root.
  - field. apply num_nonzero. apply remove_In.
  - apply in_in_remove; assumption.
Qed.

Lemma sum_ext f g pts :
  (forall p, In p pts -> f p = g p) -> sum f pts = sum g pts.
Proof.
  induction pts as [|p r IH]; intros H; simpl; [reflexivity|].
  rewrite (H p (or_introl eq_refl)), IH; [reflexivity|].
  intros q Hq. apply H. now right.
Qed.

Lemma sum_zero f pts : (forall p, In p pts -> f p = rO) -> sum f pts = rO.
Proof.
  induction pts as [|p r IH]; intros H; simpl; [reflexivity|].
  rewrite (H p (or_introl eq_refl)), IH; [ring|].
  intros q Hq. apply H. now right.
Qed.

(** A sum that picks the value at one abscissa. *)
Lemma sum_pick (f : T * T -> T) pts xj vj :
  NoDup (map fst pts) -> In (xj, vj) pts ->
  (forall p, In p pts -> fst p <> xj -> f p = rO) ->
  f (xj, vj) = vj ->
  sum f pts = vj.
Proof.
  induction pts as [|[x v] r IH]; intros Hnd Hin Hz Hv; [now elim Hin|].
  simpl in Hnd. inversion Hnd as [|? ? Hx Hr]; subst.
  simpl. destruct Hin as [E|Hin].
  - injection E as -> ->. rewrite Hv, sum_zero; [ring|].
    intros p Hp. apply Hz; [now right|].
    intros E. apply Hx. rewrite <- E. now apply in_map.
  - rewrite Hz; [|now left|].
    + rewrite IH; try assumption; [ring|].
      intros p Hp. apply Hz. now right.
    + simpl. intros ->. apply Hx. apply in_map_iff. now exists (xj, vj).
Qed.

(** The interpolating function takes the given values. *)
Lemma lagrange_at pts xj vj :
  NoDup (map fst pts) -> In (xj, vj) pts -> lagrange pts xj = vj.
Proof.
  intros Hnd Hin. unfold lagrange. apply sum_pick with (xj := xj); trivial.
  - intros p Hp Hne. rewrite basis_other; [ring| |congruence].
    apply in_map_iff. now exists (xj, vj).
  - simpl. rewrite basis_own. ring.
Qed.

(** It is a polynomial with as many coefficients as there are points. *)
Fixpoint psum (f : T * T -> list T) (pts : list (T * T)) : list T :=
  match pts with
  | [] => []
  | p :: r => padd (f p) (psum f r)
  end.

Lemma psum_eval f pts y :
  eval (psum f pts) y = sum (fun p => eval (f p) y) pts.
Proof.
  induction pts as [|p r IH]; simpl; [reflexivity|].
  now rewrite padd_eval, IH.
Qed.

Lemma psum_length f pts n :
  (forall p, In p pts -> (length (f p) <= n)%nat) ->
  (length (psum f pts) <= n)%nat.
Proof.
  induction pts as [|p r IH]; intros H; simpl; [lia|].
  rewrite padd_length. apply Nat.max_lub.
  - apply H. now left.
  - apply IH. intros q Hq. apply H. now right.
Qed.

Definition pbasis (xs : list T) (p : T * T) : list T :=
  pscale (snd p / num (remove Teq_dec (fst p) xs) (fst p))
         (pnum (remove Teq_dec (fst p) xs)).

Definition plagrange (pts : list (T * T)) : list T :=
  psum (pbasis (map fst pts)) pts.

Lemma plagrange_eval pts y : eval (plagrange pts) y = lagrange pts y.
Proof.
  unfold plagrange, lagrange. rewrite psum_eval. apply sum_ext.
  intros p Hp. unfold pbasis, basis. rewrite pscale_eval, pnum_eval.
  field. apply num_nonzero. apply remove_In.
Qed.

Lemma remove_length_lt (x : T) xs :
  In x xs -> (length (remove Teq_dec x xs) < length xs)%nat.
Proof. apply remove_length_lt. Qed.

Lemma plagrange_length pts : (length (plagrange pts) <= length pts)%nat.
Proof.
  unfold plagrange. apply psum_length. intros p Hp.
  unfold pbasis. rewrite pscale_length, pnum_length.
  assert (In (fst p) (map fst pts)) by now apply in_map.
  pose proof (remove_length_lt (fst p) (map fst pts) H) as L.
  rewrite length_map in L. lia.
Qed.

(** Exactness: interpolating the values of a polynomial with no more
    coefficients than there are points gives the polynomial back. *)
Theorem lagrange_exact (p : list T) (xs : list T) (y : T) :
  NoDup xs -> (length p <= length xs)%nat ->
  lagrange (map (fun x => (x, eval p x)) xs) y = eval p y.
Proof.
  intros Hnd Hlen.
  set (pts := map (fun x => (x, eval p x)) xs).
  assert (Ex : map fst pts = xs).
  { unfold pts. rewrite map_map. simpl. apply map_id. }
  set (q := padd p (pscale (ropp rI) (plagrange pts))).
  assert (Hq : forall z, eval q z = eval p z - lagrange pts z).
  { intros z. unfold q. rewrite padd_eval, pscale_eval, plagrange_eval. ring. }
  assert (Hz : eval q y = rO).
  { apply (roots_zero xs Hnd).
    - unfold q. rewrite padd_length, pscale_length.
      apply Nat.max_lub; [exact Hlen|].
      eapply Nat.le_trans; [apply plagrange_length|].
      unfold pts. now rewrite length_map.
    - intros x Hx. rewrite Hq.
      rewrite (lagrange_at pts x (eval p x)).
      + ring.
      + now rewrite Ex.
      + unfold pts. apply in_map_iff. now exists x. }
  rewrite Hq in Hz. symmetry. now apply sub_zero.
Qed.

(** Interpolating the values of an interpolating function at as many
    other abscissas gives the same function. *)
Theorem lagrange_resample (pts : list (T * T)) (xs : list T) (y : T) :
  NoDup xs -> (length pts <= length xs)%nat ->
  lagrange (map (fun x => (x, lagrange pts x)) xs) y = lagrange pts y.
Proof.
  intros Hnd Hlen.
  rewrite <- (plagrange_eval pts y).
  rewrite <- (lagrange_exact (plagrange pts) xs y Hnd).
  - f_equal. apply map_ext. intros x. now rewrite plagrange_eval.
  - eapply Nat.le_trans; [apply plagrange_length|exact Hlen].
Qed.

End OverField.
End Lagrange.

(* ================================================================= *)
(** ** The field of 256 elements behind the tables *)

Module GF256.
Import Constants Utils JSFacts.

(** [LOG_TABLE[a]] and [EXP_TABLE[i]] inside the tables. *)
Definition LOG (a : Z) : Z := nth (Z.to_nat a) LOG_TABLE 0.
Definition EXP (i : Z) : Z := nth (Z.to_nat i) EXP_TABLE 0.

Definition isbyte (z : Z) : bool := (0 <=? z) && (z <? 256).

(** Boolean tests as propositions. *)
Ltac props H :=
  rewrite ?andb_true_iff, ?orb_true_iff, ?Z.leb_le, ?Z.ltb_lt, ?Z.eqb_eq in H.

Lemma isbyte_byte z : isbyte z = true <-> byte z.
Proof. unfold isbyte, byte. lia. Qed.

Definition all_bytes : list Z := map Z.of_nat (seq 0 256).
Definition exponents : list Z := map Z.of_nat (seq 0 255).

Lemma In_all_bytes a : byte a -> In a all_bytes.
Proof.
  intros H. unfold all_bytes. apply in_map_iff. exists (Z.to_nat a).
  split; [unfold byte in H; lia|]. apply in_seq. unfold byte in H. lia.
Qed.

Lemma In_exponents i : 0 <= i < 255 -> In i exponents.
Proof.
  intros H. unfold exponents. apply in_map_iff. exists (Z.to_nat i).
  split; [lia|]. apply in_seq. lia.
Qed.

(** What the tables are checked for, entry by entry. *)
Definition log_entry (a : Z) : bool :=
  (0 <=? LOG a) && (LOG a <? 255) && ((a =? 0) || (EXP (LOG a) =? a)).

Definition exp_entry (i : Z) : bool :=
  (0 <? EXP i) && (EXP i <? 256) && (LOG (EXP i) =? i)
  && (EXP ((i + 1) mod 255) =? times3 (EXP i)).

Definition times3_entry (a b : Z) : bool :=
  (times3 (Z.lxor a b) =? Z.lxor (times3 a) (times3 b))
  && isbyte (times3 a).

Lemma log_entries : forallb log_entry all_bytes = true.
Proof. vm_compute. reflexivity. Qed.

Lemma exp_entries : forallb exp_entry exponents = true.
Proof. vm_compute. reflexivity. Qed.

Lemma times3_entries :
  forallb (fun a => forallb (times3_entry a) all_bytes) all_bytes = true.
Proof. vm_compute. reflexivity. Qed.

Lemma LOG_range a : byte a -> 0 <= LOG a < 255.
Proof.
  intros H. pose proof log_entries as E. rewrite forallb_forall in E.
  specialize (E a (In_all_bytes a H)). unfold log_entry in E. props E. lia.
Qed.

Lemma EXP_LOG a : byte a -> a <> 0 -> EXP (LOG a) = a.
Proof.
  intros H Hz. pose proof log_entries as E. rewrite forallb_forall in E.
  specialize (E a (In_all_bytes a H)). unfold log_entry in E. props E. lia.
Qed.

Lemma EXP_range i : 0 <= i < 255 -> 0 < EXP i < 256.
Proof.
  intros H. pose proof exp_entries as E. rewrite forallb_forall in E.
  specialize (E i (In_exponents i H)). unfold exp_entry in E. props E. lia.
Qed.

Lemma LOG_EXP i : 0 <= i < 255 -> LOG (EXP i) = i.
Proof.
  intros H. pose proof exp_entries as E. rewrite forallb_forall in E.
  specialize (E i (In_exponents i H)). unfold exp_entry in E. props E. lia.
Qed.

Lemma EXP_step i : 0 <= i < 255 -> EXP ((i + 1) mod 255) = times3 (EXP i).
Proof.
  intros H. pose proof exp_entries as E. rewrite forallb_forall in E.
  specialize (E i (In_exponents i H)). unfold exp_entry in E. props E. lia.
Qed.

Lemma times3_lxor a b :
  byte a -> byte b -> times3 (Z.lxor a b) = Z.lxor (times3 a) (times3 b).
Proof.
  intros Ha Hb. pose proof times3_entries as E. rewrite forallb_forall in E.
  specialize (E a (In_all_bytes a Ha)). rewrite forallb_forall in E.
  specialize (E b (In_all_bytes b Hb)). unfold times3_entry in E. props E. lia.
Qed.

Lemma times3_byte a : byte a -> byte (times3 a).
Proof.
  intros Ha. pose proof times3_entries as E. rewrite forallb_forall in E.
  specialize (E a (In_all_bytes a Ha)). rewrite forallb_forall in E.
  specialize (E a (In_all_bytes a Ha)). unfold times3_entry in E.
  apply isbyte_byte. props E. tauto.
Qed.

Lemma lxor_byte a b : byte a -> byte b -> byte (Z.lxor a b).
Proof. unfold byte. intros Ha Hb. apply (lxor_bound 8); lia. Qed.

(** The product and the inverse that the logarithms compute. *)
Definition gmul (a b : Z) : Z :=
  if (a =? 0) || (b =? 0) then 0 else EXP ((LOG a + LOG b) mod 255).

Definition ginv (a : Z) : Z := EXP ((255 - LOG a) mod 255).

Lemma gmul_0_l b : gmul 0 b = 0.
Proof. reflexivity. Qed.

Lemma gmul_0_r a : gmul a 0 = 0.
Proof. unfold gmul. now rewrite Z.eqb_refl, orb_true_r. Qed.

Lemma gmul_nonzero a b :
  a <> 0 -> b <> 0 -> gmul a b = EXP ((LOG a + LOG b) mod 255).
Proof.
  intros Ha Hb. unfold gmul.
  destruct (Z.eqb_spec a 0); [contradiction|].
  destruct (Z.eqb_spec b 0); [contradiction|]. reflexivity.
Qed.

Lemma gmul_byte a b : byte (gmul a b).
Proof.
  unfold gmul. destruct ((a =? 0) || (b =? 0)); [unfold byte; lia|].
  assert (0 < EXP ((LOG a + LOG b) mod 255) < 256)
    by (apply EXP_range; apply Z.mod_pos_bound; lia).
  unfold byte. lia.
Qed.

Lemma gmul_comm a b : gmul a b = gmul b a.
Proof. unfold gmul. now rewrite orb_comm, Z.add_comm. Qed.

Lemma gmul_1_l a : byte a -> gmul 1 a = a.
Proof.
  intros Ha. destruct (Z.eq_dec a 0) as [->|Hz]; [reflexivity|].
  rewrite gmul_nonzero by (discriminate || assumption).
  change (LOG 1) with 0. rewrite Z.add_0_l.
  rewrite Z.mod_small by (now apply LOG_range). now apply EXP_LOG.
Qed.

Lemma gmul_LOG a b :
  byte a -> byte b -> a <> 0 -> b <> 0 ->
  gmul a b <> 0 /\ LOG (gmul a b) = (LOG a + LOG b) mod 255.
Proof.
  intros Ha Hb Hza Hzb. rewrite gmul_nonzero by assumption.
  assert (R : 0 <= (LOG a + LOG b) mod 255 < 255)
    by (apply Z.mod_pos_bound; lia).
  pose proof (EXP_range _ R). split; [lia|]. now apply LOG_EXP.
Qed.

Lemma gmul_assoc a b c :
  byte a -> byte b -> byte c -> gmul a (gmul b c) = gmul (gmul a b) c.
Proof.
  intros Ha Hb Hc.
  destruct (Z.eq_dec a 0) as [->|Hza]; [reflexivity|].
  destruct (Z.eq_dec b 0) as [->|Hzb];
    [now rewrite gmul_0_l, gmul_0_r, gmul_0_l|].
  destruct (Z.eq_dec c 0) as [->|Hzc]; [now rewrite !gmul_0_r|].
  destruct (gmul_LOG a b Ha Hb Hza Hzb) as [Nab Lab].
  destruct (gmul_LOG b c Hb Hc Hzb Hzc) as [Nbc Lbc].
  rewrite (gmul_nonzero a (gmul b c)), (gmul_nonzero (gmul a b) c)
    by assumption.
  rewrite Lab, Lbc. f_equal.
  rewrite Z.add_mod_idemp_r, Z.add_mod_idemp_l by lia.
  f_equal. lia.
Qed.

(** Multiplying by the [k]-th power of the generator is multiplying [k]
    times by 3. *)
Fixpoint times3_iter (k : nat) (a : Z) : Z :=
  match k with
  | O => a
  | S k' => times3 (times3_iter k' a)
  end.

Lemma iter_times3_EXP k i :
  0 <= i < 255 ->
  times3_iter k (EXP i) = EXP ((i + Z.of_nat k) mod 255).
Proof.
  intros Hi. induction k as [|k IH].
  - cbn [times3_iter]. now rewrite Z.add_0_r, Z.mod_small.
  - cbn [times3_iter]. rewrite IH.
    rewrite <- EXP_step by (apply Z.mod_pos_bound; lia).
    f_equal. rewrite Z.add_mod_idemp_l by lia. f_equal. lia.
Qed.

Lemma iter_times3_zero k : times3_iter k 0 = 0.
Proof. induction k as [|k IH]; cbn [times3_iter]; [|rewrite IH]; reflexivity. Qed.

Lemma iter_times3_byte k a : byte a -> byte (times3_iter k a).
Proof.
  intros Ha. induction k as [|k IH]; cbn [times3_iter]; [exact Ha|].
  now apply times3_byte.
Qed.

Lemma iter_times3_lxor k a b :
  byte a -> byte b ->
  times3_iter k (Z.lxor a b)
  = Z.lxor (times3_iter k a) (times3_iter k b).
Proof.
  intros Ha Hb. induction k as [|k IH]; cbn [times3_iter]; [reflexivity|].
  rewrite IH. apply times3_lxor; now apply iter_times3_byte.
Qed.

Lemma gmul_iter a c :
  byte a -> byte c -> c <> 0 ->
  gmul a c = times3_iter (Z.to_nat (LOG c)) a.
Proof.
  intros Ha Hc Hzc. pose proof (LOG_range c Hc) as Rc.
  destruct (Z.eq_dec a 0) as [->|Hza];
    [now rewrite gmul_0_l, iter_times3_zero|].
  rewrite gmul_nonzero by assumption.
  rewrite <- (EXP_LOG a Ha Hza) at 2.
  rewrite iter_times3_EXP by (now apply LOG_range).
  now rewrite Z2Nat.id by lia.
Qed.

Lemma gmul_lxor_l a b c :
  byte a -> byte b -> byte c ->
  gmul (Z.lxor a b) c = Z.lxor (gmul a c) (gmul b c).
Proof.
  intros Ha Hb Hc. destruct (Z.eq_dec c 0) as [->|Hzc];
    [now rewrite !gmul_0_r|].
  rewrite !gmul_iter by (assumption || now apply lxor_byte).
  now apply iter_times3_lxor.
Qed.

Lemma ginv_byte a : byte (ginv a).
Proof.
  unfold ginv.
  assert (0 < EXP ((255 - LOG a) mod 255) < 256)
    by (apply EXP_range; apply Z.mod_pos_bound; lia).
  unfold byte. lia.
Qed.

Lemma gmul_ginv a : byte a -> a <> 0 -> gmul (ginv a) a = 1.
Proof.
  intros Ha Hza. pose proof (LOG_range a Ha) as Ra.
  assert (R : 0 <= (255 - LOG a) mod 255 < 255)
    by (apply Z.mod_pos_bound; lia).
  pose proof (EXP_range _ R) as Re.
  rewrite gmul_nonzero by (unfold ginv; lia || assumption).
  unfold ginv. rewrite LOG_EXP by exact R.
  rewrite Z.add_mod_idemp_l by lia.
  replace (255 - LOG a + LOG a) with (1 * 255) by lia.
  now rewrite Z.mod_mul by lia.
Qed.

(** *** The field as a type *)

Record F : Type := mkF { val : Z; val_byte : isbyte val = true }.

Lemma F_eq (a b : F) : val a = val b -> a = b.
Proof.
  destruct a as [a Ha], b as [b Hb]. cbn [val]. intros ->.
  f_equal. apply (Eqdep_dec.UIP_dec Bool.bool_dec).
Qed.

Lemma F_byte (a : F) : byte (val a).
Proof. apply isbyte_byte, val_byte. Qed.

Lemma mod_isbyte z : isbyte (z mod 256) = true.
Proof. apply isbyte_byte. unfold byte. apply Z.mod_pos_bound. lia. Qed.

Lemma lxor_isbyte (a b : F) : isbyte (Z.lxor (val a) (val b)) = true.
Proof. apply isbyte_byte, lxor_byte; apply F_byte. Qed.

Lemma gmul_isbyte a b : isbyte (gmul a b) = true.
Proof. apply isbyte_byte, gmul_byte. Qed.

Lemma ginv_isbyte a : isbyte (ginv a) = true.
Proof. apply isbyte_byte, ginv_byte. Qed.

(** The byte [z mod 256] as an element of the field. *)
Definition toF (z : Z) : F := mkF (z mod 256) (mod_isbyte z).

Definition F0 : F := toF 0.
Definition F1 : F := toF 1.
Definition Fadd (a b : F) : F := mkF _ (lxor_isbyte a b).
Definition Fmul (a b : F) : F := mkF _ (gmul_isbyte (val a) (val b)).
Definition Fopp (a : F) : F := a.
Definition Finv (a : F) : F := mkF _ (ginv_isbyte (val a)).
Definition Fdiv (a b : F) : F := Fmul a (Finv b).

Lemma val_toF z : byte z -> val (toF z) = z.
Proof. intros H. cbn [toF val]. apply Z.mod_small. exact H. Qed.

Lemma toF_val a : toF (val a) = a.
Proof. apply F_eq. apply val_toF, F_byte. Qed.

Lemma toF_inj a b : byte a -> byte b -> toF a = toF b -> a = b.
Proof.
  intros Ha Hb H. apply (f_equal val) in H. now rewrite !val_toF in H.
Qed.

Definition F_dec (a b : F) : {a = b} + {a <> b}.
Proof.
  destruct (Z.eq_dec (val a) (val b)) as [E|N].
  - left. now apply F_eq.
  - right. intros ->. now apply N.
Defined.

Lemma F_field : field_theory F0 F1 Fadd Fmul Fadd Fopp Fdiv Finv eq.
Proof.
  constructor; [constructor| | |].
  - intros x. apply F_eq. cbn [Fadd F0 toF val]. apply Z.lxor_0_l.
  - intros x y. apply F_eq. cbn [Fadd val]. apply Z.lxor_comm.
  - intros x y z. apply F_eq. cbn [Fadd val]. symmetry. apply Z.lxor_assoc.
  - intros x. apply F_eq. cbn [Fmul F1 toF val]. apply gmul_1_l, F_byte.
  - intros x y. apply F_eq. cbn [Fmul val]. apply gmul_comm.
  - intros x y z. apply F_eq. cbn [Fmul val]. apply gmul_assoc; apply F_byte.
  - intros x y z. apply F_eq. cbn [Fmul Fadd val].
    apply gmul_lxor_l; apply F_byte.
  - intros x y. reflexivity.
  - intros x. apply F_eq. cbn [Fadd Fopp F0 toF val]. apply Z.lxor_nilpotent.
  - intros H. apply (f_equal val) in H. discriminate H.
  - intros p q. reflexivity.
  - intros p Hp. apply F_eq. cbn [Fmul Finv F1 toF val].
    apply gmul_ginv; [apply F_byte|].
    intros Hz. apply Hp. apply F_eq. exact Hz.
Qed.

(** *** Interpolation in this field *)

Definition numerator : list F -> F -> F := Lagrange.num F F1 Fmul Fadd.
Definition basis : list F -> F -> F -> F :=
  Lagrange.basis F F1 Fmul Fadd Fdiv F_dec.
Definition lagrange : list (F * F) -> F -> F :=
  Lagrange.lagrange F F0 F1 Fadd Fmul Fadd Fdiv F_dec.

Lemma lagrange_key pts xj vj :
  NoDup (map fst pts) -> In (xj, vj) pts -> lagrange pts xj = vj.
Proof. apply (Lagrange.lagrange_at F _ _ _ _ _ _ _ _ F_field F_dec). Qed.

Lemma lagrange_sampled pts xs y :
  NoDup xs -> (length pts <= length xs)%nat ->
  lagrange (map (fun x => (x, lagrange pts x)) xs) y = lagrange pts y.
Proof. apply (Lagrange.lagrange_resample F _ _ _ _ _ _ _ _ F_field F_dec). Qed.

End GF256.

(* ================================================================= *)
(** ** [interpolate] is Lagrange interpolation *)

Module InterpolateFacts.
Import Constants Utils Helper JSFacts MapFacts GF256.

(** The exponent of the Lagrange basis, as the loop of [interpolate]
    computes it for the entry [kv]. *)
Definition logBasisEval (shares : JSMap.t (list Z)) (x : Z) (logProd : num)
           (kv : Z * list Z) : num :=
  let k := fst kv in
  let sum :=
    fold_left (fun sum kkv => nadd sum (JS.index LOG_TABLE (JS.bxor k (fst kkv))))
              shares (Some 0) in
  let basis :=
    nrem (nsub (nsub logProd (JS.index LOG_TABLE (JS.bxor k x))) sum) 255 in
  match basis with
  | Some b => if b <? 0 then Some (255 + b) else Some b
  | None => None
  end.

(** What one byte of a share contributes. *)
Definition contribution (lbe : num) (shareVal : Z) : num :=
  if negb (shareVal =? 0)
  then nindex EXP_TABLE (nrem (nadd (JS.index LOG_TABLE shareVal) lbe) 255)
  else Some 0.

Definition logProd (shares : JSMap.t (list Z)) (x : Z) : num :=
  fold_left (fun logProd kv =>
               nadd logProd (JS.index LOG_TABLE (JS.bxor (fst kv) x)))
            shares (Some 0).

Lemma interpolate_loop shares x :
  interpolate shares x
  = let xCoord := JSSet.of_list (JSMap.keys shares) in
    let sharesValueLengths :=
      JSSet.of_list (map (fun v => Z.of_nat (length v)) (JSMap.values shares)) in
    if negb (JSSet.size sharesValueLengths =? 1) then Err SharesLengthMismatch
    else
      _ <- (if existsb (Z.eqb x) xCoord
            then forEachR (fun kv => if fst kv =? x then Ok tt
                                     else Err InterpolateExistingKey) shares
            else Ok tt) ;;
      Ok (fold_left
            (fun results kv =>
               xor_into results (snd kv)
                        (contribution (logBasisEval shares x (logProd shares x) kv)))
            shares
            (generateArray [] (hd 0 sharesValueLengths) (fun _ => 0))).
Proof. reflexivity. Qed.

(** *** Sets of one length and of the keys *)

Lemma of_list_acc l : forall s x,
  In x (fold_left JSSet.add l s) <-> In x s \/ In x l.
Proof.
  induction l as [|a l IH]; intros s x; cbn [fold_left].
  - simpl. tauto.
  - rewrite IH, set_add_In. simpl. intuition.
Qed.

Lemma of_list_In l x : In x (JSSet.of_list l) <-> In x l.
Proof. unfold JSSet.of_list. rewrite of_list_acc. simpl. tauto. Qed.

Lemma of_list_const l c :
  Forall (eq c) l -> fold_left JSSet.add l [c] = [c].
Proof.
  induction 1 as [|a l <- _ IH]; [reflexivity|].
  cbn [fold_left]. unfold JSSet.add at 2. cbn [existsb].
  now rewrite Z.eqb_refl.
Qed.

Lemma of_list_lengths (L : nat) (vs : list (list Z)) :
  vs <> [] -> Forall (fun v => length v = L) vs ->
  JSSet.of_list (map (fun v => Z.of_nat (length v)) vs) = [Z.of_nat L].
Proof.
  intros Hne H. destruct vs as [|v vs]; [now elim Hne|].
  inversion H as [|? ? Hv Hvs]; subst.
  unfold JSSet.of_list. cbn [map fold_left]. unfold JSSet.add at 2.
  cbn [existsb app]. apply of_list_const.
  apply Forall_map. revert Hvs. apply Forall_impl. intros a ->. reflexivity.
Qed.

(** *** Sums of logarithms *)

(** The sum of the [h k] over the keys [ks]. *)
Definition total (h : Z -> Z) (ks : list Z) : Z :=
  fold_right (fun k s => h k + s) 0 ks.

Lemma total_remove h ks k :
  NoDup ks -> In k ks -> total h ks = h k + total h (remove Z.eq_dec k ks).
Proof.
  induction 1 as [|a ks Ha Hnd IH]; intros Hin; [now elim Hin|].
  cbn [total fold_right remove]. fold (total h ks).
  destruct (Z.eq_dec k a) as [<-|Hne].
  - rewrite notin_remove by exact Ha. reflexivity.
  - destruct Hin as [E|Hin]; [congruence|].
    cbn [fold_right]. fold (total h (remove Z.eq_dec k ks)).
    rewrite IH by exact Hin. lia.
Qed.

Lemma index_LOG a : byte a -> JS.index LOG_TABLE a = Some (LOG a).
Proof.
  intros Ha. unfold JS.index, LOG, byte in *.
  destruct (Z.ltb_spec a 0); [lia|].
  apply nth_error_nth'. change (length LOG_TABLE) with 256%nat. lia.
Qed.

Lemma index_EXP i : 0 <= i < 255 -> JS.index EXP_TABLE i = Some (EXP i).
Proof.
  intros Hi. unfold JS.index, EXP.
  destruct (Z.ltb_spec i 0); [lia|].
  apply nth_error_nth'. change (length EXP_TABLE) with 255%nat. lia.
Qed.

Lemma bxor_byte a b : byte a -> byte b -> JS.bxor a b = Z.lxor a b.
Proof. unfold byte. intros Ha Hb. apply bxor_small; lia. Qed.

Lemma total_ext h h' ks :
  (forall k, In k ks -> h k = h' k) -> total h ks = total h' ks.
Proof.
  induction ks as [|k ks IH]; intros H; cbn [total fold_right]; [reflexivity|].
  fold (total h ks) (total h' ks).
  rewrite (H k (or_introl eq_refl)), IH; [reflexivity|].
  intros j Hj. apply H. now right.
Qed.

(** A loop that adds up logarithms read from the table. *)
Lemma log_fold (h : Z -> Z) (shares : JSMap.t (list Z)) :
  Forall (fun k => byte (h k)) (JSMap.keys shares) ->
  forall a,
    fold_left (fun s kv => nadd s (JS.index LOG_TABLE (h (fst kv))))
              shares (Some a)
    = Some (a + total (fun k => LOG (h k)) (JSMap.keys shares)).
Proof.
  induction shares as [|kv l IH]; intros H a;
    cbn [fold_left JSMap.keys map total fold_right].
  - f_equal. lia.
  - inversion H as [|? ? Hk Hl]; subst.
    rewrite index_LOG by exact Hk. cbn [nadd].
    rewrite (IH Hl). f_equal. unfold total, JSMap.keys. lia.
Qed.

(** The exponent of the basis of the key [k]. *)
Definition exponent (keys : list Z) (x k : Z) : Z :=
  (total (fun kj => LOG (Z.lxor kj x)) keys - LOG (Z.lxor k x)
   - total (fun kj => LOG (Z.lxor k kj)) keys) mod 255.

Lemma exponent_range keys x k : 0 <= exponent keys x k < 255.
Proof. unfold exponent. apply Z.mod_pos_bound. lia. Qed.

Lemma logProd_total shares x :
  Forall byte (JSMap.keys shares) -> byte x ->
  logProd shares x
  = Some (total (fun kj => LOG (Z.lxor kj x)) (JSMap.keys shares)).
Proof.
  intros Hk Hx. unfold logProd.
  rewrite (log_fold (fun k => JS.bxor k x)).
  - f_equal. rewrite Z.add_0_l. apply total_ext. intros k Hin.
    rewrite Forall_forall in Hk. now rewrite bxor_byte by auto.
  - revert Hk. apply Forall_impl. intros k Hb.
    rewrite bxor_byte by assumption. now apply lxor_byte.
Qed.

Lemma rem_fix v :
  (if Z.rem v 255 <? 0 then Some (255 + Z.rem v 255) else Some (Z.rem v 255))
  = Some (v mod 255).
Proof.
  destruct (Z.ltb_spec (Z.rem v 255) 0); f_equal;
    Z.to_euclidean_division_equations; lia.
Qed.

Lemma logBasisEval_exponent shares x kv :
  Forall byte (JSMap.keys shares) -> byte x -> byte (fst kv) ->
  logBasisEval shares x (logProd shares x) kv
  = Some (exponent (JSMap.keys shares) x (fst kv)).
Proof.
  intros Hk Hx Hkv. unfold logBasisEval. cbv zeta.
  rewrite (log_fold (fun kj => JS.bxor (fst kv) kj)).
  - rewrite logProd_total by assumption.
    rewrite bxor_byte, index_LOG by (assumption || now apply lxor_byte).
    cbn [nsub nrem]. unfold JS.rem. rewrite rem_fix. unfold exponent.
    f_equal. f_equal. rewrite Z.add_0_l. f_equal. apply total_ext.
    intros k Hin. rewrite Forall_forall in Hk. now rewrite bxor_byte by auto.
  - revert Hk. apply Forall_impl. intros k Hb.
    rewrite bxor_byte by assumption. now apply lxor_byte.
Qed.

Lemma contribution_gmul e s :
  0 <= e < 255 -> byte s -> nint (contribution (Some e) s) = gmul s (EXP e).
Proof.
  intros He Hs. unfold contribution.
  destruct (Z.eqb_spec s 0) as [->|Hz]; [reflexivity|]. cbn [negb].
  pose proof (LOG_range s Hs) as Rs. pose proof (EXP_range e He) as Re.
  rewrite index_LOG by exact Hs. cbn [nadd nrem nindex]. unfold JS.rem.
  rewrite Z.rem_mod_nonneg by lia.
  rewrite index_EXP by (apply Z.mod_pos_bound; lia). cbn [nint].
  rewrite gmul_nonzero by lia. now rewrite LOG_EXP.
Qed.

(** *** The loop over the bytes *)

Lemma map_seq_S {A} (f : nat -> A) n :
  map f (seq 0 (S n)) = f 0%nat :: map (fun i => f (S i)) (seq 0 n).
Proof. cbn [seq map]. f_equal. rewrite <- seq_shift. now rewrite map_map. Qed.

Lemma map_nth_seq (l : list Z) :
  map (fun idx => nth idx l 0) (seq 0 (length l)) = l.
Proof.
  induction l as [|a l IH]; [reflexivity|].
  cbn [length]. rewrite map_seq_S. cbn [nth]. now rewrite IH.
Qed.

Lemma nth_map_seq {A} (f : nat -> A) n idx d :
  (idx < n)%nat -> nth idx (map f (seq 0 n)) d = f idx.
Proof.
  intros H. rewrite (nth_indep _ d (f 0%nat)) by (now rewrite length_map, length_seq).
  rewrite (map_nth f (seq 0 n) 0%nat idx). now rewrite seq_nth.
Qed.

Lemma xor_into_map results : forall v r L,
  length results = L -> length v = L ->
  xor_into results v r
  = map (fun idx => JS.bxor (nth idx results 0) (nint (r (nth idx v 0))))
        (seq 0 L).
Proof.
  induction results as [|a results IH]; intros v r L Hr Hv.
  - subst L. destruct v; [reflexivity|discriminate].
  - destruct v as [|b v]; [subst L; discriminate|].
    destruct L as [|L]; [discriminate|].
    cbn [xor_into]. rewrite map_seq_S. cbn [nth]. f_equal.
    apply IH; simpl in *; lia.
Qed.

Lemma nth_zeros {A} (l : list A) idx : nth idx (map (fun _ => 0) l) 0 = 0.
Proof.
  revert idx. induction l as [|a l IH]; intros [|idx]; cbn [map nth]; auto.
Qed.

Lemma nth_byte l idx : bytes l -> byte (nth idx l 0).
Proof.
  intros H. destruct (Nat.lt_ge_cases idx (length l)) as [Hlt|Hge].
  - unfold bytes in H. rewrite Forall_forall in H. apply H. now apply nth_In.
  - rewrite nth_overflow by exact Hge. unfold byte. lia.
Qed.

(** Every pass xors, byte by byte, the product of the byte with the basis
    of the key. *)
Lemma fold_xor_into (c : Z * list Z -> Z) (g : Z * list Z -> Z -> num)
      (L : nat) (l : list (Z * list Z)) :
  Forall (fun kv => length (snd kv) = L /\ bytes (snd kv)
                    /\ forall s, byte s -> nint (g kv s) = gmul s (c kv)) l ->
  forall results, length results = L -> bytes results ->
    fold_left (fun results kv => xor_into results (snd kv) (g kv)) l results
    = map (fun idx =>
             fold_left (fun acc kv => Z.lxor acc (gmul (nth idx (snd kv) 0) (c kv)))
                       l (nth idx results 0))
          (seq 0 L).
Proof.
  induction 1 as [|kv l (Hlen & Hb & Hg) Hl IH]; intros results Hr Hbr.
  - cbn [fold_left]. subst L. symmetry. apply map_nth_seq.
  - cbn [fold_left].
    assert (E : xor_into results (snd kv) (g kv)
                = map (fun idx => Z.lxor (nth idx results 0)
                                         (gmul (nth idx (snd kv) 0) (c kv)))
                      (seq 0 L)).
    { rewrite (xor_into_map _ _ _ L) by assumption.
      apply map_ext. intros idx.
      rewrite Hg by (now apply nth_byte).
      apply bxor_byte; [now apply nth_byte|apply gmul_byte]. }
    rewrite E. rewrite IH.
    + apply map_ext_in. intros idx Hidx. apply in_seq in Hidx.
      rewrite nth_map_seq by lia. reflexivity.
    + now rewrite length_map, length_seq.
    + apply Forall_forall. intros z Hz. apply in_map_iff in Hz as (idx & <- & _).
      apply lxor_byte; [now apply nth_byte|apply gmul_byte].
Qed.

Lemma fold_left_lxor {A} (h : A -> Z) (l : list A) (a : Z) :
  fold_left (fun acc x => Z.lxor acc (h x)) l a
  = Z.lxor a (fold_right (fun x acc => Z.lxor (h x) acc) 0 l).
Proof.
  revert a. induction l as [|x l IH]; intros a; cbn [fold_left fold_right].
  - now rewrite Z.lxor_0_r.
  - rewrite IH. now rewrite Z.lxor_assoc.
Qed.

(** *** The basis *)

Lemma remove_toF k ks :
  byte k -> Forall byte ks ->
  remove F_dec (toF k) (map toF ks) = map toF (remove Z.eq_dec k ks).
Proof.
  intros Hk. induction 1 as [|a ks Ha Hks IH]; [reflexivity|].
  cbn [map remove]. rewrite IH.
  destruct (F_dec (toF k) (toF a)) as [E|N], (Z.eq_dec k a) as [E'|N'].
  - reflexivity.
  - elim N'. now apply toF_inj.
  - elim N. now subst.
  - reflexivity.
Qed.

Lemma val_numerator ks y :
  Forall byte ks -> byte y -> ~ In y ks ->
  val (numerator (map toF ks) (toF y))
  = EXP (total (fun k => LOG (Z.lxor k y)) ks mod 255).
Proof.
  intros Hks Hy. induction Hks as [|k ks Hk Hks IH]; intros Hin.
  - reflexivity.
  - cbn [map total fold_right]. fold (total (fun k => LOG (Z.lxor k y)) ks).
    unfold numerator in *. cbn [Lagrange.num Fmul Fadd val].
    rewrite IH by (intros H; apply Hin; now right).
    rewrite !val_toF by assumption.
    assert (Hne : Z.lxor y k <> 0).
    { intros H. apply Z.lxor_eq in H. apply Hin. now left. }
    assert (R : 0 <= total (fun k0 => LOG (Z.lxor k0 y)) ks mod 255 < 255)
      by (apply Z.mod_pos_bound; lia).
    pose proof (EXP_range _ R).
    rewrite gmul_nonzero by lia. rewrite LOG_EXP by exact R.
    rewrite Z.add_mod_idemp_r by lia. now rewrite (Z.lxor_comm y k).
Qed.

Lemma Forall_remove (P : Z -> Prop) k ks :
  Forall P ks -> Forall P (remove Z.eq_dec k ks).
Proof.
  rewrite !Forall_forall. intros H x Hx. apply in_remove in Hx as [Hx _]. auto.
Qed.

Lemma val_basis keys x k :
  NoDup keys -> Forall byte keys -> byte x -> ~ In x keys -> In k keys ->
  val (basis (map toF keys) (toF k) (toF x)) = EXP (exponent keys x k).
Proof.
  intros Hnd Hb Hx Hix Hik.
  assert (Hk : byte k) by (rewrite Forall_forall in Hb; auto).
  unfold basis, Lagrange.basis. rewrite remove_toF by assumption.
  fold (numerator (map toF (remove Z.eq_dec k keys)) (toF x)).
  fold (numerator (map toF (remove Z.eq_dec k keys)) (toF k)).
  unfold Fdiv. cbn [Fmul Finv val].
  rewrite !val_numerator;
    try assumption; try (now apply Forall_remove); try apply remove_In.
  2:{ intros H. apply in_remove in H as [H _]. contradiction. }
  set (A := total (fun kj => LOG (Z.lxor kj x)) (remove Z.eq_dec k keys)).
  set (B := total (fun kj => LOG (Z.lxor kj k)) (remove Z.eq_dec k keys)).
  assert (RA : 0 <= A mod 255 < 255) by (apply Z.mod_pos_bound; lia).
  assert (RB : 0 <= B mod 255 < 255) by (apply Z.mod_pos_bound; lia).
  assert (RI : 0 <= (255 - B mod 255) mod 255 < 255)
    by (apply Z.mod_pos_bound; lia).
  pose proof (EXP_range _ RA). pose proof (EXP_range _ RB).
  unfold ginv. rewrite LOG_EXP by exact RB.
  pose proof (EXP_range _ RI).
  rewrite gmul_nonzero by lia. rewrite !LOG_EXP by assumption.
  f_equal. unfold exponent.
  rewrite (total_remove (fun kj => LOG (Z.lxor kj x)) keys k) by assumption.
  rewrite (total_remove (fun kj => LOG (Z.lxor k kj)) keys k) by assumption.
  rewrite Z.lxor_nilpotent. change (LOG 0) with 0. fold A.
  replace (total (fun kj => LOG (Z.lxor k kj)) (remove Z.eq_dec k keys)) with B
    by (apply total_ext; intros j _; now rewrite Z.lxor_comm).
  clearbody A B. Z.to_euclidean_division_equations. lia.
Qed.

(** *** The result *)

(** The points of the byte position [idx]. *)
Definition points (shares : JSMap.t (list Z)) (idx : nat) : list (F * F) :=
  map (fun kv => (toF (fst kv), toF (nth idx (snd kv) 0))) shares.

(** The interpolating polynomials of the byte positions, at [x]. *)
Definition interpolated (shares : JSMap.t (list Z)) (x : Z) (L : nat) : list Z :=
  map (fun idx => val (lagrange (points shares idx) (toF x))) (seq 0 L).

(** Byte keys without repetition, byte strings of length [L]. *)
Definition wf (L : nat) (shares : JSMap.t (list Z)) : Prop :=
  shares <> [] /\ NoDup (JSMap.keys shares) /\ Forall byte (JSMap.keys shares)
  /\ Forall (fun v => length v = L /\ bytes v) (JSMap.values shares).

Lemma points_keys shares idx :
  map fst (points shares idx) = map toF (JSMap.keys shares).
Proof. unfold points, JSMap.keys. rewrite !map_map. reflexivity. Qed.

Lemma fold_right_over_map {A B C} (g : A -> B) (f : B -> C -> C) c l :
  fold_right f c (map g l) = fold_right (fun a acc => f (g a) acc) c l.
Proof. induction l as [|a l IH]; cbn [map fold_right]; now rewrite ?IH. Qed.

Lemma val_sum (f : F * F -> F) pts :
  val (Lagrange.sum F F0 Fadd f pts)
  = fold_right (fun p acc => Z.lxor (val (f p)) acc) 0 pts.
Proof.
  induction pts as [|p pts IH]; [reflexivity|].
  cbn [Lagrange.sum fold_right Fadd val]. now rewrite IH.
Qed.

Theorem interpolate_lagrange (L : nat) shares x :
  wf L shares -> byte x -> ~ In x (JSMap.keys shares) ->
  interpolate shares x = Ok (interpolated shares x L).
Proof.
  intros (Hne & Hnd & Hk & Hv) Hx Hin.
  rewrite interpolate_loop. cbv zeta.
  rewrite (of_list_lengths L).
  2:{ unfold JSMap.values. destruct shares; [now elim Hne|discriminate]. }
  2:{ revert Hv. apply Forall_impl. tauto. }
  change (JSSet.size [Z.of_nat L] =? 1) with true. cbn [negb hd].
  replace (existsb (Z.eqb x) (JSSet.of_list (JSMap.keys shares))) with false.
  2:{ symmetry. apply not_true_is_false. intros H.
      apply existsb_exists in H as (y & Hy & E). apply Z.eqb_eq in E. subst y.
      apply Hin. apply of_list_In. exact Hy. }
  cbn [bind]. f_equal.
  rewrite (fold_xor_into
             (fun kv => EXP (exponent (JSMap.keys shares) x (fst kv))) _ L).
  - unfold interpolated. apply map_ext_in. intros idx Hidx.
    rewrite fold_left_lxor.
    replace (nth idx (generateArray [] (Z.of_nat L) (fun _ => 0)) 0) with 0.
    2:{ rewrite IndexFacts.generateArray_nil. now rewrite nth_zeros. }
    rewrite Z.lxor_0_l.
    unfold lagrange, Lagrange.lagrange. rewrite val_sum.
    rewrite points_keys. unfold points. rewrite fold_right_over_map.
    cbn [fst snd].
    assert (Hall : Forall (fun kv => In (fst kv) (JSMap.keys shares)
                                    /\ bytes (snd kv)) shares).
    { apply Forall_forall. intros kv Hkv. split.
      - unfold JSMap.keys. now apply in_map.
      - rewrite Forall_forall in Hv.
        apply (Hv (snd kv)). unfold JSMap.values. now apply in_map. }
    clear Hne Hv Hidx. remember (JSMap.keys shares) as keys eqn:Ekeys.
    clear Ekeys. induction Hall as [|kv l (Hkin & Hb) Hl IH];
      [reflexivity|].
    cbn [fold_right]. rewrite IH. f_equal. cbn [Fmul val].
    fold (basis (map toF keys) (toF (fst kv)) (toF x)).
    rewrite val_basis by assumption.
    now rewrite val_toF by (now apply nth_byte).
  - apply Forall_forall. intros kv Hkv.
    assert (Hkin : In (fst kv) (JSMap.keys shares))
      by (unfold JSMap.keys; now apply in_map).
    assert (Hbk : byte (fst kv)) by (rewrite Forall_forall in Hk; auto).
    rewrite Forall_forall in Hv.
    destruct (Hv (snd kv)) as [Hlen Hb];
      [unfold JSMap.values; now apply in_map|].
    split; [exact Hlen|]. split; [exact Hb|].
    intros s Hs. rewrite logBasisEval_exponent by assumption.
    apply contribution_gmul; [apply exponent_range|exact Hs].
  - rewrite IndexFacts.generateArray_nil, length_map, IndexFacts.range_length.
    lia.
  - rewrite IndexFacts.generateArray_nil. apply Forall_forall.
    intros z Hz. apply in_map_iff in Hz as (i & <- & _). unfold byte. lia.
Qed.

Lemma interpolated_length shares x L : length (interpolated shares x L) = L.
Proof. unfold interpolated. now rewrite length_map, length_seq. Qed.

Lemma interpolated_bytes shares x L : bytes (interpolated shares x L).
Proof.
  apply Forall_forall. intros z Hz. apply in_map_iff in Hz as (i & <- & _).
  apply F_byte.
Qed.

End InterpolateFacts.

(* ================================================================= *)
(** ** Splitting and recovering a secret *)

Module ShamirFacts.
Import Constants Utils Random Helper JSFacts MapFacts GF256 InterpolateFacts.

Lemma toF_NoDup ks : Forall byte ks -> NoDup ks -> NoDup (map toF ks).
Proof.
  intros Hb Hnd. induction Hnd as [|k ks Hk Hnd IH]; [constructor|].
  inversion Hb as [|? ? Bk Bks]; subst. cbn [map]. constructor; [|auto].
  intros Hin. apply in_map_iff in Hin as (j & E & Hj).
  rewrite Forall_forall in Bks. apply toF_inj in E; auto. now subst j.
Qed.

Lemma wf_value L base k v : wf L base -> In (k, v) base -> length v = L /\ bytes v.
Proof.
  intros (_ & _ & _ & Hv) Hin. rewrite Forall_forall in Hv.
  apply (Hv v). unfold JSMap.values. apply in_map_iff. now exists (k, v).
Qed.

(** At a key the interpolating polynomials take the value of the key. *)
Lemma interpolated_at L base k v :
  wf L base -> In (k, v) base -> interpolated base k L = v.
Proof.
  intros Hwf Hin. destruct (wf_value L base k v Hwf Hin) as [Hlen Hb].
  destruct Hwf as (_ & Hnd & Hk & _).
  unfold interpolated. transitivity (map (fun idx => nth idx v 0) (seq 0 L)).
  - apply map_ext. intros idx.
    rewrite (lagrange_key _ (toF k) (toF (nth idx v 0))).
    + apply val_toF. now apply nth_byte.
    + rewrite points_keys. now apply toF_NoDup.
    + unfold points. apply in_map_iff. now exists (k, v).
  - subst L. apply map_nth_seq.
Qed.

(** The values at as many abscissas as there are points give the same
    polynomials. *)
Lemma interpolated_resample L base idxs x :
  NoDup idxs -> Forall byte idxs -> (length base <= length idxs)%nat ->
  interpolated (map (fun i => (i, interpolated base i L)) idxs) x L
  = interpolated base x L.
Proof.
  intros Hnd Hb Hlen. unfold interpolated at 1 3.
  apply map_ext_in. intros idx Hidx. apply in_seq in Hidx. f_equal.
  replace (points (map (fun i => (i, interpolated base i L)) idxs) idx)
    with (map (fun y => (y, lagrange (points base idx) y)) (map toF idxs)).
  - apply lagrange_sampled.
    + now apply toF_NoDup.
    + unfold points. now rewrite !length_map.
  - unfold points. rewrite !map_map. apply map_ext. intros i.
    cbn [fst snd]. f_equal. unfold interpolated.
    rewrite nth_map_seq by lia. now rewrite toF_val.
Qed.

Lemma wf_resampled L base idxs :
  idxs <> [] -> NoDup idxs -> Forall byte idxs ->
  wf L (map (fun i => (i, interpolated base i L)) idxs).
Proof.
  intros Hne Hnd Hb.
  assert (K : JSMap.keys (map (fun i => (i, interpolated base i L)) idxs) = idxs).
  { unfold JSMap.keys. rewrite map_map. apply map_id. }
  split; [destruct idxs; [now elim Hne|discriminate]|].
  rewrite K. split; [exact Hnd|]. split; [exact Hb|].
  unfold JSMap.values. rewrite map_map. apply Forall_forall.
  intros v Hv. apply in_map_iff in Hv as (i & <- & _). cbn [snd].
  split; [apply interpolated_length|apply interpolated_bytes].
Qed.

(** *** Maps filled at fresh keys *)

Lemma set_fresh {V} (m : JSMap.t V) k v :
  ~ In k (JSMap.keys m) -> JSMap.set m k v = m ++ [(k, v)].
Proof.
  induction m as [|[k' v'] m IH]; intros H; [reflexivity|].
  cbn [JSMap.set app]. simpl in H.
  destruct (Z.eqb_spec k' k) as [E|N]; [elim H; now left|].
  rewrite IH; [reflexivity|]. intros Hin. apply H. now right.
Qed.

Lemma set_all_fresh {V} (l : list (Z * V)) :
  forall m, NoDup (JSMap.keys m ++ map fst l) ->
            fold_left (fun m iv => JSMap.set m (fst iv) (snd iv)) l m = m ++ l.
Proof.
  induction l as [|[k v] l IH]; intros m H; cbn [fold_left].
  - now rewrite app_nil_r.
  - cbn [fst snd map] in *.
    rewrite set_fresh.
    + rewrite IH.
      * now rewrite <- app_assoc.
      * unfold JSMap.keys. rewrite map_app. cbn [map fst].
        now rewrite <- app_assoc.
    + apply NoDup_remove_2 in H. intros Hin. apply H.
      apply in_or_app. now left.
Qed.

Lemma combine_fst {A B} (l : list A) (l' : list B) :
  length l = length l' -> map fst (combine l l') = l.
Proof.
  revert l'. induction l as [|a l IH]; intros [|b l'] H; try discriminate;
    [reflexivity|].
  cbn [combine map fst]. f_equal. apply IH. simpl in H. lia.
Qed.

Lemma combine_snd {A B} (l : list A) (l' : list B) :
  length l = length l' -> map snd (combine l l') = l'.
Proof.
  revert l'. induction l as [|a l IH]; intros [|b l'] H; try discriminate;
    [reflexivity|].
  cbn [combine map snd]. f_equal. apply IH. simpl in H. lia.
Qed.

Lemma range_NoDup n : NoDup (range n).
Proof.
  unfold range. apply Finite.Injective_map_NoDup; [|apply seq_NoDup].
  intros a b H. lia.
Qed.

Lemma range_In n i : In i (range n) <-> 0 <= i < n.
Proof.
  unfold range. rewrite in_map_iff. split.
  - intros (k & <- & Hk). apply in_seq in Hk. lia.
  - intros H. exists (Z.to_nat i). split; [lia|]. apply in_seq. lia.
Qed.

Lemma range_nth n i : 0 <= i < n -> nth (Z.to_nat i) (range n) 0 = i.
Proof.
  intros H. unfold range.
  rewrite (nth_indep _ 0 (Z.of_nat 0)) by (rewrite length_map, length_seq; lia).
  rewrite map_nth, seq_nth by lia. lia.
Qed.

Lemma nth_map_range {A} (f : Z -> A) n i d :
  0 <= i < n -> nth (Z.to_nat i) (map f (range n)) d = f i.
Proof.
  intros H. unfold range. rewrite map_map, nth_map_seq by lia.
  f_equal. lia.
Qed.

(** *** Random bytes *)

Lemma randomBytes_ok n s :
  0 <= n ->
  exists bs s', randomBytes n s = Ok (bs, s')
                /\ length bs = Z.to_nat n /\ bytes bs.
Proof.
  intros Hn. unfold randomBytes. destruct (Z.ltb_spec n 0); [lia|].
  eexists. eexists. split; [reflexivity|]. split.
  - now rewrite length_map, length_seq.
  - apply Forall_forall. intros z Hz. apply in_map_iff in Hz as (i & <- & _).
    unfold byte. apply Z.mod_pos_bound. lia.
Qed.

Lemma replicate_randomBytes k n :
  0 <= n ->
  forall s, exists rs s',
      replicate k (randomBytes n) s = Ok (rs, s')
      /\ length rs = k
      /\ Forall (fun v => length v = Z.to_nat n /\ bytes v) rs.
Proof.
  intros Hn. induction k as [|k IH]; intros s.
  - exists [], s. repeat split. constructor.
  - destruct (randomBytes_ok n s Hn) as (bs & s1 & E1 & Hl & Hb).
    destruct (IH s1) as (rs & s2 & E2 & Hlen & Hall).
    exists (bs :: rs), s2. cbn [replicate]. unfold rbind at 1. rewrite E1.
    unfold rbind at 1. rewrite E2. split; [reflexivity|].
    split; [simpl; now rewrite Hlen|]. constructor; [now split|exact Hall].
Qed.

Section Env.
Context {prims : Primitives}.

(** What [createDigest] returns for a key that is not empty. *)
Definition digest_of (rp S : list Z) : list Z :=
  firstn 4 (hmac_sha256 (uint8 rp) (uint8 S)).

Lemma createDigest_ok rp S :
  rp <> [] -> createDigest rp S = Ok (digest_of rp S).
Proof. intros H. destruct rp; [now elim H|reflexivity]. Qed.

Lemma createDigest_empty S : createDigest [] S = Err EmptyDigestKey.
Proof. reflexivity. Qed.

Lemma createDigest_length rp S : length (digest_of rp S) = 4%nat.
Proof.
  unfold digest_of. rewrite length_firstn, hmac_length. reflexivity.
Qed.

Lemma createDigest_bytes rp S : bytes (digest_of rp S).
Proof.
  unfold digest_of. apply ValidFacts.Forall_firstn. apply hmac_bytes.
Qed.

(** The shares of [base]: the values of its polynomials at 0, 1, ... *)
Definition shares_of (base : JSMap.t (list Z)) (L : nat) (N : Z)
           (shares : list (list Z)) : Prop :=
  length shares = Z.to_nat N
  /\ forall i, 0 <= i < N -> nth (Z.to_nat i) shares [] = interpolated base i L.

(** What [splitSecret] returns for a threshold of 2 or more: the values
    at 0, ..., N-1 of the polynomials through T points, among them the
    secret at 255 and the digest with the random part at 254. *)
Lemma splitSecret_shares T N S s :
  2 <= T <= N -> N <= 16 -> bytes S -> (5 <= length S)%nat ->
  exists shares s' base rp,
    splitSecret T N S s = Ok (shares, s')
    /\ wf (length S) base
    /\ length base = Z.to_nat T
    /\ In (SECRET_INDEX, S) base
    /\ rp <> []
    /\ In (DIGEST_INDEX, digest_of rp S ++ rp) base
    /\ shares_of base (length S) N shares.
Proof.
  intros HT HN HS HL. unfold splitSecret.
  destruct (Z.leb_spec T 0); [lia|].
  destruct (Z.gtb_spec T N); [lia|].
  destruct (Z.gtb_spec N MAX_SHARE_COUNT); [unfold MAX_SHARE_COUNT in *; lia|].
  destruct (Z.eqb_spec T 1); [lia|].
  destruct (randomBytes_ok (Z.of_nat (length S) - DIGEST_LENGTH) s)
    as (rp & s1 & E1 & Lrp & Brp); [unfold DIGEST_LENGTH; lia|].
  unfold rbind at 1. rewrite E1.
  assert (Nrp : rp <> []).
  { intros ->. unfold DIGEST_LENGTH in Lrp. cbn [length] in Lrp. lia. }
  unfold rbind at 1, rlift at 1. rewrite (createDigest_ok rp S Nrp).
  destruct (replicate_randomBytes (Z.to_nat (T - 2)) (Z.of_nat (length S))
                                  ltac:(lia) s1)
    as (rs & s2 & E2 & Lrs & Brs).
  assert (E2' : (if JS.truthy (T - 2)
                 then replicate (Z.to_nat (T - 2))
                                (randomBytes (Z.of_nat (length S)))
                 else rret []) s1 = Ok (rs, s2)).
  { unfold JS.truthy. destruct (Z.eqb_spec (T - 2) 0) as [E|]; [|exact E2].
    rewrite E in E2. exact E2. }
  unfold rbind at 1. rewrite E2'.
  set (D := digest_of rp S ++ rp).
  set (base := combine (range (Z.of_nat (length rs))) rs
               ++ [(DIGEST_INDEX, D); (SECRET_INDEX, S)]).
  assert (Lr : length (range (Z.of_nat (length rs))) = length rs)
    by (rewrite IndexFacts.range_length; lia).
  assert (Kb : JSMap.keys base
               = range (Z.of_nat (length rs)) ++ [DIGEST_INDEX; SECRET_INDEX]).
  { unfold base, JSMap.keys. rewrite map_app, combine_fst by exact Lr.
    reflexivity. }
  assert (Nb : NoDup (JSMap.keys base)).
  { rewrite Kb. apply NoDup_app; [apply range_NoDup| |].
    - unfold DIGEST_INDEX, SECRET_INDEX.
      constructor; [intros [Hq|[]]; discriminate|].
      constructor; [intros []|constructor].
    - intros x Hx Hx'. apply range_In in Hx.
      unfold DIGEST_INDEX, SECRET_INDEX in Hx'.
      destruct Hx' as [<-|[<-|[]]]; lia. }
  assert (Eb : JSMap.set
                 (JSMap.set
                    (fold_left (fun m iv => JSMap.set m (fst iv) (snd iv))
                               (combine (range (Z.of_nat (length rs))) rs)
                               JSMap.empty)
                    DIGEST_INDEX D)
                 SECRET_INDEX S
               = base).
  { rewrite set_all_fresh.
    2:{ change (NoDup (map fst (combine (range (Z.of_nat (length rs))) rs))).
        rewrite combine_fst by exact Lr. apply range_NoDup. }
    cbn [JSMap.empty app].
    rewrite (set_fresh _ DIGEST_INDEX).
    2:{ unfold JSMap.keys. rewrite combine_fst by exact Lr.
        intros Hin. apply range_In in Hin. unfold DIGEST_INDEX in Hin. lia. }
    rewrite set_fresh.
    2:{ unfold JSMap.keys. rewrite map_app, combine_fst by exact Lr.
        intros Hin. apply in_app_or in Hin as [Hin|[Hin|[]]].
        - apply range_In in Hin. unfold SECRET_INDEX in Hin. lia.
        - discriminate Hin. }
    unfold base. now rewrite <- app_assoc. }
  rewrite Eb.
  assert (LD : length D = length S).
  { unfold D. rewrite length_app, createDigest_length, Lrp.
    unfold DIGEST_LENGTH. lia. }
  assert (Wb : wf (length S) base).
  { split; [unfold base; now destruct (combine _ rs)|].
    split; [exact Nb|]. split.
    - rewrite Kb. apply Forall_app. split.
      + apply Forall_forall. intros x Hx. apply range_In in Hx. unfold byte. lia.
      + repeat constructor; discriminate.
    - unfold base, JSMap.values. rewrite map_app, combine_snd by exact Lr.
      apply Forall_app. split.
      + revert Brs. apply Forall_impl. intros v [Hv Bv]. split; [lia|exact Bv].
      + cbn [map snd]. constructor; [split; [exact LD|]|].
        * unfold D. apply Forall_app. split; [apply createDigest_bytes|exact Brp].
        * constructor; [split; [reflexivity|exact HS]|constructor]. }
  set (rest := map (fun i => interpolated base (T - 2 + i) (length S))
                   (range (N - (T - 2)))).
  assert (Er : mapR (fun i => interpolate base (T - 2 + i)) (range (N - (T - 2)))
               = Ok rest).
  { unfold rest. assert (Hr : Forall (fun i => 0 <= i < N - (T - 2))
                                     (range (N - (T - 2))))
      by (apply Forall_forall; intros i; apply range_In).
    induction Hr as [|i l Hi Hl IH]; [reflexivity|].
    cbn [mapR map]. rewrite (interpolate_lagrange (length S)).
    - cbn [bind]. rewrite IH. reflexivity.
    - exact Wb.
    - unfold byte. lia.
    - rewrite Kb. intros Hin. apply in_app_or in Hin as [Hin|Hin].
      + apply range_In in Hin. lia.
      + unfold DIGEST_INDEX, SECRET_INDEX in Hin.
        destruct Hin as [Hin|[Hin|[]]]; lia. }
  unfold rbind at 1, rlift. rewrite Er. unfold rret.
  exists (rs ++ rest), s2, base, rp. split; [reflexivity|].
  split; [exact Wb|]. split.
  { unfold base. rewrite length_app, length_combine, Lr. cbn [length]. lia. }
  split; [unfold base; apply in_or_app; right; right; now left|].
  split; [exact Nrp|].
  split; [unfold base; apply in_or_app; right; now left|].
  split.
  - rewrite length_app. unfold rest.
    rewrite length_map, IndexFacts.range_length. lia.
  - intros i Hi. destruct (Z.lt_ge_cases i (T - 2)) as [Hlt|Hge].
    + rewrite app_nth1 by lia. symmetry. apply interpolated_at; [exact Wb|].
      unfold base. apply in_or_app. left.
      replace (i, nth (Z.to_nat i) rs [])
        with (nth (Z.to_nat i) (combine (range (Z.of_nat (length rs))) rs)
                  (0, [])).
      * apply nth_In. rewrite length_combine, Lr. lia.
      * rewrite combine_nth by exact Lr. f_equal. apply range_nth. lia.
    + rewrite app_nth2 by lia. unfold rest.
      replace (Z.to_nat i - length rs)%nat with (Z.to_nat (i - (T - 2))) by lia.
      rewrite nth_map_range by lia. f_equal. lia.
Qed.

Lemma listsAreEqual_refl l : listsAreEqual l l = true.
Proof.
  unfold listsAreEqual. rewrite Nat.eqb_refl. cbn [negb].
  induction l as [|a l IH]; [reflexivity|].
  cbn [combine forallb snd fst]. now rewrite Z.eqb_refl, IH.
Qed.

(** The shares under their indices. *)
Definition presented (shares : list (list Z)) (idxs : list Z)
  : JSMap.t (list Z) :=
  map (fun i => (i, nth (Z.to_nat i) shares [])) idxs.

(** Any [T] of the shares give the secret back. *)
Lemma recoverSecret_shares T N S base rp shares idxs :
  2 <= T -> N <= 16 ->
  wf (length S) base -> length base = Z.to_nat T ->
  In (SECRET_INDEX, S) base ->
  rp <> [] ->
  In (DIGEST_INDEX, digest_of rp S ++ rp) base ->
  shares_of base (length S) N shares ->
  NoDup idxs -> Forall (fun i => 0 <= i < N) idxs ->
  length idxs = Z.to_nat T ->
  recoverSecret T (presented shares idxs) = Ok S.
Proof.
  intros HT HN Wb Lb HinS Nrp HinD [Ls Hs] Hnd Hr Li.
  assert (Ep : presented shares idxs
               = map (fun i => (i, interpolated base i (length S))) idxs).
  { unfold presented. apply map_ext_in. intros i Hi.
    rewrite Forall_forall in Hr. now rewrite Hs by auto. }
  assert (Bi : Forall byte idxs).
  { revert Hr. apply Forall_impl. unfold byte. lia. }
  assert (Wp : wf (length S) (presented shares idxs)).
  { rewrite Ep. apply wf_resampled; try assumption.
    destruct idxs; [simpl in Li; lia|discriminate]. }
  assert (Kp : JSMap.keys (presented shares idxs) = idxs).
  { unfold presented, JSMap.keys. rewrite map_map. apply map_id. }
  assert (Hx : forall x v, In (x, v) base -> 16 <= x < 256 ->
                           interpolate (presented shares idxs) x = Ok v).
  { intros x v Hin Hx16.
    rewrite (interpolate_lagrange (length S)).
    - f_equal. rewrite Ep, interpolated_resample by (assumption || lia).
      now apply interpolated_at.
    - exact Wp.
    - unfold byte. lia.
    - rewrite Kp. intros Hi. rewrite Forall_forall in Hr.
      specialize (Hr x Hi). lia. }
  unfold recoverSecret. destruct (Z.eqb_spec T 1); [lia|].
  rewrite (Hx _ _ HinS) by (unfold SECRET_INDEX; lia). cbn [bind].
  rewrite (Hx _ _ HinD) by (unfold DIGEST_INDEX; lia). cbn [bind].
  unfold JS.slice, DIGEST_LENGTH. change (Z.to_nat 4 - Z.to_nat 0)%nat with 4%nat.
  change (Z.to_nat 0) with 0%nat. change (Z.to_nat 4) with 4%nat.
  rewrite skipn_O.
  pose proof (createDigest_length rp S) as Ld.
  rewrite firstn_app, Ld, Nat.sub_diag, firstn_0, app_nil_r.
  rewrite firstn_all2 by lia.
  rewrite skipn_app, Ld, Nat.sub_diag, skipn_all2 by lia. cbn [skipn app].
  rewrite (createDigest_ok rp S Nrp). cbn [bind].
  now rewrite listsAreEqual_refl.
Qed.

(** [splitSecret] and [recoverSecret] together, for every threshold. *)
Theorem splitSecret_recoverSecret T N S s :
  1 <= T <= N -> N <= 16 -> bytes S -> (T <> 1 -> (5 <= length S)%nat) ->
  exists shares s',
    splitSecret T N S s = Ok (shares, s')
    /\ length shares = Z.to_nat N
    /\ (forall i, 0 <= i < N ->
                  length (nth (Z.to_nat i) shares []) = length S
                  /\ bytes (nth (Z.to_nat i) shares []))
    /\ forall idxs,
        NoDup idxs -> Forall (fun i => 0 <= i < N) idxs ->
        length idxs = Z.to_nat T ->
        recoverSecret T (presented shares idxs) = Ok S.
Proof.
  intros HT HN HS HL. destruct (Z.eq_dec T 1) as [->|HT1].
  - exists (generateArray [] N (fun _ => S)), s.
    assert (Hnth : forall i, 0 <= i < N ->
                     nth (Z.to_nat i) (generateArray [] N (fun _ => S)) [] = S).
    { intros i Hi. rewrite IndexFacts.generateArray_nil.
      now rewrite nth_map_range. }
    split.
    { unfold splitSecret. destruct (Z.leb_spec 1 0); [lia|].
      destruct (Z.gtb_spec 1 N); [lia|].
      destruct (Z.gtb_spec N MAX_SHARE_COUNT);
        [unfold MAX_SHARE_COUNT in *; lia|].
      reflexivity. }
    split; [apply IndexFacts.generateArray_length|].
    split; [intros i Hi; rewrite Hnth by exact Hi; now split|].
    intros idxs Hnd Hr Li. unfold recoverSecret. cbn [Z.eqb Pos.eqb].
    destruct idxs as [|i idxs]; [discriminate|].
    inversion Hr; subst. cbn [presented map JSMap.values snd].
    now rewrite Hnth.
  - destruct (splitSecret_shares T N S s) as
        (shares & s' & base & rp & E & Wb & Lb & HinS & Nrp & HinD & Hsh);
      try assumption; [lia|now apply HL|].
    exists shares, s'. split; [exact E|].
    split; [apply Hsh|]. split.
    + intros i Hi. destruct Hsh as [_ Hsh]. rewrite Hsh by exact Hi.
      split; [apply interpolated_length|apply interpolated_bytes].
    + intros idxs Hnd Hr Li.
      apply (recoverSecret_shares T N S base rp); (assumption || lia).
Qed.

(** A secret of four bytes leaves no random part to key the digest. *)
Lemma splitSecret_four T N S s :
  2 <= T <= N -> N <= 16 -> length S = 4%nat ->
  splitSecret T N S s = Err EmptyDigestKey.
Proof.
  intros HT HN L4. unfold splitSecret.
  destruct (Z.leb_spec T 0); [lia|].
  destruct (Z.gtb_spec T N); [lia|].
  destruct (Z.gtb_spec N MAX_SHARE_COUNT); [unfold MAX_SHARE_COUNT in *; lia|].
  destruct (Z.eqb_spec T 1); [lia|].
  rewrite L4. reflexivity.
Qed.

(** What a successful [splitSecret] has checked, and what it returned. *)
Lemma splitSecret_inv T N S s shares s' :
  splitSecret T N S s = Ok (shares, s') -> bytes S -> (4 <= length S)%nat ->
  1 <= T <= N /\ N <= 16
  /\ length shares = Z.to_nat N
  /\ (forall i, 0 <= i < N ->
                length (nth (Z.to_nat i) shares []) = length S
                /\ bytes (nth (Z.to_nat i) shares []))
  /\ forall idxs,
      NoDup idxs -> Forall (fun i => 0 <= i < N) idxs ->
      length idxs = Z.to_nat T ->
      recoverSecret T (presented shares idxs) = Ok S.
Proof.
  intros H HS HL.
  assert (B : 1 <= T <= N /\ N <= 16).
  { unfold splitSecret in H.
    destruct (Z.leb_spec T 0); [discriminate|].
    destruct (Z.gtb_spec T N); [discriminate|].
    destruct (Z.gtb_spec N MAX_SHARE_COUNT); [discriminate|].
    unfold MAX_SHARE_COUNT in *. lia. }
  destruct B as [B1 B2].
  assert (L5 : T <> 1 -> (5 <= length S)%nat).
  { intros HT. destruct (Nat.eq_dec (length S) 4) as [L4|]; [exfalso|lia].
    rewrite (splitSecret_four T N S s) in H by (assumption || lia).
    discriminate H. }
  destruct (splitSecret_recoverSecret T N S s B1 B2 HS L5)
    as (shares0 & s0 & E & R).
  rewrite E in H. injection H as <- <-. auto.
Qed.

End Env.
End ShamirFacts.

(* ================================================================= *)
(** ** The Feistel cipher *)

Module CryptFacts.
Import Constants Utils Helper JSFacts.

(** The bytewise exclusive or. *)
Definition xorl (a b : list Z) : list Z :=
  map (fun p => Z.lxor (fst p) (snd p)) (combine a b).

Lemma xorl_length a b : length a = length b -> length (xorl a b) = length a.
Proof. intros H. unfold xorl. rewrite length_map, length_combine. lia. Qed.

Lemma xorl_bytes a b : bytes a -> bytes b -> bytes (xorl a b).
Proof.
  intros Ha. revert b. induction Ha as [|x a Hx Ha IH]; intros b Hb;
    [constructor|].
  destruct Hb as [|y b Hy Hb]; [constructor|].
  cbn [xorl combine map fst snd]. constructor; [|now apply IH].
  now apply GF256.lxor_byte.
Qed.

Lemma xorl_involutive a : forall b,
  length a = length b -> xorl (xorl a b) b = a.
Proof.
  induction a as [|x a IH]; intros [|y b] H; try discriminate; [reflexivity|].
  cbn [xorl combine map fst snd]. f_equal.
  - now rewrite Z.lxor_assoc, Z.lxor_nilpotent, Z.lxor_0_r.
  - apply IH. simpl in H. lia.
Qed.

Lemma map_range {A} (f : Z -> A) n :
  map f (range (Z.of_nat n)) = map (fun k => f (Z.of_nat k)) (seq 0 n).
Proof. unfold range. now rewrite map_map, Nat2Z.id. Qed.

Lemma xorl_nth a : forall b,
  length a = length b -> bytes a -> bytes b ->
  map (fun k => JS.bxor (nth k a 0) (nth k b 0)) (seq 0 (length a)) = xorl a b.
Proof.
  induction a as [|x a IH]; intros [|y b] H Ha Hb; try discriminate;
    [reflexivity|].
  inversion Ha; inversion Hb; subst.
  cbn [length]. rewrite InterpolateFacts.map_seq_S.
  cbn [nth xorl combine map fst snd]. f_equal.
  - now apply InterpolateFacts.bxor_byte.
  - apply IH; try assumption. simpl in H. lia.
Qed.

Section Env.
Context {prims : Primitives}.

Lemma xor_xorl a b :
  length a = length b -> bytes a -> bytes b -> xor a b = Ok (xorl a b).
Proof.
  intros H Ha Hb. unfold xor. rewrite H, Nat.eqb_refl. cbn [negb].
  rewrite IndexFacts.generateArray_nil, <- H, map_range. f_equal.
  rewrite <- (xorl_nth a b H Ha Hb). apply map_ext. intros k.
  now rewrite Nat2Z.id.
Qed.

Lemma roundFunction_length round pwd e salt secret :
  length (roundFunction round pwd e salt secret) = length secret.
Proof.
  unfold roundFunction. cbv zeta. rewrite pbkdf2_length.
  rewrite Z.div_mul by lia. apply Nat2Z.id.
Qed.

Lemma roundFunction_bytes round pwd e salt secret :
  bytes (roundFunction round pwd e salt secret).
Proof. unfold roundFunction. cbv zeta. apply pbkdf2_bytes. Qed.

Section Rounds.
Variables (pwd : list Z) (e : Z) (salt : list Z) (h : nat).

(** One round on the two halves. *)
Definition step (p : list Z * list Z) (round : Z) : list Z * list Z :=
  (snd p, xorl (fst p) (roundFunction round pwd e salt (snd p))).

Definition swap (p : list Z * list Z) : list Z * list Z := (snd p, fst p).

Definition halves (p : list Z * list Z) : Prop :=
  length (fst p) = h /\ length (snd p) = h /\ bytes (fst p) /\ bytes (snd p).

Lemma step_halves p round : halves p -> halves (step p round).
Proof.
  intros (Hl & Hr & Bl & Br). unfold halves, step. cbn [fst snd].
  split; [exact Hr|]. split.
  - rewrite xorl_length; [exact Hl|]. now rewrite roundFunction_length, Hl, Hr.
  - split; [exact Br|]. apply xorl_bytes; [exact Bl|apply roundFunction_bytes].
Qed.

Lemma swap_halves p : halves p -> halves (swap p).
Proof. unfold halves, swap. cbn [fst snd]. tauto. Qed.

Lemma crypt_round_step p round :
  halves p -> crypt_round pwd e salt (Ok p) round = Ok (step p round).
Proof.
  intros (Hl & Hr & Bl & Br). unfold crypt_round. cbn [bind].
  rewrite xor_xorl; [reflexivity| |exact Bl|apply roundFunction_bytes].
  now rewrite roundFunction_length, Hl, Hr.
Qed.

Lemma steps_halves rounds : forall p,
  halves p -> halves (fold_left step rounds p).
Proof.
  induction rounds as [|r rounds IH]; intros p Hp; [exact Hp|].
  cbn [fold_left]. apply IH. now apply step_halves.
Qed.

Lemma crypt_rounds rounds : forall p,
  halves p ->
  fold_left (crypt_round pwd e salt) rounds (Ok p)
  = Ok (fold_left step rounds p).
Proof.
  induction rounds as [|r rounds IH]; intros p Hp; [reflexivity|].
  cbn [fold_left]. rewrite crypt_round_step by exact Hp.
  apply IH. now apply step_halves.
Qed.

(** A round undoes itself on the swapped halves. *)
Lemma step_swap p round : halves p -> step (swap (step p round)) round = swap p.
Proof.
  intros (Hl & Hr & Bl & Br). unfold step, swap. cbn [fst snd]. f_equal.
  apply xorl_involutive. now rewrite roundFunction_length, Hl, Hr.
Qed.

Lemma steps_swap rounds : forall p,
  halves p ->
  fold_left step (rev rounds) (swap (fold_left step rounds p)) = swap p.
Proof.
  induction rounds as [|r rounds IH] using rev_ind; intros p Hp; [reflexivity|].
  rewrite rev_app_distr, !fold_left_app. cbn [rev app fold_left].
  rewrite step_swap by (now apply steps_halves). now apply IH.
Qed.

End Rounds.

(** Decrypting what was encrypted, with the same passphrase, exponent,
    identifier and flag. *)
Theorem crypt_round_trip S passphrase e id flag :
  bytes S -> Nat.Even (length S) -> 0 <= e <= 16 ->
  exists C,
    crypt S passphrase e id flag true = Ok C
    /\ bytes C /\ length C = length S
    /\ crypt C passphrase e id flag false = Ok S.
Proof.
  intros HS [h Hh] He.
  set (pwd := encodeHexString passphrase).
  set (salt := getSalt id flag).
  set (p0 := (firstn h S, skipn h S)).
  assert (H0 : halves h p0).
  { unfold halves, p0. cbn [fst snd].
    rewrite length_firstn, length_skipn.
    split; [lia|]. split; [lia|]. split.
    - now apply ValidFacts.Forall_firstn.
    - now apply ValidFacts.Forall_skipn. }
  set (p4 := fold_left (step pwd e salt) [0; 1; 2; 3] p0).
  assert (H4 : halves h p4) by (now apply steps_halves).
  assert (Half : forall n, n = (2 * h)%nat -> (n / 2)%nat = h).
  { intros n ->. rewrite Nat.mul_comm. apply Nat.div_mul. lia. }
  exists (snd p4 ++ fst p4).
  destruct H4 as (L4 & R4 & BL4 & BR4).
  assert (LC : length (snd p4 ++ fst p4) = length S)
    by (rewrite length_app; lia).
  split; [|split; [|split]].
  - unfold crypt. destruct (Z.ltb_spec e 0); [lia|].
    destruct (Z.gtb_spec e MAX_ITERATION_EXP);
      [unfold MAX_ITERATION_EXP in *; lia|].
    cbn [orb]. cbv zeta. rewrite (Half _ Hh). fold pwd salt p0.
    change (generateArrayIdx [] ROUND_COUNT) with [0; 1; 2; 3].
    rewrite (crypt_rounds pwd e salt h) by exact H0. reflexivity.
  - apply Forall_app. now split.
  - exact LC.
  - unfold crypt. destruct (Z.ltb_spec e 0); [lia|].
    destruct (Z.gtb_spec e MAX_ITERATION_EXP);
      [unfold MAX_ITERATION_EXP in *; lia|].
    cbn [orb]. cbv zeta. rewrite (Half _ (eq_trans LC Hh)). fold pwd salt.
    change (generateArrayIdx [] ROUND_COUNT) with [0; 1; 2; 3].
    rewrite firstn_app, skipn_app, R4, Nat.sub_diag.
    rewrite firstn_all2, skipn_all2 by lia.
    cbn [firstn skipn app]. rewrite app_nil_r.
    change (snd p4, fst p4) with (swap p4).
    rewrite (crypt_rounds pwd e salt h)
      by (apply swap_halves; unfold halves; auto).
    cbn [bind]. unfold p4.
    rewrite (steps_swap pwd e salt h [0; 1; 2; 3] p0 H0).
    unfold swap, p0. cbn [fst snd]. now rewrite firstn_skipn.
Qed.

End Env.
End CryptFacts.

(* ================================================================= *)
(** ** The tree that [buildRecursive] builds *)

Module GenerationFacts.
Import Constants Utils Random Helper JSFacts.
Import Slip39.

Section Env.
Context {words : WordList} {prims : Primitives}.

(** The loop [for (const item of nodes)] of [buildRecursive], the nested
    call given as [rec]. *)
Definition build_children
           (rec : Slip39Node -> list group -> list Z -> Z -> option Z
                  -> rand Slip39Node)
           (secretShares : list (list Z)) (parent : Z)
  : list group -> Z -> list Slip39Node -> rand (list Slip39Node) :=
  fix loop (items : list group) (i : Z) (children : list Slip39Node)
    : rand (list Slip39Node) :=
    match items with
    | [] => rret children
    | (n, m, d) :: rest =>
        let members := generateArray [] m (fun _ => (n, 0, d)) in
        let node := Node i d EmptyString [] in
        branch <~ rec node members (nth (Z.to_nat i) secretShares []) n
                      (Some parent) ;;
        loop rest (i + 1) (children ++ [branch])
    end.

(** The leaf of a member: its mnemonic. *)
Definition leaf (this : Slip39) (gi mi threshold : Z) (d : string)
           (secret : list Z) : Slip39Node :=
  Node mi d
       (encodeMnemonic (identifier this) (extendableBackupFlag this)
                       (iterationExponent this) gi
                       (groupThreshold this) (groupCount this)
                       mi threshold secret)
       [].

Lemma buildRecursive_leaf depth this i d secret threshold idx :
  buildRecursive (S depth) this (Node i d EmptyString []) [] secret threshold
                 (Some idx)
  = rret (leaf this idx i threshold d secret).
Proof.
  cbn [buildRecursive length Nat.eqb index description children].
  unfold leaf. unfold JS.truthy.
  destruct (Z.eqb_spec idx 0) as [->|]; reflexivity.
Qed.

Lemma buildRecursive_node depth this currentNode item nodes secret threshold idx :
  buildRecursive (S depth) this currentNode (item :: nodes) secret threshold idx
  = (secretShares <~ splitSecret threshold (Z.of_nat (length (item :: nodes)))
                                 secret ;;
     children <~ build_children (buildRecursive depth this) secretShares
                                (index currentNode) (item :: nodes) 0 [] ;;
     rret (Node (index currentNode) (description currentNode)
             (mnemonic currentNode) children)).
Proof. reflexivity. Qed.

(** The loop over the members of a group: a leaf for each. *)
Lemma member_loop this shares gi n d (l : list Z) :
  forall i children s,
    build_children (buildRecursive 1 this) shares gi
                   (map (fun _ => (n, 0, d)) l) i children s
    = Ok (children
            ++ map (fun t => leaf this gi (i + Z.of_nat t) n d
                               (nth (Z.to_nat (i + Z.of_nat t)) shares []))
                   (seq 0 (length l)),
          s).
Proof.
  induction l as [|a l IH]; intros i children s.
  - cbn [map build_children length seq]. now rewrite app_nil_r.
  - cbn [map build_children]. cbv zeta.
    change (generateArray [] 0 (fun _ : Z => (n, 0, d))) with (@nil group).
    rewrite buildRecursive_leaf. unfold rbind at 1, rret at 1.
    rewrite IH. cbn [length]. rewrite InterpolateFacts.map_seq_S.
    rewrite <- app_assoc. cbn [app]. rewrite Z.add_0_r. f_equal. f_equal.
    f_equal. f_equal. apply map_ext. intros t.
    replace (i + 1 + Z.of_nat t) with (i + Z.of_nat (S t)) by lia.
    reflexivity.
Qed.

(** The members of a group, in the order of their indices. *)
Definition members_of (this : Slip39) (gi n m : Z) (d : string)
           (memberShares : list (list Z)) : list Slip39Node :=
  map (fun j => leaf this gi j n d (nth (Z.to_nat j) memberShares []))
      (range m).

(** The call for a group that has members. *)
Lemma buildRecursive_group this i n m d share s :
  1 <= m ->
  buildRecursive 2 this (Node i d EmptyString [])
                 (generateArray [] m (fun _ => (n, 0, d))) share n (Some 0) s
  = match splitSecret n m share s with
    | Ok (memberShares, s') =>
        Ok (Node i d EmptyString (members_of this i n m d memberShares), s')
    | Err e => Err e
    end.
Proof.
  intros Hm. rewrite IndexFacts.generateArray_nil.
  unfold range. destruct (Z.to_nat m) as [|k] eqn:Ek; [lia|].
  set (f := fun _ : Z => (n, 0, d) : group).
  change (map f (map Z.of_nat (seq 0 (S k))))
    with (f 0 :: map f (map Z.of_nat (seq 1 k))).
  rewrite buildRecursive_node.
  change (f 0 :: map f (map Z.of_nat (seq 1 k)))
    with (map f (map Z.of_nat (seq 0 (S k)))).
  rewrite !length_map, length_seq, <- Ek, Z2Nat.id by lia.
  unfold rbind at 1.
  destruct (splitSecret n m share s) as [[memberShares s']|e]; [|reflexivity].
  unfold rbind at 1. unfold f. rewrite member_loop. unfold rret.
  cbn [app index description mnemonic]. f_equal. f_equal. f_equal.
  unfold members_of, range. rewrite !length_map, length_seq, map_map, Ek.
  apply map_ext. intros t. now rewrite Z.add_0_l.
Qed.

(** The mnemonics of a tree. *)
Lemma mnemonics_node i d m ch :
  mnemonics (Node i d m ch)
  = if (length ch =? 0)%nat then [m]
    else fold_left (fun prev item => prev ++ mnemonics item) ch [].
Proof. reflexivity. Qed.

Lemma mnemonics_fold ch : forall acc,
  fold_left (fun prev item => prev ++ mnemonics item) ch acc
  = acc ++ concat (map mnemonics ch).
Proof.
  induction ch as [|c ch IH]; intros acc; cbn [fold_left map concat].
  - now rewrite app_nil_r.
  - rewrite IH. now rewrite app_assoc.
Qed.

Lemma mnemonics_children i d m ch :
  ch <> [] -> mnemonics (Node i d m ch) = concat (map mnemonics ch).
Proof.
  intros H. rewrite mnemonics_node. destruct ch; [now elim H|].
  cbn [length Nat.eqb]. now rewrite mnemonics_fold.
Qed.

(** The mnemonics of a group with members. *)
Lemma mnemonics_members this gi n m d memberShares i' d' m' :
  1 <= m ->
  mnemonics (Node i' d' m' (members_of this gi n m d memberShares))
  = map (fun j => encodeMnemonic
                    (identifier this) (extendableBackupFlag this)
                    (iterationExponent this) gi
                    (groupThreshold this) (groupCount this)
                    j n (nth (Z.to_nat j) memberShares []))
        (range m).
Proof.
  intros Hm. rewrite mnemonics_children.
  - unfold members_of. rewrite map_map.
    induction (range m) as [|j l IH]; [reflexivity|].
    cbn [map concat]. rewrite IH. reflexivity.
  - unfold members_of. intros H. apply (f_equal (@length _)) in H.
    rewrite length_map, IndexFacts.range_length in H. simpl in H. lia.
Qed.

(** *** The groups of a policy *)

(** The nodes of the groups [items], the first of index [i]: each group
    with its members, whose shares come from a [splitSecret] of the share
    of the group. *)
Inductive built (this : Slip39) (groupShares : list (list Z))
  : Z -> list group -> list Slip39Node -> Prop :=
| built_nil i : built this groupShares i [] []
| built_cons i n m d items memberShares s1 s2 nodes :
    splitSecret n m (nth (Z.to_nat i) groupShares []) s1
    = Ok (memberShares, s2) ->
    built this groupShares (i + 1) items nodes ->
    built this groupShares i ((n, m, d) :: items)
          (Node i d EmptyString (members_of this i n m d memberShares) :: nodes).

Definition populated (item : group) : Prop := 1 <= snd (fst item).

Lemma group_loop_built this groupShares items :
  forall i children s result s',
    Forall populated items ->
    build_children (buildRecursive 2 this) groupShares 0 items i children s
    = Ok (result, s') ->
    exists nodes,
      result = children ++ nodes /\ built this groupShares i items nodes.
Proof.
  induction items as [|[[n m] d] items IH]; intros i children s result s' Hp H.
  - cbn [build_children] in H. injection H as <- <-.
    exists []. split; [now rewrite app_nil_r|constructor].
  - inversion Hp as [|? ? Hm Hp']; subst. unfold populated in Hm.
    cbn [fst snd] in Hm.
    cbn [build_children] in H. cbv zeta in H. unfold rbind at 1 in H.
    rewrite buildRecursive_group in H by exact Hm.
    destruct (splitSecret n m (nth (Z.to_nat i) groupShares []) s)
      as [[memberShares s1]|e] eqn:E; [|discriminate].
    destruct (IH _ _ _ _ _ Hp' H) as (nodes & -> & Hb).
    exists (Node i d EmptyString (members_of this i n m d memberShares) :: nodes).
    split; [now rewrite <- app_assoc|].
    econstructor; eassumption.
Qed.

(** Every mnemonic of the groups is that of a member of a group. *)
Lemma built_mnemonics this groupShares i items nodes :
  built this groupShares i items nodes -> Forall populated items ->
  forall mn, In mn (concat (map mnemonics nodes)) ->
    exists k n m d memberShares s1 s2 j,
      nth_error items k = Some (n, m, d)
      /\ splitSecret n m (nth (Z.to_nat (i + Z.of_nat k)) groupShares []) s1
         = Ok (memberShares, s2)
      /\ 0 <= j < m
      /\ mn = encodeMnemonic
                (identifier this) (extendableBackupFlag this)
                (iterationExponent this) (i + Z.of_nat k)
                (groupThreshold this) (groupCount this)
                j n (nth (Z.to_nat j) memberShares []).
Proof.
  induction 1 as [i|i n m d items memberShares s1 s2 nodes E Hb IH];
    intros Hp mn Hin; [now elim Hin|].
  inversion Hp as [|? ? Hm Hp']; subst. unfold populated in Hm.
  cbn [fst snd] in Hm.
  cbn [map concat] in Hin. apply in_app_or in Hin as [Hin|Hin].
  - rewrite mnemonics_members in Hin by exact Hm.
    apply in_map_iff in Hin as (j & <- & Hj).
    apply ShamirFacts.range_In in Hj.
    exists 0%nat, n, m, d, memberShares, s1, s2, j.
    rewrite Z.add_0_r. repeat split; (assumption || lia).
  - destruct (IH Hp' mn Hin) as (k & n' & m' & d' & ms & t1 & t2 & j & Hk & Hs
                                 & Hj & ->).
    exists (S k), n', m', d', ms, t1, t2, j.
    replace (i + Z.of_nat (S k)) with (i + 1 + Z.of_nat k) by lia.
    repeat split; (assumption || lia).
Qed.

(** The groups of one member with threshold 1: the share of the group is
    the share of its member. *)
Lemma splitSecret_single share s :
  splitSecret 1 1 share s = Ok ([share], s).
Proof. reflexivity. Qed.

Definition single (this : Slip39) (groupShares : list (list Z)) (i : Z)
           (d : string) : Slip39Node :=
  Node i d EmptyString
       [leaf this i 0 1 d (nth (Z.to_nat i) groupShares [])].

Lemma combine_seq_shift {A B} (f : nat -> A -> B) (l : list A) :
  forall a,
    map (fun td => f (S (fst td)) (snd td)) (combine (seq a (length l)) l)
    = map (fun td => f (fst td) (snd td)) (combine (seq (S a) (length l)) l).
Proof.
  induction l as [|x l IH]; intros a; [reflexivity|].
  cbn [length seq combine map fst snd]. now rewrite IH.
Qed.

Lemma group_loop_single this groupShares descs :
  forall i children s,
    build_children (buildRecursive 2 this) groupShares 0
                   (map (fun d => (1, 1, d)) descs) i children s
    = Ok (children
            ++ map (fun td => single this groupShares
                                     (i + Z.of_nat (fst td)) (snd td))
                   (combine (seq 0 (length descs)) descs),
          s).
Proof.
  induction descs as [|d descs IH]; intros i children s.
  - cbn [map build_children length seq combine]. now rewrite app_nil_r.
  - cbn [map build_children]. cbv zeta. unfold rbind at 1.
    rewrite buildRecursive_group by lia. rewrite splitSecret_single.
    rewrite IH. cbn [length seq combine map fst snd].
    rewrite <- app_assoc. cbn [app]. rewrite Z.add_0_r. f_equal. f_equal.
    f_equal. f_equal.
    rewrite <- (combine_seq_shift
                  (fun t d' => single this groupShares (i + Z.of_nat t) d')).
    apply map_ext. intros [t d']. cbn [fst snd]. f_equal. lia.
Qed.

Lemma mnemonics_single this groupShares descs :
  concat (map mnemonics
              (map (fun td => single this groupShares
                                     (0 + Z.of_nat (fst td)) (snd td))
                   (combine (seq 0 (length descs)) descs)))
  = map (fun i => encodeMnemonic
                    (identifier this) (extendableBackupFlag this)
                    (iterationExponent this) i
                    (groupThreshold this) (groupCount this)
                    0 1 (nth (Z.to_nat i) groupShares []))
        (range (Z.of_nat (length descs))).
Proof.
  unfold range. rewrite Nat2Z.id, !map_map.
  assert (G : forall (l : list string) (a : nat),
             concat (map (fun td => mnemonics
                                      (single this groupShares
                                              (0 + Z.of_nat (fst td)) (snd td)))
                         (combine (seq a (length l)) l))
             = map (fun x => encodeMnemonic
                               (identifier this) (extendableBackupFlag this)
                               (iterationExponent this) (Z.of_nat x)
                               (groupThreshold this) (groupCount this)
                               0 1 (nth (Z.to_nat (Z.of_nat x)) groupShares []))
                   (seq a (length l))).
  { induction l as [|d l IH]; intros a; [reflexivity|].
    cbn [length seq combine map concat fst snd]. rewrite IH.
    rewrite Z.add_0_l. reflexivity. }
  apply G.
Qed.

(** *** [fromArray] *)

(** An identifier of two bytes and 15 bits. *)
Definition identifier_ok (id : list Z) : Prop :=
  length id = 2%nat /\ bytes id /\ decodeBigInt id < 2 ^ 15.

Lemma decodeBigInt_two a b : decodeBigInt [a; b] = a * 256 + b.
Proof. rewrite BigIntFacts.decodeBigInt_value. unfold BigIntFacts.value. simpl. lia. Qed.

Lemma identifier_ok_value id : identifier_ok id -> 0 <= decodeBigInt id < 2 ^ 15.
Proof.
  intros (Hl & Hb & Hv). split; [|exact Hv].
  destruct id as [|a [|b [|c id]]]; try discriminate.
  inversion Hb as [|? ? Ha Hb']; subst. inversion Hb' as [|? ? Hb0 _]; subst.
  rewrite decodeBigInt_two. unfold byte in *. lia.
Qed.

Lemma generateIdentifier_ok s :
  exists id s', generateIdentifier s = Ok (id, s') /\ identifier_ok id.
Proof.
  exists [Z.land (s 0%nat mod 256) 127; s 1%nat mod 256].
  eexists. split.
  - unfold generateIdentifier. cbv zeta. unfold rbind, randomBytes.
    change (bitsToBytes ID_BITS_LENGTH <? 0) with false. cbv iota.
    change (Z.to_nat (bitsToBytes ID_BITS_LENGTH)) with 2%nat.
    cbn [seq map]. unfold rret.
    assert (0 <= s 0%nat mod 256 < 256) by (apply Z.mod_pos_bound; lia).
    change (JS.shl 1 (JS.rem ID_BITS_LENGTH 8) - 1) with 127.
    rewrite band_small by lia. reflexivity.
  - assert (Ha : 0 <= s 0%nat mod 256 < 256) by (apply Z.mod_pos_bound; lia).
    assert (Hb : 0 <= s 1%nat mod 256 < 256) by (apply Z.mod_pos_bound; lia).
    assert (Hc : 0 <= Z.land (s 0%nat mod 256) 127 < 128).
    { change 127 with (Z.ones 7). rewrite Z.land_ones by lia.
      apply Z.mod_pos_bound. lia. }
    split; [reflexivity|]. split.
    + constructor; [unfold byte; lia|]. constructor; [exact Hb|constructor].
    + rewrite decodeBigInt_two. change (2 ^ 15) with 32768. lia.
Qed.

(** The object on which [buildRecursive] is called. *)
Definition slip_of (o : options) (ident : list Z) : Slip39 :=
  {| extendableBackupFlag := opt_extendableBackupFlag o;
     groupCount := Z.of_nat (length (opt_groups o));
     groupThreshold := opt_groupThreshold o;
     identifier := ident;
     iterationExponent := opt_iterationExponent o;
     root := Node 0 EmptyString EmptyString [] |}.

(** The identifier of a generation: the one given, or a fresh one. *)
Definition identified (o : options) (s : entropy) (ident : list Z)
           (s0 : entropy) : Prop :=
  match opt_identifier o with
  | Some i => ident = i /\ s0 = s
  | None => generateIdentifier s = Ok (ident, s0)
  end.

(** What a successful [fromArray] has gone through. *)
Lemma fromArray_inv masterSecret o s slip s' :
  fromArray masterSecret o s = Ok (slip, s') ->
  exists ident s0 ems r,
    identified o s ident s0
    /\ 16 <= Z.of_nat (length masterSecret)
    /\ Z.of_nat (length masterSecret) mod 2 = 0
    /\ opt_groups o <> []
    /\ crypt masterSecret (opt_passphrase o) (opt_iterationExponent o) ident
             (opt_extendableBackupFlag o) true = Ok ems
    /\ buildRecursive 3 (slip_of o ident)
                      (Node 0 (opt_title o) EmptyString [])
                      (opt_groups o) ems (opt_groupThreshold o) None s0
       = Ok (r, s')
    /\ slip = with_root (slip_of o ident) r.
Proof.
  unfold fromArray. unfold rbind at 1. intros H.
  assert (Hid : exists ident s0,
             identified o s ident s0
             /\ match opt_identifier o with
                | Some i => rret i
                | None => generateIdentifier
                end s = Ok (ident, s0)).
  { unfold identified. destruct (opt_identifier o) as [i|].
    - exists i, s. now repeat split.
    - destruct (generateIdentifier s) as [[ident s0]|e]; [|discriminate].
      now exists ident, s0. }
  destruct Hid as (ident & s0 & Hid & E). rewrite E in H.
  exists ident, s0. cbv zeta in H.
  destruct (Z.ltb_spec (Z.of_nat (length masterSecret) * 8) MIN_ENTROPY_BITS)
    as [|Hlen]; [discriminate|].
  destruct (Z.eqb_spec (JS.rem (Z.of_nat (length masterSecret)) 2) 0)
    as [Hev|]; [|discriminate].
  cbn [negb] in H.
  destruct (printable_ascii (opt_passphrase o)); [|discriminate].
  cbn [negb] in H.
  destruct (Z.gtb_spec (opt_groupThreshold o) (Z.of_nat (length (opt_groups o))));
    [discriminate|].
  destruct (existsb _ (opt_groups o)); [discriminate|].
  unfold rbind at 1 in H. unfold new in H.
  destruct (length ident =? 0)%nat; [discriminate|].
  destruct (JS.truthy (Z.of_nat (length (opt_groups o)))) eqn:Tg;
    [|discriminate].
  destruct (JS.truthy (opt_groupThreshold o)); [|discriminate].
  cbn [negb rlift] in H. fold (slip_of o ident) in H.
  unfold rbind at 1 in H. cbn [identifier slip_of] in H.
  destruct (crypt masterSecret (opt_passphrase o) (opt_iterationExponent o)
                  ident (opt_extendableBackupFlag o) true) as [ems|] eqn:Ec;
    [|discriminate].
  cbn [rlift] in H. unfold rbind at 1 in H. fold (slip_of o ident) in H.
  destruct (buildRecursive 3 (slip_of o ident)
                           (Node 0 (opt_title o) EmptyString [])
                           (opt_groups o) ems (opt_groupThreshold o) None s0)
    as [[r s1]|] eqn:Eb; [|discriminate].
  unfold rret in H. injection H as <- <-.
  exists ems, r. split; [exact Hid|].
  split; [unfold MIN_ENTROPY_BITS in Hlen; lia|].
  split; [unfold JS.rem in Hev; Z.to_euclidean_division_equations; lia|].
  split; [|auto].
  intros Hg. rewrite Hg in Tg. discriminate Tg.
Qed.

(** The root of a policy whose groups all have members. *)
Lemma buildRecursive_root this title groups ems threshold s r s' :
  groups <> [] -> Forall populated groups ->
  buildRecursive 3 this (Node 0 title EmptyString []) groups ems threshold
                 None s = Ok (r, s') ->
  exists groupShares s1 nodes,
    splitSecret threshold (Z.of_nat (length groups)) ems s
    = Ok (groupShares, s1)
    /\ r = Node 0 title EmptyString nodes
    /\ built this groupShares 0 groups nodes.
Proof.
  intros Hne Hp H. destruct groups as [|g groups]; [now elim Hne|].
  rewrite buildRecursive_node in H. unfold rbind at 1 in H.
  destruct (splitSecret threshold (Z.of_nat (length (g :: groups))) ems s)
    as [[groupShares s1]|] eqn:E; [|discriminate].
  unfold rbind at 1 in H. cbn [index description mnemonic] in H.
  destruct (build_children (buildRecursive 2 this) groupShares 0 (g :: groups)
                           0 [] s1) as [[children s2]|] eqn:Eb;
    [|discriminate].
  unfold rret in H. injection H as <- <-.
  destruct (group_loop_built _ _ _ _ _ _ _ _ Hp Eb) as (nodes & -> & Hb).
  exists groupShares, s1, nodes. auto.
Qed.

(** *** What the mnemonics of a generation decode to *)

(** Every mnemonic of a successful generation whose groups all have
    members decodes, to the header of the generation and to the threshold
    of its group. *)
Lemma generation_decodes masterSecret o s slip s' :
  fromArray masterSecret o s = Ok (slip, s') ->
  bytes masterSecret ->
  Forall populated (opt_groups o) ->
  opt_extendableBackupFlag o = 0 \/ opt_extendableBackupFlag o = 1 ->
  0 <= opt_iterationExponent o <= 15 ->
  (forall id, opt_identifier o = Some id -> 0 <= decodeBigInt id < 2 ^ 15) ->
  forall mn, In mn (mnemonics (root slip)) ->
    exists gi mi n m desc val,
      nth_error (opt_groups o) (Z.to_nat gi) = Some (n, m, desc)
      /\ 0 <= gi
      /\ decodeMnemonic mn
         = Ok {| Helper.identifier := decodeBigInt (identifier slip);
                 Helper.extendableBackupFlag := opt_extendableBackupFlag o;
                 Helper.iterationExponent := opt_iterationExponent o;
                 groupIndex := gi;
                 Helper.groupThreshold := opt_groupThreshold o;
                 Helper.groupCount := Z.of_nat (length (opt_groups o));
                 memberIndex := mi;
                 memberThreshold := n;
                 share := val |}.
Proof.
  intros H HS Hp Hf He Hi mn Hin.
  destruct (fromArray_inv _ _ _ _ _ H)
    as (ident & s0 & ems & r & Hid & Hlen & Hev & Hne & Ec & Eb & ->).
  destruct (buildRecursive_root _ _ _ _ _ _ _ _ Hne Hp Eb)
    as (groupShares & s1 & nodes & Es & -> & Hb).
  (* the encrypted master secret *)
  assert (Even : Nat.Even (length masterSecret)).
  { exists (Z.to_nat (Z.of_nat (length masterSecret) / 2)).
    Z.to_euclidean_division_equations. lia. }
  destruct (CryptFacts.crypt_round_trip masterSecret (opt_passphrase o)
              (opt_iterationExponent o) ident (opt_extendableBackupFlag o)
              HS Even ltac:(lia)) as (C & EC & BC & LC & _).
  rewrite EC in Ec. injection Ec as ->.
  (* the shares of the groups *)
  destruct (ShamirFacts.splitSecret_inv _ _ _ _ _ _ Es BC ltac:(lia))
    as (Bt & Bn & Lg & Sg & _).
  (* the mnemonic *)
  cbn [root with_root] in Hin.
  assert (Hnodes : nodes <> []).
  { inversion Hb; subst; [now elim Hne|discriminate]. }
  rewrite mnemonics_children in Hin by exact Hnodes.
  destruct (built_mnemonics _ _ _ _ _ Hb Hp mn Hin)
    as (k & n & m & d & memberShares & t1 & t2 & j & Hk & Em & Hj & ->).
  rewrite Z.add_0_l in *.
  assert (Hkl : (k < length (opt_groups o))%nat).
  { apply nth_error_Some. rewrite Hk. discriminate. }
  destruct (Sg (Z.of_nat k) ltac:(lia)) as [Lk Bk].
  destruct (ShamirFacts.splitSecret_inv _ _ _ _ _ _ Em Bk ltac:(lia))
    as (Bn1 & Bm & _ & Sm & _).
  destruct (Sm j Hj) as [Lj Bj].
  exists (Z.of_nat k), j, n, m, d, (nth (Z.to_nat j) memberShares []).
  rewrite Nat2Z.id. split; [exact Hk|]. split; [lia|].
  cbn [identifier extendableBackupFlag iterationExponent groupThreshold
       groupCount slip_of].
  apply CodecFacts.decodeMnemonic_encodeMnemonic.
  - split; [|split; [exact Hf|exact He]].
    unfold identified in Hid. destruct (opt_identifier o) as [i|].
    + destruct Hid as [-> _]. now apply Hi.
    + destruct (generateIdentifier_ok s) as (id0 & s00 & E0 & Hok).
      rewrite E0 in Hid. injection Hid as <- <-.
      now apply identifier_ok_value.
  - unfold EncodeFacts.nibbles. lia.
  - lia.
  - exact Bj.
  - unfold EncodeFacts.share_length. rewrite Lj, Lk, LC. split; assumption.
Qed.

End Env.
End GenerationFacts.

(* ================================================================= *)
(** ** Recovering from one mnemonic for each of several groups *)

Module RecoverFacts.
Import Constants Utils Random Helper JSFacts MapFacts.

Section Env.
Context {words : WordList} {prims : Primitives}.

(** The entry of a group of which one mnemonic has been read. *)
Definition entry (d : IDecodedMnemonic)
  : Z * JSMap.t (JSMap.t (list Z)) :=
  (groupIndex d, [(memberThreshold d, [(memberIndex d, share d)])]).

Lemma get_fresh {V} (m : JSMap.t V) k : ~ In k (JSMap.keys m) -> JSMap.get m k = None.
Proof.
  intros H. destruct (JSMap.get m k) as [v|] eqn:E; [|reflexivity].
  elim H. apply get_keys. now exists v.
Qed.

Lemma decodeMnemonics_step_fresh s mnemonic d :
  decodeMnemonic mnemonic = Ok d ->
  ~ In (groupIndex d) (JSMap.keys (groups s)) ->
  decodeMnemonics_step (Ok s) mnemonic
  = Ok {| identifiers := JSSet.add (identifiers s) (identifier d);
          extendableBackupFlags :=
            JSSet.add (extendableBackupFlags s) (extendableBackupFlag d);
          iterationExponents :=
            JSSet.add (iterationExponents s) (iterationExponent d);
          groupThresholds := JSSet.add (groupThresholds s) (groupThreshold d);
          groupCounts := JSSet.add (groupCounts s) (groupCount d);
          groups := groups s ++ [entry d] |}.
Proof.
  intros Hd Hf. unfold decodeMnemonics_step. cbn [bind]. rewrite Hd.
  cbn [bind]. rewrite (get_fresh _ _ Hf).
  cbn [JSMap.get JSMap.empty JSMap.set JSMap.size length Z.of_nat].
  cbn [Z.eqb Pos.of_succ_nat Pos.eqb negb].
  rewrite ShamirFacts.set_fresh by exact Hf. reflexivity.
Qed.

(** The mnemonics carry one header. *)
Definition headed (idv flag e gt gc : Z) (d : IDecodedMnemonic) : Prop :=
  identifier d = idv /\ extendableBackupFlag d = flag
  /\ iterationExponent d = e /\ groupThreshold d = gt /\ groupCount d = gc.

Definition settled (idv flag e gt gc : Z) (s : decoding) : Prop :=
  identifiers s = [idv] /\ extendableBackupFlags s = [flag]
  /\ iterationExponents s = [e] /\ groupThresholds s = [gt]
  /\ groupCounts s = [gc].

Lemma add_same x : JSSet.add [x] x = [x].
Proof. unfold JSSet.add. cbn [existsb]. now rewrite Z.eqb_refl. Qed.

Lemma step_settled idv flag e gt gc s mnemonic d :
  decodeMnemonic mnemonic = Ok d -> headed idv flag e gt gc d ->
  ~ In (groupIndex d) (JSMap.keys (groups s)) ->
  settled idv flag e gt gc s \/ s = decoding_start ->
  exists s1,
    decodeMnemonics_step (Ok s) mnemonic = Ok s1
    /\ settled idv flag e gt gc s1
    /\ groups s1 = groups s ++ [entry d].
Proof.
  intros Hd (H1 & H2 & H3 & H4 & H5) Hf Hs.
  rewrite (decodeMnemonics_step_fresh s mnemonic d Hd Hf).
  eexists. split; [reflexivity|]. split; [|reflexivity].
  unfold settled. cbn [identifiers extendableBackupFlags iterationExponents
                       groupThresholds groupCounts].
  rewrite H1, H2, H3, H4, H5.
  destruct Hs as [(S1 & S2 & S3 & S4 & S5)| ->].
  - rewrite S1, S2, S3, S4, S5, !add_same. repeat split.
  - repeat split.
Qed.

Lemma fold_settled idv flag e gt gc mnemonics :
  forall ds s,
    Forall2 (fun m d => decodeMnemonic m = Ok d) mnemonics ds ->
    Forall (headed idv flag e gt gc) ds ->
    NoDup (JSMap.keys (groups s) ++ map groupIndex ds) ->
    settled idv flag e gt gc s ->
    exists s1,
      fold_left decodeMnemonics_step mnemonics (Ok s) = Ok s1
      /\ settled idv flag e gt gc s1
      /\ groups s1 = groups s ++ map entry ds.
Proof.
  induction mnemonics as [|m ms IH]; intros ds s Hd Hh Hn Hs.
  - inversion Hd; subst. exists s. cbn [map]. now rewrite app_nil_r.
  - inversion Hd as [|? d ? ds' Hm Hms]; subst.
    inversion Hh as [|? ? Hhd Hhds]; subst.
    destruct (step_settled idv flag e gt gc s m d Hm Hhd) as (s1 & E1 & S1 & G1).
    { cbn [map] in Hn. apply NoDup_remove_2 in Hn. intros Hin. apply Hn.
      apply in_or_app. now left. }
    { now left. }
    destruct (IH ds' s1 Hms Hhds) as (s2 & E2 & S2 & G2).
    { rewrite G1. unfold JSMap.keys. rewrite map_app. cbn [map entry fst].
      rewrite <- app_assoc. exact Hn. }
    { exact S1. }
    exists s2. cbn [fold_left]. rewrite E1. split; [exact E2|].
    split; [exact S2|]. rewrite G2, G1, <- app_assoc. reflexivity.
Qed.

(** [decodeMnemonics] on mnemonics of distinct groups under one header. *)
Lemma decodeMnemonics_groups idv flag e gt gc mnemonics ds :
  mnemonics <> [] ->
  Forall2 (fun m d => decodeMnemonic m = Ok d) mnemonics ds ->
  Forall (headed idv flag e gt gc) ds ->
  NoDup (map groupIndex ds) ->
  decodeMnemonics mnemonics
  = Ok {| all_identifier := idv;
          all_extendableBackupFlag := flag;
          all_iterationExponent := e;
          all_groupThreshold := gt;
          all_groupCount := gc;
          all_groups := map entry ds |}.
Proof.
  intros Hne Hd Hh Hn. destruct mnemonics as [|m ms]; [now elim Hne|].
  inversion Hd as [|? d ? ds' Hm Hms]; subst.
  inversion Hh as [|? ? Hhd Hhds]; subst.
  destruct (step_settled idv flag e gt gc decoding_start m d Hm Hhd)
    as (s1 & E1 & S1 & G1); [intros []|now right|].
  destruct (fold_settled idv flag e gt gc ms ds' s1 Hms Hhds) as (s2 & E2 & S2 & G2).
  { rewrite G1. exact Hn. }
  { exact S1. }
  unfold decodeMnemonics. cbn [fold_left]. rewrite E1, E2. cbn [bind].
  destruct S2 as (I1 & I2 & I3 & I4 & I5).
  rewrite I1, I2, I3, I4, I5. cbn [JSSet.size length Z.of_nat].
  cbn [Z.eqb Pos.of_succ_nat Pos.eqb negb orb hd].
  rewrite G2, G1. reflexivity.
Qed.

(** The loop over the groups, each with its one member of threshold 1. *)
Lemma combine_singles ds :
  forall acc,
    Forall (fun d => memberThreshold d = 1) ds ->
    NoDup (JSMap.keys acc ++ map groupIndex ds) ->
    fold_left combine_group (map entry ds) (Ok acc)
    = Ok (acc ++ map (fun d => (groupIndex d, share d)) ds).
Proof.
  induction ds as [|d ds IH]; intros acc Ht Hn.
  - cbn [map fold_left]. now rewrite app_nil_r.
  - inversion Ht as [|? ? Hd Hds]; subst.
    cbn [map fold_left]. unfold combine_group at 2. cbn [bind entry snd fst].
    rewrite Hd. cbn [JSMap.size length Z.of_nat Pos.of_succ_nat].
    cbn [Z.eqb Pos.eqb negb recoverSecret JSMap.values map snd bind].
    rewrite ShamirFacts.set_fresh.
    + rewrite IH; [now rewrite <- app_assoc|exact Hds|].
      unfold JSMap.keys. rewrite map_app. cbn [map fst].
      rewrite <- app_assoc. exact Hn.
    + cbn [map] in Hn. apply NoDup_remove_2 in Hn. intros Hin. apply Hn.
      apply in_or_app. now left.
Qed.

End Env.
End RecoverFacts.

(* ================================================================= *)
(** ** From generation to recovery *)

Module EndToEndFacts.
Import Constants Utils Random Helper JSFacts MapFacts.
Import EncodeFacts CodecFacts ShamirFacts RecoverFacts GenerationFacts.

Section Env.
Context {words : WordList} {prims : Primitives}.

(** The identifier that [combineMnemonics] rebuilds is the one encoded. *)
Lemma identifier_rebuilt id :
  identifier_ok id ->
  intToIndices (decodeBigInt id) ITERATION_EXP_WORDS_LENGTH 8 = id.
Proof.
  intros (Hl & Hb & _).
  rewrite IndexFacts.intToIndices_digits by lia.
  change (Z.to_nat ITERATION_EXP_WORDS_LENGTH) with 2%nat. rewrite <- Hl.
  rewrite BigIntFacts.decodeBigInt_value.
  apply IndexFacts.digits_value; [lia|].
  revert Hb. apply Forall_impl. intros a Ha. exact Ha.
Qed.

(** What the mnemonic of the only member of the group [i] decodes to. *)
Definition decoded (id : list Z) (flag e gt gc : Z) (groupShares : list (list Z))
           (i : Z) : IDecodedMnemonic :=
  {| identifier := decodeBigInt id;
     extendableBackupFlag := flag;
     iterationExponent := e;
     groupIndex := i;
     groupThreshold := gt;
     groupCount := gc;
     memberIndex := 0;
     memberThreshold := 1;
     share := nth (Z.to_nat i) groupShares [] |}.

(** Recovery from the mnemonics of [gt] groups of one member each. *)
Lemma combineMnemonics_singles id flag e gt gc ems groupShares s0 s1
      masterSecret passphrase idxs :
  identifier_ok id -> flag = 0 \/ flag = 1 -> 0 <= e <= 15 ->
  bytes ems -> share_length ems ->
  splitSecret gt gc ems s0 = Ok (groupShares, s1) ->
  crypt ems passphrase e id flag false = Ok masterSecret ->
  NoDup idxs -> Forall (fun i => 0 <= i < gc) idxs ->
  length idxs = Z.to_nat gt ->
  combineMnemonics
    (map (fun i => encodeMnemonic id flag e i gt gc 0 1
                                  (nth (Z.to_nat i) groupShares []))
         idxs)
    passphrase
  = Ok masterSecret.
Proof.
  intros Hid Hf He Bems Lems Es Ec Hnd Hr Hlen.
  destruct Lems as [L16 Lev].
  destruct (splitSecret_inv _ _ _ _ _ _ Es Bems ltac:(lia))
    as (Bt & Bn & Lg & Sg & Rec).
  set (ms := map (fun i => encodeMnemonic id flag e i gt gc 0 1
                             (nth (Z.to_nat i) groupShares [])) idxs).
  set (ds := map (decoded id flag e gt gc groupShares) idxs).
  assert (Hne : idxs <> []) by (destruct idxs; [simpl in Hlen; lia|discriminate]).
  assert (Hd : Forall2 (fun m d => decodeMnemonic m = Ok d) ms ds).
  { unfold ms, ds. clear Hnd Hlen Hne ms ds Rec.
    induction Hr as [|i l Hi Hl IH]; cbn [map]; constructor; [|exact IH].
    destruct (Sg i Hi) as [Li Bi].
    apply decodeMnemonic_encodeMnemonic.
    - split; [now apply identifier_ok_value|now split].
    - unfold nibbles. lia.
    - lia.
    - exact Bi.
    - unfold share_length. rewrite Li. now split. }
  assert (Gi : map groupIndex ds = idxs).
  { unfold ds. rewrite map_map. cbn [decoded groupIndex]. apply map_id. }
  unfold combineMnemonics.
  assert (Lms : length ms = length idxs) by (unfold ms; apply length_map).
  destruct (Nat.eqb_spec (length ms) 0) as [E0|_];
    [rewrite Lms in E0; destruct idxs; [now elim Hne|discriminate E0]|].
  rewrite (decodeMnemonics_groups (decodeBigInt id) flag e gt gc ms ds).
  - cbn [bind all_identifier all_extendableBackupFlag all_iterationExponent
         all_groupThreshold all_groups].
    assert (Sz : JSMap.size (map entry ds) = gt).
    { unfold JSMap.size, ds. rewrite !length_map. lia. }
    rewrite Sz, Z.ltb_irrefl, Z.eqb_refl. cbn [negb].
    rewrite (combine_singles ds JSMap.empty).
    + cbn [JSMap.empty app bind].
      replace (map (fun d => (groupIndex d, share d)) ds)
        with (presented groupShares idxs)
        by (unfold ds, presented; now rewrite map_map).
      rewrite Rec by assumption. cbn [bind].
      rewrite identifier_rebuilt by exact Hid. exact Ec.
    + unfold ds. apply Forall_forall. intros d Hin.
      apply in_map_iff in Hin as (i & <- & _). reflexivity.
    + cbn [JSMap.empty JSMap.keys map app]. now rewrite Gi.
  - intros E. apply (f_equal (@length _)) in E. rewrite Lms in E.
    destruct idxs; [now elim Hne|discriminate E].
  - exact Hd.
  - unfold ds. apply Forall_forall. intros d Hin.
    apply in_map_iff in Hin as (i & <- & _). repeat split.
  - now rewrite Gi.
Qed.

Import Slip39.

Lemma no_multiple_members descs :
  existsb (fun item : group => let '(n, m, _) := item in (n =? 1) && (m >? 1))
          (map (fun d => (1, 1, d)) descs)
  = false.
Proof. induction descs as [|d descs IH]; [reflexivity|exact IH]. Qed.

Lemma buildRecursive_singles this title descs ems threshold s0 groupShares s1 :
  descs <> [] ->
  splitSecret threshold (Z.of_nat (length descs)) ems s0 = Ok (groupShares, s1) ->
  buildRecursive 3 this (Node 0 title EmptyString [])
                 (map (fun d => (1, 1, d)) descs) ems threshold None s0
  = Ok (Node 0 title EmptyString
             (map (fun td => single this groupShares
                                    (0 + Z.of_nat (fst td)) (snd td))
                  (combine (seq 0 (length descs)) descs)),
        s1).
Proof.
  intros Hne Es. destruct descs as [|d0 descs0]; [now elim Hne|].
  set (f := fun d : string => (1, 1, d) : group).
  change (map f (d0 :: descs0)) with (f d0 :: map f descs0).
  rewrite buildRecursive_node.
  change (f d0 :: map f descs0) with (map f (d0 :: descs0)).
  rewrite length_map. unfold rbind at 1. rewrite Es.
  unfold rbind at 1. unfold f. rewrite group_loop_single. reflexivity.
Qed.

(** Generation with groups of one member each: it succeeds, and the
    mnemonics are those of the shares of the groups. *)
Lemma fromArray_singles masterSecret o s descs :
  opt_groups o = map (fun d => (1, 1, d)) descs ->
  1 <= opt_groupThreshold o <= Z.of_nat (length descs) ->
  Z.of_nat (length descs) <= 16 ->
  bytes masterSecret -> share_length masterSecret ->
  printable_ascii (opt_passphrase o) = true ->
  0 <= opt_iterationExponent o <= 16 ->
  (forall id, opt_identifier o = Some id -> identifier_ok id) ->
  exists slip s' ident ems groupShares s0 s1,
    fromArray masterSecret o s = Ok (slip, s')
    /\ identifier_ok ident
    /\ bytes ems /\ length ems = length masterSecret
    /\ crypt ems (opt_passphrase o) (opt_iterationExponent o) ident
             (opt_extendableBackupFlag o) false = Ok masterSecret
    /\ splitSecret (opt_groupThreshold o) (Z.of_nat (length descs)) ems s0
       = Ok (groupShares, s1)
    /\ mnemonics (root slip)
       = map (fun i => encodeMnemonic
                         ident (opt_extendableBackupFlag o)
                         (opt_iterationExponent o) i
                         (opt_groupThreshold o) (Z.of_nat (length descs))
                         0 1 (nth (Z.to_nat i) groupShares []))
             (range (Z.of_nat (length descs))).
Proof.
  intros Hg Ht Hc HS [L16 Lev] Hp He Hi.
  (* the identifier *)
  assert (Hid : exists ident s0,
             identifier_ok ident
             /\ match opt_identifier o with
                | Some i => rret i
                | None => generateIdentifier
                end s = Ok (ident, s0)).
  { destruct (opt_identifier o) as [i|] eqn:Eo.
    - exists i, s. split; [now apply Hi|reflexivity].
    - destruct (generateIdentifier_ok s) as (id0 & s00 & E0 & Hok).
      now exists id0, s00. }
  destruct Hid as (ident & s0 & Hok & Eid).
  (* the encrypted master secret *)
  assert (Even : Nat.Even (length masterSecret)).
  { exists (Z.to_nat (Z.of_nat (length masterSecret) / 2)).
    Z.to_euclidean_division_equations. lia. }
  destruct (CryptFacts.crypt_round_trip masterSecret (opt_passphrase o)
              (opt_iterationExponent o) ident (opt_extendableBackupFlag o)
              HS Even He) as (ems & Eenc & Bems & Lems & Edec).
  (* the shares of the groups *)
  destruct (splitSecret_recoverSecret (opt_groupThreshold o)
              (Z.of_nat (length descs)) ems s0 Ht Hc Bems ltac:(lia))
    as (groupShares & s1 & Es & _).
  set (this := slip_of o ident).
  set (nodes := map (fun td => single this groupShares
                                      (0 + Z.of_nat (fst td)) (snd td))
                    (combine (seq 0 (length descs)) descs)).
  exists (with_root this (Node 0 (opt_title o) EmptyString nodes)), s1,
         ident, ems, groupShares, s0, s1.
  assert (Lg : length (opt_groups o) = length descs)
    by (rewrite Hg; apply length_map).
  assert (Hdn : descs <> []) by (intros ->; simpl in Ht; lia).
  split; [|split; [exact Hok|split; [exact Bems|split; [exact Lems|
           split; [exact Edec|split; [exact Es|]]]]]].
  - unfold fromArray. unfold rbind at 1. rewrite Eid. cbv zeta.
    destruct (Z.ltb_spec (Z.of_nat (length masterSecret) * 8) MIN_ENTROPY_BITS)
      as [Hlt|_]; [unfold MIN_ENTROPY_BITS in Hlt; lia|].
    destruct (Z.eqb_spec (JS.rem (Z.of_nat (length masterSecret)) 2) 0)
      as [_|Hodd];
      [|elim Hodd; unfold JS.rem; Z.to_euclidean_division_equations; lia].
    cbn [negb]. rewrite Hp. cbn [negb]. rewrite Lg.
    destruct (Z.gtb_spec (opt_groupThreshold o) (Z.of_nat (length descs)));
      [lia|].
    match goal with
    | |- context [existsb ?f (opt_groups o)] =>
        replace (existsb f (opt_groups o)) with false
          by (rewrite Hg; symmetry; apply no_multiple_members)
    end.
    unfold rbind at 1. unfold new.
    destruct Hok as (Lid & _ & _). rewrite Lid. cbn [Nat.eqb].
    unfold JS.truthy.
    destruct (Z.eqb_spec (Z.of_nat (length descs)) 0); [lia|].
    destruct (Z.eqb_spec (opt_groupThreshold o) 0); [lia|].
    cbn [negb rlift]. rewrite <- Lg. fold (slip_of o ident). fold this.
    unfold rbind at 1. cbn [identifier this slip_of]. rewrite Eenc.
    cbn [rlift]. unfold rbind at 1. fold (slip_of o ident). fold this.
    rewrite Hg.
    rewrite (buildRecursive_singles this (opt_title o) descs ems
               (opt_groupThreshold o) s0 groupShares s1 Hdn Es).
    reflexivity.
  - cbn [root with_root]. rewrite mnemonics_children.
    + unfold nodes. rewrite mnemonics_single. unfold this.
      cbn [identifier extendableBackupFlag iterationExponent groupThreshold
           groupCount slip_of]. now rewrite Lg.
    + unfold nodes. intros E. apply (f_equal (@length _)) in E.
      rewrite length_map, length_combine, length_seq, Nat.min_id in E.
      simpl in E. destruct descs; [now elim Hdn|discriminate].
Qed.

Lemma firstn_seq_le k : forall a n, (k <= n)%nat -> firstn k (seq a n) = seq a k.
Proof.
  induction k as [|k IH]; intros a n H; [reflexivity|].
  destruct n as [|n]; [lia|]. cbn [seq firstn]. f_equal. apply IH. lia.
Qed.

Lemma firstn_range k n : 0 <= k <= n -> firstn (Z.to_nat k) (range n) = range k.
Proof.
  intros H. unfold range. rewrite firstn_map. f_equal.
  apply firstn_seq_le. lia.
Qed.

(** Generation with groups of one member each, then recovery from the
    mnemonics of as many groups as the group threshold. *)
Theorem fromArray_recover masterSecret o s descs :
  bytes masterSecret -> share_length masterSecret ->
  printable_ascii (opt_passphrase o) = true ->
  opt_extendableBackupFlag o = 0 \/ opt_extendableBackupFlag o = 1 ->
  0 <= opt_iterationExponent o <= 15 ->
  (forall id, opt_identifier o = Some id -> identifier_ok id) ->
  opt_groups o = map (fun d => (1, 1, d)) descs ->
  Z.of_nat (length descs) <= 16 ->
  1 <= opt_groupThreshold o <= Z.of_nat (length descs) ->
  exists slip s',
    fromArray masterSecret o s = Ok (slip, s')
    /\ length (mnemonics (root slip)) = length descs
    /\ Slip39.recoverSecret
         (firstn (Z.to_nat (opt_groupThreshold o)) (mnemonics (root slip)))
         (opt_passphrase o)
       = Ok masterSecret
    /\ forall idxs,
        NoDup idxs ->
        Forall (fun i => 0 <= i < Z.of_nat (length descs)) idxs ->
        length idxs = Z.to_nat (opt_groupThreshold o) ->
        combineMnemonics
          (map (fun i => nth (Z.to_nat i) (mnemonics (root slip)) EmptyString)
               idxs)
          (opt_passphrase o)
        = Ok masterSecret.
Proof.
  intros HS HL Hp Hf He Hi Hg Hc Ht.
  destruct (fromArray_singles masterSecret o s descs Hg Ht Hc HS HL Hp
                              ltac:(lia) Hi)
    as (slip & s' & ident & ems & groupShares & s0 & s1 & E & Hok & Bems & Lems
        & Edec & Es & Em).
  exists slip, s'. split; [exact E|].
  set (enc := fun i => encodeMnemonic
                         ident (opt_extendableBackupFlag o)
                         (opt_iterationExponent o) i
                         (opt_groupThreshold o) (Z.of_nat (length descs))
                         0 1 (nth (Z.to_nat i) groupShares [])) in *.
  assert (Lems' : share_length ems)
    by (unfold share_length in *; now rewrite Lems).
  assert (R : forall idxs,
             NoDup idxs ->
             Forall (fun i => 0 <= i < Z.of_nat (length descs)) idxs ->
             length idxs = Z.to_nat (opt_groupThreshold o) ->
             combineMnemonics (map enc idxs) (opt_passphrase o)
             = Ok masterSecret).
  { intros idxs Hnd Hr Hlen. unfold enc.
    now apply (combineMnemonics_singles ident _ _ _ _ ems groupShares s0 s1). }
  rewrite Em. split; [|split].
  - now rewrite length_map, IndexFacts.range_length, Nat2Z.id.
  - unfold Slip39.recoverSecret. rewrite firstn_map, firstn_range by lia.
    apply R.
    + apply range_NoDup.
    + apply Forall_forall. intros i Hin. apply range_In in Hin. lia.
    + apply IndexFacts.range_length.
  - intros idxs Hnd Hr Hlen. rewrite <- (R idxs Hnd Hr Hlen). f_equal.
    apply map_ext_in. intros i Hin. rewrite Forall_forall in Hr.
    now rewrite nth_map_range by auto.
Qed.

(** *** Too few members *)

Lemma distinct_count_le l : distinct_count l <= Z.of_nat (length l).
Proof.
  unfold distinct_count. apply inj_le.
  induction l as [|a l IH]; [reflexivity|]. cbn [nodup length].
  destruct (in_dec Z.eq_dec a l); cbn [length]; lia.
Qed.

(** Fewer mnemonics of a group than its member threshold are refused. *)
Lemma combineMnemonics_too_few id flag e gi gt gc M shares idxs passphrase :
  header (decodeBigInt id) flag e -> 0 <= gi <= 15 -> 1 <= gt <= gc ->
  gc <= 16 -> 1 <= M <= 16 ->
  Forall (fun i => 0 <= i <= 15
                   /\ bytes (nth (Z.to_nat i) shares [])
                   /\ share_length (nth (Z.to_nat i) shares [])) idxs ->
  Z.of_nat (length idxs) < M ->
  exists err,
    combineMnemonics
      (map (fun i => encodeMnemonic id flag e gi gt gc i M
                                    (nth (Z.to_nat i) shares []))
           idxs)
      passphrase
    = Err err.
Proof.
  intros Hh Hgi Hgt Hgc HM Hall Hlen.
  destruct (combineMnemonics _ passphrase) as [secret|err] eqn:E;
    [|now exists err].
  exfalso. apply CombineFacts.combineMnemonics_counts in E as (Hne & ds & Hd & Hc).
  destruct idxs as [|i idxs]; [now elim Hne|].
  cbn [map] in Hd. inversion Hd as [|? d ? ds' Hm Hms]; subst.
  inversion Hall as [|? ? (Hi & Bi & Li) _]; subst.
  rewrite decodeMnemonic_encodeMnemonic in Hm;
    try assumption; [|unfold nibbles; lia|lia].
  injection Hm as Hd0.
  assert (Hmt0 : memberThreshold d = M) by (rewrite <- Hd0; reflexivity).
  destruct (Hc _ (or_introl eq_refl)) as [_ Hmt].
  pose proof (distinct_count_le
                (map memberIndex
                     (CombineFacts.in_group (groupIndex d) (d :: ds')))) as Hle.
  rewrite Hmt, length_map in Hle.
  pose proof (filter_length_le (fun d' => groupIndex d' =? groupIndex d)
                               (d :: ds')) as Hfl.
  unfold CombineFacts.in_group in Hle.
  apply Forall2_length in Hms. rewrite length_map in Hms.
  cbn [length] in *. lia.
Qed.

End Env.
End EndToEndFacts.

(* ================================================================= *)
(** * The claims *)

Module Claims.
Import Constants Utils Helper JSFacts BigIntFacts IndexFacts WordFacts.
Import DecodeFacts EncodeFacts CodecFacts ValidFacts.

(** C1: for a master secret of bytes, of even length of 16 or more, a
    passphrase of printable ASCII, a flag 0 or 1, an exponent in 0..15, the
    identifier generated (or given, two bytes of 15 bits), and groups that
    are all 1-of-1, as many as 1..16, with a group threshold between 1 and
    their number: [fromArray] succeeds with one mnemonic for each group;
    [recoverSecret] on the first mnemonics, as many as the group threshold,
    with the same passphrase, returns the master secret; and so does
    [combineMnemonics] on the mnemonics of any groups, as many as the group
    threshold, in any order. *)
Theorem C1_generate_then_recover :
  forall (W : WordList) (P : Primitives) (masterSecret : list Z)
         (o : Slip39.options) (s : entropy) (descriptions : list string),
    bytes masterSecret ->
    16 <= Z.of_nat (length masterSecret) ->
    Z.of_nat (length masterSecret) mod 2 = 0 ->
    Slip39.printable_ascii (Slip39.opt_passphrase o) = true ->
    Slip39.opt_extendableBackupFlag o = 0
    \/ Slip39.opt_extendableBackupFlag o = 1 ->
    0 <= Slip39.opt_iterationExponent o <= 15 ->
    (forall id, Slip39.opt_identifier o = Some id ->
                GenerationFacts.identifier_ok id) ->
    Slip39.opt_groups o = map (fun d => (1, 1, d)) descriptions ->
    Z.of_nat (length descriptions) <= 16 ->
    1 <= Slip39.opt_groupThreshold o <= Z.of_nat (length descriptions) ->
    exists slip s',
      Slip39.fromArray masterSecret o s = Ok (slip, s')
      /\ length (Slip39.mnemonics (Slip39.root slip)) = length descriptions
      /\ Slip39.recoverSecret
           (firstn (Z.to_nat (Slip39.opt_groupThreshold o))
                   (Slip39.mnemonics (Slip39.root slip)))
           (Slip39.opt_passphrase o)
         = Ok masterSecret
      /\ forall idxs : list Z,
          NoDup idxs ->
          Forall (fun i => 0 <= i < Z.of_nat (length descriptions)) idxs ->
          length idxs = Z.to_nat (Slip39.opt_groupThreshold o) ->
          combineMnemonics
            (map (fun i => nth (Z.to_nat i)
                               (Slip39.mnemonics (Slip39.root slip))
                               EmptyString)
                 idxs)
            (Slip39.opt_passphrase o)
          = Ok masterSecret.
Proof.
  intros W P masterSecret o s descriptions HS HL Hev Hp Hf He Hi Hg Hc Ht.
  apply EndToEndFacts.fromArray_recover; try assumption.
  split; assumption.
Qed.

Lemma C1_generate_then_recover_witness :
  exists slip s',
    @Slip39.fromArray Sample.words Sample.prims Sample.MASTERSECRET
                      Slip39.default_options Sample.dice
    = Ok (slip, s')
    /\ length (Slip39.mnemonics (Slip39.root slip)) = 1%nat
    /\ @Slip39.recoverSecret Sample.words Sample.prims
         (firstn 1 (Slip39.mnemonics (Slip39.root slip))) EmptyString
       = Ok Sample.MASTERSECRET
    /\ forall idxs : list Z,
        NoDup idxs -> Forall (fun i => 0 <= i < 1) idxs ->
        length idxs = 1%nat ->
        @combineMnemonics Sample.words Sample.prims
          (map (fun i => nth (Z.to_nat i)
                             (Slip39.mnemonics (Slip39.root slip))
                             EmptyString)
               idxs)
          EmptyString
        = Ok Sample.MASTERSECRET.
Proof.
  apply (C1_generate_then_recover
           Sample.words Sample.prims Sample.MASTERSECRET
           Slip39.default_options Sample.dice
           ["Default 1-of-1 group share"%string]).
  - apply bytesb_bytes. reflexivity.
  - vm_compute. discriminate.
  - reflexivity.
  - reflexivity.
  - now right.
  - cbn. lia.
  - intros id H. discriminate H.
  - reflexivity.
  - vm_compute. discriminate.
  - cbn. lia.
Defined.

(** C2 (the code departs from the claim).  [interpolate] at an abscissa
    that is a key of the map throws as soon as the map holds another point:
    the [return v] of the source leaves the callback of [forEach] only, and
    the callback throws at the other keys.  With the abscissa as the only
    key the value comes back, through the computation. *)
Example C2_interpolate_at_existing_key :
  interpolate [(0, [1]); (1, [2])] 0 = Err InterpolateExistingKey
  /\ interpolate [(0, [1]); (1, [2])] 1 = Err InterpolateExistingKey
  /\ interpolate [(7, [1; 2; 3])] 7 = Ok [1; 2; 3].
Proof. vm_compute. repeat split. Qed.

(** C3: for a threshold [M] and [N] shares, [1 <= M <= N <= 16], and a
    secret of five bytes or more (four of its length go to the digest, and
    what is left, the random part, is the key of the digest, which must not
    be empty), [splitSecret] returns [N] shares, and
    [recoverSecret] on any [M] of them, under their indices and in any
    order, returns the secret; and, for a secret that mnemonics can carry
    (even length of 16 or more), [combineMnemonics] on the mnemonics of any
    [M - 1] of the shares (one group, member threshold [M]) throws. *)
Theorem C3_threshold_of_a_group :
  forall (W : WordList) (P : Primitives) (M N : Z) (S : list Z) (s : entropy),
    1 <= M <= N -> N <= 16 -> bytes S -> (5 <= length S)%nat ->
    exists shares s',
      splitSecret M N S s = Ok (shares, s')
      /\ length shares = Z.to_nat N
      /\ (forall idxs : list Z,
            NoDup idxs -> Forall (fun i => 0 <= i < N) idxs ->
            length idxs = Z.to_nat M ->
            recoverSecret
              M (map (fun i => (i, nth (Z.to_nat i) shares [])) idxs)
            = Ok S)
      /\ (forall (idxs : list Z) (id : list Z) (flag e : Z)
                 (passphrase : string),
            16 <= Z.of_nat (length S) -> Z.of_nat (length S) mod 2 = 0 ->
            0 <= decodeBigInt id < 2 ^ 15 -> flag = 0 \/ flag = 1 ->
            0 <= e <= 15 ->
            NoDup idxs -> Forall (fun i => 0 <= i < N) idxs ->
            length idxs = Z.to_nat (M - 1) ->
            exists err,
              combineMnemonics
                (map (fun i => encodeMnemonic id flag e 0 1 1 i M
                                              (nth (Z.to_nat i) shares []))
                     idxs)
                passphrase
              = Err err).
Proof.
  intros W P M N S s HM HN HS HL.
  destruct (ShamirFacts.splitSecret_recoverSecret M N S s HM HN HS
                                                  (fun _ => HL))
    as (shares & s' & E & Ls & Hsh & Hrec).
  exists shares, s'. split; [exact E|]. split; [exact Ls|].
  split; [exact Hrec|].
  intros idxs id flag e passphrase L16 Lev Hid Hf He Hnd Hr Hlen.
  apply EndToEndFacts.combineMnemonics_too_few; try lia.
  - split; [exact Hid|]. split; assumption.
  - revert Hr. apply Forall_impl. intros i Hi.
    destruct (Hsh i Hi) as [Li Bi]. split; [lia|]. split; [exact Bi|].
    unfold share_length. rewrite Li. split; assumption.
Qed.

Lemma C3_threshold_of_a_group_witness :
  exists shares s',
    @splitSecret Sample.prims 2 3 Sample.MASTERSECRET Sample.dice
    = Ok (shares, s')
    /\ length shares = Z.to_nat 3
    /\ (forall idxs : list Z,
          NoDup idxs -> Forall (fun i => 0 <= i < 3) idxs ->
          length idxs = Z.to_nat 2 ->
          @recoverSecret Sample.prims
            2 (map (fun i => (i, nth (Z.to_nat i) shares [])) idxs)
          = Ok Sample.MASTERSECRET)
    /\ (forall (idxs : list Z) (id : list Z) (flag e : Z)
               (passphrase : string),
          16 <= Z.of_nat (length Sample.MASTERSECRET) ->
          Z.of_nat (length Sample.MASTERSECRET) mod 2 = 0 ->
          0 <= decodeBigInt id < 2 ^ 15 -> flag = 0 \/ flag = 1 ->
          0 <= e <= 15 ->
          NoDup idxs -> Forall (fun i => 0 <= i < 3) idxs ->
          length idxs = Z.to_nat (2 - 1) ->
          exists err,
            @combineMnemonics Sample.words Sample.prims
              (map (fun i => @encodeMnemonic Sample.words id flag e 0 1 1 i 2
                                             (nth (Z.to_nat i) shares []))
                   idxs)
              passphrase
            = Err err).
Proof.
  apply (C3_threshold_of_a_group Sample.words Sample.prims 2 3
                                 Sample.MASTERSECRET Sample.dice).
  - lia.
  - lia.
  - apply bytesb_bytes. reflexivity.
  - vm_compute. lia.
Defined.

(** C4: for a list of word indices and a flag 0 or 1, the data followed by
    the three words of [rs1024CreateChecksum] is accepted by
    [rs1024VerifyChecksum]; and a sequence is accepted exactly when the
    polymod of the bytes of "shamir" (flag 0) or "shamir_extendable"
    (flag 1) followed by the sequence is 1. *)
Theorem C4_rs1024_checksum :
  forall (data : list Z) (flag : Z),
    Forall (fun w => 0 <= w < 1024) data -> flag = 0 \/ flag = 1 ->
    let customization :=
      if flag =? 0 then "shamir"%string else "shamir_extendable"%string in
    rs1024VerifyChecksum (data ++ rs1024CreateChecksum data flag) flag = true
    /\ forall ws : list Z,
        rs1024VerifyChecksum ws flag = true
        <-> rs1024Polymod (encodeHexString customization ++ ws) = 1.
Proof.
  intros data flag Hd Hf customization. split.
  - now apply RS1024Facts.create_then_verify.
  - intros ws. unfold rs1024VerifyChecksum.
    replace (get_customization_string flag) with customization
      by (unfold customization; destruct Hf; subst flag; reflexivity).
    apply Z.eqb_eq.
Qed.

Lemma C4_rs1024_checksum_witness :
  rs1024VerifyChecksum ([1; 2; 1023] ++ rs1024CreateChecksum [1; 2; 1023] 1) 1
  = true
  /\ forall ws : list Z,
      rs1024VerifyChecksum ws 1 = true
      <-> rs1024Polymod (encodeHexString "shamir_extendable" ++ ws) = 1.
Proof.
  apply (C4_rs1024_checksum [1; 2; 1023] 1).
  - repeat (constructor; [lia|]). constructor.
  - now right.
Defined.





(** C6: when [combineMnemonics] returns a secret, every mnemonic has
    decoded, the distinct group indices among the decoded mnemonics are as
    many as the group threshold, and in the group of each mnemonic the
    distinct member indices are as many as the member threshold of that
    group; with fewer or more groups, or fewer or more members in a group,
    it throws. *)
Theorem C6_combine_counts :
  forall (W : WordList) (P : Primitives) (mnemonics : list string)
         (passphrase : string) (secret : list Z),
    combineMnemonics mnemonics passphrase = Ok secret ->
    exists ds : list IDecodedMnemonic,
      Forall2 (fun m d => decodeMnemonic m = Ok d) mnemonics ds
      /\ forall d, In d ds ->
           MapFacts.distinct_count (map groupIndex ds) = groupThreshold d
           /\ MapFacts.distinct_count
                (map memberIndex (CombineFacts.in_group (groupIndex d) ds))
              = memberThreshold d.
Proof.
  intros W P mnemonics passphrase secret H.
  exact (proj2 (CombineFacts.combineMnemonics_counts _ _ _ H)).
Qed.

Lemma C6_combine_counts_witness :
  exists ds : list IDecodedMnemonic,
    Forall2 (fun m d => @decodeMnemonic Sample.words m = Ok d)
            (firstn 2 Sample.TWO_OF_THREE) ds
    /\ forall d, In d ds ->
         MapFacts.distinct_count (map groupIndex ds) = groupThreshold d
         /\ MapFacts.distinct_count
              (map memberIndex (CombineFacts.in_group (groupIndex d) ds))
            = memberThreshold d.
Proof.
  apply (C6_combine_counts Sample.words Sample.prims
           (firstn 2 Sample.TWO_OF_THREE) EmptyString Sample.MASTERSECRET).
  vm_compute. reflexivity.
Defined.

(** C7: for every string, [validateMnemonic] is true exactly when
    [decodeMnemonic] returns a value, and false exactly when it throws.  It
    returns a value exactly when every word of the lower-cased string, split
    at single spaces, is in the word list, there are 20 words or more, the
    length residual is at most 8, the padding bits are zero, the RS1024
    checksum verifies against the flag the words carry, and the group
    threshold they carry is at most the group count. *)
Theorem C7_validateMnemonic :
  forall (W : WordList) (mnemonic : string),
    (validateMnemonic mnemonic = true
     <-> exists d, decodeMnemonic mnemonic = Ok d)
    /\ (validateMnemonic mnemonic = false
        <-> exists e, decodeMnemonic mnemonic = Err e)
    /\ (validateMnemonic mnemonic = true
        <-> exists data : list Z,
            Forall2 (fun w i => JS.index WORD_LIST i = Some w)
                    (JS.split " " (JS.toLowerCase mnemonic)) data
            /\ 20 <= Z.of_nat (length data)
            /\ residual data <= 8
            /\ padding_bits data = 0
            /\ rs1024VerifyChecksum
                 data (extendableBackupFlag (fields data [])) = true
            /\ groupThreshold (fields data []) <= groupCount (fields data [])).
Proof.
  intros W mnemonic.
  assert (V : validateMnemonic mnemonic = true
              <-> exists d, decodeMnemonic mnemonic = Ok d).
  { unfold validateMnemonic. destruct (decodeMnemonic mnemonic) as [d|e].
    - split; [now exists d|reflexivity].
    - split; [discriminate|intros [d H]; discriminate]. }
  split; [exact V|]. split.
  - unfold validateMnemonic. destruct (decodeMnemonic mnemonic) as [d|e].
    + split; [discriminate|intros [e H]; discriminate].
    + split; [now exists e|reflexivity].
  - rewrite V. split.
    + intros [d H]. apply decodeMnemonic_ok in H as (data & Hi & H).
      exists data. split; [exact Hi|].
      pose proof (indexed_word_index _ _ Hi) as Hw.
      destruct (proj1 (decodeIndices_ok_iff data Hw) (ex_intro _ d H))
        as (Hl & Hr & Hp & Hc & Hn).
      cbn [fields groupThreshold groupCount extendableBackupFlag].
      repeat split; (assumption || lia).
    + intros (data & Hi & Hl & Hr & Hp & Hc & Hn).
      pose proof (indexed_word_index _ _ Hi) as Hw.
      cbn [fields groupThreshold groupCount extendableBackupFlag] in Hc, Hn.
      destruct (proj2 (decodeIndices_ok_iff data Hw)) as [d H].
      { repeat split; (assumption || lia). }
      exists d. apply decodeMnemonic_ok. now exists data.
Qed.

(** C8 (the code departs from the claim).  [buildRecursive] takes a group
    without members for a leaf: the group's share is encoded at once, with
    the group's threshold as the member threshold, and [splitSecret], which
    refuses a threshold above the number of members for every other group,
    is not called.  [fromArray] with the groups [[257, 0], [1, 1]] and the
    group threshold 1 succeeds, and the two mnemonics of this one
    generation decode to the group counts 3 and 2: [encodeMnemonic] adds
    the threshold, unchecked, into the word that also holds the low bits of
    the group count. *)
Example C8_group_without_members :
  exists (slip : Slip39.Slip39) (s' : entropy) (d1 d2 : IDecodedMnemonic),
    @Slip39.fromArray Sample.words Sample.prims Sample.MASTERSECRET
      (Sample.policy [(257, 0, EmptyString); (1, 1, EmptyString)] 1)
      Sample.dice
    = Ok (slip, s')
    /\ length (Slip39.mnemonics (Slip39.root slip)) = 2%nat
    /\ @decodeMnemonic Sample.words
         (nth 0 (Slip39.mnemonics (Slip39.root slip)) EmptyString) = Ok d1
    /\ @decodeMnemonic Sample.words
         (nth 1 (Slip39.mnemonics (Slip39.root slip)) EmptyString) = Ok d2
    /\ groupCount d1 = 3 /\ groupCount d2 = 2.
Proof.
  destruct (@Slip39.fromArray Sample.words Sample.prims Sample.MASTERSECRET
              (Sample.policy [(257, 0, EmptyString); (1, 1, EmptyString)] 1)
              Sample.dice)
    as [[slip s']|err] eqn:E; [|vm_compute in E; discriminate E].
  exists slip, s'.
  assert (L : length (Slip39.mnemonics (Slip39.root slip)) = 2%nat).
  { vm_compute in E. injection E as <- _. reflexivity. }
  destruct (@decodeMnemonic Sample.words
              (nth 0 (Slip39.mnemonics (Slip39.root slip)) EmptyString))
    as [d1|e1] eqn:E1;
    [|vm_compute in E; injection E as <- _; vm_compute in E1; discriminate E1].
  destruct (@decodeMnemonic Sample.words
              (nth 1 (Slip39.mnemonics (Slip39.root slip)) EmptyString))
    as [d2|e2] eqn:E2;
    [|vm_compute in E; injection E as <- _; vm_compute in E2; discriminate E2].
  exists d1, d2. split; [reflexivity|]. split; [exact L|].
  split; [reflexivity|]. split; [reflexivity|].
  vm_compute in E. injection E as <- _.
  vm_compute in E1. injection E1 as <-.
  vm_compute in E2. injection E2 as <-.
  split; reflexivity.
Qed.

(** C9: [combineMnemonics] on the empty list throws "The list of mnemonics
    is empty."; nothing is decoded or decrypted. *)
Theorem C9_combine_empty :
  forall (W : WordList) (P : Primitives) (passphrase : string),
    combineMnemonics [] passphrase = Err EmptyMnemonics
    /\ message EmptyMnemonics = "The list of mnemonics is empty."%string.
Proof. intros W P passphrase. split; reflexivity. Qed.

(** C10: decoding does not compare the indices with the counts.  Every
    group index and member index in 0..15 decodes and validates together
    with every group threshold, group count and member threshold in 1..16
    such that the group threshold is at most the group count; decoding only
    enforces that last relation; and some valid mnemonic carries a group
    index that is not below its group count. *)
Theorem C10_indices_not_bound_checked :
  forall (W : WordList),
    (forall gi gt gc mi mt : Z,
        0 <= gi <= 15 -> 0 <= mi <= 15 -> 1 <= gt <= gc -> gc <= 16 ->
        1 <= mt <= 16 ->
        exists mnemonic d,
          decodeMnemonic mnemonic = Ok d
          /\ validateMnemonic mnemonic = true
          /\ groupIndex d = gi /\ memberIndex d = mi
          /\ groupThreshold d = gt /\ groupCount d = gc
          /\ memberThreshold d = mt)
    /\ (forall mnemonic d,
           decodeMnemonic mnemonic = Ok d -> groupThreshold d <= groupCount d)
    /\ (exists mnemonic d,
           decodeMnemonic mnemonic = Ok d
           /\ validateMnemonic mnemonic = true
           /\ groupCount d <= groupIndex d).
Proof.
  intros W.
  assert (G : forall gi gt gc mi mt : Z,
             0 <= gi <= 15 -> 0 <= mi <= 15 -> 1 <= gt <= gc -> gc <= 16 ->
             1 <= mt <= 16 ->
             exists mnemonic d,
               decodeMnemonic mnemonic = Ok d
               /\ validateMnemonic mnemonic = true
               /\ groupIndex d = gi /\ memberIndex d = mi
               /\ groupThreshold d = gt /\ groupCount d = gc
               /\ memberThreshold d = mt).
  { intros gi gt gc mi mt Hgi Hmi Hgt Hgc Hmt.
    pose proof (decodeMnemonic_encodeMnemonic
                  [0; 0] 0 0 gi gt gc mi mt Sample.MASTERSECRET) as H.
    eexists. eexists. split; [apply H|].
    - vm_compute. repeat split; (discriminate || now left).
    - unfold nibbles. lia.
    - lia.
    - apply bytesb_bytes. reflexivity.
    - split; [vm_compute; discriminate|reflexivity].
    - unfold validateMnemonic. rewrite H.
      + repeat split.
      + vm_compute. repeat split; (discriminate || now left).
      + unfold nibbles. lia.
      + lia.
      + apply bytesb_bytes. reflexivity.
      + split; [vm_compute; discriminate|reflexivity]. }
  split; [exact G|]. split.
  - intros mnemonic d H. apply decodeMnemonic_ok in H as (data & Hi & H).
    pose proof (indexed_word_index _ _ Hi) as Hw.
    destruct (decodeIndices_ok data d Hw H) as (_ & _ & _ & Hn & share & _ & ->).
    cbn [fields groupThreshold groupCount]. lia.
  - destruct (G 15 1 1 0 1) as (mnemonic & d & Hd & Hv & Hgi & _ & _ & Hgc & _);
      try lia.
    exists mnemonic, d. repeat split; try assumption. lia.
Qed.

End Claims.

(* ================================================================= *)
(** * Further properties of the code *)

Module Coverage.
Import Constants Utils Random Helper JSFacts MapFacts.
Import BigIntFacts IndexFacts WordFacts DecodeFacts EncodeFacts CodecFacts.
Import ValidFacts.

(* ----------------------------------------------------------------- *)
(** ** utils.ts *)

Lemma value_strip0 bs : value 8 (strip0 bs) = value 8 bs.
Proof.
  induction bs as [|b r IH]; [reflexivity|]. cbn [strip0].
  destruct (Z.eqb_spec b 0) as [->|]; [|reflexivity].
  rewrite IH, value_cons. lia.
Qed.

Lemma strip0_head bs : hd 1 (strip0 bs) <> 0.
Proof.
  induction bs as [|b r IH]; [discriminate|]. cbn [strip0].
  destruct (Z.eqb_spec b 0); [exact IH|assumption].
Qed.

Lemma digits_bytes n v : bytes (digits 8 n v).
Proof. exact (digits_digit 8 n v ltac:(lia)). Qed.

(** [encodeBigInt] and [decodeBigInt] are inverse to each other: a
    non-empty byte array is got back from its number with its own length as
    the padded length, and a number below [256 ^ len] is got back from its
    [len] bytes. *)
Theorem bigint_bytes_round_trip :
  (forall bs : list Z,
      bytes bs -> bs <> [] ->
      encodeBigInt (decodeBigInt bs) (Z.of_nat (length bs)) = Ok bs)
  /\ (forall n len : Z,
         0 <= n < 2 ^ (8 * len) -> 0 < len ->
         exists bs, encodeBigInt n len = Ok bs
                    /\ Z.of_nat (length bs) = len /\ bytes bs
                    /\ decodeBigInt bs = n).
Proof.
  split; [exact encodeBigInt_decodeBigInt|].
  intros n len Hn Hl. exists (digits 8 (Z.to_nat len) n).
  assert (V : value 8 (digits 8 (Z.to_nat len) n) = n).
  { apply value_digits; [lia|]. now rewrite Z2Nat.id by lia. }
  split; [|split; [|split]].
  - rewrite <- V at 1. rewrite <- decodeBigInt_value.
    replace len with (Z.of_nat (length (digits 8 (Z.to_nat len) n))) at 2
      by (rewrite digits_length; lia).
    apply encodeBigInt_decodeBigInt; [apply digits_bytes|].
    intros E. apply (f_equal (@length _)) in E.
    rewrite digits_length in E. simpl in E. lia.
  - rewrite digits_length. lia.
  - apply digits_bytes.
  - now rewrite decodeBigInt_value.
Qed.

(** The edges of [encodeBigInt]: a number that is not positive gives
    [paddedLength] zero bytes (a negative number is not refused); with a
    positive padded length it throws exactly when the number does not fit
    in that many bytes; with the padded length 0 it never throws and gives
    the bytes of the number without a leading zero. *)
Theorem encodeBigInt_edges :
  forall n len : Z,
    (n <= 0 -> 0 <= len -> encodeBigInt n len = Ok (repeat 0 (Z.to_nat len)))
    /\ (0 <= n -> 0 < len ->
        (is_ok (encodeBigInt n len) = false <-> 2 ^ (8 * len) <= n))
    /\ (0 <= n ->
        exists bs, encodeBigInt n 0 = Ok bs
                   /\ decodeBigInt bs = n /\ hd 1 bs <> 0).
Proof.
  intros n len. split; [|split].
  - intros Hn Hl. unfold encodeBigInt. cbv zeta.
    rewrite encodeBigInt_loop_zero by exact Hn.
    unfold zero_pad. cbn [length]. rewrite Nat.sub_0_r, app_nil_r, repeat_length.
    destruct (Z.eqb_spec len 0) as [->|]; [reflexivity|]. cbn [negb andb].
    destruct (Z.gtb_spec (Z.of_nat (Z.to_nat len)) len); [lia|reflexivity].
  - intros Hn Hl. pose proof (encodeBigInt_ok_iff n len Hn Hl) as H.
    destruct (is_ok (encodeBigInt n len)).
    + split; [discriminate|]. intros Hge.
      assert (n < 2 ^ (8 * len)) by now apply H. lia.
    + split; [|reflexivity]. intros _.
      destruct (Z_lt_dec n (2 ^ (8 * len))) as [Hlt|]; [|lia].
      apply H in Hlt. discriminate.
  - intros Hn. set (k := S (Z.to_nat (Z.log2 n))).
    set (bs := digits 8 k n).
    assert (V : value 8 bs = n).
    { apply value_digits; [lia|]. split; [exact Hn|].
      destruct (Z.eq_dec n 0) as [->|Hz].
      - apply Z.pow_pos_nonneg; lia.
      - apply Z.log2_lt_pow2; [lia|]. unfold k.
        pose proof (Z.log2_nonneg n). lia. }
    exists (strip0 bs). split; [|split].
    + unfold encodeBigInt. cbv zeta. rewrite <- V.
      rewrite encodeBigInt_loop_spec by (apply digits_bytes || apply strip0_fuel,
                                          digits_bytes).
      rewrite app_nil_r. unfold zero_pad. cbn [Z.to_nat Nat.sub repeat app].
      reflexivity.
    + now rewrite decodeBigInt_value, value_strip0.
    + apply strip0_head.
Qed.

(** [listsAreEqual] on two arrays is the equality of their elements in
    order. *)
Theorem listsAreEqual_iff :
  forall a b : list Z, listsAreEqual a b = true <-> a = b.
Proof.
  intros a b. unfold listsAreEqual.
  destruct (Nat.eqb_spec (length a) (length b)) as [E|N]; cbn [negb].
  - revert b E. induction a as [|x a IH]; intros [|y b] E; try discriminate.
    + split; reflexivity.
    + cbn [combine forallb fst snd]. rewrite andb_true_iff, Z.eqb_eq.
      rewrite IH by (simpl in E; lia). split.
      * intros [-> ->]. reflexivity.
      * intros [= -> ->]. now split.
  - split; [discriminate|]. intros ->. now elim N.
Qed.

(* ----------------------------------------------------------------- *)
(** ** Indices and words *)

(** [intToIndices] and [intFromIndices] are inverse to each other on word
    indices: the indices are got back from their number, and a number below
    [1024 ^ n] is got back from its [n] indices. *)
Theorem indices_round_trip :
  (forall ws : list Z,
      Forall (fun w => 0 <= w < 1024) ws ->
      intToIndices (intFromIndices ws) (Z.of_nat (length ws)) RADIX_BITS = ws)
  /\ (forall v n : Z,
         0 <= n -> 0 <= v < 2 ^ (10 * n) ->
         intFromIndices (intToIndices v n RADIX_BITS) = v
         /\ Z.of_nat (length (intToIndices v n RADIX_BITS)) = n
         /\ Forall (fun w => 0 <= w < 1024) (intToIndices v n RADIX_BITS)).
Proof.
  split.
  - intros ws H. rewrite intToIndices_digits by (unfold RADIX_BITS; lia).
    rewrite Nat2Z.id, intFromIndices_value. apply digits_value; [lia|].
    exact H.
  - intros v n Hn Hv. rewrite intToIndices_digits by (unfold RADIX_BITS; lia).
    unfold RADIX_BITS. split; [|split].
    + rewrite intFromIndices_value. apply value_digits; [lia|].
      now rewrite Z2Nat.id by lia.
    + rewrite digits_length. lia.
    + exact (digits_digit 10 _ v ltac:(lia)).
Qed.

Section Words.
Context {words : WordList}.

Lemma words_of_indices indices :
  indices <> [] -> Forall word_index indices ->
  JS.split " " (mnemonicFromIndices indices) = map word_at indices.
Proof.
  intros Hne Hall. unfold mnemonicFromIndices.
  assert (Hw : Forall (fun w => all_lowercase w = true) (map word_at indices)).
  { apply Forall_map. eapply Forall_impl; [|exact Hall].
    intros i Hi. apply is_word_lowercase. now apply word_at_spec. }
  assert (Hm : map word_at indices <> [])
    by (destruct indices; [congruence|discriminate]).
  rewrite (split_join "," (map word_at indices)); [|exact Hm|].
  2:{ eapply Forall_impl; [|exact Hw]. intros w. now apply lowercase_free. }
  apply split_join; [exact Hm|].
  eapply Forall_impl; [|exact Hw]. intros w. now apply lowercase_free.
Qed.

Lemma empty_word_unknown : WORD_LIST_MAP EmptyString = None.
Proof.
  destruct (WORD_LIST_MAP EmptyString) as [i|] eqn:E; [|reflexivity].
  apply WORD_LIST_MAP_spec in E. unfold JS.index in E.
  destruct (i <? 0); [discriminate|]. apply nth_error_In in E.
  pose proof word_list_words as Hw. rewrite Forall_forall in Hw.
  specialize (Hw _ E). discriminate Hw.
Qed.

End Words.

(** [mnemonicToIndices] reads back what [mnemonicFromIndices] writes: for a
    non-empty list of word indices the mnemonic has one word for each index
    and gives the indices back; the mnemonic of the empty list is the empty
    string, which [mnemonicToIndices] refuses as an unknown word. *)
Theorem mnemonic_words_round_trip :
  forall (W : WordList),
    (forall indices : list Z,
        indices <> [] -> Forall (fun i => 0 <= i < 1024) indices ->
        mnemonicToIndices (mnemonicFromIndices indices) = Ok indices
        /\ length (JS.split " " (mnemonicFromIndices indices))
           = length indices)
    /\ mnemonicToIndices (mnemonicFromIndices [])
       = Err (InvalidMnemonicWord EmptyString).
Proof.
  intros W. split.
  - intros indices Hne Hall. split.
    + now apply mnemonicToIndices_FromIndices.
    + rewrite words_of_indices by assumption. apply length_map.
  - unfold mnemonicToIndices, mnemonicFromIndices.
    cbn [map JS.join JS.split JS.split_aux JS.toLowerCase fold_left bind].
    now rewrite empty_word_unknown.
Qed.

(** The number of words of a mnemonic: seven words of header and checksum
    and one word for every ten bits of the share value, rounded up (20 words
    for 16 bytes, 33 words for 32 bytes). *)
Theorem encodeMnemonic_word_count :
  forall (W : WordList) (identifier : list Z)
         (flag exponent gi gt gc mi mt : Z) (value : list Z),
    0 <= gi <= 15 -> 1 <= gt <= 16 -> 1 <= gc <= 16 -> 0 <= mi <= 15 ->
    1 <= mt <= 16 ->
    Z.of_nat (length (JS.split " "
                        (encodeMnemonic identifier flag exponent gi gt gc mi mt
                                        value)))
    = (Z.of_nat (length value) * 8 + 9) / 10 + 7.
Proof.
  intros W identifier flag exponent gi gt gc mi mt value Hgi Hgt Hgc Hmi Hmt.
  assert (Hn : nibbles gi gt gc mi mt) by (unfold nibbles; lia).
  rewrite encodeMnemonic_indices by exact Hn.
  rewrite words_of_indices.
  - rewrite length_map, encodeIndices_length.
    unfold bitsToWords, RADIX_BITS. f_equal. f_equal. lia.
  - unfold encodeIndices, share_data. rewrite digits2. discriminate.
  - now apply encodeIndices_index.
Qed.

Lemma encodeMnemonic_word_count_witness :
  Z.of_nat (length (JS.split " "
                      (@encodeMnemonic Sample.words [18; 52] 1 0 0 1 1 0 1
                                       Sample.MASTERSECRET)))
  = (Z.of_nat (length Sample.MASTERSECRET) * 8 + 9) / 10 + 7.
Proof.
  apply (encodeMnemonic_word_count Sample.words [18; 52] 1 0 0 1 1 0 1
                                   Sample.MASTERSECRET); lia.
Defined.

(** The order of the checks of [decodeMnemonic] on a mnemonic whose words
    are all in the word list, at the indices [data]: fewer than 20 words,
    then a residual above 8, then the checksum under the flag the words
    carry, then a group threshold above the group count, then padding bits
    that are not zero; the first check that fails gives the error, and with
    none failing the fields come back. *)
Theorem decodeMnemonic_first_error :
  forall (W : WordList) (mnemonic : string) (data : list Z),
    mnemonicToIndices mnemonic = Ok data ->
    (Z.of_nat (length data) < 20 ->
     decodeMnemonic mnemonic = Err InvalidMnemonicLength)
    /\ (20 <= Z.of_nat (length data) -> 8 < residual data ->
        decodeMnemonic mnemonic = Err InvalidMnemonicResidual)
    /\ (20 <= Z.of_nat (length data) -> residual data <= 8 ->
        rs1024VerifyChecksum data (flag_of data) = false ->
        decodeMnemonic mnemonic = Err InvalidChecksum)
    /\ (20 <= Z.of_nat (length data) -> residual data <= 8 ->
        rs1024VerifyChecksum data (flag_of data) = true ->
        nibble data 2 < nibble data 3 ->
        decodeMnemonic mnemonic
        = Err (GroupThresholdExceedsCount (nibble data 3) (nibble data 2)))
    /\ (20 <= Z.of_nat (length data) -> residual data <= 8 ->
        rs1024VerifyChecksum data (flag_of data) = true ->
        nibble data 3 <= nibble data 2 -> padding_bits data <> 0 ->
        decodeMnemonic mnemonic = Err InvalidPadding)
    /\ (20 <= Z.of_nat (length data) -> residual data <= 8 ->
        rs1024VerifyChecksum data (flag_of data) = true ->
        nibble data 3 <= nibble data 2 -> padding_bits data = 0 ->
        exists share, decodeMnemonic mnemonic = Ok (fields data share)).
Proof.
  intros W mnemonic data Hm.
  assert (Hw : Forall word_index data).
  { apply mnemonicToIndices_ok in Hm. now apply indexed_word_index in Hm. }
  unfold decodeMnemonic. rewrite Hm. cbn [bind].
  assert (Hpad : 20 <= Z.of_nat (length data) -> residual data <= 8 ->
                 rs1024VerifyChecksum data (flag_of data) = true ->
                 nibble data 3 <= nibble data 2 ->
                 (padding_bits data = 0
                  <-> exists share,
                      encodeBigInt (value 10 (share_words data))
                                   (share_bytes data) = Ok share)).
  { intros Hl Hr Hc Hn. pose proof (decodeIndices_ok_iff data Hw) as Hiff.
    rewrite decodeIndices_fields in Hiff by assumption.
    destruct (Z.gtb_spec (residual data) 8); [lia|].
    rewrite Hc in Hiff. cbn [negb] in Hiff.
    destruct (Z.ltb_spec (nibble data 2) (nibble data 3)); [lia|].
    destruct (encodeBigInt (value 10 (share_words data)) (share_bytes data))
      as [share|err].
    - split; [intros _; now exists share|]. intros _.
      destruct Hiff as [Hiff _].
      now destruct (Hiff (ex_intro _ _ eq_refl)) as (_ & _ & Hp0 & _).
    - split; [|intros [share Hs]; discriminate Hs]. intros Hp.
      destruct Hiff as [_ Hiff].
      destruct Hiff as [d Hd]; [repeat split; assumption|discriminate Hd]. }
  split; [intros Hs; now apply decodeIndices_short|].
  split; [|split; [|split; [|split]]].
  - intros Hl Hr. rewrite decodeIndices_fields by assumption.
    destruct (Z.gtb_spec (residual data) 8); [reflexivity|lia].
  - intros Hl Hr Hc. rewrite decodeIndices_fields by assumption.
    destruct (Z.gtb_spec (residual data) 8); [lia|]. now rewrite Hc.
  - intros Hl Hr Hc Hn. rewrite decodeIndices_fields by assumption.
    destruct (Z.gtb_spec (residual data) 8); [lia|]. rewrite Hc. cbn [negb].
    destruct (Z.ltb_spec (nibble data 2) (nibble data 3)); [reflexivity|lia].
  - intros Hl Hr Hc Hn Hp. rewrite decodeIndices_fields by assumption.
    destruct (Z.gtb_spec (residual data) 8); [lia|]. rewrite Hc. cbn [negb].
    destruct (Z.ltb_spec (nibble data 2) (nibble data 3)); [lia|].
    destruct (encodeBigInt (value 10 (share_words data)) (share_bytes data))
      as [share|err] eqn:E; [|reflexivity].
    elim Hp. apply Hpad; try assumption. now exists share.
  - intros Hl Hr Hc Hn Hp. rewrite decodeIndices_fields by assumption.
    destruct (Z.gtb_spec (residual data) 8); [lia|]. rewrite Hc. cbn [negb].
    destruct (Z.ltb_spec (nibble data 2) (nibble data 3)); [lia|].
    destruct (proj1 (Hpad Hl Hr Hc Hn) Hp) as [share Hs]. rewrite Hs.
    now exists share.
Qed.

Lemma decodeMnemonic_first_error_witness :
  let data := encodeIndices [18; 52] 1 0 0 1 1 0 1 Sample.MASTERSECRET in
  let mnemonic := @mnemonicFromIndices Sample.words data in
  (Z.of_nat (length data) < 20 ->
   @decodeMnemonic Sample.words mnemonic = Err InvalidMnemonicLength)
  /\ (20 <= Z.of_nat (length data) -> 8 < residual data ->
      @decodeMnemonic Sample.words mnemonic = Err InvalidMnemonicResidual)
  /\ (20 <= Z.of_nat (length data) -> residual data <= 8 ->
      rs1024VerifyChecksum data (flag_of data) = false ->
      @decodeMnemonic Sample.words mnemonic = Err InvalidChecksum)
  /\ (20 <= Z.of_nat (length data) -> residual data <= 8 ->
      rs1024VerifyChecksum data (flag_of data) = true ->
      nibble data 2 < nibble data 3 ->
      @decodeMnemonic Sample.words mnemonic
      = Err (GroupThresholdExceedsCount (nibble data 3) (nibble data 2)))
  /\ (20 <= Z.of_nat (length data) -> residual data <= 8 ->
      rs1024VerifyChecksum data (flag_of data) = true ->
      nibble data 3 <= nibble data 2 -> padding_bits data <> 0 ->
      @decodeMnemonic Sample.words mnemonic = Err InvalidPadding)
  /\ (20 <= Z.of_nat (length data) -> residual data <= 8 ->
      rs1024VerifyChecksum data (flag_of data) = true ->
      nibble data 3 <= nibble data 2 -> padding_bits data = 0 ->
      exists share,
        @decodeMnemonic Sample.words mnemonic = Ok (fields data share)).
Proof.
  apply (decodeMnemonic_first_error
           Sample.words
           (@mnemonicFromIndices Sample.words
              (encodeIndices [18; 52] 1 0 0 1 1 0 1 Sample.MASTERSECRET))
           (encodeIndices [18; 52] 1 0 0 1 1 0 1 Sample.MASTERSECRET)).
  vm_compute. reflexivity.
Defined.

End Coverage.

(* ================================================================= *)
(** * Further properties: the cipher and the secret sharing *)

Module CoverageShamir.
Import Constants Utils Random Helper JSFacts MapFacts GF256 InterpolateFacts.
Import ShamirFacts CryptFacts.

(* ----------------------------------------------------------------- *)
(** ** [generateIdentifier] *)

(** [generateIdentifier] never throws: it draws two random bytes, clears
    the top bit of the first, and so returns two bytes whose big-endian
    value is below [2 ^ 15]. *)
Theorem generateIdentifier_bits :
  forall s : entropy,
    generateIdentifier s
    = Ok ([s 0%nat mod 128; s 1%nat mod 256], fun i => s (2 + i)%nat)
    /\ 0 <= decodeBigInt [s 0%nat mod 128; s 1%nat mod 256]
       < 2 ^ ID_BITS_LENGTH.
Proof.
  intros s.
  assert (Ha : 0 <= s 0%nat mod 128 < 128) by (apply Z.mod_pos_bound; lia).
  assert (Hb : 0 <= s 1%nat mod 256 < 256) by (apply Z.mod_pos_bound; lia).
  split.
  - unfold generateIdentifier. cbv zeta. unfold rbind, randomBytes.
    change (bitsToBytes ID_BITS_LENGTH <? 0) with false. cbv iota.
    change (Z.to_nat (bitsToBytes ID_BITS_LENGTH)) with 2%nat.
    cbn [seq map]. unfold rret.
    assert (0 <= s 0%nat mod 256 < 256) by (apply Z.mod_pos_bound; lia).
    change (JS.shl 1 (JS.rem ID_BITS_LENGTH 8) - 1) with 127.
    rewrite band_small by lia.
    change 127 with (Z.ones 7). rewrite Z.land_ones by lia.
    change (2 ^ 7) with 128.
    rewrite Z.mod_mod_divide by (exists 2; reflexivity).
    reflexivity.
  - rewrite GenerationFacts.decodeBigInt_two. unfold ID_BITS_LENGTH.
    change (2 ^ 15) with 32768. lia.
Qed.

(* ----------------------------------------------------------------- *)
(** ** [crypt] *)

Lemma crypt_round_err {prims : Primitives} pwd e salt err rounds :
  fold_left (crypt_round pwd e salt) rounds (Err err) = Err err.
Proof. induction rounds as [|r rounds IH]; [reflexivity|exact IH]. Qed.

(** [crypt] with [encrypt] true and with [encrypt] false undo each other,
    in both orders: on bytes of even, non-zero length and with an exponent
    in 0..16, each direction returns as many bytes, from which the other
    direction, with the same passphrase, exponent, identifier and flag,
    returns the input. *)
Theorem crypt_inverse :
  forall (P : Primitives) (S : list Z) (passphrase : string) (e : Z) (id : list Z) (flag : Z)
         (encrypt : bool),
    bytes S -> S <> [] -> Nat.Even (length S) -> 0 <= e <= 16 ->
    exists C,
      crypt S passphrase e id flag encrypt = Ok C
      /\ bytes C /\ length C = length S
      /\ crypt C passphrase e id flag (negb encrypt) = Ok S.
Proof.
  intros P S passphrase e id flag encrypt HS _ [h Hh] He.
  set (pwd := encodeHexString passphrase).
  set (salt := getSalt id flag).
  set (p0 := (firstn h S, skipn h S)).
  assert (H0 : halves h p0).
  { unfold halves, p0. cbn [fst snd].
    rewrite length_firstn, length_skipn.
    split; [lia|]. split; [lia|]. split.
    - now apply ValidFacts.Forall_firstn.
    - now apply ValidFacts.Forall_skipn. }
  set (rounds := if encrypt then [0; 1; 2; 3] else rev [0; 1; 2; 3]).
  assert (Hrev : (if negb encrypt then [0; 1; 2; 3] else rev [0; 1; 2; 3])
                 = rev rounds) by (unfold rounds; now destruct encrypt).
  set (p4 := fold_left (step pwd e salt) rounds p0).
  assert (H4 : halves h p4) by (now apply steps_halves).
  assert (Half : forall n, n = (2 * h)%nat -> (n / 2)%nat = h).
  { intros n ->. rewrite Nat.mul_comm. apply Nat.div_mul. lia. }
  exists (snd p4 ++ fst p4).
  destruct H4 as (L4 & R4 & BL4 & BR4).
  assert (LC : length (snd p4 ++ fst p4) = length S)
    by (rewrite length_app; lia).
  split; [|split; [|split]].
  - unfold crypt. destruct (Z.ltb_spec e 0); [lia|].
    destruct (Z.gtb_spec e MAX_ITERATION_EXP);
      [unfold MAX_ITERATION_EXP in *; lia|].
    cbn [orb]. cbv zeta. rewrite (Half _ Hh). fold pwd salt p0.
    change (generateArrayIdx [] ROUND_COUNT) with [0; 1; 2; 3].
    fold rounds.
    rewrite (crypt_rounds pwd e salt h) by exact H0. reflexivity.
  - apply Forall_app. now split.
  - exact LC.
  - unfold crypt. destruct (Z.ltb_spec e 0); [lia|].
    destruct (Z.gtb_spec e MAX_ITERATION_EXP);
      [unfold MAX_ITERATION_EXP in *; lia|].
    cbn [orb]. cbv zeta. rewrite (Half _ (eq_trans LC Hh)). fold pwd salt.
    change (generateArrayIdx [] ROUND_COUNT) with [0; 1; 2; 3].
    rewrite Hrev.
    rewrite firstn_app, skipn_app, R4, Nat.sub_diag.
    rewrite firstn_all2, skipn_all2 by lia.
    cbn [firstn skipn app]. rewrite app_nil_r.
    change (snd p4, fst p4) with (swap p4).
    rewrite (crypt_rounds pwd e salt h)
      by (apply swap_halves; unfold halves; auto).
    cbn [bind]. unfold p4.
    rewrite (steps_swap pwd e salt h rounds p0 H0).
    unfold swap, p0. cbn [fst snd]. now rewrite firstn_skipn.
Qed.

Lemma crypt_inverse_witness :
  exists C,
    @crypt Sample.prims Sample.MASTERSECRET "TREZOR" 1 [18; 52] 0 false = Ok C
    /\ bytes C /\ length C = length Sample.MASTERSECRET
    /\ @crypt Sample.prims C "TREZOR" 1 [18; 52] 0 (negb false)
       = Ok Sample.MASTERSECRET.
Proof.
  apply (crypt_inverse Sample.prims Sample.MASTERSECRET "TREZOR" 1 [18; 52] 0 false).
  - apply ValidFacts.bytesb_bytes. reflexivity.
  - discriminate.
  - exists 8%nat. reflexivity.
  - lia.
Defined.

Lemma crypt_exponent_range {prims : Primitives} (secret : list Z) passphrase e
      id flag encrypt :
  e < 0 \/ 16 < e ->
  crypt secret passphrase e id flag encrypt = Err (InvalidIterationExponent e).
Proof.
  intros He. unfold crypt, MAX_ITERATION_EXP.
  destruct (Z.ltb_spec e 0); [reflexivity|].
  destruct (Z.gtb_spec e 16); [reflexivity|lia].
Qed.

Lemma crypt_odd_length {prims : Primitives} (secret : list Z) passphrase e id
      flag encrypt :
  0 <= e <= 16 -> Nat.Odd (length secret) ->
  crypt secret passphrase e id flag encrypt
  = Err (XorLengthMismatch (Z.of_nat (length secret / 2))
                           (Z.of_nat (length secret / 2) + 1)).
Proof.
  intros He [h Hh]. unfold crypt, MAX_ITERATION_EXP.
  destruct (Z.ltb_spec e 0); [lia|].
  destruct (Z.gtb_spec e 16); [lia|]. cbn [orb]. cbv zeta.
  assert (Half : (length secret / 2)%nat = h).
  { rewrite Hh, Nat.add_comm, Nat.mul_comm. rewrite Nat.div_add by lia.
    reflexivity. }
  rewrite Half.
  change (generateArrayIdx [] ROUND_COUNT) with [0; 1; 2; 3].
  assert (R : forall r rounds,
             fold_left (crypt_round (encodeHexString passphrase) e
                                    (getSalt id flag))
                       (r :: rounds) (Ok (firstn h secret, skipn h secret))
             = Err (XorLengthMismatch (Z.of_nat h) (Z.of_nat h + 1))).
  { intros r rounds. cbn [fold_left]. unfold crypt_round at 2.
    cbn [bind fst snd]. unfold xor.
    rewrite roundFunction_length, length_firstn, length_skipn.
    replace (Nat.min h (length secret)) with h by lia.
    replace (length secret - h)%nat with (S h) by lia.
    destruct (Nat.eqb_spec h (S h)); [lia|]. cbn [negb bind].
    rewrite crypt_round_err. f_equal. f_equal. lia. }
  destruct encrypt; cbn [rev app]; now rewrite R.
Qed.

(** What [crypt] refuses: an exponent below 0 or above 16, with the
    exponent in the error; and, with an exponent in range, every input of
    odd length, at the first round, where the right half is one byte longer
    than the left half. *)
Theorem crypt_refuses :
  forall (P : Primitives) (secret : list Z) (passphrase : string) (e : Z)
         (id : list Z) (flag : Z) (encrypt : bool),
    (e < 0 \/ 16 < e ->
     crypt secret passphrase e id flag encrypt = Err (InvalidIterationExponent e))
    /\ (0 <= e <= 16 -> Nat.Odd (length secret) ->
        crypt secret passphrase e id flag encrypt
        = Err (XorLengthMismatch (Z.of_nat (length secret / 2))
                                 (Z.of_nat (length secret / 2) + 1))).
Proof.
  intros P secret passphrase e id flag encrypt. split.
  - apply crypt_exponent_range.
  - apply crypt_odd_length.
Qed.

(* ----------------------------------------------------------------- *)
(** ** [interpolate] *)

Lemma of_list_NoDup l : NoDup (JSSet.of_list l).
Proof.
  unfold JSSet.of_list.
  assert (G : forall s, NoDup s -> NoDup (fold_left JSSet.add l s)).
  { induction l as [|a l IH]; intros s Hs; [exact Hs|].
    cbn [fold_left]. apply IH. now apply set_add_NoDup. }
  apply G. constructor.
Qed.

Lemma of_list_hd l : JSSet.of_list l <> [] -> hd 0 (JSSet.of_list l) = hd 0 l.
Proof.
  destruct l as [|a l]; [intros H; now elim H|]. intros _.
  unfold JSSet.of_list. cbn [fold_left hd]. change (JSSet.add [] a) with [a].
  assert (G : forall s x, hd 0 (fold_left JSSet.add l (x :: s)) = x).
  { induction l as [|b l IH]; intros s x; [reflexivity|].
    cbn [fold_left]. unfold JSSet.add at 2.
    destruct (existsb (Z.eqb b) (x :: s)); [apply IH|].
    cbn [app]. apply IH. }
  apply G.
Qed.

Lemma xor_into_length results : forall v r,
  length (xor_into results v r) = Nat.max (length results) (length v).
Proof.
  induction results as [|x rs IH]; intros v r.
  - induction v as [|item vs IHv]; [reflexivity|].
    cbn [xor_into length]. cbn [xor_into length Nat.max] in IHv.
    now rewrite IHv.
  - destruct v as [|item vs]; [reflexivity|].
    cbn [xor_into length Nat.max]. now rewrite IH.
Qed.

Lemma existing_key_error x (l : list (Z * list Z)) e :
  forEachR (fun kv : Z * list Z =>
              if fst kv =? x then Ok tt else Err InterpolateExistingKey) l
  = Err e ->
  e = InterpolateExistingKey.
Proof.
  induction l as [|kv l IH]; [discriminate|]. cbn [forEachR].
  destruct (fst kv =? x); cbn [bind]; [exact IH|now intros [= <-]].
Qed.

(** A key beside [x] makes the callback of the second [forEach] throw. *)
Lemma existing_key_throws x (l : list (Z * list Z)) :
  (exists e,
      forEachR (fun kv : Z * list Z =>
                  if fst kv =? x then Ok tt else Err InterpolateExistingKey) l
      = Err e)
  <-> exists k, In k (JSMap.keys l) /\ k <> x.
Proof.
  induction l as [|kv l IH].
  - split; [intros [e H]; discriminate H|intros (k & [] & _)].
  - cbn [forEachR]. destruct (Z.eqb_spec (fst kv) x) as [E|E]; cbn [bind].
    + rewrite IH. split.
      * intros (k & Hk & Hne). exists k. split; [now right|exact Hne].
      * intros (k & [Hk|Hk] & Hne); [congruence|now exists k].
    + split; [intros _|intros _; now eexists].
      exists (fst kv). split; [now left|exact E].
Qed.

(** What [interpolate] throws.  Its two [throw] sites carry one message,
    that of the share lengths, so this is the only error a caller sees from
    it; and it is thrown exactly for the empty map, for a map that holds two
    values of different lengths, and for a map that holds [x] as a key
    beside another key.  A result that [interpolate] returns has the length
    that all the values of the map share. *)
Theorem interpolate_lengths :
  forall (shares : JSMap.t (list Z)) (x : Z),
    (forall e, interpolate shares x = Err e ->
               message e
               = "Invalid set of shares. All share values must have the same length."%string)
    /\ ((exists e, interpolate shares x = Err e)
        <-> shares = []
            \/ (exists v w, In v (JSMap.values shares)
                            /\ In w (JSMap.values shares)
                            /\ length v <> length w)
            \/ (In x (JSMap.keys shares)
                /\ exists k, In k (JSMap.keys shares) /\ k <> x))
    /\ (forall r, interpolate shares x = Ok r ->
                  shares <> []
                  /\ Forall (fun v => length v = length r)
                            (JSMap.values shares)).
Proof.
  intros shares x.
  set (lens := map (fun v => Z.of_nat (length v)) (JSMap.values shares)).
  assert (Size : JSSet.size (JSSet.of_list lens) = 1
                 <-> shares <> []
                     /\ Forall (fun v => length v
                                         = Z.to_nat (hd 0 (JSSet.of_list lens)))
                               (JSMap.values shares)).
  { split.
    - intros Hs. split.
      + intros ->. discriminate Hs.
      + apply Forall_forall. intros v Hv.
        assert (In (Z.of_nat (length v)) (JSSet.of_list lens)).
        { apply of_list_In. unfold lens. apply in_map_iff. now exists v. }
        rewrite <- (singleton_set _ _ Hs H). now rewrite Nat2Z.id.
    - intros [Hne Hall]. unfold lens.
      rewrite (of_list_lengths (Z.to_nat (hd 0 (JSSet.of_list lens))));
        [reflexivity| |exact Hall].
      destruct shares; [now elim Hne|discriminate]. }
  assert (Mixed : JSSet.size (JSSet.of_list lens) <> 1
                  <-> shares = []
                      \/ exists v w, In v (JSMap.values shares)
                                     /\ In w (JSMap.values shares)
                                     /\ length v <> length w).
  { split.
    - intros Hs. destruct shares as [|kv l]; [now left|right].
      destruct (Forall_Exists_dec
                  (fun v => length v = length (snd kv))
                  (fun v => Nat.eq_dec (length v) (length (snd kv)))
                  (JSMap.values (kv :: l))) as [Hall|Hex].
      + elim Hs. unfold lens.
        now rewrite (of_list_lengths (length (snd kv)))
          by (discriminate || exact Hall).
      + apply Exists_exists in Hex as (v & Hv & Hne).
        exists v, (snd kv). split; [exact Hv|]. split; [now left|exact Hne].
    - intros H Hs. apply Size in Hs as [Hne Hall].
      destruct H as [->|(v & w & Hv & Hw & Hd)]; [now elim Hne|].
      rewrite Forall_forall in Hall.
      apply Hd. now rewrite (Hall v Hv), (Hall w Hw). }
  assert (Has : existsb (Z.eqb x) (JSSet.of_list (JSMap.keys shares)) = true
                <-> In x (JSMap.keys shares)).
  { rewrite existsb_exists. split.
    - intros (y & Hy & E). apply Z.eqb_eq in E. subst y.
      exact (proj1 (of_list_In _ _) Hy).
    - intros H. exists x.
      split; [exact (proj2 (of_list_In _ _) H)|apply Z.eqb_refl]. }
  split; [|split].
  - intros e. rewrite interpolate_loop. cbv zeta. fold lens.
    destruct (Z.eqb_spec (JSSet.size (JSSet.of_list lens)) 1) as [Hs|Hs];
      cbn [negb]; [|now intros [= <-]].
    destruct (if existsb _ _ then _ else _) as [u|e'] eqn:E; cbn [bind];
      [discriminate|].
    intros [= <-]. destruct (existsb _ _); [|discriminate E].
    apply existing_key_error in E. now subst e'.
  - rewrite interpolate_loop. cbv zeta. fold lens.
    destruct (Z.eqb_spec (JSSet.size (JSSet.of_list lens)) 1) as [Hs|Hs];
      cbn [negb].
    + split.
      * intros [e H]. right. right.
        destruct (existsb (Z.eqb x) (JSSet.of_list (JSMap.keys shares)))
          eqn:Ex; [|discriminate H].
        split; [now apply Has|]. apply existing_key_throws.
        destruct (forEachR _ shares) as [u|e'] eqn:E; [discriminate H|].
        now exists e'.
      * intros [H|[H|[Hin Hk]]].
        -- exfalso. apply (proj2 Mixed); [now left|exact Hs].
        -- exfalso. apply (proj2 Mixed); [now right|exact Hs].
        -- apply Has in Hin. rewrite Hin.
           apply existing_key_throws in Hk as [e E]. rewrite E. now exists e.
    + split.
      * intros _. apply Mixed in Hs. destruct Hs; [now left|right; now left].
      * intros _. now eexists.
  - intros r. rewrite interpolate_loop. cbv zeta. fold lens.
    destruct (Z.eqb_spec (JSSet.size (JSSet.of_list lens)) 1) as [Hs|Hs];
      [|discriminate].
    cbn [negb]. destruct (if existsb _ _ then _ else _); [|discriminate].
    cbn [bind]. intros [= <-]. apply Size in Hs as [Hne Hall].
    split; [exact Hne|].
    set (L := Z.to_nat (hd 0 (JSSet.of_list lens))) in *.
    set (g := fun (results : list Z) (kv : Z * list Z) =>
                xor_into results (snd kv)
                  (contribution (logBasisEval shares x (logProd shares x) kv))).
    assert (G : forall (l : list (Z * list Z)) results,
               Forall (fun v => length v = L) (JSMap.values l) ->
               length results = L ->
               length (fold_left g l results) = L).
    { induction l as [|kv l IH]; intros results Hl Hr; [exact Hr|].
      cbn [fold_left]. inversion Hl as [|? ? Hkv Hl']; subst.
      apply IH; [exact Hl'|]. unfold g. rewrite xor_into_length.
      rewrite Hr. cbn [snd] in *. lia. }
    assert (E : length (fold_left g shares
                          (generateArray [] (hd 0 (JSSet.of_list lens))
                                         (fun _ => 0))) = L).
    { apply G; [exact Hall|]. rewrite IndexFacts.generateArray_length.
      reflexivity. }
    fold g. rewrite E. exact Hall.
Qed.

(** Shares are consistent: from points with distinct byte keys and byte
    values of one length, the values [interpolate] gives at as many (or
    more) fresh abscissas are points from which [interpolate] gives, at
    every further abscissa, what it gives from the original points. *)
Theorem interpolate_resample :
  forall (L : nat) (base : JSMap.t (list Z)) (idxs : list Z) (x : Z),
    base <> [] -> NoDup (JSMap.keys base) ->
    Forall byte (JSMap.keys base) ->
    Forall (fun v => length v = L /\ bytes v) (JSMap.values base) ->
    NoDup idxs -> Forall byte idxs ->
    (forall i, In i idxs -> ~ In i (JSMap.keys base)) ->
    (length base <= length idxs)%nat ->
    byte x -> ~ In x (JSMap.keys base) -> ~ In x idxs ->
    exists vs r,
      mapR (interpolate base) idxs = Ok vs
      /\ length vs = length idxs
      /\ interpolate base x = Ok r
      /\ interpolate (combine idxs vs) x = Ok r.
Proof.
  intros L base idxs x Hne Hnd Hk Hv Hndi Hbi Hfresh Hlen Hx Hxb Hxi.
  assert (Wb : wf L base) by (repeat split; assumption).
  exists (map (fun i => interpolated base i L) idxs), (interpolated base x L).
  assert (M : forall l, Forall byte l ->
                        (forall i, In i l -> ~ In i (JSMap.keys base)) ->
                        mapR (interpolate base) l
                        = Ok (map (fun i => interpolated base i L) l)).
  { induction l as [|i l IH]; intros Hb Hf; [reflexivity|].
    inversion Hb as [|? ? Hi Hb']; subst. cbn [mapR map].
    rewrite (interpolate_lagrange L) by (auto using in_eq).
    cbn [bind]. rewrite IH; [reflexivity|exact Hb'|].
    intros j Hj. apply Hf. now right. }
  split; [now apply M|]. split; [apply length_map|].
  split; [now apply (interpolate_lagrange L)|].
  assert (C : combine idxs (map (fun i => interpolated base i L) idxs)
              = map (fun i => (i, interpolated base i L)) idxs).
  { clear. induction idxs as [|i l IH]; [reflexivity|].
    cbn [map combine]. now rewrite IH. }
  rewrite C.
  assert (Hi0 : idxs <> []).
  { destruct idxs; [|discriminate]. destruct base; [now elim Hne|].
    simpl in Hlen. lia. }
  rewrite (interpolate_lagrange L).
  - now rewrite interpolated_resample.
  - now apply wf_resampled.
  - exact Hx.
  - unfold JSMap.keys. rewrite map_map. cbn [fst]. now rewrite map_id.
Qed.

Lemma interpolate_resample_witness :
  exists vs r,
    mapR (interpolate [(254, [7; 9]); (255, [1; 200])]) [0; 1; 2] = Ok vs
    /\ length vs = length [0; 1; 2]
    /\ interpolate [(254, [7; 9]); (255, [1; 200])] 5 = Ok r
    /\ interpolate (combine [0; 1; 2] vs) 5 = Ok r.
Proof.
  apply (interpolate_resample 2 [(254, [7; 9]); (255, [1; 200])] [0; 1; 2] 5).
  - discriminate.
  - cbn. repeat (apply NoDup_cons; [simpl; intuition lia|]). apply NoDup_nil.
  - cbn. repeat (apply Forall_cons; [unfold byte; lia|]). apply Forall_nil.
  - cbn. repeat (apply Forall_cons;
                 [split; [reflexivity|apply ValidFacts.bytesb_bytes; reflexivity]|]).
    apply Forall_nil.
  - repeat (apply NoDup_cons; [simpl; intuition lia|]). apply NoDup_nil.
  - repeat (apply Forall_cons; [unfold byte; lia|]). apply Forall_nil.
  - simpl. intuition lia.
  - simpl. lia.
  - unfold byte. lia.
  - simpl. intuition lia.
  - simpl. intuition lia.
Defined.

(* ----------------------------------------------------------------- *)
(** ** [splitSecret] and [recoverSecret] *)

(** What [splitSecret] checks, in the order of the source: the threshold
    is positive, it is at most the share count, the share count is at most
    16; and then, for a threshold of 2 or more, the secret has four bytes
    or more, as the random part has four bytes less than the secret.  With
    the threshold 1 every share is the secret itself, whatever its length,
    and no random byte is drawn. *)
Theorem splitSecret_checks :
  forall (P : Primitives) (T N : Z) (S : list Z) (s : entropy),
    (T <= 0 -> splitSecret T N S s = Err (ThresholdNotPositive T))
    /\ (0 < T -> N < T -> splitSecret T N S s = Err (ThresholdExceedsShares T N))
    /\ (0 < T <= N -> 16 < N -> splitSecret T N S s = Err (TooManyShares N))
    /\ (2 <= T <= N -> N <= 16 -> (length S < 4)%nat ->
        splitSecret T N S s
        = Err (RandomLengthRange (Z.of_nat (length S) - 4)))
    /\ (T = 1 -> 1 <= N <= 16 ->
        splitSecret T N S s = Ok (repeat S (Z.to_nat N), s)).
Proof.
  intros P T N S s. unfold splitSecret, MAX_SHARE_COUNT.
  split; [|split; [|split; [|split]]].
  - intros H. destruct (Z.leb_spec T 0); [reflexivity|lia].
  - intros H1 H2. destruct (Z.leb_spec T 0); [lia|].
    destruct (Z.gtb_spec T N); [reflexivity|lia].
  - intros H1 H2. destruct (Z.leb_spec T 0); [lia|].
    destruct (Z.gtb_spec T N); [lia|].
    destruct (Z.gtb_spec N 16); [reflexivity|lia].
  - intros H1 H2 H3. destruct (Z.leb_spec T 0); [lia|].
    destruct (Z.gtb_spec T N); [lia|].
    destruct (Z.gtb_spec N 16); [lia|].
    destruct (Z.eqb_spec T 1); [lia|].
    unfold rbind, randomBytes, DIGEST_LENGTH.
    destruct (Z.ltb_spec (Z.of_nat (length S) - 4) 0); [reflexivity|lia].
  - intros -> H. cbn [Z.leb Z.compare].
    destruct (Z.gtb_spec 1 N); [lia|].
    destruct (Z.gtb_spec N 16); [lia|]. cbn [Z.eqb Pos.eqb]. unfold rret.
    f_equal. f_equal. rewrite IndexFacts.generateArray_nil. unfold range.
    rewrite map_map. clear. induction (Z.to_nat N) as [|n IH]; [reflexivity|].
    rewrite seq_S, map_app, IH. cbn [map].
    change [S] with (repeat S 1). rewrite <- repeat_app.
    now rewrite Nat.add_comm.
Qed.

Lemma randomBytes_draws n s :
  0 <= n ->
  randomBytes n s
  = Ok (map (fun i => s i mod 256) (seq 0 (Z.to_nat n)),
        fun i => s (Z.to_nat n + i)%nat).
Proof.
  intros Hn. unfold randomBytes. destruct (Z.ltb_spec n 0); [lia|reflexivity].
Qed.

Lemma replicate_draws (L : nat) (k : nat) :
  forall s : entropy,
    exists rs s',
      replicate k (randomBytes (Z.of_nat L)) s = Ok (rs, s')
      /\ length rs = k
      /\ (forall j, (j < k)%nat ->
                    nth j rs [] = map (fun i => s (j * L + i)%nat mod 256)
                                      (seq 0 L))
      /\ forall i, s' i = s (k * L + i)%nat.
Proof.
  induction k as [|k IH]; intros s.
  - exists [], s. split; [reflexivity|]. split; [reflexivity|].
    split; [intros j Hj; lia|reflexivity].
  - cbn [replicate]. unfold rbind at 1.
    rewrite randomBytes_draws by lia. rewrite Nat2Z.id.
    destruct (IH (fun i => s (L + i)%nat)) as (rs & s' & E & Lr & Hr & Hs).
    unfold rbind at 1. rewrite E. unfold rret.
    exists (map (fun i => s i mod 256) (seq 0 L) :: rs), s'.
    split; [reflexivity|]. split; [cbn [length]; now rewrite Lr|]. split.
    + intros [|j] Hj; [reflexivity|]. cbn [nth]. rewrite Hr by lia.
      apply map_ext. intros i. f_equal. f_equal. lia.
    + intros i. rewrite Hs. f_equal. lia.
Qed.

(** What [splitSecret] draws for a threshold of 2 or more: first the
    random part of the digest share, four bytes less than the secret.  For
    a secret of exactly four bytes that part is empty, [createDigest]
    refuses it as a key, and [splitSecret] throws.  For a secret of five
    bytes or more the first [T - 2] shares follow, which are the random
    bytes as drawn, each of the length of the secret; the later shares take
    no randomness. *)
Theorem splitSecret_random_shares :
  forall (P : Primitives) (T N : Z) (secret : list Z) (s : entropy),
    2 <= T <= N -> N <= 16 -> bytes secret ->
    (length secret = 4%nat -> splitSecret T N secret s = Err EmptyDigestKey)
    /\ ((5 <= length secret)%nat ->
        exists shares s',
          splitSecret T N secret s = Ok (shares, s')
          /\ length shares = Z.to_nat N
          /\ (forall k j : nat,
                 (k < Z.to_nat (T - 2))%nat -> (j < length secret)%nat ->
                 nth j (nth k shares []) 0
                 = s (length secret - 4 + k * length secret + j)%nat mod 256)
          /\ forall i : nat,
              s' i = s (length secret - 4
                        + Z.to_nat (T - 2) * length secret + i)%nat).
Proof.
  intros P T N secret s HT HN HS.
  split; [intros L4; now apply splitSecret_four|]. intros HL.
  destruct (splitSecret_shares T N secret s HT HN HS HL)
    as (shares & s' & base & rp & E & _ & _ & _ & _ & _ & Ls & _).
  exists shares, s'. split; [exact E|]. split; [exact Ls|].
  revert E. unfold splitSecret.
  destruct (Z.leb_spec T 0); [lia|].
  destruct (Z.gtb_spec T N); [lia|].
  destruct (Z.gtb_spec N MAX_SHARE_COUNT); [unfold MAX_SHARE_COUNT in *; lia|].
  destruct (Z.eqb_spec T 1); [lia|].
  unfold rbind at 1. rewrite randomBytes_draws by (unfold DIGEST_LENGTH; lia).
  replace (Z.to_nat (Z.of_nat (length secret) - DIGEST_LENGTH))
    with (length secret - 4)%nat by (unfold DIGEST_LENGTH; lia).
  set (s1 := fun i => s (length secret - 4 + i)%nat).
  unfold rbind at 1, rlift at 1.
  rewrite createDigest_ok
    by (intros E0; apply (f_equal (@length Z)) in E0;
        rewrite length_map, length_seq in E0; cbn [length] in E0; lia).
  destruct (replicate_draws (length secret) (Z.to_nat (T - 2)) s1)
    as (rs & s2 & E2 & Lrs & Hrs & Hs2).
  assert (E2' : (if JS.truthy (T - 2)
                 then replicate (Z.to_nat (T - 2))
                                (randomBytes (Z.of_nat (length secret)))
                 else rret []) s1 = Ok (rs, s2)).
  { unfold JS.truthy. destruct (Z.eqb_spec (T - 2) 0) as [E0|]; [|exact E2].
    rewrite E0 in E2. exact E2. }
  unfold rbind at 1. rewrite E2'. unfold rbind at 1, rlift.
  destruct (mapR _ _) as [rest|err]; [|discriminate].
  unfold rret. intros [= <- <-]. split.
  - intros k j Hk Hj. rewrite app_nth1 by lia. rewrite Hrs by exact Hk.
    rewrite (nth_indep _ 0 (s1 (k * length secret + 0)%nat mod 256))
      by (rewrite length_map, length_seq; exact Hj).
    rewrite (map_nth (fun i => s1 (k * length secret + i)%nat mod 256)).
    rewrite seq_nth by exact Hj. unfold s1. f_equal. f_equal. lia.
  - intros i. rewrite Hs2. unfold s1. f_equal. lia.
Qed.

Lemma splitSecret_random_shares_witness :
  @splitSecret Sample.prims 3 5 [83; 76; 73; 80] Sample.dice
  = Err EmptyDigestKey
  /\ exists shares s',
    @splitSecret Sample.prims 3 5 Sample.MASTERSECRET Sample.dice
    = Ok (shares, s')
    /\ length shares = Z.to_nat 5
    /\ (forall k j : nat,
           (k < Z.to_nat (3 - 2))%nat -> (j < length Sample.MASTERSECRET)%nat ->
           nth j (nth k shares []) 0
           = Sample.dice (length Sample.MASTERSECRET - 4
                          + k * length Sample.MASTERSECRET + j)%nat mod 256)
    /\ forall i : nat,
        s' i = Sample.dice (length Sample.MASTERSECRET - 4
                            + Z.to_nat (3 - 2) * length Sample.MASTERSECRET
                            + i)%nat.
Proof.
  split.
  - apply (splitSecret_random_shares Sample.prims 3 5 [83; 76; 73; 80]
                                     Sample.dice).
    + lia.
    + lia.
    + apply ValidFacts.bytesb_bytes. reflexivity.
    + reflexivity.
  - apply (splitSecret_random_shares Sample.prims 3 5 Sample.MASTERSECRET
                                     Sample.dice).
    + lia.
    + lia.
    + apply ValidFacts.bytesb_bytes. reflexivity.
    + vm_compute. lia.
Defined.

Lemma recoverSecret_many {prims : Primitives} t N (secret : list Z) base rp
      shares idxs :
  t <> 1 -> N <= 16 ->
  wf (length secret) base ->
  In (SECRET_INDEX, secret) base ->
  rp <> [] ->
  In (DIGEST_INDEX, digest_of rp secret ++ rp) base ->
  shares_of base (length secret) N shares ->
  NoDup idxs -> Forall (fun i => 0 <= i < N) idxs ->
  (length base <= length idxs)%nat ->
  recoverSecret t (presented shares idxs) = Ok secret.
Proof.
  intros Ht HN Wb HinS Nrp HinD [Ls Hs] Hnd Hr Li.
  assert (Ep : presented shares idxs
               = map (fun i => (i, interpolated base i (length secret))) idxs).
  { unfold presented. apply map_ext_in. intros i Hi.
    rewrite Forall_forall in Hr. now rewrite Hs by auto. }
  assert (Bi : Forall byte idxs).
  { revert Hr. apply Forall_impl. unfold byte. lia. }
  assert (Wp : wf (length secret) (presented shares idxs)).
  { rewrite Ep. apply wf_resampled; try assumption.
    destruct idxs; [|discriminate]. destruct Wb as [Hne _].
    destruct base; [now elim Hne|simpl in Li; lia]. }
  assert (Kp : JSMap.keys (presented shares idxs) = idxs).
  { unfold presented, JSMap.keys. rewrite map_map. apply map_id. }
  assert (Hx : forall x v, In (x, v) base -> 16 <= x < 256 ->
                           interpolate (presented shares idxs) x = Ok v).
  { intros x v Hin Hx16.
    rewrite (interpolate_lagrange (length secret)).
    - f_equal. rewrite Ep, interpolated_resample by (assumption || lia).
      now apply interpolated_at.
    - exact Wp.
    - unfold byte. lia.
    - rewrite Kp. intros Hi. rewrite Forall_forall in Hr.
      specialize (Hr x Hi). lia. }
  unfold recoverSecret. destruct (Z.eqb_spec t 1); [contradiction|].
  rewrite (Hx _ _ HinS) by (unfold SECRET_INDEX; lia). cbn [bind].
  rewrite (Hx _ _ HinD) by (unfold DIGEST_INDEX; lia). cbn [bind].
  unfold JS.slice, DIGEST_LENGTH. change (Z.to_nat 4 - Z.to_nat 0)%nat with 4%nat.
  change (Z.to_nat 0) with 0%nat. change (Z.to_nat 4) with 4%nat.
  rewrite skipn_O.
  pose proof (createDigest_length rp secret) as Ld.
  rewrite firstn_app, Ld, Nat.sub_diag, firstn_0, app_nil_r.
  rewrite firstn_all2 by lia.
  rewrite skipn_app, Ld, Nat.sub_diag, skipn_all2 by lia. cbn [skipn app].
  rewrite (createDigest_ok rp secret Nrp). cbn [bind].
  now rewrite listsAreEqual_refl.
Qed.

(** More shares than the threshold do no harm: from the shares of
    [splitSecret] with a threshold [T] of 2 or more, [recoverSecret] returns
    the secret on any [T] or more distinct shares under their indices, in
    any order, and for every threshold argument other than 1 (the argument
    is only compared with 1). *)
Theorem recoverSecret_surplus :
  forall (P : Primitives) (T N : Z) (secret : list Z) (s s' : entropy)
         (shares : list (list Z)) (idxs : list Z) (t : Z),
    splitSecret T N secret s = Ok (shares, s') ->
    2 <= T -> bytes secret -> (4 <= length secret)%nat ->
    NoDup idxs -> Forall (fun i => 0 <= i < N) idxs ->
    T <= Z.of_nat (length idxs) -> t <> 1 ->
    recoverSecret t (map (fun i => (i, nth (Z.to_nat i) shares [])) idxs)
    = Ok secret.
Proof.
  intros P T N secret s s' shares idxs t H HT HS HL Hnd Hr Hlen Ht.
  assert (B : T <= N /\ N <= 16).
  { unfold splitSecret in H.
    destruct (Z.leb_spec T 0); [discriminate|].
    destruct (Z.gtb_spec T N); [discriminate|].
    destruct (Z.gtb_spec N MAX_SHARE_COUNT); [discriminate|].
    unfold MAX_SHARE_COUNT in *. lia. }
  assert (L5 : (5 <= length secret)%nat).
  { destruct (Nat.eq_dec (length secret) 4) as [L4|]; [exfalso|lia].
    rewrite (splitSecret_four T N secret s) in H by (assumption || lia).
    discriminate H. }
  destruct (splitSecret_shares T N secret s ltac:(lia) ltac:(lia) HS L5)
    as (shares0 & s0 & base & rp & E & Wb & Lb & HinS & Nrp & HinD & Hsh).
  rewrite E in H. injection H as <- <-.
  apply (recoverSecret_many t N secret base rp); try assumption; lia.
Qed.

Lemma recoverSecret_surplus_witness :
  exists shares s',
    @splitSecret Sample.prims 2 4 Sample.MASTERSECRET Sample.dice
    = Ok (shares, s')
    /\ @recoverSecret Sample.prims 3
         (map (fun i => (i, nth (Z.to_nat i) shares [])) [3; 0; 2])
       = Ok Sample.MASTERSECRET.
Proof.
  destruct (@splitSecret Sample.prims 2 4 Sample.MASTERSECRET Sample.dice)
    as [[shares s']|err] eqn:E; [|vm_compute in E; discriminate E].
  exists shares, s'. split; [reflexivity|].
  apply (recoverSecret_surplus Sample.prims 2 4 Sample.MASTERSECRET
                               Sample.dice s' shares [3; 0; 2] 3 E).
  - lia.
  - apply ValidFacts.bytesb_bytes. reflexivity.
  - vm_compute. lia.
  - repeat (apply NoDup_cons; [simpl; intuition lia|]). apply NoDup_nil.
  - repeat (apply Forall_cons; [lia|]). apply Forall_nil.
  - simpl. lia.
  - lia.
Defined.

End CoverageShamir.

(* ================================================================= *)
(** * Further properties: generation and recovery for every policy *)

Module CoveragePolicy.
Import Constants Utils Random Helper JSFacts MapFacts.
Import EncodeFacts CodecFacts ShamirFacts RecoverFacts GenerationFacts.

(* ----------------------------------------------------------------- *)
(** ** What [decodeMnemonics] collects, in any order of the mnemonics *)

Lemma In_set {V} (m : JSMap.t V) k v k' v' :
  In (k', v') (JSMap.set m k v) -> (k' = k /\ v' = v) \/ In (k', v') m.
Proof.
  induction m as [|[k0 v0] m IH]; cbn [JSMap.set].
  - intros [[= <- <-]|[]]. now left.
  - destruct (Z.eqb_spec k0 k) as [->|Hne].
    + intros [[= <- <-]|H]; [now left|right; now right].
    + intros [H|H]; [right; now left|].
      destruct (IH H) as [E|E]; [now left|right; now right].
Qed.

Lemma keyed_values {V} (f : Z -> V) (m : JSMap.t V) :
  (forall k v, In (k, v) m -> v = f k) ->
  m = map (fun k => (k, f k)) (JSMap.keys m).
Proof.
  induction m as [|[k v] m IH]; intros H; [reflexivity|].
  cbn [JSMap.keys map fst]. rewrite (H k v (or_introl eq_refl)). f_equal.
  apply IH. intros k' v' Hin. apply H. now right.
Qed.

Section Decoding.
Context {words : WordList} {prims : Primitives}.
Variables (idv flag e gt gc : Z) (thr : Z -> Z) (sh : Z -> Z -> list Z).

(** A decoded mnemonic of the generation: its header, the threshold of its
    group, the share of its member. *)
Definition of_generation (d : IDecodedMnemonic) : Prop :=
  headed idv flag e gt gc d
  /\ memberThreshold d = thr (groupIndex d)
  /\ share d = sh (groupIndex d) (memberIndex d).

Definition place (d : IDecodedMnemonic) : Z * Z := (groupIndex d, memberIndex d).

Definition unset_or (v : Z) (s : JSSet.t) : Prop := s = [] \/ s = [v].

Lemma unset_or_add v s : unset_or v s -> JSSet.add s v = [v].
Proof. intros [->| ->]; [reflexivity|apply add_same]. Qed.

(** The entry of the group [g] after the mnemonics at the places [sel]. *)
Definition members_at (sel : list (Z * Z)) (g : Z)
           (grp : JSMap.t (JSMap.t (list Z))) : Prop :=
  exists members,
    grp = [(thr g, members)]
    /\ NoDup (JSMap.keys members)
    /\ (forall i, In i (JSMap.keys members) <-> In (g, i) sel)
    /\ (forall i v, In (i, v) members -> v = sh g i).

Record gathered (s : decoding) (sel : list (Z * Z)) : Prop := {
  gat_identifiers : unset_or idv (identifiers s);
  gat_flags : unset_or flag (extendableBackupFlags s);
  gat_exponents : unset_or e (iterationExponents s);
  gat_thresholds : unset_or gt (groupThresholds s);
  gat_counts : unset_or gc (groupCounts s);
  gat_keys : NoDup (JSMap.keys (groups s));
  gat_indices : forall g, In g (JSMap.keys (groups s)) <-> In g (map fst sel);
  gat_groups : forall g grp, JSMap.get (groups s) g = Some grp
                             -> members_at sel g grp
}.

Lemma gathered_start : gathered decoding_start [].
Proof.
  split; try (left; reflexivity);
    cbn [decoding_start groups JSMap.empty JSMap.keys map JSMap.get].
  - intros g. reflexivity.
  - intros g grp H. discriminate H.
Qed.

Lemma gathered_step s sel mnemonic d :
  gathered s sel -> decodeMnemonic mnemonic = Ok d -> of_generation d ->
  exists s',
    decodeMnemonics_step (Ok s) mnemonic = Ok s'
    /\ gathered s' (sel ++ [place d])
    /\ settled idv flag e gt gc s'.
Proof.
  intros G Hd ((Hi & Hf & He & Ht & Hc) & Hm & Hs).
  set (g := groupIndex d) in *. set (i := memberIndex d) in *.
  assert (Hgrp : exists members0,
             (match JSMap.get (groups s) g with
              | Some grp => grp
              | None => JSMap.empty
              end = [(thr g, members0)] \/
              (JSMap.get (groups s) g = None /\ members0 = []))
             /\ match JSMap.get
                        (match JSMap.get (groups s) g with
                         | Some grp => grp
                         | None => JSMap.empty
                         end) (thr g) with
                | Some m => m
                | None => JSMap.empty
                end = members0
             /\ NoDup (JSMap.keys members0)
             /\ (forall j, In j (JSMap.keys members0) <-> In (g, j) sel)
             /\ (forall j v, In (j, v) members0 -> v = sh g j)).
  { destruct (JSMap.get (groups s) g) as [grp|] eqn:Eg.
    - destruct (gat_groups _ _ G g grp Eg) as (members & -> & Hnd & Hk & Hv).
      exists members. split; [now left|]. split.
      + cbn [JSMap.get]. now rewrite Z.eqb_refl.
      + auto.
    - exists []. split; [right; now split|]. split; [reflexivity|].
      split; [constructor|]. split; [|intros j v []].
      intros j. split; [intros []|]. intros Hin. exfalso.
      assert (Hg : In g (JSMap.keys (groups s))).
      { apply (gat_indices _ _ G). apply in_map_iff. now exists (g, j). }
      apply get_keys in Hg as [v Hv]. congruence. }
  destruct Hgrp as (members0 & Hshape & Hmem & Hnd0 & Hk0 & Hv0).
  set (members' := JSMap.set members0 i (share d)).
  assert (Egrp : JSMap.set
                   (match JSMap.get (groups s) g with
                    | Some grp => grp
                    | None => JSMap.empty
                    end) (thr g) members'
                 = [(thr g, members')]).
  { destruct Hshape as [->|[-> _]].
    - cbn [JSMap.set]. now rewrite Z.eqb_refl.
    - reflexivity. }
  eexists. split; [|split].
  - unfold decodeMnemonics_step. cbn [bind]. rewrite Hd. cbn [bind].
    fold g i. rewrite Hm, Hmem. fold members'. rewrite Egrp.
    cbn [JSMap.size length Z.of_nat Pos.of_succ_nat Z.eqb Pos.eqb negb].
    reflexivity.
  - split; cbn [identifiers extendableBackupFlags iterationExponents
                groupThresholds groupCounts groups].
    + right. rewrite Hi. apply unset_or_add, G.
    + right. rewrite Hf. apply unset_or_add, G.
    + right. rewrite He. apply unset_or_add, G.
    + right. rewrite Ht. apply unset_or_add, G.
    + right. rewrite Hc. apply unset_or_add, G.
    + apply keys_set_NoDup, G.
    + intros g'. rewrite keys_set_In, map_app, in_app_iff.
      rewrite (gat_indices _ _ G). unfold place. cbn [map fst In]. fold g.
      intuition congruence.
    + intros g' grp'. rewrite get_set.
      destruct (Z.eqb_spec g g') as [<-|Hne].
      * intros [= <-]. exists members'. split; [reflexivity|].
        split; [now apply keys_set_NoDup|]. split.
        -- intros j. unfold members'. rewrite keys_set_In, in_app_iff, Hk0.
           unfold place. cbn [In]. fold g i. intuition congruence.
        -- intros j v Hin. apply In_set in Hin as [[-> ->]|Hin];
             [exact Hs|now apply Hv0].
      * intros Hget.
        destruct (gat_groups _ _ G g' grp' Hget) as (members & -> & Hnd & Hk & Hv).
        exists members. split; [reflexivity|]. split; [exact Hnd|].
        split; [|exact Hv]. intros j. rewrite Hk, in_app_iff.
        unfold place. cbn [In]. fold g i. intuition congruence.
  - cbn [settled identifiers extendableBackupFlags iterationExponents
         groupThresholds groupCounts].
    rewrite Hi, Hf, He, Ht, Hc.
    repeat split; apply unset_or_add, G.
Qed.

Lemma gathered_fold mnemonics :
  forall ds s sel,
    gathered s sel ->
    Forall2 (fun m d => decodeMnemonic m = Ok d) mnemonics ds ->
    Forall of_generation ds ->
    exists s',
      fold_left decodeMnemonics_step mnemonics (Ok s) = Ok s'
      /\ gathered s' (sel ++ map place ds)
      /\ (mnemonics <> [] -> settled idv flag e gt gc s').
Proof.
  induction mnemonics as [|m ms IH]; intros ds s sel G Hd Hg.
  - inversion Hd; subst. exists s. cbn [map fold_left]. rewrite app_nil_r.
    split; [reflexivity|]. split; [exact G|]. intros H. now elim H.
  - inversion Hd as [|? d ? ds' Hm Hms]; subst.
    inversion Hg as [|? ? Hgd Hgs]; subst.
    destruct (gathered_step s sel m d G Hm Hgd) as (s1 & E1 & G1 & S1).
    cbn [fold_left]. rewrite E1.
    destruct (IH ds' s1 _ G1 Hms Hgs) as (s' & E' & G' & S').
    exists s'. split; [exact E'|]. split.
    + cbn [map]. now rewrite <- app_assoc in G'.
    + intros _. destruct ms as [|m' ms'].
      * cbn [fold_left] in E'. injection E' as <-. exact S1.
      * apply S'. discriminate.
Qed.

(** The mnemonics of one generation are gathered whatever their order and
    however often one is repeated. *)
Lemma decodeMnemonics_gathered mnemonics ds :
  mnemonics <> [] ->
  Forall2 (fun m d => decodeMnemonic m = Ok d) mnemonics ds ->
  Forall of_generation ds ->
  exists s,
    decodeMnemonics mnemonics
    = Ok {| all_identifier := idv;
            all_extendableBackupFlag := flag;
            all_iterationExponent := e;
            all_groupThreshold := gt;
            all_groupCount := gc;
            all_groups := groups s |}
    /\ gathered s (map place ds).
Proof.
  intros Hne Hd Hg.
  destruct (gathered_fold mnemonics ds decoding_start [] gathered_start Hd Hg)
    as (s & E & G & S).
  exists s. split; [|exact G].
  unfold decodeMnemonics. rewrite E. cbn [bind].
  destruct (S Hne) as (-> & -> & -> & -> & ->). reflexivity.
Qed.

(** What the mnemonic at the place [p] decodes to. *)
Definition decoded_at (p : Z * Z) : IDecodedMnemonic :=
  {| identifier := idv;
     extendableBackupFlag := flag;
     iterationExponent := e;
     groupIndex := fst p;
     groupThreshold := gt;
     groupCount := gc;
     memberIndex := snd p;
     memberThreshold := thr (fst p);
     share := sh (fst p) (snd p) |}.

Lemma decoded_at_place sel : map place (map decoded_at sel) = sel.
Proof.
  rewrite map_map. unfold place, decoded_at. cbn [groupIndex memberIndex].
  rewrite <- (map_id sel) at 2. apply map_ext. now intros [g i].
Qed.

Lemma decoded_at_generation sel : Forall of_generation (map decoded_at sel).
Proof.
  apply Forall_forall. intros d Hin. apply in_map_iff in Hin as (p & <- & _).
  repeat split.
Qed.

(* ----------------------------------------------------------------- *)
(** ** Combining the groups *)

Variable gsh : Z -> list Z.

Lemma combine_groups (G : JSMap.t (JSMap.t (JSMap.t (list Z)))) :
  forall acc,
    NoDup (JSMap.keys acc ++ JSMap.keys G) ->
    (forall g grp, In (g, grp) G ->
                   exists members,
                     grp = [(thr g, members)]
                     /\ JSMap.size members = thr g
                     /\ recoverSecret (thr g) members = Ok (gsh g)) ->
    fold_left combine_group G (Ok acc)
    = Ok (acc ++ map (fun g => (g, gsh g)) (JSMap.keys G)).
Proof.
  induction G as [|[g grp] G IH]; intros acc Hnd H.
  - cbn [fold_left JSMap.keys map]. now rewrite app_nil_r.
  - cbn [fold_left]. destruct (H g grp (or_introl eq_refl))
      as (members & -> & Hsz & Hrec).
    unfold combine_group at 2. cbn [bind snd fst].
    rewrite Hsz, Z.eqb_refl. cbn [negb]. rewrite Hrec. cbn [bind].
    cbn [JSMap.keys map fst] in Hnd.
    rewrite set_fresh.
    2:{ apply NoDup_remove_2 in Hnd. intros Hin. apply Hnd.
        apply in_or_app. now left. }
    rewrite IH.
    + cbn [JSMap.keys map fst]. now rewrite <- app_assoc.
    + unfold JSMap.keys. rewrite map_app. cbn [map fst].
      rewrite <- app_assoc. exact Hnd.
    + intros g' grp' Hin. apply H. now right.
Qed.

Definition members_of_group (sel : list (Z * Z)) (g : Z) : list Z :=
  map snd (filter (fun p => fst p =? g) sel).

Lemma members_of_group_In sel g i :
  In i (members_of_group sel g) <-> In (g, i) sel.
Proof.
  unfold members_of_group. rewrite in_map_iff. split.
  - intros ([g' i'] & <- & Hin). apply filter_In in Hin as [Hin Hg].
    cbn [fst snd] in *. apply Z.eqb_eq in Hg. now subst g'.
  - intros Hin. exists (g, i). split; [reflexivity|].
    apply filter_In. split; [exact Hin|]. cbn [fst]. apply Z.eqb_refl.
Qed.

(** Recovery from the mnemonics at the places [sel]: as many groups as the
    group threshold, in each as many members as its threshold. *)
Lemma combineMnemonics_gathered mnemonics ds passphrase ems masterSecret :
  mnemonics <> [] ->
  Forall2 (fun m d => decodeMnemonic m = Ok d) mnemonics ds ->
  Forall of_generation ds ->
  distinct_count (map fst (map place ds)) = gt ->
  (forall g, In g (map fst (map place ds)) ->
             distinct_count (members_of_group (map place ds) g) = thr g) ->
  (forall g idxs,
      In g (map fst (map place ds)) -> NoDup idxs ->
      (forall i, In i idxs -> In (g, i) (map place ds)) ->
      Z.of_nat (length idxs) = thr g ->
      recoverSecret (thr g) (map (fun i => (i, sh g i)) idxs) = Ok (gsh g)) ->
  (forall idxs,
      NoDup idxs -> (forall g, In g idxs -> In g (map fst (map place ds))) ->
      Z.of_nat (length idxs) = gt ->
      recoverSecret gt (map (fun g => (g, gsh g)) idxs) = Ok ems) ->
  crypt ems passphrase e (intToIndices idv ITERATION_EXP_WORDS_LENGTH 8) flag
        false = Ok masterSecret ->
  combineMnemonics mnemonics passphrase = Ok masterSecret.
Proof.
  intros Hne Hd Hg Hgt Hthr Hrec Htop Hc.
  destruct (decodeMnemonics_gathered mnemonics ds Hne Hd Hg) as (s & E & G).
  set (sel := map place ds) in *.
  unfold combineMnemonics.
  destruct (Nat.eqb_spec (length mnemonics) 0) as [E0|_];
    [destruct mnemonics; [now elim Hne|discriminate E0]|].
  rewrite E.
  cbn [bind all_identifier all_extendableBackupFlag all_iterationExponent
       all_groupThreshold all_groups].
  assert (Sz : JSMap.size (groups s) = gt).
  { rewrite <- Hgt. unfold JSMap.size.
    rewrite <- (distinct_count_NoDup (JSMap.keys (groups s)));
      [unfold JSMap.keys; now rewrite length_map|apply G|apply G]. }
  rewrite Sz, Z.ltb_irrefl, Z.eqb_refl. cbn [negb].
  rewrite (combine_groups (groups s) JSMap.empty).
  - cbn [JSMap.empty app bind].
    rewrite Htop; [cbn [bind]; exact Hc|apply G| |].
    + intros g Hin. now apply (gat_indices _ _ G).
    + rewrite <- Sz. unfold JSMap.size, JSMap.keys. now rewrite length_map.
  - cbn [JSMap.empty JSMap.keys map app]. apply G.
  - intros g grp Hin.
    assert (Hget : JSMap.get (groups s) g = Some grp)
      by (apply In_get; [apply G|exact Hin]).
    destruct (gat_groups _ _ G g grp Hget) as (members & -> & Hnd & Hk & Hv).
    assert (Hgin : In g (map fst sel)).
    { apply (gat_indices _ _ G). apply get_keys. eauto. }
    assert (Hsz : JSMap.size members = thr g).
    { rewrite <- (Hthr g Hgin). unfold JSMap.size.
      rewrite <- (distinct_count_NoDup (JSMap.keys members));
        [unfold JSMap.keys; now rewrite length_map|exact Hnd|].
      intros i. rewrite Hk. symmetry. apply members_of_group_In. }
    exists members. split; [reflexivity|]. split; [exact Hsz|].
    rewrite (keyed_values (sh g) members Hv).
    apply Hrec; try assumption.
    + intros i Hi. now apply Hk.
    + rewrite <- Hsz. unfold JSMap.size, JSMap.keys. now rewrite length_map.
Qed.

End Decoding.

(* ----------------------------------------------------------------- *)
(** ** The tree of a policy *)

Import Slip39.

Section Generation.
Context {words : WordList} {prims : Primitives}.

(** A group that [fromArray] and [splitSecret] accept. *)
Definition valid_group (item : group) : Prop :=
  let '(n, m, _) := item in 1 <= n <= m /\ m <= 16 /\ (n = 1 -> m = 1).

Lemma valid_groups_pass (groups : list group) :
  Forall valid_group groups ->
  existsb (fun item : group => let '(n, m, _) := item in (n =? 1) && (m >? 1))
          groups
  = false.
Proof.
  induction 1 as [|[[n m] d] l (Hn & Hm & H1) Hl IH]; [reflexivity|].
  cbn [existsb]. rewrite IH, orb_false_r.
  destruct (Z.eqb_spec n 1) as [E|]; [|reflexivity].
  destruct (Z.gtb_spec m 1); [|reflexivity]. specialize (H1 E). lia.
Qed.

Lemma valid_populated (groups : list group) :
  Forall valid_group groups -> Forall populated groups.
Proof.
  apply Forall_impl. intros [[n m] d] (Hn & Hm & _). unfold populated.
  cbn [fst snd]. lia.
Qed.

(** The loop over the groups succeeds when every group is valid and every
    share of a group is long enough. *)
Lemma group_loop_ok this groupShares items :
  forall i children s,
    Forall valid_group items -> 0 <= i ->
    (forall k, i <= k < i + Z.of_nat (length items) ->
               bytes (nth (Z.to_nat k) groupShares [])
               /\ (5 <= length (nth (Z.to_nat k) groupShares []))%nat) ->
    exists nodes s',
      build_children (buildRecursive 2 this) groupShares 0 items i children s
      = Ok (children ++ nodes, s')
      /\ built this groupShares i items nodes.
Proof.
  induction items as [|[[n m] d] items IH]; intros i children s Hv Hi Hs.
  - exists [], s. cbn [build_children]. rewrite app_nil_r.
    split; [reflexivity|constructor].
  - inversion Hv as [|? ? Hg Hv']; subst. destruct Hg as (Hn & Hm & _).
    cbn [build_children]. cbv zeta. unfold rbind at 1.
    rewrite buildRecursive_group by lia.
    destruct (Hs i ltac:(cbn [length]; lia)) as [Bi Li].
    destruct (splitSecret_recoverSecret n m (nth (Z.to_nat i) groupShares []) s
                                        Hn Hm Bi (fun _ => Li))
      as (memberShares & s1 & E & _).
    rewrite E.
    destruct (IH (i + 1)
                 (children ++ [Node i d EmptyString
                                    (members_of this i n m d memberShares)])
                 s1 Hv' ltac:(lia))
      as (nodes & s' & E' & Hb).
    { intros k Hk. apply Hs. cbn [length]. lia. }
    exists (Node i d EmptyString (members_of this i n m d memberShares) :: nodes),
           s'.
    split; [rewrite E'; now rewrite <- app_assoc|].
    econstructor; eassumption.
Qed.

(** The shares of the members, group by group. *)
Lemma built_shares this groupShares i items nodes :
  built this groupShares i items nodes ->
  exists mss : list (list (list Z)),
    length nodes = length items
    /\ forall k n m d,
        nth_error items k = Some (n, m, d) ->
        (exists s1 s2,
            splitSecret n m (nth (Z.to_nat (i + Z.of_nat k)) groupShares []) s1
            = Ok (nth k mss [], s2))
        /\ nth_error nodes k
           = Some (Node (i + Z.of_nat k) d EmptyString
                        (members_of this (i + Z.of_nat k) n m d (nth k mss []))).
Proof.
  induction 1 as [i|i n m d items memberShares s1 s2 nodes E Hb IH].
  - exists []. split; [reflexivity|]. intros [|k] n m d H; discriminate H.
  - destruct IH as (mss & Hlen & Hk). exists (memberShares :: mss).
    split; [cbn [length]; now rewrite Hlen|].
    intros [|k] n' m' d' H.
    + cbn [nth_error] in H. injection H as <- <- <-.
      rewrite Z.add_0_r. cbn [nth nth_error]. split; [eauto|reflexivity].
    + cbn [nth_error] in H. destruct (Hk k n' m' d' H) as [Hs Hn].
      replace (i + Z.of_nat (S k)) with (i + 1 + Z.of_nat k) by lia.
      cbn [nth nth_error]. split; assumption.
Qed.

(** Generation under a valid policy: it succeeds, and the tree holds, for
    every group, the members of a split of the share of the group. *)
Lemma fromArray_built masterSecret o s :
  bytes masterSecret -> share_length masterSecret ->
  printable_ascii (opt_passphrase o) = true ->
  0 <= opt_iterationExponent o <= 16 ->
  (forall id, opt_identifier o = Some id -> identifier_ok id) ->
  Forall valid_group (opt_groups o) ->
  Z.of_nat (length (opt_groups o)) <= 16 ->
  1 <= opt_groupThreshold o <= Z.of_nat (length (opt_groups o)) ->
  exists slip s' ident ems groupShares s0 s1 nodes,
    fromArray masterSecret o s = Ok (slip, s')
    /\ identifier_ok ident
    /\ bytes ems /\ length ems = length masterSecret
    /\ crypt ems (opt_passphrase o) (opt_iterationExponent o) ident
             (opt_extendableBackupFlag o) false = Ok masterSecret
    /\ splitSecret (opt_groupThreshold o) (Z.of_nat (length (opt_groups o)))
                   ems s0
       = Ok (groupShares, s1)
    /\ slip = with_root (slip_of o ident)
                        (Node 0 (opt_title o) EmptyString nodes)
    /\ built (slip_of o ident) groupShares 0 (opt_groups o) nodes.
Proof.
  intros HS [L16 Lev] Hp He Hi Hv Hc Ht.
  (* the identifier *)
  assert (Hid : exists ident s0,
             identifier_ok ident
             /\ match opt_identifier o with
                | Some i => rret i
                | None => generateIdentifier
                end s = Ok (ident, s0)).
  { destruct (opt_identifier o) as [i|] eqn:Eo.
    - exists i, s. split; [now apply Hi|reflexivity].
    - destruct (generateIdentifier_ok s) as (id0 & s00 & E0 & Hok).
      now exists id0, s00. }
  destruct Hid as (ident & s0 & Hok & Eid).
  (* the encrypted master secret *)
  assert (Even : Nat.Even (length masterSecret)).
  { exists (Z.to_nat (Z.of_nat (length masterSecret) / 2)).
    Z.to_euclidean_division_equations. lia. }
  destruct (CryptFacts.crypt_round_trip masterSecret (opt_passphrase o)
              (opt_iterationExponent o) ident (opt_extendableBackupFlag o)
              HS Even He) as (ems & Eenc & Bems & Lems & Edec).
  (* the shares of the groups *)
  destruct (splitSecret_recoverSecret (opt_groupThreshold o)
              (Z.of_nat (length (opt_groups o))) ems s0 Ht Hc Bems ltac:(lia))
    as (groupShares & s1 & Es & Lg & Sg & _).
  set (this := slip_of o ident).
  destruct (group_loop_ok this groupShares (opt_groups o) 0 [] s1 Hv
                          ltac:(lia))
    as (nodes & s' & Eb & Hb).
  { intros k Hk. destruct (Sg k ltac:(lia)) as [Lk Bk]. split; [exact Bk|lia]. }
  exists (with_root this (Node 0 (opt_title o) EmptyString nodes)), s',
         ident, ems, groupShares, s0, s1, nodes.
  split; [|auto 10].
  unfold fromArray. unfold rbind at 1. rewrite Eid. cbv zeta.
  destruct (Z.ltb_spec (Z.of_nat (length masterSecret) * 8) MIN_ENTROPY_BITS)
    as [Hlt|_]; [unfold MIN_ENTROPY_BITS in Hlt; lia|].
  destruct (Z.eqb_spec (JS.rem (Z.of_nat (length masterSecret)) 2) 0)
    as [_|Hodd];
    [|elim Hodd; unfold JS.rem; Z.to_euclidean_division_equations; lia].
  cbn [negb]. rewrite Hp. cbn [negb].
  destruct (Z.gtb_spec (opt_groupThreshold o)
                       (Z.of_nat (length (opt_groups o)))); [lia|].
  rewrite (valid_groups_pass _ Hv).
  unfold rbind at 1. unfold new.
  destruct Hok as (Lid & _ & _). rewrite Lid. cbn [Nat.eqb].
  unfold JS.truthy.
  destruct (Z.eqb_spec (Z.of_nat (length (opt_groups o))) 0); [lia|].
  destruct (Z.eqb_spec (opt_groupThreshold o) 0); [lia|].
  cbn [negb rlift]. fold (slip_of o ident). fold this.
  unfold rbind at 1. cbn [identifier this slip_of]. rewrite Eenc.
  cbn [rlift]. unfold rbind at 1. fold (slip_of o ident). fold this.
  destruct (opt_groups o) as [|item items] eqn:Eg; [simpl in Ht; lia|].
  rewrite buildRecursive_node. unfold rbind at 1. rewrite Es.
  unfold rbind at 1. cbn [index]. rewrite Eb. reflexivity.
Qed.

End Generation.

(* ----------------------------------------------------------------- *)
(** ** From a policy to the secret *)

Definition no_node : Slip39Node := Node 0 EmptyString EmptyString [].

(** The mnemonics of the group [g] of a tree: those of the child [g] of
    the root. *)
Definition group_mnemonics (slip : Slip39) (g : Z) : list string :=
  mnemonics (nth (Z.to_nat g) (children (root slip)) no_node).

Definition threshold_of (groups : list group) (g : Z) : Z :=
  fst (fst (nth (Z.to_nat g) groups (0, 0, EmptyString))).

Lemma nth_error_default {A} (l : list A) k x d :
  nth_error l k = Some x -> nth k l d = x.
Proof. intros H. now apply nth_error_nth. Qed.

Section RoundTrip.
Context {words : WordList} {prims : Primitives}.

(** Generation under a valid policy and the mnemonics of its groups. *)
Lemma fromArray_groups masterSecret o s :
  bytes masterSecret -> share_length masterSecret ->
  printable_ascii (opt_passphrase o) = true ->
  0 <= opt_iterationExponent o <= 16 ->
  (forall id, opt_identifier o = Some id -> identifier_ok id) ->
  Forall valid_group (opt_groups o) ->
  Z.of_nat (length (opt_groups o)) <= 16 ->
  1 <= opt_groupThreshold o <= Z.of_nat (length (opt_groups o)) ->
  exists slip s' ident ems groupShares s0 s1 mss,
    fromArray masterSecret o s = Ok (slip, s')
    /\ identifier_ok ident
    /\ bytes ems /\ length ems = length masterSecret
    /\ crypt ems (opt_passphrase o) (opt_iterationExponent o) ident
             (opt_extendableBackupFlag o) false = Ok masterSecret
    /\ splitSecret (opt_groupThreshold o) (Z.of_nat (length (opt_groups o)))
                   ems s0
       = Ok (groupShares, s1)
    /\ length (children (root slip)) = length (opt_groups o)
    /\ forall g n m d,
        nth_error (opt_groups o) g = Some (n, m, d) ->
        (exists t1 t2,
            splitSecret n m (nth g groupShares []) t1 = Ok (nth g mss [], t2))
        /\ nth g (children (root slip)) no_node
           = Node (Z.of_nat g) d EmptyString
                  (members_of (slip_of o ident) (Z.of_nat g) n m d (nth g mss []))
        /\ group_mnemonics slip (Z.of_nat g)
           = map (fun j => encodeMnemonic
                             ident (opt_extendableBackupFlag o)
                             (opt_iterationExponent o) (Z.of_nat g)
                             (opt_groupThreshold o)
                             (Z.of_nat (length (opt_groups o)))
                             j n (nth (Z.to_nat j) (nth g mss []) []))
                 (range m).
Proof.
  intros HS HL Hp He Hi Hv Hc Ht.
  destruct (fromArray_built masterSecret o s HS HL Hp He Hi Hv Hc Ht)
    as (slip & s' & ident & ems & groupShares & s0 & s1 & nodes & E & Hok
        & Bems & Lems & Edec & Es & -> & Hb).
  destruct (built_shares _ _ _ _ _ Hb) as (mss & Ln & Hk).
  exists (with_root (slip_of o ident) (Node 0 (opt_title o) EmptyString nodes)),
         s', ident, ems, groupShares, s0, s1, mss.
  do 6 (split; [assumption|]). cbn [root with_root children].
  split; [exact Ln|].
  intros g n m d Hg. destruct (Hk g n m d Hg) as [(t1 & t2 & Et) Hn].
  rewrite Z.add_0_l, Nat2Z.id in *.
  assert (Hm : 1 <= m).
  { rewrite Forall_forall in Hv. apply nth_error_In in Hg.
    specialize (Hv _ Hg). cbn in Hv. lia. }
  split; [eauto|]. split; [now apply nth_error_default|].
  unfold group_mnemonics. cbn [root with_root children]. rewrite Nat2Z.id.
  rewrite (nth_error_default _ _ _ _ Hn).
  now rewrite mnemonics_members by exact Hm.
Qed.

End RoundTrip.

(** The whole way, for every policy that [fromArray] and [splitSecret]
    accept: a master secret of bytes, of even length of 16 or more, a
    passphrase of printable ASCII, a flag 0 or 1, an exponent in 0..15, at
    most 16 groups, each with a threshold [n] and [m] members,
    [1 <= n <= m <= 16] and [m = 1] when [n = 1], and a group threshold
    between 1 and the number of groups.  Then [fromArray] succeeds, the
    group [g] has [m] mnemonics, and [combineMnemonics] returns the master
    secret from every selection of mnemonics, in any order and with
    repetitions, that takes as many distinct groups as the group threshold
    and, in each of them, as many distinct members as the threshold of the
    group. *)
Theorem policy_round_trip :
  forall (W : WordList) (P : Primitives) (masterSecret : list Z)
         (o : options) (s : entropy),
    bytes masterSecret ->
    16 <= Z.of_nat (length masterSecret) ->
    Z.of_nat (length masterSecret) mod 2 = 0 ->
    printable_ascii (opt_passphrase o) = true ->
    opt_extendableBackupFlag o = 0 \/ opt_extendableBackupFlag o = 1 ->
    0 <= opt_iterationExponent o <= 15 ->
    (forall id, opt_identifier o = Some id -> identifier_ok id) ->
    Forall (fun item : group =>
              let '(n, m, _) := item in
              1 <= n <= m /\ m <= 16 /\ (n = 1 -> m = 1))
           (opt_groups o) ->
    Z.of_nat (length (opt_groups o)) <= 16 ->
    1 <= opt_groupThreshold o <= Z.of_nat (length (opt_groups o)) ->
    exists slip s',
      fromArray masterSecret o s = Ok (slip, s')
      /\ (forall g n m d,
             nth_error (opt_groups o) g = Some (n, m, d) ->
             length (group_mnemonics slip (Z.of_nat g)) = Z.to_nat m)
      /\ forall sel : list (Z * Z),
          Forall (fun p =>
                    0 <= fst p
                    /\ exists n m d,
                        nth_error (opt_groups o) (Z.to_nat (fst p))
                        = Some (n, m, d)
                        /\ 0 <= snd p < m)
                 sel ->
          distinct_count (map fst sel) = opt_groupThreshold o ->
          (forall g, In g (map fst sel) ->
                     distinct_count
                       (map snd (filter (fun p => fst p =? g) sel))
                     = threshold_of (opt_groups o) g) ->
          combineMnemonics
            (map (fun p => nth (Z.to_nat (snd p))
                               (group_mnemonics slip (fst p)) EmptyString)
                 sel)
            (opt_passphrase o)
          = Ok masterSecret.
Proof.
  intros W P masterSecret o s HS L16 Lev Hp Hf He Hi Hv Hc Ht.
  destruct (fromArray_groups masterSecret o s HS (conj L16 Lev) Hp
                             ltac:(lia) Hi Hv Hc Ht)
    as (slip & s' & ident & ems & groupShares & s0 & s1 & mss & E & Hok
        & Bems & Lems & Edec & Es & Lch & Hgr).
  exists slip, s'. split; [exact E|]. split.
  { intros g n m d Hg. destruct (Hgr g n m d Hg) as (_ & _ & ->).
    now rewrite length_map, IndexFacts.range_length. }
  intros sel Hsel Hgt Hthr.
  destruct (splitSecret_inv _ _ _ _ _ _ Es Bems ltac:(lia))
    as (_ & _ & Lg & Sg & Rtop).
  set (idv := decodeBigInt ident).
  set (flag := opt_extendableBackupFlag o).
  set (e := opt_iterationExponent o).
  set (gt := opt_groupThreshold o) in *.
  set (gc := Z.of_nat (length (opt_groups o))) in *.
  set (thr := threshold_of (opt_groups o)).
  set (sh := fun g j : Z => nth (Z.to_nat j) (nth (Z.to_nat g) mss []) []).
  set (gsh := fun g : Z => nth (Z.to_nat g) groupShares []).
  (* the groups and the members that are selected *)
  assert (Hplace : forall g j, In (g, j) sel ->
            0 <= g < gc
            /\ exists n m d t1 t2,
                nth_error (opt_groups o) (Z.to_nat g) = Some (n, m, d)
                /\ 0 <= j < m /\ 1 <= n <= m /\ m <= 16 /\ thr g = n
                /\ splitSecret n m (gsh g) t1
                   = Ok (nth (Z.to_nat g) mss [], t2)
                /\ nth (Z.to_nat j) (group_mnemonics slip g) EmptyString
                   = encodeMnemonic ident flag e g gt gc j n (sh g j)).
  { intros g j Hin. rewrite Forall_forall in Hsel.
    destruct (Hsel _ Hin) as (Hg0 & n & m & d & Hg & Hj). cbn [fst snd] in *.
    assert (Hlt : (Z.to_nat g < length (opt_groups o))%nat).
    { apply nth_error_Some. rewrite Hg. discriminate. }
    split; [unfold gc; lia|].
    destruct (Hgr _ n m d Hg) as ((t1 & t2 & Et) & _ & Hmn).
    rewrite Z2Nat.id in Hmn by lia.
    exists n, m, d, t1, t2. split; [exact Hg|]. split; [exact Hj|].
    rewrite Forall_forall in Hv. pose proof (Hv _ (nth_error_In _ _ Hg)) as Hvg.
    cbn in Hvg. split; [lia|]. split; [lia|]. split.
    { unfold thr, threshold_of. now rewrite (nth_error_default _ _ _ _ Hg). }
    split; [exact Et|].
    rewrite Hmn. now rewrite nth_map_range by lia. }
  assert (Hgroup : forall g, In g (map fst sel) -> exists j, In (g, j) sel).
  { intros g Hin. apply in_map_iff in Hin as ([g' j] & <- & Hin). now exists j. }
  set (ds := map (decoded_at idv flag e gt gc thr sh) sel).
  apply (combineMnemonics_gathered idv flag e gt gc thr sh gsh _ ds _ ems).
  - destruct sel as [|p sel']; [|discriminate].
    cbn in Hgt. unfold gt in Hgt. unfold distinct_count in Hgt. cbn in Hgt. lia.
  - unfold ds. clear Hgt Hthr Hgroup ds.
    induction sel as [|[g j] sel IH]; cbn [map]; constructor.
    + destruct (Hplace g j (or_introl eq_refl))
        as (Hg & n & m & d & t1 & t2 & Hgn & Hj & Hn & Hm & Hthr & Et & Emn).
      cbn beta. cbn [fst snd]. rewrite Emn.
      assert (Bg : bytes (gsh g) /\ length (gsh g) = length ems).
      { destruct (Sg g ltac:(unfold gc in Hg; lia)) as [Lk Bk]. now split. }
      destruct Bg as [Bg Lgs].
      destruct (splitSecret_inv _ _ _ _ _ _ Et Bg ltac:(lia))
        as (_ & _ & _ & Sm & _).
      destruct (Sm j Hj) as [Lj Bj].
      unfold decoded_at. cbn [fst snd]. rewrite Hthr.
      apply decodeMnemonic_encodeMnemonic.
      * split; [now apply identifier_ok_value|]. split; assumption.
      * unfold nibbles. unfold gc, gt in *. lia.
      * unfold gc, gt in *. lia.
      * exact Bj.
      * unfold share_length. unfold sh. rewrite Lj, Lgs, Lems. now split.
    + apply IH. * inversion Hsel; assumption.
      * intros g' j' Hin. apply Hplace. now right.
  - apply decoded_at_generation.
  - unfold ds. now rewrite decoded_at_place.
  - unfold ds. rewrite decoded_at_place. exact Hthr.
  - unfold ds. rewrite decoded_at_place.
    intros g idxs Hg Hnd Hin Hlen.
    destruct (Hgroup g Hg) as [j0 Hj0].
    destruct (Hplace g j0 Hj0)
      as (Hg0 & n & m & d & t1 & t2 & Hgn & _ & Hn & Hm & Hthr0 & Et & _).
    assert (Bg : bytes (gsh g) /\ length (gsh g) = length ems).
    { destruct (Sg g ltac:(unfold gc in Hg0; lia)) as [Lk Bk]. now split. }
    destruct Bg as [Bg Lgs].
    destruct (splitSecret_inv _ _ _ _ _ _ Et Bg ltac:(lia))
      as (_ & _ & _ & _ & Rm).
    rewrite Hthr0 in *.
    apply (Rm idxs Hnd).
    + apply Forall_forall. intros i Hi0.
      destruct (Hplace g i (Hin i Hi0))
        as (_ & n' & m' & d' & _ & _ & Hgn' & Hj' & _).
      rewrite Hgn in Hgn'. injection Hgn' as <- <- <-. exact Hj'.
    + lia.
  - unfold ds. rewrite decoded_at_place.
    intros idxs Hnd Hin Hlen. apply (Rtop idxs Hnd).
    + apply Forall_forall. intros g Hg0.
      destruct (Hgroup g (Hin g Hg0)) as [j0 Hj0].
      destruct (Hplace g j0 Hj0) as (Hg & _). exact Hg.
    + lia.
  - unfold idv. rewrite EndToEndFacts.identifier_rebuilt by exact Hok.
    exact Edec.
Qed.

Lemma policy_round_trip_witness :
  exists slip s',
    @fromArray Sample.words Sample.prims Sample.MASTERSECRET
      (Sample.policy [(2, 3, EmptyString); (1, 1, EmptyString);
                      (3, 5, EmptyString)] 2)
      Sample.dice
    = Ok (slip, s')
    /\ (forall g n m d,
           nth_error
             (opt_groups
                (Sample.policy [(2, 3, EmptyString); (1, 1, EmptyString);
                                (3, 5, EmptyString)] 2)) g
           = Some (n, m, d) ->
           length (group_mnemonics slip (Z.of_nat g)) = Z.to_nat m)
    /\ forall sel : list (Z * Z),
        Forall (fun p =>
                  0 <= fst p
                  /\ exists n m d,
                      nth_error
                        (opt_groups
                           (Sample.policy
                              [(2, 3, EmptyString); (1, 1, EmptyString);
                               (3, 5, EmptyString)] 2))
                        (Z.to_nat (fst p))
                      = Some (n, m, d)
                      /\ 0 <= snd p < m)
               sel ->
        distinct_count (map fst sel)
        = opt_groupThreshold
            (Sample.policy [(2, 3, EmptyString); (1, 1, EmptyString);
                            (3, 5, EmptyString)] 2) ->
        (forall g, In g (map fst sel) ->
                   distinct_count
                     (map snd (filter (fun p => fst p =? g) sel))
                   = threshold_of
                       (opt_groups
                          (Sample.policy
                             [(2, 3, EmptyString); (1, 1, EmptyString);
                              (3, 5, EmptyString)] 2)) g) ->
        @combineMnemonics Sample.words Sample.prims
          (map (fun p => nth (Z.to_nat (snd p))
                             (group_mnemonics slip (fst p)) EmptyString)
               sel)
          (opt_passphrase
             (Sample.policy [(2, 3, EmptyString); (1, 1, EmptyString);
                             (3, 5, EmptyString)] 2))
        = Ok Sample.MASTERSECRET.
Proof.
  apply (policy_round_trip
           Sample.words Sample.prims Sample.MASTERSECRET
           (Sample.policy [(2, 3, EmptyString); (1, 1, EmptyString);
                           (3, 5, EmptyString)] 2)
           Sample.dice).
  - apply ValidFacts.bytesb_bytes. reflexivity.
  - vm_compute. discriminate.
  - reflexivity.
  - reflexivity.
  - now right.
  - cbn. lia.
  - intros id H. discriminate H.
  - cbn. repeat (apply Forall_cons; [repeat split; lia|]). apply Forall_nil.
  - cbn. lia.
  - cbn. lia.
Defined.

(* ----------------------------------------------------------------- *)
(** ** The shape of the tree *)

Definition members_count (groups : list group) : nat :=
  list_sum (map (fun item : group => Z.to_nat (snd (fst item))) groups).

Lemma nth_map_range_nat {A} (f : Z -> A) m j d :
  (j < Z.to_nat m)%nat -> nth j (map f (range m)) d = f (Z.of_nat j).
Proof.
  intros H. rewrite <- (Nat2Z.id j) at 1. apply nth_map_range. lia.
Qed.

Lemma built_count {words : WordList} {prims : Primitives}
      this groupShares i items nodes :
  built this groupShares i items nodes -> Forall populated items ->
  length (concat (map mnemonics nodes)) = members_count items.
Proof.
  induction 1 as [i|i n m d items memberShares s1 s2 nodes E Hb IH];
    intros Hp; [reflexivity|].
  inversion Hp as [|? ? Hm Hp']; subst. unfold populated in Hm.
  cbn [fst snd] in Hm. cbn [map concat]. rewrite length_app.
  rewrite mnemonics_members by exact Hm.
  rewrite length_map, IndexFacts.range_length, (IH Hp'). reflexivity.
Qed.

(** The tree of a successful generation whose groups all have members: the
    root, of index 0, carries the title and no mnemonic, and has one child
    for each group, in the order of the policy; the child of a group carries
    its position as index, the description of the group and no mnemonic, and
    has one child for each member; the child of a member is a leaf with its
    position as index, the description of its group and a mnemonic; and the
    mnemonics of the root are as many as the members of all groups. *)
Theorem fromArray_tree :
  forall (W : WordList) (P : Primitives) (masterSecret : list Z)
         (o : options) (s s' : entropy) (slip : Slip39),
    fromArray masterSecret o s = Ok (slip, s') ->
    Forall (fun item : group => 1 <= snd (fst item)) (opt_groups o) ->
    index (root slip) = 0
    /\ description (root slip) = opt_title o
    /\ mnemonic (root slip) = EmptyString
    /\ length (children (root slip)) = length (opt_groups o)
    /\ (forall (g : nat) (n m : Z) (d : string),
           nth_error (opt_groups o) g = Some (n, m, d) ->
           index (nth g (children (root slip)) no_node) = Z.of_nat g
           /\ description (nth g (children (root slip)) no_node) = d
           /\ mnemonic (nth g (children (root slip)) no_node) = EmptyString
           /\ length (children (nth g (children (root slip)) no_node))
              = Z.to_nat m
           /\ forall j : nat,
               (j < Z.to_nat m)%nat ->
               index (nth j (children (nth g (children (root slip)) no_node))
                          no_node) = Z.of_nat j
               /\ description
                    (nth j (children (nth g (children (root slip)) no_node))
                         no_node) = d
               /\ children
                    (nth j (children (nth g (children (root slip)) no_node))
                         no_node) = []
               /\ mnemonic
                    (nth j (children (nth g (children (root slip)) no_node))
                         no_node)
                  = nth j (group_mnemonics slip (Z.of_nat g)) EmptyString)
    /\ length (mnemonics (root slip)) = members_count (opt_groups o).
Proof.
  intros W P masterSecret o s s' slip H Hp.
  destruct (fromArray_inv _ _ _ _ _ H)
    as (ident & s0 & ems & r & _ & _ & _ & Hne & _ & Eb & ->).
  destruct (buildRecursive_root _ _ _ _ _ _ _ _ Hne Hp Eb)
    as (groupShares & s1 & nodes & _ & -> & Hb).
  destruct (built_shares _ _ _ _ _ Hb) as (mss & Ln & Hk).
  cbn [root with_root index description mnemonic children].
  do 3 (split; [reflexivity|]). split; [exact Ln|]. split.
  - intros g n m d Hg. destruct (Hk g n m d Hg) as [_ Hn].
    rewrite Z.add_0_l in Hn.
    assert (Hm : 1 <= m).
    { rewrite Forall_forall in Hp. apply nth_error_In in Hg.
      specialize (Hp _ Hg). cbn in Hp. lia. }
    unfold group_mnemonics. cbn [root with_root children]. rewrite Nat2Z.id.
    rewrite (nth_error_default _ _ _ _ Hn).
    cbn [index description mnemonic children].
    do 3 (split; [reflexivity|]). split.
    { unfold members_of. now rewrite length_map, IndexFacts.range_length. }
    intros j Hj. rewrite mnemonics_members by exact Hm.
    unfold members_of.
    rewrite !nth_map_range_nat by exact Hj.
    unfold leaf. cbn [index description mnemonic children].
    repeat split; reflexivity.
  - assert (Hnodes : nodes <> []).
    { inversion Hb; subst; [now elim Hne|discriminate]. }
    rewrite mnemonics_children by exact Hnodes.
    now apply (built_count _ _ _ _ _ Hb).
Qed.

Lemma fromArray_tree_witness :
  exists (slip : Slip39) (s' : entropy),
    @fromArray Sample.words Sample.prims Sample.MASTERSECRET
      (Sample.policy [(2, 3, "family"%string); (1, 1, "me"%string)] 1)
      Sample.dice
    = Ok (slip, s')
    /\ length (children (root slip)) = 2%nat
    /\ length (mnemonics (root slip)) = 4%nat.
Proof.
  destruct (@fromArray Sample.words Sample.prims Sample.MASTERSECRET
              (Sample.policy [(2, 3, "family"%string); (1, 1, "me"%string)] 1)
              Sample.dice)
    as [[slip s']|err] eqn:E; [|vm_compute in E; discriminate E].
  exists slip, s'. split; [reflexivity|].
  destruct (fromArray_tree
              Sample.words Sample.prims Sample.MASTERSECRET
              (Sample.policy [(2, 3, "family"%string); (1, 1, "me"%string)] 1)
              Sample.dice s' slip E)
    as (_ & _ & _ & Hc & _ & Hm).
  - cbn. repeat (apply Forall_cons; [cbn; lia|]). apply Forall_nil.
  - split; [exact Hc|exact Hm].
Defined.

End CoveragePolicy.

(* ================================================================= *)
(** * Further properties: the header of a generation *)

Module CoverageGeneration.
Import Constants Utils Helper.

(** One generation, one header: when every group has a member, the flag is
    0 or 1, the exponent is in 0..15 and a given identifier has 15 bits,
    every mnemonic of the tree of a successful generation from a master
    secret of bytes decodes: to the identifier of the generation, to its
    flag, its exponent, its group threshold and the number of its groups;
    and to the member threshold of the group of its group index, so the
    mnemonics of one group decode to one member threshold. *)
Theorem generation_common_fields :
  forall (W : WordList) (P : Primitives) (masterSecret : list Z)
         (o : Slip39.options) (s : entropy) (slip : Slip39.Slip39)
         (s' : entropy),
    Slip39.fromArray masterSecret o s = Ok (slip, s') ->
    bytes masterSecret ->
    Forall (fun item : Slip39.group => 1 <= snd (fst item))
           (Slip39.opt_groups o) ->
    Slip39.opt_extendableBackupFlag o = 0
    \/ Slip39.opt_extendableBackupFlag o = 1 ->
    0 <= Slip39.opt_iterationExponent o <= 15 ->
    (forall id, Slip39.opt_identifier o = Some id ->
                0 <= decodeBigInt id < 2 ^ 15) ->
    forall mnemonic : string,
      In mnemonic (Slip39.mnemonics (Slip39.root slip)) ->
      exists d : IDecodedMnemonic,
        decodeMnemonic mnemonic = Ok d
        /\ identifier d = decodeBigInt (Slip39.identifier slip)
        /\ extendableBackupFlag d = Slip39.opt_extendableBackupFlag o
        /\ iterationExponent d = Slip39.opt_iterationExponent o
        /\ groupThreshold d = Slip39.opt_groupThreshold o
        /\ groupCount d = Z.of_nat (length (Slip39.opt_groups o))
        /\ exists (n m : Z) (description : string),
            nth_error (Slip39.opt_groups o) (Z.to_nat (groupIndex d))
            = Some (n, m, description)
            /\ memberThreshold d = n.
Proof.
  intros W P masterSecret o s slip s' H HS Hp Hf He Hi mnemonic Hin.
  destruct (GenerationFacts.generation_decodes
              masterSecret o s slip s' H HS Hp Hf He Hi mnemonic Hin)
    as (gi & mi & n & m & desc & val & Hk & Hgi & Hd).
  eexists. split; [exact Hd|].
  cbn [identifier extendableBackupFlag iterationExponent groupThreshold
       groupCount groupIndex memberThreshold].
  repeat (split; [reflexivity|]). now exists n, m, desc.
Qed.

Lemma generation_common_fields_witness :
  exists (slip : Slip39.Slip39) (s' : entropy),
    @Slip39.fromArray Sample.words Sample.prims Sample.MASTERSECRET
                      (Sample.policy [(2, 3, EmptyString)] 1) Sample.dice
    = Ok (slip, s')
    /\ forall mnemonic : string,
        In mnemonic (Slip39.mnemonics (Slip39.root slip)) ->
        exists d : IDecodedMnemonic,
          @decodeMnemonic Sample.words mnemonic = Ok d
          /\ identifier d = decodeBigInt (Slip39.identifier slip)
          /\ extendableBackupFlag d = 1
          /\ iterationExponent d = 0
          /\ groupThreshold d = 1
          /\ groupCount d = 1
          /\ exists (n m : Z) (description : string),
              nth_error [(2, 3, EmptyString)] (Z.to_nat (groupIndex d))
              = Some (n, m, description)
              /\ memberThreshold d = n.
Proof.
  destruct (@Slip39.fromArray Sample.words Sample.prims Sample.MASTERSECRET
              (Sample.policy [(2, 3, EmptyString)] 1) Sample.dice)
    as [[slip s']|err] eqn:E.
  - exists slip, s'. split; [reflexivity|].
    apply (generation_common_fields
             Sample.words Sample.prims Sample.MASTERSECRET
             (Sample.policy [(2, 3, EmptyString)] 1) Sample.dice slip s' E).
    + apply ValidFacts.bytesb_bytes. reflexivity.
    + constructor; [cbn; lia|constructor].
    + now right.
    + cbn. lia.
    + intros id H. discriminate H.
  - exfalso. vm_compute in E. discriminate E.
Defined.

End CoverageGeneration.

(* ================================================================= *)
(** * Further properties: what the checksum detects *)

Module CoverageChecksum.
Import Constants Utils Helper JSFacts RS1024Facts WordFacts DecodeFacts.
Import CodecFacts ShamirFacts.

(** The generator words that the ten bits of [b] select, together. *)
Definition gens (b : Z) : Z := xfold (sel b) (range 10) 0.

(** The low ten bits of the selected generator words are zero for no
    selection but the empty one. *)
Lemma gens_low :
  forallb (fun b => (b =? 0) || negb (Z.land (gens b) 1023 =? 0)) (range 1024)
  = true.
Proof. vm_compute. reflexivity. Qed.

Lemma gens_zero : gens 0 = 0.
Proof. vm_compute. reflexivity. Qed.

Lemma pstep_gens c :
  pstep c 0
  = Z.lxor (Z.shiftl (Z.land c (Z.ones 20)) 10) (gens (Z.shiftr c 20)).
Proof. unfold pstep, gens. rewrite Z.lxor_0_r. apply xfold_acc. Qed.

(** The step on a zero word sends no state but 0 to 0 ... *)
Lemma pstep_kernel c : state c -> pstep c 0 = 0 -> c = 0.
Proof.
  intros Hc H. pose proof (top_part c Hc) as Hb.
  rewrite pstep_gens in H. apply Z.lxor_eq in H.
  assert (Hlow : Z.land (gens (Z.shiftr c 20)) 1023 = 0).
  { rewrite <- H. change 1023 with (Z.ones 10). Z.bitblast. }
  pose proof gens_low as G. rewrite forallb_forall in G.
  specialize (G (Z.shiftr c 20)
                (proj2 (range_In 1024 (Z.shiftr c 20)) ltac:(lia))).
  rewrite Hlow, Z.eqb_refl in G. cbn [negb] in G. rewrite orb_false_r in G.
  apply Z.eqb_eq in G. rewrite G, gens_zero in H.
  rewrite Z.shiftl_mul_pow2, Z.land_ones in H by lia.
  rewrite Z.shiftr_div_pow2 in G by lia.
  unfold state in Hc. Z.to_euclidean_division_equations. lia.
Qed.

Lemma state_zero : state 0.
Proof. unfold state. lia. Qed.

(** The trace of a difference [d] through the steps of further words. *)
Definition carried (post : list Z) (d : Z) : Z :=
  fold_left pstep (map (fun _ => 0) post) d.

Lemma carried_cons b post d : carried (b :: post) d = carried post (pstep d 0).
Proof. unfold carried. cbn [map]. apply fold_left_cons. Qed.

Lemma carried_nonzero post : forall d, state d -> d <> 0 -> carried post d <> 0.
Proof.
  induction post as [|b post IH]; intros d Hd Hnz; [exact Hnz|].
  rewrite carried_cons. apply IH.
  - apply pstep_state; [exact Hd|exact state_zero].
  - intros E. apply Hnz. apply pstep_kernel; assumption.
Qed.

Lemma fold_pstep_difference data : forall s d,
  fold_left pstep data (Z.lxor s d)
  = Z.lxor (fold_left pstep data s) (carried data d).
Proof.
  induction data as [|b data IH]; intros s d; [reflexivity|].
  rewrite !fold_left_cons, carried_cons, <- IH. f_equal.
  rewrite (pstep_byte (Z.lxor s d)), (pstep_byte s), pstep_lxor.
  rewrite !Z.lxor_assoc. f_equal. apply Z.lxor_comm.
Qed.

Lemma one_word_detected (pre post : list Z) (w w' flag : Z) :
  Forall (fun i => 0 <= i < 1024) pre ->
  Forall (fun i => 0 <= i < 1024) post ->
  0 <= w < 1024 -> 0 <= w' < 1024 -> w <> w' ->
  rs1024VerifyChecksum (pre ++ w :: post) flag = true ->
  rs1024VerifyChecksum (pre ++ w' :: post) flag = false.
Proof.
  intros Hpre Hpost Hw Hw' Hne H.
  unfold rs1024VerifyChecksum, rs1024Polymod in *.
  set (cs := encodeHexString (get_customization_string flag)) in *.
  assert (H1 : state 1) by (unfold state; lia).
  assert (Hs : forall x, 0 <= x < 1024 ->
             fold_left rs1024_step (cs ++ pre ++ x :: post) 1
             = fold_left pstep post
                         (pstep (fold_left pstep (cs ++ pre) 1) x)).
  { intros x Hx.
    assert (Hall : Forall state (cs ++ pre ++ x :: post)).
    { apply Forall_app. split; [apply code_units_state|].
      apply Forall_app. split; [now apply words_state|].
      constructor; [now apply word_state|now apply words_state]. }
    destruct (polymod_fold_state _ 1 H1 Hall) as [_ ->].
    rewrite app_assoc, fold_left_app. apply fold_left_cons. }
  rewrite Hs in H by exact Hw. rewrite Hs by exact Hw'.
  set (s := fold_left pstep (cs ++ pre) 1) in *.
  replace (pstep s w') with (Z.lxor (pstep s w) (Z.lxor w w')).
  2:{ rewrite (pstep_byte s w), (pstep_byte s w'), Z.lxor_assoc.
      f_equal. now rewrite <- Z.lxor_assoc, Z.lxor_nilpotent, Z.lxor_0_l. }
  rewrite fold_pstep_difference. apply Z.eqb_eq in H. rewrite H.
  apply Z.eqb_neq. intros E.
  apply (carried_nonzero post (Z.lxor w w')).
  - apply lxor_bound; unfold state; lia.
  - intros E0. apply Hne. now apply Z.lxor_eq.
  - rewrite <- (Z.lxor_0_l (carried _ _)), <- (Z.lxor_nilpotent 1).
    rewrite Z.lxor_assoc, E. apply Z.lxor_nilpotent.
Qed.

(** One wrong word is always detected: when a sequence of word indices
    passes [rs1024VerifyChecksum], the sequence with one of its words
    replaced by another index does not pass, for the same flag. *)
Theorem rs1024_detects_one_word :
  forall (pre post : list Z) (w w' flag : Z),
    Forall (fun i => 0 <= i < 1024) pre ->
    Forall (fun i => 0 <= i < 1024) post ->
    0 <= w < 1024 -> 0 <= w' < 1024 -> w <> w' ->
    rs1024VerifyChecksum (pre ++ w :: post) flag = true ->
    rs1024VerifyChecksum (pre ++ w' :: post) flag = false.
Proof.
  intros pre post w w' flag Hpre Hpost Hw Hw' Hne H.
  apply (one_word_detected pre post w w'); assumption.
Qed.

Lemma rs1024_detects_one_word_witness :
  rs1024VerifyChecksum
    ([1; 2] ++ 1023 :: rs1024CreateChecksum [1; 2; 1023] 1) 1 = true
  /\ rs1024VerifyChecksum
       ([1; 2] ++ 1022 :: rs1024CreateChecksum [1; 2; 1023] 1) 1 = false.
Proof.
  split; [vm_compute; reflexivity|].
  apply (rs1024_detects_one_word
           [1; 2] (rs1024CreateChecksum [1; 2; 1023] 1) 1023 1022 1).
  - repeat (apply Forall_cons; [lia|]). apply Forall_nil.
  - let v := eval vm_compute in (rs1024CreateChecksum [1; 2; 1023] 1) in
    change (rs1024CreateChecksum [1; 2; 1023] 1) with v.
    repeat (apply Forall_cons; [lia|]). apply Forall_nil.
  - lia.
  - lia.
  - lia.
  - vm_compute. reflexivity.
Defined.

(** The same for mnemonics: when a mnemonic decodes, every mnemonic that
    differs from it in one word, other than the second (which holds the
    flag that selects the customization string), or in the second with the
    same flag bit, is refused by [decodeMnemonic] with the checksum error,
    and by [validateMnemonic]. *)
Theorem decodeMnemonic_detects_one_word :
  forall (W : WordList) (mnemonic mnemonic' : string) (pre post : list Z)
         (w w' : Z) (d : IDecodedMnemonic),
    mnemonicToIndices mnemonic = Ok (pre ++ w :: post) ->
    mnemonicToIndices mnemonic' = Ok (pre ++ w' :: post) ->
    w <> w' ->
    length pre <> 1%nat \/ (w / 16) mod 2 = (w' / 16) mod 2 ->
    decodeMnemonic mnemonic = Ok d ->
    decodeMnemonic mnemonic' = Err InvalidChecksum
    /\ validateMnemonic mnemonic' = false.
Proof.
  intros W mnemonic mnemonic' pre post w w' d Hm Hm' Hne Hpos Hd.
  assert (Hw : Forall word_index (pre ++ w :: post)).
  { apply mnemonicToIndices_ok in Hm. now apply indexed_word_index in Hm. }
  assert (Hw' : Forall word_index (pre ++ w' :: post)).
  { apply mnemonicToIndices_ok in Hm'. now apply indexed_word_index in Hm'. }
  assert (E : decodeMnemonic mnemonic' = Err InvalidChecksum);
    [|split; [exact E|unfold validateMnemonic; now rewrite E]].
  unfold decodeMnemonic in *. rewrite Hm in Hd. rewrite Hm'. cbn [bind] in *.
  destruct (ValidFacts.decodeIndices_ok_iff _ Hw) as [Hok _].
  destruct (Hok (ex_intro _ d Hd)) as (Hl & Hr & _ & Hc & _).
  assert (Len : length (pre ++ w' :: post) = length (pre ++ w :: post))
    by (rewrite !length_app; reflexivity).
  assert (Ef : flag_of (pre ++ w' :: post) = flag_of (pre ++ w :: post)).
  { unfold flag_of, prefix.
    apply Forall_app in Hw as [Hp Hwp]. inversion Hwp as [|? ? Hw0 Hpost]; subst.
    apply Forall_app in Hw' as [_ Hwp']. inversion Hwp' as [|? ? Hw0' _]; subst.
    unfold word_index in *.
    destruct pre as [|p0 [|p1 pre]].
    - cbn [app nth].
      replace ((w' * 1024 + nth 1 (w' :: post) 0) / 16)
        with (w' * 64 + nth 1 (w' :: post) 0 / 16)
        by (Z.to_euclidean_division_equations; lia).
      replace ((w * 1024 + nth 1 (w :: post) 0) / 16)
        with (w * 64 + nth 1 (w :: post) 0 / 16)
        by (Z.to_euclidean_division_equations; lia).
      cbn [nth]. Z.to_euclidean_division_equations. lia.
    - destruct Hpos as [Hpos|Hpos]; [now elim Hpos|].
      cbn [app nth]. inversion Hp as [|? ? Hp0 _]; subst.
      replace ((p0 * 1024 + w') / 16) with (p0 * 64 + w' / 16)
        by (Z.to_euclidean_division_equations; lia).
      replace ((p0 * 1024 + w) / 16) with (p0 * 64 + w / 16)
        by (Z.to_euclidean_division_equations; lia).
      Z.to_euclidean_division_equations. lia.
    - reflexivity. }
  rewrite decodeIndices_fields by (assumption || lia).
  assert (Er : residual (pre ++ w' :: post) = residual (pre ++ w :: post))
    by (unfold residual; now rewrite Len).
  rewrite Er. destruct (Z.gtb_spec (residual (pre ++ w :: post)) 8); [lia|].
  rewrite Ef.
  apply Forall_app in Hw as [Hp Hwp]. inversion Hwp as [|? ? Hw0 Hpost]; subst.
  apply Forall_app in Hw' as [_ Hwp']. inversion Hwp' as [|? ? Hw0' _]; subst.
  now rewrite (one_word_detected pre post w w' _ Hp Hpost Hw0 Hw0' Hne Hc).
Qed.

Lemma decodeMnemonic_detects_one_word_witness :
  let data := EncodeFacts.encodeIndices [18; 52] 1 0 0 1 1 0 1
                                        Sample.MASTERSECRET in
  @decodeMnemonic Sample.words
    (@mnemonicFromIndices Sample.words
       (firstn 7 data ++ 5 :: skipn 8 data))
  = Err InvalidChecksum
  /\ @validateMnemonic Sample.words
       (@mnemonicFromIndices Sample.words
          (firstn 7 data ++ 5 :: skipn 8 data))
     = false.
Proof.
  cbv zeta.
  destruct (@decodeMnemonic Sample.words
              (@mnemonicFromIndices Sample.words
                 (EncodeFacts.encodeIndices [18; 52] 1 0 0 1 1 0 1
                                            Sample.MASTERSECRET)))
    as [d|err] eqn:E; [|vm_compute in E; discriminate E].
  apply (decodeMnemonic_detects_one_word
           Sample.words
           (@mnemonicFromIndices Sample.words
              (EncodeFacts.encodeIndices [18; 52] 1 0 0 1 1 0 1
                                         Sample.MASTERSECRET))
           (@mnemonicFromIndices Sample.words
              (firstn 7 (EncodeFacts.encodeIndices [18; 52] 1 0 0 1 1 0 1
                                                   Sample.MASTERSECRET)
               ++ 5 :: skipn 8 (EncodeFacts.encodeIndices
                                  [18; 52] 1 0 0 1 1 0 1 Sample.MASTERSECRET)))
           (firstn 7 (EncodeFacts.encodeIndices [18; 52] 1 0 0 1 1 0 1
                                                Sample.MASTERSECRET))
           (skipn 8 (EncodeFacts.encodeIndices [18; 52] 1 0 0 1 1 0 1
                                               Sample.MASTERSECRET))
           (nth 7 (EncodeFacts.encodeIndices [18; 52] 1 0 0 1 1 0 1
                                             Sample.MASTERSECRET) 0)
           5 d).
  - vm_compute. reflexivity.
  - vm_compute. reflexivity.
  - vm_compute. discriminate.
  - left. vm_compute. discriminate.
  - exact E.
Defined.

End CoverageChecksum.

(* ================================================================= *)
(** * Further properties: what is checked, and what is not *)

Module CoverageErrors.
Import Constants Utils Random Helper JSFacts MapFacts CombineFacts CryptFacts.

(* ----------------------------------------------------------------- *)
(** ** The passphrase *)

Section Passphrase.
Context {prims : Primitives}.

Lemma xor_lengths a b :
  length a = length b -> exists c, xor a b = Ok c /\ length c = length a.
Proof.
  intros H. unfold xor. rewrite H, Nat.eqb_refl. cbn [negb].
  eexists. split; [reflexivity|].
  rewrite IndexFacts.generateArray_length. now rewrite Nat2Z.id.
Qed.

Lemma crypt_rounds_lengths pwd e salt (h : nat) rounds :
  forall p : list Z * list Z,
    length (fst p) = h -> length (snd p) = h ->
    exists q,
      fold_left (crypt_round pwd e salt) rounds (Ok p) = Ok q
      /\ length (fst q) = h /\ length (snd q) = h.
Proof.
  induction rounds as [|r rounds IH]; intros p Hl Hr.
  - exists p. now split.
  - rewrite fold_left_cons. unfold crypt_round at 2. cbn [bind].
    destruct (xor_lengths (fst p)
                          (roundFunction r pwd e salt (snd p)))
      as (t & -> & Lt).
    { now rewrite roundFunction_length, Hl, Hr. }
    cbn [bind]. apply IH; cbn [fst snd]; congruence.
Qed.

(** Whether [crypt] returns does not depend on the passphrase, nor does
    the length of what it returns, which is the length of its input. *)
Lemma crypt_any_passphrase (secret : list Z) passphrase passphrase' e id flag
      encrypt C :
  crypt secret passphrase e id flag encrypt = Ok C ->
  length C = length secret
  /\ exists C',
      crypt secret passphrase' e id flag encrypt = Ok C'
      /\ length C' = length secret.
Proof.
  intros H.
  assert (He : 0 <= e <= 16).
  { unfold crypt, MAX_ITERATION_EXP in H.
    destruct (Z.ltb_spec e 0); [discriminate H|].
    destruct (Z.gtb_spec e 16); [discriminate H|]. lia. }
  destruct (Nat.Even_or_Odd (length secret)) as [[h Hh]|[h Hh]].
  - assert (Half : (length secret / 2)%nat = h).
    { rewrite Hh, Nat.mul_comm. apply Nat.div_mul. lia. }
    assert (G : forall pw, exists D,
                 crypt secret pw e id flag encrypt = Ok D
                 /\ length D = length secret).
    { intros pw. unfold crypt, MAX_ITERATION_EXP.
      destruct (Z.ltb_spec e 0); [lia|].
      destruct (Z.gtb_spec e 16); [lia|]. cbn [orb]. cbv zeta. rewrite Half.
      destruct (crypt_rounds_lengths
                  (encodeHexString pw) e (getSalt id flag) h
                  (if encrypt then generateArrayIdx [] ROUND_COUNT
                   else rev (generateArrayIdx [] ROUND_COUNT))
                  (firstn h secret, skipn h secret))
        as (q & -> & Lq & Rq).
      - cbn [fst]. rewrite length_firstn. lia.
      - cbn [snd]. rewrite length_skipn. lia.
      - cbn [bind]. eexists. split; [reflexivity|].
        rewrite length_app. lia. }
    destruct (G passphrase) as (D & ED & LD). rewrite ED in H.
    injection H as <-. split; [exact LD|apply G].
  - exfalso.
    assert (Hodd : Nat.Odd (length secret)) by now exists h.
    rewrite (CoverageShamir.crypt_odd_length
               secret passphrase e id flag encrypt He Hodd) in H.
    discriminate H.
Qed.

End Passphrase.

(** The passphrase is not verified: when [combineMnemonics] returns a
    secret for one passphrase, it returns one of the same length for every
    passphrase. *)
Theorem combineMnemonics_any_passphrase :
  forall (W : WordList) (P : Primitives) (mnemonics : list string)
         (passphrase passphrase' : string) (secret : list Z),
    combineMnemonics mnemonics passphrase = Ok secret ->
    exists secret',
      combineMnemonics mnemonics passphrase' = Ok secret'
      /\ length secret' = length secret.
Proof.
  intros W P mnemonics passphrase passphrase' secret H.
  unfold combineMnemonics in *.
  destruct (length mnemonics =? 0)%nat; [discriminate H|].
  destruct (decodeMnemonics mnemonics) as [dec|]; [|discriminate H].
  cbn [bind] in *.
  destruct (JSMap.size (all_groups dec) <? all_groupThreshold dec);
    [discriminate H|].
  destruct (negb (JSMap.size (all_groups dec) =? all_groupThreshold dec));
    [discriminate H|].
  destruct (fold_left combine_group (all_groups dec) (Ok JSMap.empty))
    as [allShares|]; [|discriminate H].
  cbn [bind] in *.
  destruct (recoverSecret (all_groupThreshold dec) allShares) as [ems|];
    [|discriminate H].
  cbn [bind] in *.
  destruct (crypt_any_passphrase _ _ passphrase' _ _ _ _ _ H)
    as (L & C' & E' & L').
  exists C'. split; [exact E'|congruence].
Qed.

Lemma combineMnemonics_any_passphrase_witness :
  exists secret',
    @combineMnemonics Sample.words Sample.prims
      (firstn 2 Sample.TWO_OF_THREE) "not the passphrase"
    = Ok secret'
    /\ length secret' = length Sample.MASTERSECRET.
Proof.
  apply (combineMnemonics_any_passphrase
           Sample.words Sample.prims (firstn 2 Sample.TWO_OF_THREE)
           EmptyString "not the passphrase" Sample.MASTERSECRET).
  vm_compute. reflexivity.
Defined.

(* ----------------------------------------------------------------- *)
(** ** One generation *)

(** Shares of different generations are never combined: when
    [combineMnemonics] returns a secret, all the mnemonics decode to one
    identifier, one flag, one exponent, one group threshold and one group
    count, and the mnemonics of one group to one member threshold. *)
Theorem combineMnemonics_one_generation :
  forall (W : WordList) (P : Primitives) (mnemonics : list string)
         (passphrase : string) (secret : list Z),
    combineMnemonics mnemonics passphrase = Ok secret ->
    exists ds : list IDecodedMnemonic,
      Forall2 (fun m d => decodeMnemonic m = Ok d) mnemonics ds
      /\ forall d d', In d ds -> In d' ds ->
           identifier d = identifier d'
           /\ extendableBackupFlag d = extendableBackupFlag d'
           /\ iterationExponent d = iterationExponent d'
           /\ groupThreshold d = groupThreshold d'
           /\ groupCount d = groupCount d'
           /\ (groupIndex d = groupIndex d' ->
               memberThreshold d = memberThreshold d').
Proof.
  intros W P mnemonics passphrase secret H. unfold combineMnemonics in H.
  destruct (length mnemonics =? 0)%nat; [discriminate H|].
  destruct (decodeMnemonics mnemonics) as [dec|] eqn:Ed; [|discriminate H].
  destruct (decodeMnemonics_ok mnemonics dec Ed)
    as (ds & Hds & Hall & Kn & Ki & Kg).
  exists ds. split; [exact Hds|]. intros d d' Hd Hd'.
  destruct (Hall d Hd) as (A1 & A2 & A3 & A4 & A5).
  destruct (Hall d' Hd') as (B1 & B2 & B3 & B4 & B5).
  repeat (split; [congruence|]). intros Hg.
  assert (Hin : In (groupIndex d) (JSMap.keys (all_groups dec))).
  { apply Ki. now apply in_map. }
  apply get_keys in Hin as [grp Hget].
  destruct (Kg _ _ Hget) as (mt & members & _ & _ & _ & Mt).
  rewrite (Mt d), (Mt d'); [reflexivity| |];
    unfold in_group; apply filter_In; split; try assumption.
  - apply Z.eqb_eq. now symmetry.
  - apply Z.eqb_refl.
Qed.

Lemma combineMnemonics_one_generation_witness :
  exists ds : list IDecodedMnemonic,
    Forall2 (fun m d => @decodeMnemonic Sample.words m = Ok d)
            (firstn 2 Sample.TWO_OF_THREE) ds
    /\ forall d d', In d ds -> In d' ds ->
         identifier d = identifier d'
         /\ extendableBackupFlag d = extendableBackupFlag d'
         /\ iterationExponent d = iterationExponent d'
         /\ groupThreshold d = groupThreshold d'
         /\ groupCount d = groupCount d'
         /\ (groupIndex d = groupIndex d' ->
             memberThreshold d = memberThreshold d').
Proof.
  apply (combineMnemonics_one_generation
           Sample.words Sample.prims (firstn 2 Sample.TWO_OF_THREE)
           EmptyString Sample.MASTERSECRET).
  vm_compute. reflexivity.
Defined.

(* ----------------------------------------------------------------- *)
(** ** What [fromArray] refuses *)

Import Slip39.

(** [fromArray] once the identifier is there: the checks, one after the
    other, then the encryption and the tree. *)
Lemma fromArray_checks {words : WordList} {prims : Primitives}
      (masterSecret : list Z) (o : options) (s : entropy) ident s0 :
  match opt_identifier o with
  | Some i => rret i
  | None => generateIdentifier
  end s = Ok (ident, s0) ->
  fromArray masterSecret o s
  = if Z.of_nat (length masterSecret) * 8 <? 128
    then Err (SecretTooShort (Z.of_nat (length masterSecret)))
    else if negb (Z.rem (Z.of_nat (length masterSecret)) 2 =? 0)
    then Err SecretOddLength
    else if negb (printable_ascii (opt_passphrase o)) then Err InvalidPassphrase
    else if opt_groupThreshold o >? Z.of_nat (length (opt_groups o))
    then Err (GroupThresholdExceedsGroups (opt_groupThreshold o)
                                          (Z.of_nat (length (opt_groups o))))
    else if existsb (fun item : group =>
                       let '(n, m, _) := item in (n =? 1) && (m >? 1))
                    (opt_groups o)
    then Err MultipleMembersThresholdOne
    else if (length ident =? 0)%nat then Err MissingIdentifier
    else if Z.of_nat (length (opt_groups o)) =? 0 then Err MissingGroupCount
    else if opt_groupThreshold o =? 0 then Err MissingGroupThreshold
    else
      match crypt masterSecret (opt_passphrase o) (opt_iterationExponent o)
                  ident (opt_extendableBackupFlag o) true with
      | Err e => Err e
      | Ok ems =>
          match splitSecret (opt_groupThreshold o)
                            (Z.of_nat (length (opt_groups o))) ems s0 with
          | Err e => Err e
          | Ok (groupShares, s1) =>
              match GenerationFacts.build_children
                      (buildRecursive 2 (GenerationFacts.slip_of o ident))
                      groupShares 0 (opt_groups o) 0 [] s1 with
              | Err e => Err e
              | Ok (nodes, s') =>
                  Ok (with_root (GenerationFacts.slip_of o ident)
                                (Node 0 (opt_title o) EmptyString nodes), s')
              end
          end
      end.
Proof.
  intros Eid. unfold fromArray. unfold rbind at 1. rewrite Eid. cbv zeta.
  unfold MIN_ENTROPY_BITS, JS.rem.
  destruct (_ <? 128); [reflexivity|].
  destruct (negb (Z.rem _ 2 =? 0)); [reflexivity|].
  destruct (negb (printable_ascii _)); [reflexivity|].
  destruct (_ >? _); [reflexivity|].
  destruct (existsb _ _); [reflexivity|].
  unfold rbind at 1. unfold new, JS.truthy.
  destruct (length ident =? 0)%nat; [reflexivity|].
  destruct (Z.of_nat (length (opt_groups o)) =? 0) eqn:Ec; [reflexivity|].
  destruct (opt_groupThreshold o =? 0); [reflexivity|].
  cbn [negb rlift]. fold (GenerationFacts.slip_of o ident).
  unfold rbind at 1. cbn [identifier GenerationFacts.slip_of].
  destruct (crypt _ _ _ _ _ _) as [ems|]; [|reflexivity].
  cbn [rlift]. unfold rbind at 1. fold (GenerationFacts.slip_of o ident).
  destruct (opt_groups o) as [|item items] eqn:Eg; [discriminate Ec|].
  rewrite GenerationFacts.buildRecursive_node. unfold rbind at 1.
  destruct (splitSecret _ _ _ _) as [[groupShares s1]|]; [|reflexivity].
  unfold rbind at 1. cbn [index description mnemonic].
  destruct (GenerationFacts.build_children _ _ _ _ _ _ _) as [[nodes s']|];
    reflexivity.
Qed.

(** The checks of [fromArray] and of what it calls, in the order in which
    they throw, each under the condition that the earlier ones pass: the
    length of the master secret, its parity, the passphrase, the group
    threshold against the number of groups, a group of several members with
    threshold 1, an empty identifier, no group, a group threshold 0, the
    iteration exponent (in [crypt]), and a negative group threshold or more
    than 16 groups (in [splitSecret]). *)
Theorem fromArray_refuses :
  forall (W : WordList) (P : Primitives) (masterSecret : list Z)
         (o : options) (s : entropy),
    let len := Z.of_nat (length masterSecret) in
    let count := Z.of_nat (length (opt_groups o)) in
    let gt := opt_groupThreshold o in
    let several :=
      existsb (fun item : group => let '(n, m, _) := item in (n =? 1) && (m >? 1))
              (opt_groups o) in
    (len < 16 -> fromArray masterSecret o s = Err (SecretTooShort len))
    /\ (16 <= len -> len mod 2 = 1 ->
        fromArray masterSecret o s = Err SecretOddLength)
    /\ (16 <= len -> len mod 2 = 0 ->
        printable_ascii (opt_passphrase o) = false ->
        fromArray masterSecret o s = Err InvalidPassphrase)
    /\ (16 <= len -> len mod 2 = 0 ->
        printable_ascii (opt_passphrase o) = true ->
        (count < gt ->
         fromArray masterSecret o s = Err (GroupThresholdExceedsGroups gt count))
        /\ (gt <= count -> several = true ->
            fromArray masterSecret o s = Err MultipleMembersThresholdOne)
        /\ (gt <= count -> several = false ->
            (opt_identifier o = Some [] ->
             fromArray masterSecret o s = Err MissingIdentifier)
            /\ (opt_identifier o <> Some [] ->
                (count = 0 ->
                 fromArray masterSecret o s = Err MissingGroupCount)
                /\ (0 < count -> gt = 0 ->
                    fromArray masterSecret o s = Err MissingGroupThreshold)
                /\ (0 < count -> gt <> 0 ->
                    (opt_iterationExponent o < 0
                     \/ 16 < opt_iterationExponent o ->
                     fromArray masterSecret o s
                     = Err (InvalidIterationExponent
                              (opt_iterationExponent o)))
                    /\ (0 <= opt_iterationExponent o <= 16 ->
                        (gt < 0 ->
                         fromArray masterSecret o s
                         = Err (ThresholdNotPositive gt))
                        /\ (0 < gt -> 16 < count ->
                            fromArray masterSecret o s
                            = Err (TooManyShares count))))))).
Proof.
  intros W P masterSecret o s len count gt several.
  assert (Hid : exists ident s0,
             match opt_identifier o with
             | Some i => rret i
             | None => generateIdentifier
             end s = Ok (ident, s0)
             /\ (opt_identifier o <> Some [] -> length ident <> 0%nat)
             /\ (opt_identifier o = Some [] -> ident = [])).
  { destruct (opt_identifier o) as [i|].
    - exists i, s. split; [reflexivity|]. split.
      + intros Hne Hl. apply Hne. destruct i; [reflexivity|discriminate Hl].
      + now intros [= ->].
    - destruct (GenerationFacts.generateIdentifier_ok s)
        as (id0 & s00 & E0 & (L0 & _)).
      exists id0, s00. split; [exact E0|]. split.
      + intros _. rewrite L0. discriminate.
      + discriminate. }
  destruct Hid as (ident & s0 & Eid & Hne & Hnil).
  rewrite (fromArray_checks masterSecret o s ident s0 Eid).
  fold len count gt several.
  assert (Hrem : Z.rem len 2 = len mod 2)
    by (apply Z.rem_mod_nonneg; unfold len; lia).
  rewrite Hrem.
  destruct (Z.ltb_spec (len * 8) 128);
    [repeat split; intros; (reflexivity || lia)|].
  split; [intros; lia|].
  destruct (Z.eqb_spec (len mod 2) 0) as [Hev|Hodd]; cbn [negb];
    [|repeat split; intros; (reflexivity || lia)].
  split; [intros; lia|].
  destruct (printable_ascii (opt_passphrase o)); cbn [negb];
    [|repeat split; intros; (reflexivity || discriminate)].
  split; [intros; discriminate|]. intros _ _ _.
  destruct (Z.gtb_spec gt count);
    [repeat split; intros; (reflexivity || lia)|].
  split; [intros; lia|].
  destruct several;
    [repeat split; intros; (reflexivity || discriminate)|].
  split; [intros; discriminate|]. intros _ _.
  destruct (Nat.eqb_spec (length ident) 0) as [E0|E0].
  { split; [reflexivity|]. intros Hi. now elim (Hne Hi). }
  split; [intros Hi; rewrite (Hnil Hi) in E0; now elim E0|]. intros _.
  destruct (Z.eqb_spec count 0);
    [repeat split; intros; (reflexivity || lia)|].
  split; [intros; lia|].
  destruct (Z.eqb_spec gt 0);
    [repeat split; intros; (reflexivity || lia)|].
  split; [intros; lia|]. intros Hc _.
  split.
  { intros H9.
    now rewrite (CoverageShamir.crypt_exponent_range
                   masterSecret (opt_passphrase o) (opt_iterationExponent o)
                   ident (opt_extendableBackupFlag o) true H9). }
  intros H9.
  assert (Even : Nat.Even (length masterSecret)).
  { exists (Z.to_nat (len / 2)). unfold len in *.
    Z.to_euclidean_division_equations. lia. }
  assert (C : exists ems, crypt masterSecret (opt_passphrase o)
                                (opt_iterationExponent o) ident
                                (opt_extendableBackupFlag o) true = Ok ems).
  { unfold crypt, MAX_ITERATION_EXP.
    destruct (Z.ltb_spec (opt_iterationExponent o) 0); [lia|].
    destruct (Z.gtb_spec (opt_iterationExponent o) 16); [lia|].
    cbn [orb]. cbv zeta. destruct Even as [h Hh].
    destruct (crypt_rounds_lengths
                (encodeHexString (opt_passphrase o)) (opt_iterationExponent o)
                (getSalt ident (opt_extendableBackupFlag o)) h
                (generateArrayIdx [] ROUND_COUNT)
                (firstn (length masterSecret / 2) masterSecret,
                 skipn (length masterSecret / 2) masterSecret))
      as (q & -> & _).
    - cbn [fst]. rewrite length_firstn, Hh, Nat.mul_comm, Nat.div_mul; lia.
    - cbn [snd]. rewrite length_skipn, Hh, Nat.mul_comm, Nat.div_mul; lia.
    - cbn [bind]. eauto. }
  destruct C as [ems ->]. unfold splitSecret, MAX_SHARE_COUNT.
  destruct (Z.leb_spec gt 0);
    [split; intros; [reflexivity|lia]|].
  split; [intros; lia|]. intros _ H11.
  destruct (Z.gtb_spec gt count); [lia|].
  destruct (Z.gtb_spec count 16); [reflexivity|lia].
Qed.

End CoverageErrors.

(* ================================================================= *)
(** * slip39.ts: paths into the tree *)

Module Path.
Import Slip39.

Definition MAX_DEPTH : Z := 2.

(** What [fromPath] throws: the path error of [validatePath], its depth
    error, and the index error of [fromPath]; [UndefinedNode] stands for the
    [undefined] that [prev.children[childNumber]] is for an index that is
    not a position of the array. *)
Inductive path_error : Type :=
| InvalidPath
| DepthExceeded (path : string) (pathLength : Z)
| IndexExceeds (childNumber lastIndex : Z)
| UndefinedNode.

Inductive outcome (A : Type) : Type :=
| Found (a : A)
| Thrown (e : path_error).
Arguments Found {A} a.
Arguments Thrown {A} e.

(** ** Regular expressions, as far as the pattern of [validatePath] goes *)

Inductive regex : Type :=
| Never
| Empty
| Unit (p : ascii -> bool)
| Then (r1 r2 : regex)
| Or (r1 r2 : regex).

Fixpoint nullable (r : regex) : bool :=
  match r with
  | Never => false
  | Empty => true
  | Unit _ => false
  | Then r1 r2 => nullable r1 && nullable r2
  | Or r1 r2 => nullable r1 || nullable r2
  end.

(** What is left to match after the character [c]. *)
Fixpoint derive (c : ascii) (r : regex) : regex :=
  match r with
  | Never => Never
  | Empty => Never
  | Unit p => if p c then Empty else Never
  | Then r1 r2 =>
      if nullable r1 then Or (Then (derive c r1) r2) (derive c r2)
      else Then (derive c r1) r2
  | Or r1 r2 => Or (derive c r1) (derive c r2)
  end.

(** The whole string matches. *)
Fixpoint matches (r : regex) (s : string) : bool :=
  match s with
  | EmptyString => nullable r
  | String c s' => matches (derive c r) s'
  end.

(** [r{lo,hi}] *)
Fixpoint times (r : regex) (n : nat) : regex :=
  match n with
  | O => Empty
  | S n' => Then r (times r n')
  end.

Fixpoint upto (r : regex) (n : nat) : regex :=
  match n with
  | O => Empty
  | S n' => Or Empty (Then r (upto r n'))
  end.

Definition between (r : regex) (lo hi : nat) : regex :=
  Then (times r lo) (upto r (hi - lo)).

(** [\d] *)
Definition digit (c : ascii) : bool :=
  let n := nat_of_ascii c in ((48 <=? n) && (n <=? 57))%nat.

(** [/(^r)(\/\d{1,2}){0,2}$/]: anchored at both ends, so a match is a
    match of the whole string. *)
Definition PATH_PATTERN : regex :=
  Then (Unit (Ascii.eqb "r"))
       (between (Then (Unit (Ascii.eqb "/")) (between (Unit digit) 1 2)) 0 2).

Definition validatePath (path : string) : outcome unit :=
  if negb (matches PATH_PATTERN path) then Thrown InvalidPath
  else
    let depth := JS.split "/" path in
    let pathLength := Z.of_nat (length depth) - 1 in
    if pathLength >? MAX_DEPTH then Thrown (DepthExceeded path pathLength)
    else Found tt.

(** ** [parseInt] without a radix *)

(** Code units below 256 that [parseInt] skips in front: tab, line feed,
    vertical tab, form feed, carriage return, space, no-break space. *)
Definition whitespace (c : ascii) : bool :=
  let n := nat_of_ascii c in
  ((9 <=? n) && (n <=? 13) || (n =? 32) || (n =? 160))%nat.

Fixpoint skip_whitespace (s : string) : string :=
  match s with
  | String c r => if whitespace c then skip_whitespace r else s
  | EmptyString => s
  end.

Definition digit_value (radix : Z) (c : ascii) : option Z :=
  let n := Z.of_nat (nat_of_ascii c) in
  let v := if (48 <=? n) && (n <=? 57) then Some (n - 48)
           else if (97 <=? n) && (n <=? 122) then Some (n - 87)
           else if (65 <=? n) && (n <=? 90) then Some (n - 55)
           else None in
  match v with
  | Some d => if d <? radix then Some d else None
  | None => None
  end.

(** The value of the longest prefix of digits, [None] when there is none. *)
Fixpoint digits_prefix (radix : Z) (s : string) (acc : option Z) : option Z :=
  match s with
  | EmptyString => acc
  | String c r =>
      match digit_value radix c with
      | Some d =>
          digits_prefix radix r
            (Some (match acc with Some a => a * radix + d | None => d end))
      | None => acc
      end
  end.

(** [parseInt(s)]: [None] is [NaN].  The value is the mathematical one
    (the source rounds a value above [2 ^ 53] to a double). *)
Definition parseInt (s : string) : option Z :=
  let s := skip_whitespace s in
  let '(sign, s) :=
    match s with
    | String "-" r => (-1, r)
    | String "+" r => (1, r)
    | _ => (1, s)
    end in
  let '(radix, s) :=
    match s with
    | String "0" (String "x" r) => (16, r)
    | String "0" (String "X" r) => (16, r)
    | _ => (10, s)
    end in
  match digits_prefix radix s None with
  | Some v => Some (sign * v)
  | None => None
  end.

Definition parseChildren (path : string) : list (option Z) :=
  map parseInt (tl (JS.split "/" path)).

(** The callback of [children.reduce] in [fromPath]; [NaN >= childrenLen]
    is false, and [prev.children[NaN]] is [undefined]. *)
Definition fromPath_step (prev : outcome Slip39Node) (childNumber : option Z)
  : outcome Slip39Node :=
  match prev with
  | Thrown e => Thrown e
  | Found prev =>
      let childrenLen := Z.of_nat (length (children prev)) in
      match childNumber with
      | Some n =>
          if n >=? childrenLen then Thrown (IndexExceeds n (childrenLen - 1))
          else match JS.index (children prev) n with
               | Some node => Found node
               | None => Thrown UndefinedNode
               end
      | None => Thrown UndefinedNode
      end
  end.

Definition fromPath (this : Slip39) (path : string) : outcome Slip39Node :=
  match validatePath path with
  | Thrown e => Thrown e
  | Found _ =>
      let children := parseChildren path in
      if (length children =? 0)%nat then Found (root this)
      else fold_left fromPath_step children (Found (root this))
  end.

End Path.

(* ================================================================= *)
(** * Further properties: paths *)

Module CoveragePath.
Import Slip39 Path WordFacts.

Local Open Scope string_scope.

(** ** The strings of a regular expression *)

Inductive lang : regex -> string -> Prop :=
| lang_empty : lang Empty ""
| lang_unit p c : p c = true -> lang (Unit p) (String c "")
| lang_then r1 r2 s1 s2 :
    lang r1 s1 -> lang r2 s2 -> lang (Then r1 r2) (s1 ++ s2)
| lang_or_l r1 r2 s : lang r1 s -> lang (Or r1 r2) s
| lang_or_r r1 r2 s : lang r2 s -> lang (Or r1 r2) s.

Lemma append_nil_inv (a b : string) : a ++ b = "" -> a = "" /\ b = "".
Proof. destruct a; [now split|discriminate]. Qed.

Lemma nullable_lang r : nullable r = true <-> lang r "".
Proof.
  split.
  - induction r as [| |p|r1 IH1 r2 IH2|r1 IH1 r2 IH2]; cbn [nullable]; intros H;
      try discriminate.
    + constructor.
    + apply andb_true_iff in H as [H1 H2].
      change "" with ("" ++ ""). constructor; auto.
    + apply orb_true_iff in H as [H|H];
        [apply lang_or_l|apply lang_or_r]; auto.
  - intros H. remember "" as s eqn:Es.
    induction H as [|p c Hp|r1 r2 s1 s2 H1 IH1 H2 IH2|r1 r2 s H IH|r1 r2 s H IH];
      cbn [nullable].
    + reflexivity.
    + discriminate.
    + apply append_nil_inv in Es as [-> ->]. now rewrite IH1, IH2.
    + now rewrite IH.
    + rewrite IH by exact Es. apply orb_true_r.
Qed.

Lemma derive_lang r : forall c s, lang (derive c r) s <-> lang r (String c s).
Proof.
  induction r as [| |p|r1 IH1 r2 IH2|r1 IH1 r2 IH2]; intros c s; cbn [derive].
  - split; intros H; inversion H.
  - split; intros H; inversion H.
  - destruct (p c) eqn:Ep; split; intros H.
    + inversion H; subst. now constructor.
    + inversion H; subst. constructor.
    + inversion H.
    + inversion H; subst. congruence.
  - assert (L : lang (Then (derive c r1) r2) s -> lang (Then r1 r2) (String c s)).
    { intros H. inversion H as [| |? ? s1 s2 H1 H2| |]; subst.
      apply IH1 in H1. change (String c (s1 ++ s2)) with (String c s1 ++ s2).
      now constructor. }
    assert (R : lang (Then r1 r2) (String c s) ->
                lang (Then (derive c r1) r2) s
                \/ (lang r1 "" /\ lang (derive c r2) s)).
    { intros H. inversion H as [| |? ? s1 s2 H1 H2 [E1 E2] E| |]; subst.
      destruct s1 as [|c1 s1].
      - right. cbn [append] in E. subst s2. split; [exact H1|now apply IH2].
      - left. cbn [append] in E. injection E as -> <-.
        constructor; [now apply IH1|exact H2]. }
    destruct (nullable r1) eqn:En; split; intros H.
    + inversion H; subst; [now apply L|].
      change (String c s) with ("" ++ String c s). constructor.
      * now apply nullable_lang.
      * now apply IH2.
    + destruct (R H) as [H1|[_ H2]]; [now apply lang_or_l|now apply lang_or_r].
    + now apply L.
    + destruct (R H) as [H1|[H1 _]]; [exact H1|].
      apply nullable_lang in H1. congruence.
  - split; intros H; inversion H; subst;
      ((apply lang_or_l; now apply IH1) || (apply lang_or_r; now apply IH2)).
Qed.

Lemma matches_lang s : forall r, matches r s = true <-> lang r s.
Proof.
  induction s as [|c s IH]; intros r; cbn [matches].
  - apply nullable_lang.
  - rewrite IH. apply derive_lang.
Qed.

(** ** The valid paths *)

(** A fragment of a path: one or two digits. *)
Definition fragment (f : string) : bool :=
  match f with
  | String c1 "" => digit c1
  | String c1 (String c2 "") => digit c1 && digit c2
  | _ => false
  end.

(** The number that the digits of [f] write in base ten. *)
Definition decimal (f : string) : Z :=
  fold_left (fun a c => 10 * a + (Z.of_nat (nat_of_ascii c) - 48))
            (list_ascii_of_string f) 0.

(** The path of the fragments [frags]: ["r"], ["r/a"], ["r/a/b"]. *)
Definition path_of (frags : list string) : string := JS.join "/" ("r" :: frags).

Definition DIGITS : list ascii :=
  ["0"; "1"; "2"; "3"; "4"; "5"; "6"; "7"; "8"; "9"]%char.

Definition FRAGMENTS : list string :=
  map (fun c => String c "") DIGITS
  ++ flat_map (fun c1 => map (fun c2 => String c1 (String c2 "")) DIGITS) DIGITS.

Definition FRAGMENT_LISTS : list (list string) :=
  [[]] ++ map (fun a => [a]) FRAGMENTS
  ++ flat_map (fun a => map (fun b => [a; b]) FRAGMENTS) FRAGMENTS.

Lemma digit_In c : digit c = true -> In c DIGITS.
Proof.
  destruct c as [[] [] [] [] [] [] [] []]; intros H; try discriminate H;
    cbn; tauto.
Qed.

Lemma fragment_In f : fragment f = true -> In f FRAGMENTS.
Proof.
  unfold FRAGMENTS. destruct f as [|c1 [|c2 [|c3 f]]]; cbn [fragment]; intros H;
    try discriminate H; apply in_or_app.
  - left. apply in_map_iff. exists c1. split; [reflexivity|now apply digit_In].
  - right. apply andb_true_iff in H as [H1 H2]. apply in_flat_map.
    exists c1. split; [now apply digit_In|]. apply in_map_iff.
    exists c2. split; [reflexivity|now apply digit_In].
Qed.

Lemma fragments_In frags :
  (length frags <= 2)%nat -> Forall (fun f => fragment f = true) frags ->
  In frags FRAGMENT_LISTS.
Proof.
  intros Hl Hf. unfold FRAGMENT_LISTS.
  destruct frags as [|a [|b [|c frags]]]; [| | |simpl in Hl; lia];
    apply in_or_app.
  - left. now left.
  - right. apply in_or_app. left. apply in_map_iff. exists a.
    split; [reflexivity|]. apply fragment_In. now inversion Hf.
  - right. apply in_or_app. right. apply in_flat_map.
    inversion Hf as [|? ? Ha Hf']; subst. inversion Hf' as [|? ? Hb _]; subst.
    exists a. split; [now apply fragment_In|]. apply in_map_iff.
    exists b. split; [reflexivity|now apply fragment_In].
Qed.

Fixpoint same (l1 l2 : list (option Z)) : bool :=
  match l1, l2 with
  | [], [] => true
  | Some x :: r1, Some y :: r2 => Z.eqb x y && same r1 r2
  | _, _ => false
  end.

Lemma same_eq l1 : forall l2, same l1 l2 = true -> l1 = l2.
Proof.
  induction l1 as [|[x|] l1 IH]; intros [|[y|] l2] H; try discriminate H.
  - reflexivity.
  - cbn [same] in H. apply andb_true_iff in H as [Hx Hl].
    apply Z.eqb_eq in Hx. subst y. f_equal. now apply IH.
Qed.

(** What the code does on the path of a list of fragments. *)
Definition well_read (frags : list string) : bool :=
  matches PATH_PATTERN (path_of frags)
  && Z.leb (Z.of_nat (length (JS.split "/" (path_of frags))) - 1) MAX_DEPTH
  && same (parseChildren (path_of frags)) (map (fun f => Some (decimal f)) frags)
  && forallb (fun f => Z.leb 0 (decimal f) && Z.leb (decimal f) 99) frags.

Lemma all_well_read : forallb well_read FRAGMENT_LISTS = true.
Proof. vm_compute. reflexivity. Qed.

Lemma fragments_read frags :
  (length frags <= 2)%nat -> Forall (fun f => fragment f = true) frags ->
  validatePath (path_of frags) = Found tt
  /\ parseChildren (path_of frags) = map (fun f => Some (decimal f)) frags
  /\ Forall (fun f => 0 <= decimal f <= 99) frags.
Proof.
  intros Hl Hf. pose proof all_well_read as H. rewrite forallb_forall in H.
  specialize (H frags (fragments_In frags Hl Hf)). unfold well_read in H.
  apply andb_true_iff in H as [H H4]. apply andb_true_iff in H as [H H3].
  apply andb_true_iff in H as [H1 H2]. split; [|split].
  - unfold validatePath. rewrite H1. cbn [negb].
    apply Z.leb_le in H2. destruct (Z.gtb_spec (Z.of_nat
      (length (JS.split "/" (path_of frags))) - 1) MAX_DEPTH); [lia|reflexivity].
  - now apply same_eq.
  - apply Forall_forall. rewrite forallb_forall in H4. intros f Hin.
    specialize (H4 f Hin). lia.
Qed.

Ltac invert_lang :=
  repeat match goal with
         | H : lang Never _ |- _ => inversion H
         | H : lang Empty _ |- _ => inversion H; subst; clear H
         | H : lang (Unit _) _ |- _ => inversion H; subst; clear H
         | H : lang (Then _ _) _ |- _ => inversion H; subst; clear H
         | H : lang (Or _ _) _ |- _ => inversion H; subst; clear H
         end.

Lemma pattern_fragments path :
  matches PATH_PATTERN path = true ->
  exists frags,
    (length frags <= 2)%nat /\ Forall (fun f => fragment f = true) frags
    /\ path = path_of frags.
Proof.
  intros H. apply matches_lang in H.
  unfold PATH_PATTERN, between in H. cbn [times upto Nat.sub] in H.
  invert_lang;
    repeat match goal with
           | H : Ascii.eqb _ _ = true |- _ => apply Ascii.eqb_eq in H; subst
           end;
    cbn [append].
  all: match goal with
       | |- exists _, _ /\ _ /\ String "r" ?rest = _ =>
           match rest with
           | "" => exists []
           | String "/" (String ?a "") => exists [String a ""]
           | String "/" (String ?a (String "/" (String ?b ""))) =>
               exists [String a ""; String b ""]
           | String "/" (String ?a (String "/" (String ?b (String ?c "")))) =>
               exists [String a ""; String b (String c "")]
           | String "/" (String ?a (String ?a' "")) =>
               exists [String a (String a' "")]
           | String "/" (String ?a (String ?a' (String "/" (String ?b "")))) =>
               exists [String a (String a' ""); String b ""]
           | String "/" (String ?a (String ?a' (String "/"
                                          (String ?b (String ?c ""))))) =>
               exists [String a (String a' ""); String b (String c "")]
           end
       end.
  all: split; [cbn; lia|]; split; [|reflexivity].
  all: repeat (apply Forall_cons;
               [cbn [fragment];
                repeat match goal with H : digit _ = true |- _ => rewrite H end;
                reflexivity|]);
    apply Forall_nil.
Qed.

Lemma validatePath_cases path :
  (exists frags,
      (length frags <= 2)%nat /\ Forall (fun f => fragment f = true) frags
      /\ path = path_of frags /\ validatePath path = Found tt)
  \/ (matches PATH_PATTERN path = false /\ validatePath path = Thrown InvalidPath).
Proof.
  destruct (matches PATH_PATTERN path) eqn:E.
  - left. destruct (pattern_fragments path E) as (frags & Hl & Hf & ->).
    exists frags. repeat split; try assumption. now apply fragments_read.
  - right. split; [reflexivity|]. unfold validatePath. now rewrite E.
Qed.

(** The paths that [validatePath] accepts are ["r"], ["r/a"] and
    ["r/a/b"], for [a] and [b] of one or two decimal digits; on every other
    string it throws the path error.  Its depth check, which comes after the
    pattern, never fires. *)
Theorem validatePath_accepts :
  forall path : string,
    (validatePath path = Found tt
     <-> exists frags : list string,
         (length frags <= 2)%nat
         /\ Forall (fun f => fragment f = true) frags
         /\ path = JS.join "/" ("r" :: frags))
    /\ (validatePath path = Found tt \/ validatePath path = Thrown InvalidPath).
Proof.
  intros path. split; [split|].
  - intros H. destruct (validatePath_cases path)
      as [(frags & Hl & Hf & E & _)|[_ E]]; [|congruence].
    now exists frags.
  - intros (frags & Hl & Hf & ->). now apply fragments_read.
  - destruct (validatePath_cases path) as [(frags & _ & _ & _ & E)|[_ E]];
      [now left|now right].
Qed.

(** ** [fromPath] *)

Definition no_node : Slip39Node := CoveragePolicy.no_node.

Lemma fromPath_fragments this frags :
  (length frags <= 2)%nat -> Forall (fun f => fragment f = true) frags ->
  fromPath this (path_of frags)
  = fold_left fromPath_step (map (fun f => Some (decimal f)) frags)
              (Found (root this)).
Proof.
  intros Hl Hf. destruct (fragments_read frags Hl Hf) as (Hv & Hp & _).
  unfold fromPath. rewrite Hv, Hp. rewrite length_map.
  destruct frags; reflexivity.
Qed.

Lemma fromPath_step_found prev g :
  (0 <= g)%Z ->
  fromPath_step (Found prev) (Some g)
  = if Z.ltb g (Z.of_nat (length (children prev)))
    then Found (nth (Z.to_nat g) (children prev) no_node)
    else Thrown (IndexExceeds g (Z.of_nat (length (children prev)) - 1)).
Proof.
  intros Hg. cbn [fromPath_step]. cbv zeta. rewrite Z.geb_leb.
  destruct (Z.leb_spec (Z.of_nat (length (children prev))) g) as [H|H];
    destruct (Z.ltb_spec g (Z.of_nat (length (children prev)))) as [H'|H'];
    try lia; [reflexivity|].
  unfold JS.index. destruct (Z.ltb_spec g 0); [lia|].
  rewrite (nth_error_nth' _ no_node) by lia. reflexivity.
Qed.

(** Where [fromPath] leads: ["r"] to the root; ["r/a"] to the child of the
    root at the position that [a] writes in base ten, a leading zero
    included; ["r/a/b"] from there to the child at the position of [b]; and
    a position that is not below the number of children throws the index
    error, with the position and the last index of the children. *)
Theorem fromPath_nodes :
  forall (this : Slip39) (a b : string),
    fragment a = true -> fragment b = true ->
    fromPath this "r" = Found (root this)
    /\ fromPath this ("r/" ++ a)
       = (if Z.ltb (decimal a) (Z.of_nat (length (children (root this))))
          then Found (nth (Z.to_nat (decimal a)) (children (root this)) no_node)
          else Thrown (IndexExceeds
                         (decimal a)
                         (Z.of_nat (length (children (root this))) - 1)))
    /\ fromPath this ("r/" ++ a ++ "/" ++ b)
       = (if Z.ltb (decimal a) (Z.of_nat (length (children (root this))))
          then
            let group :=
              nth (Z.to_nat (decimal a)) (children (root this)) no_node in
            if Z.ltb (decimal b) (Z.of_nat (length (children group)))
            then Found (nth (Z.to_nat (decimal b)) (children group) no_node)
            else Thrown (IndexExceeds
                           (decimal b)
                           (Z.of_nat (length (children group)) - 1))
          else Thrown (IndexExceeds
                         (decimal a)
                         (Z.of_nat (length (children (root this))) - 1))).
Proof.
  intros this a b Ha Hb.
  assert (Hab : Forall (fun f => fragment f = true) [a; b])
    by (repeat constructor; assumption).
  assert (Ha1 : Forall (fun f => fragment f = true) [a])
    by (repeat constructor; assumption).
  destruct (fragments_read [a; b] ltac:(simpl; lia) Hab) as (_ & _ & Hr).
  inversion Hr as [|? ? Ra Hr']; subst. inversion Hr' as [|? ? Rb _]; subst.
  split; [|split].
  - exact (fromPath_fragments this [] ltac:(simpl; lia) (Forall_nil _)).
  - change ("r/" ++ a) with (path_of [a]).
    rewrite fromPath_fragments by (simpl; lia || assumption).
    cbn [map fold_left]. apply fromPath_step_found. lia.
  - change ("r/" ++ a ++ "/" ++ b) with (path_of [a; b]).
    rewrite fromPath_fragments by (simpl; lia || assumption).
    cbn [map fold_left]. rewrite fromPath_step_found by lia.
    destruct (Z.ltb (decimal a) (Z.of_nat (length (children (root this)))));
      [|reflexivity].
    cbv zeta. apply fromPath_step_found. lia.
Qed.

Lemma fromPath_nodes_witness :
  exists (slip : Slip39) (s' : entropy),
    @fromArray Sample.words Sample.prims Sample.MASTERSECRET
      (Sample.policy [(2, 3, "family"); (1, 1, "me")] 1) Sample.dice
    = Ok (slip, s')
    /\ fromPath slip "r" = Found (root slip)
    /\ fromPath slip ("r/" ++ "01")
       = (if Z.ltb (decimal "01") (Z.of_nat (length (children (root slip))))
          then Found (nth (Z.to_nat (decimal "01")) (children (root slip))
                          no_node)
          else Thrown (IndexExceeds
                         (decimal "01")
                         (Z.of_nat (length (children (root slip))) - 1)))
    /\ fromPath slip ("r/" ++ "01" ++ "/" ++ "7")
       = (if Z.ltb (decimal "01") (Z.of_nat (length (children (root slip))))
          then
            let group :=
              nth (Z.to_nat (decimal "01")) (children (root slip)) no_node in
            if Z.ltb (decimal "7") (Z.of_nat (length (children group)))
            then Found (nth (Z.to_nat (decimal "7")) (children group) no_node)
            else Thrown (IndexExceeds
                           (decimal "7")
                           (Z.of_nat (length (children group)) - 1))
          else Thrown (IndexExceeds
                         (decimal "01")
                         (Z.of_nat (length (children (root slip))) - 1))).
Proof.
  destruct (@fromArray Sample.words Sample.prims Sample.MASTERSECRET
              (Sample.policy [(2, 3, "family"); (1, 1, "me")] 1) Sample.dice)
    as [[slip s']|err] eqn:E; [|vm_compute in E; discriminate E].
  exists slip, s'. split; [reflexivity|].
  apply (fromPath_nodes slip "01" "7"); reflexivity.
Defined.

(** All that [fromPath] does: it returns the root, a child of the root or
    a child of a child of the root, or it throws the path error or the index
    error, for a position from 0 to 99 that is not below the number of
    children.  It never returns [undefined], and the depth error of
    [validatePath] is never thrown. *)
Theorem fromPath_outcomes :
  forall (this : Slip39) (path : string),
    fromPath this path = Thrown InvalidPath
    \/ (exists n k : Z,
           fromPath this path = Thrown (IndexExceeds n k)
           /\ (-1 <= k < n)%Z /\ (n <= 99)%Z)
    \/ fromPath this path = Found (root this)
    \/ (exists group : Slip39Node,
           In group (children (root this))
           /\ (fromPath this path = Found group
               \/ exists member : Slip39Node,
                   In member (children group)
                   /\ fromPath this path = Found member)).
Proof.
  intros this path.
  destruct (validatePath_cases path) as [(frags & Hl & Hf & -> & _)|[_ Hbad]].
  2:{ left. unfold fromPath. now rewrite Hbad. }
  rewrite fromPath_fragments by assumption.
  destruct (fragments_read frags Hl Hf) as (_ & _ & Hr).
  destruct frags as [|a [|b [|c frags]]]; [| | |simpl in Hl; lia].
  - right. right. left. reflexivity.
  - inversion Hr as [|? ? Ra _]; subst. cbn [map fold_left].
    rewrite fromPath_step_found by lia.
    destruct (Z.ltb_spec (decimal a) (Z.of_nat (length (children (root this)))))
      as [H|H].
    + right. right. right. eexists. split; [|left; reflexivity].
      apply nth_In. lia.
    + right. left. eexists. eexists. split; [reflexivity|]. lia.
  - inversion Hr as [|? ? Ra Hr']; subst. inversion Hr' as [|? ? Rb _]; subst.
    cbn [map fold_left]. rewrite fromPath_step_found by lia.
    destruct (Z.ltb_spec (decimal a) (Z.of_nat (length (children (root this)))))
      as [H|H].
    + rewrite fromPath_step_found by lia.
      set (group := nth (Z.to_nat (decimal a)) (children (root this)) no_node).
      destruct (Z.ltb_spec (decimal b) (Z.of_nat (length (children group))))
        as [H'|H'].
      * right. right. right. exists group. split; [apply nth_In; lia|].
        right. eexists. split; [|reflexivity]. apply nth_In. lia.
      * right. left. eexists. eexists. split; [reflexivity|]. lia.
    + right. left. eexists. eexists. split; [reflexivity|]. lia.
Qed.

End CoveragePath.

(* ================================================================= *)
(** * utils.ts: [decodeHexString] *)

Module HexString.
Import Utils.

Local Open Scope string_scope.

(** The decimal digits of a number that is not negative, the last ones
    first into [acc]. *)
Fixpoint digits_of (fuel : nat) (n : Z) (acc : string) : string :=
  match fuel with
  | O => acc
  | S fuel' =>
      let acc' := String (ascii_of_nat (48 + Z.to_nat (n mod 10))) acc in
      if Z.eqb (n / 10) 0 then acc' else digits_of fuel' (n / 10) acc'
  end.

(** [String(n)] for an integer (below [10 ^ 21] in absolute value, where
    the source begins to write an exponent). *)
Definition number_toString (n : Z) : string :=
  if Z.ltb n 0 then String "-" (digits_of (Z.to_nat (- n)) (- n) "")
  else digits_of (S (Z.to_nat n)) n "".

Definition is_digit (c : ascii) : bool :=
  let n := nat_of_ascii c in ((48 <=? n) && (n <=? 57))%nat.

(** The value of a string of decimal digits; [None] when it is empty or
    holds something else. *)
Fixpoint digits_value (s : string) (acc : option Z) : option Z :=
  match s with
  | EmptyString => acc
  | String c r =>
      if is_digit c
      then digits_value r
             (Some (10 * match acc with Some a => a | None => 0 end
                    + (Z.of_nat (nat_of_ascii c) - 48)))
      else None
  end.

(** [Number(s)] on what [split] hands over here, the pieces of the string
    of an array of integers: the empty string is 0, digits after an optional
    sign are their value; [None] is [NaN]. *)
Definition Number (s : string) : option Z :=
  match s with
  | EmptyString => Some 0
  | String "-" r =>
      match digits_value r None with Some v => Some (- v) | None => None end
  | String "+" r => digits_value r None
  | _ => digits_value s None
  end.

(** [String.fromCharCode(x)]: the code unit [x mod 2 ^ 16], 0 for [NaN];
    as a character of this development it is a code unit below 256. *)
Definition fromCharCode (x : option Z) : ascii :=
  match x with
  | Some n => ascii_of_nat (Z.to_nat (n mod 65536))
  | None => zero
  end.

(** [s.replace(/c/g, "")] for a character [c]. *)
Fixpoint remove_all (c : ascii) (s : string) : string :=
  match s with
  | EmptyString => EmptyString
  | String x r => if Ascii.eqb x c then remove_all c r else String x (remove_all c r)
  end.

Definition decodeHexString (s : list Z) : string :=
  let hex := JS.split "," (JS.join "," (map number_toString s)) in
  let str := map (fun h => String (fromCharCode (Number h)) "") hex in
  remove_all "," (JS.join "," str).

End HexString.

(* ================================================================= *)
(** * Further properties: strings and bytes *)

Module CoverageHex.
Import Utils HexString WordFacts.

Local Open Scope string_scope.

Definition read_back (n : Z) : bool :=
  free "," (number_toString n)
  && match Number (number_toString n) with
     | Some m => Z.eqb m n
     | None => false
     end.

Lemma bytes_read_back : forallb read_back (range 256) = true.
Proof. vm_compute. reflexivity. Qed.

Lemma byte_read_back n :
  byte n ->
  free "," (number_toString n) = true
  /\ Number (number_toString n) = Some n.
Proof.
  intros Hn. pose proof bytes_read_back as H. rewrite forallb_forall in H.
  specialize (H n (proj2 (ShamirFacts.range_In 256 n) Hn)).
  unfold read_back in H. apply andb_true_iff in H as [H1 H2].
  split; [exact H1|].
  destruct (Number (number_toString n)) as [m|]; [|discriminate H2].
  apply Z.eqb_eq in H2. now subst m.
Qed.

Definition unit_of (b : Z) : ascii := ascii_of_nat (Z.to_nat b).

Lemma remove_all_join (cs : list ascii) :
  remove_all "," (JS.join "," (map (fun c => String c "") cs))
  = string_of_list_ascii (filter (fun c => negb (Ascii.eqb c ",")) cs).
Proof.
  induction cs as [|c cs IH]; [reflexivity|].
  destruct cs as [|c' cs].
  - cbn. now destruct (Ascii.eqb c ",").
  - change (JS.join "," (map (fun c => String c "") (c :: c' :: cs)))
      with (String c (String "," (JS.join "," (map (fun c => String c "")
                                                    (c' :: cs))))).
    cbn [remove_all]. rewrite Ascii.eqb_refl, IH. cbn [filter].
    now destruct (Ascii.eqb c ",").
Qed.

(** What [decodeHexString] returns for bytes: their characters without
    the commas. *)
Lemma decodeHexString_bytes bs :
  bytes bs -> bs <> [] ->
  decodeHexString bs
  = string_of_list_ascii
      (filter (fun c => negb (Ascii.eqb c ",")) (map unit_of bs)).
Proof.
  intros Hb Hne. unfold decodeHexString. cbv zeta.
  rewrite (split_join "," (map number_toString bs)).
  - rewrite map_map.
    replace (map (fun x => String (fromCharCode (Number (number_toString x))) "")
                 bs)
      with (map (fun c => String c "") (map unit_of bs)).
    + apply remove_all_join.
    + rewrite map_map. apply map_ext_in. intros b Hin.
      pose proof (proj1 (Forall_forall _ _) Hb b Hin) as Hbb.
      destruct (byte_read_back b Hbb) as [_ ->]. unfold fromCharCode, unit_of.
      rewrite Z.mod_small by (unfold byte in Hbb; lia). reflexivity.
  - destruct bs; [now elim Hne|discriminate].
  - apply Forall_forall. intros w Hin. apply in_map_iff in Hin as (b & <- & Hin).
    apply byte_read_back. exact (proj1 (Forall_forall _ _) Hb b Hin).
Qed.

Lemma code_units_bytes s : bytes (code_units s).
Proof.
  induction s as [|c s IH]; constructor; [|exact IH].
  unfold byte. pose proof (nat_ascii_bounded c). lia.
Qed.

Lemma units_of_code_units s :
  map unit_of (code_units s) = list_ascii_of_string s.
Proof.
  induction s as [|c s IH]; [reflexivity|].
  cbn [code_units map list_ascii_of_string]. rewrite IH. f_equal.
  unfold unit_of. rewrite Nat2Z.id. apply ascii_nat_embedding.
Qed.

Lemma remove_all_filter c s :
  string_of_list_ascii
    (filter (fun x => negb (Ascii.eqb x c)) (list_ascii_of_string s))
  = remove_all c s.
Proof.
  induction s as [|x s IH]; [reflexivity|].
  cbn [list_ascii_of_string filter remove_all].
  destruct (Ascii.eqb x c); cbn [negb]; [exact IH|].
  cbn [string_of_list_ascii]. now rewrite IH.
Qed.

Lemma remove_all_free c s : free c s = true -> remove_all c s = s.
Proof.
  induction s as [|x s IH]; [reflexivity|]. cbn [free remove_all].
  intros H. apply andb_true_iff in H as [Hx Hs].
  apply negb_true_iff in Hx. rewrite Hx. now rewrite IH.
Qed.

(** [decodeHexString] against [encodeHexString]: the string comes back
    without its commas, so unchanged when it has none; and the empty
    string, like the empty array, comes back as one NUL character. *)
Theorem decodeHexString_encodeHexString :
  forall s : string,
    (s <> "" -> decodeHexString (encodeHexString s) = remove_all "," s)
    /\ (s <> "" -> free "," s = true ->
        decodeHexString (encodeHexString s) = s)
    /\ decodeHexString (encodeHexString "") = String zero ""
    /\ decodeHexString [] = String zero "".
Proof.
  intros s.
  assert (R : s <> "" -> decodeHexString (encodeHexString s) = remove_all "," s).
  { intros Hne. unfold encodeHexString.
    rewrite decodeHexString_bytes.
    - rewrite units_of_code_units. apply remove_all_filter.
    - apply code_units_bytes.
    - destruct s; [now elim Hne|discriminate]. }
  split; [exact R|]. split; [|split; reflexivity].
  intros Hne Hf. rewrite R by exact Hne. now apply remove_all_free.
Qed.

(** The other way round: the bytes come back from their string when none
    of them is 44, the code of the comma; a byte 44 is lost. *)
Theorem encodeHexString_decodeHexString :
  forall bs : list Z,
    bytes bs -> bs <> [] ->
    encodeHexString (decodeHexString bs) = filter (fun b => negb (Z.eqb b 44)) bs.
Proof.
  intros bs Hb Hne. rewrite decodeHexString_bytes by assumption.
  unfold encodeHexString. clear Hne.
  induction Hb as [|b bs Hb0 Hb IH]; [reflexivity|].
  cbn [map filter].
  assert (E : Ascii.eqb (unit_of b) "," = Z.eqb b 44).
  { unfold unit_of. destruct (Z.eqb_spec b 44) as [->|Hn]; [reflexivity|].
    apply Ascii.eqb_neq. intros E. apply Hn.
    apply (f_equal nat_of_ascii) in E.
    rewrite nat_ascii_embedding in E by (unfold byte in Hb0; lia).
    change (nat_of_ascii ",") with 44%nat in E. lia. }
  rewrite E. destruct (Z.eqb b 44); cbn [negb]; [exact IH|].
  cbn [string_of_list_ascii code_units]. rewrite IH. f_equal.
  unfold unit_of. rewrite nat_ascii_embedding by (unfold byte in Hb0; lia).
  unfold byte in Hb0. lia.
Qed.

Lemma encodeHexString_decodeHexString_witness :
  encodeHexString (decodeHexString [72; 44; 105])
  = filter (fun b => negb (Z.eqb b 44)) [72; 44; 105].
Proof.
  apply (encodeHexString_decodeHexString [72; 44; 105]).
  - apply ValidFacts.bytesb_bytes. reflexivity.
  - discriminate.
Defined.

End CoverageHex.
